(** * Vespera scanning core: a shallow embedding and its properties

    The development follows the Go sources of the scanner:
    - [internal/handler/common.go]        (bytecode-only predicate)
    - [internal/ai/parser]                (severity normaliser, JSON object scanner)
    - [internal/config]                   (explorer key rotator)
    - [internal/ai/ai_manager.go]         (adaptive rate and concurrency limits)
    - [internal/astparser]                (call graph, traversals, pruning)
    - [internal/handler/mode1_targeted.go], [mode2_fuzzy.go] (the two pipelines)
    - [internal/solc/flatten.go]          (pragma clean-up after flattening)

    Go strings are byte sequences; they are modelled as lists of [ascii]
    (one [ascii] per byte).  Go [int] and [time.Duration] values are
    modelled in [Z], with [wrap64] where a result may leave 64 bits. *)

From Stdlib Require Import ZArith Lia Ascii String List Bool Floats Uint63 DecimalString Permutation.
From stdpp Require Import base option list gmap strings.

Open Scope Z_scope.

(** ** Go strings *)

Definition gostring := list ascii.

(** A Go string literal, given by its bytes (UTF-8 for non-ASCII text). *)
Definition lit (s : string) : gostring := list_ascii_of_string s.

(** The value of a Go [int] (64 bits) after an operation whose exact
    result is [z]: the result wraps around. *)
Definition wrap64 (z : Z) : Z := (z + 2 ^ 63) mod 2 ^ 64 - 2 ^ 63.

(** [s[i]] as an unsigned byte value. *)
Definition byteZ (c : ascii) : Z := Z.of_N (N_of_ascii c).

Module utf8.

(** [unicode/utf8]: decoding of one rune at the head of a string. *)

Definition RuneError : Z := 65533.
Definition RuneSelf : Z := 128.
Definition UTFMax : nat := 4.

Definition locb : Z := 128.
Definition hicb : Z := 191.

(** Entry of the [first] table: [None] is [xx] (invalid lead byte),
    otherwise the sequence size and the accepted range of the second
    byte.  ASCII bytes are handled before the table is consulted. *)
Definition first (b : Z) : option (nat * (Z * Z)) :=
  if b <? 194 then None                                  (* 0x80..0xC1 *)
  else if b <=? 223 then Some (2%nat, (locb, hicb))      (* s1 *)
  else if b =? 224 then Some (3%nat, (160, hicb))        (* s2 *)
  else if b <=? 236 then Some (3%nat, (locb, hicb))      (* s3 *)
  else if b =? 237 then Some (3%nat, (locb, 159))        (* s4 *)
  else if b <=? 239 then Some (3%nat, (locb, hicb))      (* s3 *)
  else if b =? 240 then Some (4%nat, (144, hicb))        (* s5 *)
  else if b <=? 243 then Some (4%nat, (locb, hicb))      (* s6 *)
  else if b =? 244 then Some (4%nat, (locb, 143))        (* s7 *)
  else None.

Definition cont (b : Z) : bool := (locb <=? b) && (b <=? hicb).

(** [utf8.DecodeRuneInString]: the rune and its width in bytes. *)
Definition DecodeRuneInString (s : gostring) : Z * nat :=
  match s with
  | [] => (RuneError, 0%nat)
  | c0 :: t =>
    let s0 := byteZ c0 in
    if s0 <? RuneSelf then (s0, 1%nat)
    else
      match first s0 with
      | None => (RuneError, 1%nat)
      | Some (sz, (lo, hi)) =>
        if (length s <? sz)%nat then (RuneError, 1%nat)
        else
          match t with
          | [] => (RuneError, 1%nat)
          | c1 :: t1 =>
            let s1 := byteZ c1 in
            if (s1 <? lo) || (hi <? s1) then (RuneError, 1%nat)
            else if (sz <=? 2)%nat then
              (Z.lor (Z.shiftl (Z.land s0 31) 6) (Z.land s1 63), 2%nat)
            else
              match t1 with
              | [] => (RuneError, 1%nat)
              | c2 :: t2 =>
                let s2 := byteZ c2 in
                if negb (cont s2) then (RuneError, 1%nat)
                else if (sz <=? 3)%nat then
                  (Z.lor (Z.lor (Z.shiftl (Z.land s0 15) 12)
                                (Z.shiftl (Z.land s1 63) 6))
                         (Z.land s2 63), 3%nat)
                else
                  match t2 with
                  | [] => (RuneError, 1%nat)
                  | c3 :: _ =>
                    let s3 := byteZ c3 in
                    if negb (cont s3) then (RuneError, 1%nat)
                    else
                      (Z.lor (Z.lor (Z.lor (Z.shiftl (Z.land s0 7) 18)
                                           (Z.shiftl (Z.land s1 63) 12))
                                    (Z.shiftl (Z.land s2 63) 6))
                             (Z.land s3 63), 4%nat)
                  end
              end
          end
      end
  end.

(** [utf8.RuneStart]: the byte is not a continuation byte. *)
Definition RuneStart (b : Z) : bool := negb (Z.land b 192 =? 128).

(** The backwards search of [DecodeLastRuneInString]:
    [for start--; start >= lim; start-- { if RuneStart(s[start]) break }]. *)
Fixpoint lastStart (s : gostring) (start : Z) (lim : Z) (steps : nat) : Z :=
  match steps with
  | O => start
  | S k =>
    if start <? lim then start
    else if RuneStart (byteZ (nth (Z.to_nat start) s "000"%char)) then start
    else lastStart s (start - 1) lim k
  end.

(** [utf8.DecodeLastRuneInString]. *)
Definition DecodeLastRuneInString (s : gostring) : Z * nat :=
  let end_ := Z.of_nat (length s) in
  if end_ =? 0 then (RuneError, 0%nat)
  else
    let r := byteZ (nth (Z.to_nat (end_ - 1)) s "000"%char) in
    if r <? RuneSelf then (r, 1%nat)
    else
      let lim := Z.max 0 (end_ - Z.of_nat UTFMax) in
      let start := Z.max 0 (lastStart s (end_ - 2) lim UTFMax) in
      let '(r', size) := DecodeRuneInString (drop (Z.to_nat start) s) in
      if start + Z.of_nat size =? end_ then (r', size) else (RuneError, 1%nat).

End utf8.

Module unicode.

(** [unicode.IsSpace]: the Latin-1 space characters and the code points
    with the White_Space property. *)
Definition IsSpace (r : Z) : bool :=
  if r <=? 255 then
    ((9 <=? r) && (r <=? 13)) || (r =? 32) || (r =? 133) || (r =? 160)
  else
    (r =? 5760) || ((8192 <=? r) && (r <=? 8202)) || (r =? 8232)
    || (r =? 8233) || (r =? 8239) || (r =? 8287) || (r =? 12288).

End unicode.

Module strings.

(** The [asciiSpace] table of package [strings]. *)
Definition asciiSpace (b : Z) : bool :=
  (b =? 9) || (b =? 10) || (b =? 11) || (b =? 12) || (b =? 13) || (b =? 32).

(** [strings.HasPrefix]. *)
Fixpoint HasPrefix (s p : gostring) : bool :=
  match p, s with
  | [], _ => true
  | _ :: _, [] => false
  | a :: p', b :: s' => Ascii.eqb a b && HasPrefix s' p'
  end.

(** [strings.TrimLeftFunc(s, unicode.IsSpace)]: drop leading runes
    while they are spaces.  [fuel] bounds the number of runes. *)
Fixpoint trimLeftSpace (fuel : nat) (s : gostring) : gostring :=
  match fuel with
  | O => s
  | S k =>
    match s with
    | [] => []
    | _ :: _ =>
      let '(r, w) := utf8.DecodeRuneInString s in
      if unicode.IsSpace r then trimLeftSpace k (drop w s) else s
    end
  end.

(** [strings.TrimRightFunc(s, unicode.IsSpace)]: drop trailing runes
    while they are spaces. *)
Fixpoint trimRightSpace (fuel : nat) (s : gostring) : gostring :=
  match fuel with
  | O => s
  | S k =>
    match s with
    | [] => []
    | _ :: _ =>
      let '(r, w) := utf8.DecodeLastRuneInString s in
      if unicode.IsSpace r then trimRightSpace k (take (length s - w) s) else s
    end
  end.

Definition TrimLeftFuncSpace (s : gostring) : gostring := trimLeftSpace (length s) s.
Definition TrimRightFuncSpace (s : gostring) : gostring := trimRightSpace (length s) s.
Definition TrimFuncSpace (s : gostring) : gostring :=
  TrimRightFuncSpace (TrimLeftFuncSpace s).

(** Second loop of [strings.TrimSpace], run on the reversed remainder:
    ASCII spaces are dropped from the end; a non-ASCII byte hands the
    rest over to [TrimRightFunc]. *)
Fixpoint trimSpaceStop (rs : list ascii) : gostring :=
  match rs with
  | [] => []
  | c :: rs' =>
    if utf8.RuneSelf <=? byteZ c then TrimRightFuncSpace (rev rs)
    else if asciiSpace (byteZ c) then trimSpaceStop rs'
    else rev rs
  end.

(** [strings.TrimSpace]: ASCII fast path from the front, then from the
    end, with the Unicode-aware fall-backs of the library. *)
Fixpoint TrimSpace (s : gostring) : gostring :=
  match s with
  | [] => []
  | c :: s' =>
    if utf8.RuneSelf <=? byteZ c then TrimFuncSpace s
    else if asciiSpace (byteZ c) then TrimSpace s'
    else trimSpaceStop (rev s)
  end.

(** [strings.ToLower].  On ASCII-only input the library lowers the
    bytes ['A'..'Z'] itself; any other input goes through
    [strings.Map(unicode.ToLower, s)], which is driven by the Unicode
    case tables of the library and is taken here as [MapToLower]. *)
Section ToLower.

Variable MapToLower : gostring -> gostring.

Definition isUpperByte (c : ascii) : bool :=
  (65 <=? byteZ c) && (byteZ c <=? 90).

Definition lowerByte (c : ascii) : ascii :=
  if isUpperByte c then ascii_of_N (N_of_ascii c + 32) else c.

Definition ToLower (s : gostring) : gostring :=
  let isASCII := forallb (fun c => byteZ c <? utf8.RuneSelf) s in
  let hasUpper := existsb isUpperByte s in
  if isASCII then
    if negb hasUpper then s else map lowerByte s
  else MapToLower s.

End ToLower.

(** [strings.Contains]. *)
Fixpoint Contains (s substr : gostring) : bool :=
  HasPrefix s substr ||
  match s with
  | [] => false
  | _ :: s' => Contains s' substr
  end.

(** [strings.IndexByte]: the index of the first byte [c] of [s], if any. *)
Fixpoint IndexByte (s : gostring) (c : ascii) : option nat :=
  match s with
  | [] => None
  | b :: s' => if Ascii.eqb b c then Some 0%nat else option_map S (IndexByte s' c)
  end.

(** [strings.Split(s, sep)] for a one-byte separator. *)
Fixpoint splitByte (sep : ascii) (s : gostring) (cur : gostring) : list gostring :=
  match s with
  | [] => [rev cur]
  | c :: s' =>
    if Ascii.eqb c sep then rev cur :: splitByte sep s' []
    else splitByte sep s' (c :: cur)
  end.

Definition Split (s : gostring) (sep : ascii) : list gostring := splitByte sep s [].

(** [strings.Join]. *)
Fixpoint Join (elems : list gostring) (sep : gostring) : gostring :=
  match elems with
  | [] => []
  | [e] => e
  | e :: rest => e ++ sep ++ Join rest sep
  end.

End strings.

(** The Go slice expression [s[lo:hi]]. *)
Definition slice (s : gostring) (lo hi : nat) : gostring := take (hi - lo) (drop lo s).

(** ** [internal/handler/common.go] *)

(** The runes produced by [for _, c := range s]. *)
Fixpoint rangeRunes (fuel : nat) (s : gostring) : list Z :=
  match fuel with
  | O => []
  | S k =>
    match s with
    | [] => []
    | _ :: _ =>
      let '(r, w) := utf8.DecodeRuneInString s in
      r :: rangeRunes k (drop w s)
    end
  end.

Definition isHexRune (c : Z) : bool :=
  ((48 <=? c) && (c <=? 57)) || ((97 <=? c) && (c <=? 102))
  || ((65 <=? c) && (c <=? 70)).

(** [isOnlyBytecode]. *)
Definition isOnlyBytecode (code : gostring) : bool :=
  let code := strings.TrimSpace code in
  if (length code <? 10)%nat then true
  else if negb (strings.HasPrefix code (lit "0x")) then false
  else forallb isHexRune (rangeRunes (length (drop 2 code)) (drop 2 code)).

(** A byte that is a hexadecimal digit. *)
Definition hexDigit (c : ascii) : Prop :=
  (48 <= byteZ c <= 57) \/ (97 <= byteZ c <= 102) \/ (65 <= byteZ c <= 70).


(** ** [internal/ai/parser]: normalisation of model answers *)

Definition oneOf (x : gostring) (cases : list string) : bool :=
  existsb (fun y => bool_decide (x = lit y)) cases.

Section Normalize.

Variable MapToLower : gostring -> gostring.

(** [normalizeSeverity]. *)
Definition normalizeSeverity (severity : gostring) : gostring :=
  let s := strings.TrimSpace severity in
  if bool_decide (s = []) then lit "Unknown"
  else
    let lower := strings.ToLower MapToLower s in
    if oneOf lower ["none"; "null"; "nil"] then lit "None"
    else if oneOf lower ["safe"; "secure"; "healthy"; "安全"] then lit "None"
    else if oneOf lower ["low"; "l"; "低"] then lit "Low"
    else if oneOf lower ["medium"; "med"; "m"; "中"] then lit "Medium"
    else if oneOf lower ["high"; "h"; "高"] then lit "High"
    else if oneOf lower ["critical"; "crit"; "c"; "严重"] then lit "Critical"
    else if oneOf s ["Low"; "Medium"; "High"; "Critical"; "None"] then s
    else lit "Unknown".

End Normalize.

(** The canonical severities. *)
Definition severities : list gostring :=
  [lit "Critical"; lit "High"; lit "Medium"; lit "Low"; lit "None"; lit "Unknown"].

(** Loop state of [extractFirstJSONObject]. *)
Record scanState := mkScan {
  sc_start : Z;
  sc_depth : Z;
  sc_inString : bool;
  sc_escape : bool
}.

(** The byte literals the scanner compares with. *)
Definition ch_quote : ascii := "034"%char.
Definition ch_backslash : ascii := "\"%char.
Definition ch_lbrace : ascii := "{"%char.
Definition ch_rbrace : ascii := "}"%char.

(** The loop [for i := 0; i < len(s); i++] of [extractFirstJSONObject],
    from index [i] on, [rest] being [s[i:]].  [Some (start, i)] is the
    early [return s[start : i+1], true]; [None] is falling out of the
    loop. *)
Fixpoint scanJSON (rest : gostring) (i : Z) (st : scanState) : option (Z * Z) :=
  match rest with
  | [] => None
  | ch :: rest' =>
    let next := scanJSON rest' (i + 1) in
    if sc_inString st then
      if sc_escape st then
        next (mkScan (sc_start st) (sc_depth st) true false)
      else if Ascii.eqb ch ch_backslash then
        next (mkScan (sc_start st) (sc_depth st) true true)
      else if Ascii.eqb ch ch_quote then
        next (mkScan (sc_start st) (sc_depth st) false (sc_escape st))
      else next st
    else if Ascii.eqb ch ch_quote then
      next (mkScan (sc_start st) (sc_depth st) true (sc_escape st))
    else if Ascii.eqb ch ch_lbrace then
      let start := if sc_depth st =? 0 then i else sc_start st in
      next (mkScan start (sc_depth st + 1) (sc_inString st) (sc_escape st))
    else if Ascii.eqb ch ch_rbrace then
      if sc_depth st =? 0 then next st
      else
        let depth := sc_depth st - 1 in
        if (depth =? 0) && negb (sc_start st =? -1)
        then Some (sc_start st, i)
        else next (mkScan (sc_start st) depth (sc_inString st) (sc_escape st))
    else next st
  end.

(** [extractFirstJSONObject]. *)
Definition extractFirstJSONObject (s : gostring) : gostring * bool :=
  match scanJSON s 0 (mkScan (-1) 0 false false) with
  | Some (start, i) => (slice s (Z.to_nat start) (Z.to_nat (i + 1)), true)
  | None => ([], false)
  end.

(** *** What the scanner is meant to find

    The bytes of a string are classified by a string-literal aware
    lexer: an opening brace or a closing brace outside any double-quoted
    literal, or anything else (bytes of a literal included, where a
    backslash protects the byte after it). *)
Inductive tok := TOpen | TClose | TOther.

Fixpoint lexJSON (inString escape : bool) (s : gostring) : list tok :=
  match s with
  | [] => []
  | ch :: s' =>
    if inString then
      if escape then TOther :: lexJSON true false s'
      else if Ascii.eqb ch ch_backslash then TOther :: lexJSON true true s'
      else if Ascii.eqb ch ch_quote then TOther :: lexJSON false false s'
      else TOther :: lexJSON true false s'
    else if Ascii.eqb ch ch_quote then TOther :: lexJSON true false s'
    else if Ascii.eqb ch ch_lbrace then TOpen :: lexJSON false false s'
    else if Ascii.eqb ch ch_rbrace then TClose :: lexJSON false false s'
    else TOther :: lexJSON false false s'
  end.

(** Token sequences with properly nested braces. *)
Inductive balanced : list tok -> Prop :=
| bal_nil : balanced []
| bal_other l : balanced l -> balanced (TOther :: l)
| bal_nest a b : balanced a -> balanced b -> balanced (TOpen :: a ++ TClose :: b).

(** The first brace-delimited object of [s]: it starts at byte [i] with
    the first opening brace outside a literal and spans [n] bytes, up to
    the closing brace matching it. *)
Definition FirstObject (s : gostring) (i n : nat) : Prop :=
  exists tpre tin tpost,
    lexJSON false false s = tpre ++ TOpen :: tin ++ TClose :: tpost
    /\ (TOpen ∉ tpre)
    /\ balanced tin
    /\ i = length tpre
    /\ n = (length tin + 2)%nat.

(** The alias table of the normaliser: lower-case spelling and the
    canonical severity it stands for. *)
Definition severityAliases : list (string * string) :=
  [ ("none", "None"); ("null", "None"); ("nil", "None");
    ("safe", "None"); ("secure", "None"); ("healthy", "None"); ("安全", "None");
    ("low", "Low"); ("l", "Low"); ("低", "Low");
    ("medium", "Medium"); ("med", "Medium"); ("m", "Medium"); ("中", "Medium");
    ("high", "High"); ("h", "High"); ("高", "High");
    ("critical", "Critical"); ("crit", "Critical"); ("c", "Critical");
    ("严重", "Critical") ].


(** *** Auxiliary notions for the scanner proofs *)

(** The brace counting of the scanner, on tokens. *)
Fixpoint tscan (toks : list tok) (i start depth : Z) : option (Z * Z) :=
  match toks with
  | [] => None
  | TOther :: toks' => tscan toks' (i + 1) start depth
  | TOpen :: toks' =>
    tscan toks' (i + 1) (if depth =? 0 then i else start) (depth + 1)
  | TClose :: toks' =>
    if depth =? 0 then tscan toks' (i + 1) start depth
    else if (depth - 1 =? 0) && negb (start =? -1) then Some (start, i)
    else tscan toks' (i + 1) start (depth - 1)
  end.


(** From depth [d] on, a stretch that closes [d] braces and ends with
    the brace that brings the depth to zero. *)
Inductive unwinds : nat -> list tok -> Prop :=
| unw_last b : balanced b -> unwinds 1 (b ++ [TClose])
| unw_more d b l :
    balanced b -> unwinds (S d) l -> unwinds (S (S d)) (b ++ TClose :: l).


(** A sample answer: a stray closing brace, a literal holding a brace,
    then an object whose key holds an escaped quote and a brace. *)
Definition sampleAnswer : gostring :=
  lit "} " ++ [ch_quote] ++ lit "{" ++ [ch_quote] ++ lit " {" ++ [ch_quote]
  ++ lit "a\" ++ [ch_quote] ++ lit "}" ++ [ch_quote] ++ lit ":{}} tail".

(** ** [internal/config]: the explorer key rotator *)

Record APIKeyManager := mkAPIKeyManager {
  apiKeys : list gostring;
  current : Z
}.

(** The filtering loop of [NewAPIKeyManager]:
    every key other than the empty string is appended to [validKeys]. *)
Definition collectValidKeys (keys : list gostring) : list gostring :=
  fold_left (fun validKeys key =>
               if bool_decide (key <> []) then validKeys ++ [key] else validKeys)
            keys [].

(** [NewAPIKeyManager].  [intn] stands for [rng.Intn], the draw of the
    random start index; [None] is the nil manager. *)
Definition NewAPIKeyManager (intn : Z -> Z) (keys : list gostring)
    (fallbackKey : gostring) : option APIKeyManager :=
  let validKeys := collectValidKeys keys in
  let validKeys :=
    if bool_decide (length validKeys = 0%nat) && bool_decide (fallbackKey <> [])
    then validKeys ++ [fallbackKey] else validKeys in
  if bool_decide (length validKeys = 0%nat) then None
  else Some (mkAPIKeyManager validKeys (intn (Z.of_nat (length validKeys)))).

Definition keyAt (m : APIKeyManager) (i : Z) : gostring :=
  nth (Z.to_nat i) (apiKeys m) [].

(** [GetKey]. *)
Definition GetKey (m : option APIKeyManager) : gostring :=
  match m with
  | None => []
  | Some m => if bool_decide (length (apiKeys m) = 0%nat) then [] else keyAt m (current m)
  end.

(** [GetNextKey]: the key and the manager after the index moved on. *)
Definition GetNextKey (m : option APIKeyManager) : gostring * option APIKeyManager :=
  match m with
  | None => ([], None)
  | Some m =>
    if bool_decide (length (apiKeys m) = 0%nat) then ([], Some m)
    else
      let cur := Z.rem (current m + 1) (Z.of_nat (length (apiKeys m))) in
      let m' := mkAPIKeyManager (apiKeys m) cur in
      (keyAt m' cur, Some m')
  end.

(** [GetRandomKey], [intn] again being the draw of the generator. *)
Definition GetRandomKey (intn : Z -> Z) (m : option APIKeyManager) : gostring :=
  match m with
  | None => []
  | Some m =>
    if bool_decide (length (apiKeys m) = 0%nat) then []
    else keyAt m (intn (Z.of_nat (length (apiKeys m))))
  end.

(** [GetKeyCount] and [HasKeys]. *)
Definition GetKeyCount (m : option APIKeyManager) : Z :=
  match m with
  | None => 0
  | Some m => Z.of_nat (length (apiKeys m))
  end.

Definition HasKeys (m : option APIKeyManager) : bool :=
  match m with
  | None => false
  | Some m => (0 <? Z.of_nat (length (apiKeys m)))
  end.

(** ** [internal/ai/ai_manager.go]: adaptive limits *)

(** [time.Duration] counts nanoseconds in an [int64]. *)
Definition Second : Z := 1000000000.
Definition Minute : Z := 60 * Second.

Record rateLimiter := mkRateLimiter {
  rl_interval : Z;
  rl_last : Z;
  rl_closed : bool
}.

Record concurrencyLimiter := mkConcurrencyLimiter {
  cl_inflight : Z;
  cl_max : Z
}.

(** The fields of [Manager] that take part in pacing. *)
Record Manager := mkManager {
  rateLimit : option rateLimiter;
  timeout : Z;
  limiter : option concurrencyLimiter;
  baseInterval : Z;
  baseConcurrency : Z;
  latencyEWMA : Z
}.

Definition minInt (a b : Z) : Z := if a <? b then a else b.
Definition maxInt (a b : Z) : Z := if b <? a then a else b.

(** [newRateLimiter]. *)
Definition newRateLimiter (requestsPerMinute : Z) : rateLimiter :=
  let requestsPerMinute := if requestsPerMinute <=? 0 then 1 else requestsPerMinute in
  mkRateLimiter (Z.quot Minute requestsPerMinute) 0 false.

(** [rateLimiter.UpdateInterval]. *)
Definition UpdateInterval (rl : option rateLimiter) (interval : Z) : option rateLimiter :=
  match rl with
  | None => None
  | Some r =>
    if interval <=? 0 then Some r
    else Some (mkRateLimiter interval (rl_last r) (rl_closed r))
  end.

(** [newConcurrencyLimiter]. *)
Definition newConcurrencyLimiter (max : Z) : concurrencyLimiter :=
  let max := if max <=? 0 then 1 else max in
  mkConcurrencyLimiter 0 max.

(** [concurrencyLimiter.UpdateMax]. *)
Definition UpdateMax (l : concurrencyLimiter) (max : Z) : concurrencyLimiter :=
  let max := if max <=? 0 then 1 else max in
  mkConcurrencyLimiter (cl_inflight l) max.

(** The pacing part of [NewManager], for [keyCount] credentials. *)
Definition NewManager (keyCount requestsPerMin timeout : Z) : Manager :=
  let cfgRequestsPerMin := if requestsPerMin <=? 0 then 20 else requestsPerMin in
  let cfgTimeout := if timeout =? 0 then 60 * Second else timeout in
  let requestsPerMin :=
    if 1 <? keyCount then wrap64 (cfgRequestsPerMin * keyCount)
    else cfgRequestsPerMin in
  let baseInterval := Z.quot Minute (maxInt 1 requestsPerMin) in
  let baseConcurrency :=
    maxInt 1 (minInt 32 (maxInt (wrap64 (keyCount * 2))
                                (Z.quot cfgRequestsPerMin 30))) in
  mkManager (Some (newRateLimiter requestsPerMin)) cfgTimeout
            (Some (newConcurrencyLimiter baseConcurrency))
            baseInterval baseConcurrency 0.

(** The conversion [float64(d)] of a duration (round to nearest even). *)
Definition float64_of_int64 (x : Z) : float :=
  if x <? 0 then PrimFloat.opp (PrimFloat.of_uint63 (Uint63.of_Z (- x)))
  else PrimFloat.of_uint63 (Uint63.of_Z x).

(** The conversion [time.Duration(f)]: the fraction is discarded; a value
    outside [int64] gives the smallest [int64], as on amd64. *)
Definition int64_of_float64 (f : float) : Z :=
  match Prim2SF f with
  | S754_zero _ => 0
  | S754_finite s m e =>
    let v := if 0 <=? e then Z.shiftl (Zpos m) e else Z.shiftr (Zpos m) (- e) in
    let r := if s then - v else v in
    if (- 2 ^ 63 <=? r) && (r <? 2 ^ 63) then r else - 2 ^ 63
  | _ => - 2 ^ 63
  end.

(** [time.Duration(float64(m.latencyEWMA)*0.8 + float64(duration)*0.2)],
    in binary64 arithmetic, each operation rounded on its own. *)
#[warnings="-inexact-float"]
Definition ewmaBlend (ewma duration : Z) : Z :=
  int64_of_float64
    (PrimFloat.add (PrimFloat.mul (float64_of_int64 ewma) 0.8%float)
                   (PrimFloat.mul (float64_of_int64 duration) 0.2%float)).

(** [Manager.adjustLimits]. *)
Definition adjustLimits (m : Manager) (duration : Z) : Manager :=
  let ewma :=
    if latencyEWMA m =? 0 then duration
    else ewmaBlend (latencyEWMA m) duration in
  let targetInterval := baseInterval m in
  let targetConcurrency := baseConcurrency m in
  let '(targetInterval, targetConcurrency) :=
    if 25 * Second <? ewma then
      let targetInterval := Z.quot ewma 2 in
      let targetInterval :=
        if targetInterval <? baseInterval m then baseInterval m else targetInterval in
      (targetInterval, maxInt 1 (Z.quot (baseConcurrency m) 2))
    else (targetInterval, targetConcurrency) in
  let targetConcurrency :=
    if 40 * Second <? ewma then 1 else targetConcurrency in
  mkManager
    (UpdateInterval (rateLimit m) targetInterval)
    (timeout m)
    (match limiter m with
     | Some l => Some (UpdateMax l targetConcurrency)
     | None => None
     end)
    (baseInterval m) (baseConcurrency m) ewma.

(** ** [strconv] and [fmt] helpers *)

Module strconv.

Definition isDigit (c : ascii) : bool := (48 <=? byteZ c) && (byteZ c <=? 57).

(** The value of a run of decimal digits, most significant first. *)
Definition digitsValue (s : gostring) : Z :=
  fold_left (fun n ch => n * 10 + (byteZ ch - 48)) s 0.

(** [strconv.Atoi] on a 64-bit platform: the value and whether an error
    is returned.  A syntax error gives 0; a value out of range gives the
    nearest bound of [int64] together with the error. *)
Definition Atoi (s : gostring) : Z * bool :=
  let '(neg, digits) :=
    match s with
    | c :: rest =>
      if Ascii.eqb c "-"%char then (true, rest)
      else if Ascii.eqb c "+"%char then (false, rest)
      else (false, s)
    | [] => (false, s)
    end in
  if bool_decide (digits = []) || negb (forallb isDigit digits) then (0, true)
  else
    let un := digitsValue digits in
    if negb neg && (2 ^ 63 <=? un) then (2 ^ 63 - 1, true)
    else if neg && (2 ^ 63 <? un) then (- 2 ^ 63, true)
    else (if neg then - un else un, false).

(** The verb [%d] of [fmt.Sprintf]. *)
Definition FormatInt (n : Z) : gostring :=
  lit (NilZero.string_of_int (Z.to_int n)).

End strconv.

(** ** [internal/astparser]: the syntax tree and the call graph *)

(** A node of the compiler's syntax tree, with the fields the scanner
    decodes. *)
#[warnings="-register-all"]
Inductive Node : Type := mkNode {
  ID : Z;
  NodeType : gostring;
  Name : gostring;
  Src : gostring;
  BaseContracts : list Node;
  Kind : gostring;
  Body : option Node;
  Implemented : bool;
  Visibility : gostring;
  StateMutability : gostring;
  Modifiers : list Node;
  Expression : option Node;
  ReferencedDeclaration : Z;
  Arguments : list Node;
  Nodes : list Node;
  Statements : list Node
}.

Record ParsedSource := mkParsedSource {
  AST : list Node;
  SourceCode : gostring;
  NodesByID : gmap Z Node
}.

Record FunctionRef := mkFunctionRef {
  ContractName : gostring;
  FunctionName : gostring;
  NodeID : Z
}.

Record CallGraphFull := mkCallGraphFull {
  Callees : gmap Z (list Z);
  Callers : gmap Z (list Z);
  Functions : gmap Z Node;
  FunctionRefs : gmap Z FunctionRef;
  cg_ps : ParsedSource
}.

(** Reading a Go map of slices: a missing key gives the nil slice. *)
Definition idsAt (m : gmap Z (list Z)) (k : Z) : list Z := default [] (m !! k).

(** [GetSourceRange].  The compiler gives offsets and lengths that are
    not negative and small; on a length that is negative, or so large
    that the sum wraps around, the slice expression of the source would
    fail where the checks let it through, and the empty text is
    returned here. *)
Definition GetSourceRange (ps : ParsedSource) (src : gostring) : gostring :=
  match strings.Split src ":"%char with
  | p0 :: p1 :: _ =>
    let '(offset, err1) := strconv.Atoi p0 in
    let '(length_, err2) := strconv.Atoi p1 in
    if err1 || err2 then []
    else
      let n := Z.of_nat (length (SourceCode ps)) in
      let stop := wrap64 (offset + length_) in
      if (offset <? 0) || (n <=? offset) || (n <? stop) then []
      else slice (SourceCode ps) (Z.to_nat offset) (Z.to_nat stop)
  | _ => []
  end.

(** First pass of [BuildCallGraph]: the implemented function definitions
    found directly under contract definitions. *)
Definition collectFunctions (ast : list Node)
    : gmap Z Node * gmap Z FunctionRef :=
  fold_left
    (fun acc node =>
       if bool_decide (NodeType node = lit "ContractDefinition") then
         fold_left
           (fun acc subNode =>
              if bool_decide (NodeType subNode = lit "FunctionDefinition")
                 && Implemented subNode
              then (<[ID subNode := subNode]> (fst acc),
                    <[ID subNode := mkFunctionRef (Name node) (Name subNode) (ID subNode)]>
                      (snd acc))
              else acc)
           (Nodes node) acc
       else acc)
    ast (∅, ∅).

(** The reference check of [extractCalleesRecursive]; the state is the
    slice [callees] and the set [visited]. *)
Definition noteCallee (fns : gmap Z Node) (refID : Z)
    (st : list Z * gset Z) : list Z * gset Z :=
  if bool_decide (refID <> 0) then
    if bool_decide (is_Some (fns !! refID)) then
      if bool_decide (refID ∉ snd st)
      then (fst st ++ [refID], {[refID]} ∪ snd st)
      else st
    else st
  else st.

(** [extractCalleesRecursive]. *)
Fixpoint extractCalleesRecursive (fns : gmap Z Node) (node : Node)
    (st : list Z * gset Z) {struct node} : list Z * gset Z :=
  let st := noteCallee fns (ReferencedDeclaration node) st in
  let st := match Body node with
            | Some b => extractCalleesRecursive fns b st
            | None => st
            end in
  let st := match Expression node with
            | Some e => extractCalleesRecursive fns e st
            | None => st
            end in
  let st := fold_left (fun st n => extractCalleesRecursive fns n st) (Nodes node) st in
  let st := fold_left (fun st n => extractCalleesRecursive fns n st) (Statements node) st in
  let st := fold_left (fun st n => extractCalleesRecursive fns n st) (Arguments node) st in
  fold_left (fun st n => extractCalleesRecursive fns n st) (Modifiers node) st.

(** [extractCallees]. *)
Definition extractCallees (fns : gmap Z Node) (node : Node) : list Z :=
  fst (extractCalleesRecursive fns node ([], ∅)).

(** One round of the second pass of [BuildCallGraph]: the callees of
    [funcID] are recorded and [funcID] is appended to the callers of
    each of them. *)
Definition recordCalls (fns : gmap Z Node)
    (acc : gmap Z (list Z) * gmap Z (list Z)) (entry : Z * Node)
    : gmap Z (list Z) * gmap Z (list Z) :=
  let '(funcID, funcNode) := entry in
  let callees := extractCallees fns funcNode in
  (<[funcID := callees]> (fst acc),
   fold_left (fun callers calleeID =>
                <[calleeID := idsAt callers calleeID ++ [funcID]]> callers)
             callees (snd acc)).

Section MapRange.

(** The order in which a [range] statement visits the entries of a map
    is not fixed by the language: [rangeMap] is that order. *)
Variable rangeMap : forall A : Type, gmap Z A -> list (Z * A).

(** [BuildCallGraph]. *)
Definition BuildCallGraph (ps : ParsedSource) : CallGraphFull :=
  let '(fns, refs) := collectFunctions (AST ps) in
  let '(callees, callers) :=
    fold_left (recordCalls fns) (rangeMap Node fns) (∅, ∅) in
  mkCallGraphFull callees callers fns refs ps.

Definition isEntryPoint (node : Node) : bool :=
  bool_decide (Visibility node = lit "public")
  || bool_decide (Visibility node = lit "external")
  || bool_decide (Kind node = lit "constructor")
  || bool_decide (Kind node = lit "fallback")
  || bool_decide (Kind node = lit "receive").

(** [GetPublicEntryPoints]. *)
Definition GetPublicEntryPoints (cg : CallGraphFull) : list Node :=
  List.filter isEntryPoint (map snd (rangeMap Node (Functions cg))).

(** [getCalleesRecursiveHelper], [remaining] being [maxDepth - depth]:
    the function returns at once when [depth >= maxDepth].  The state is
    the slice [result] and the set [visited]. *)
Fixpoint getCalleesRecursiveHelper (cg : CallGraphFull) (remaining : nat)
    (funcID : Z) (st : list Node * gset Z) : list Node * gset Z :=
  match remaining with
  | O => st
  | S remaining' =>
    fold_left
      (fun st calleeID =>
         if bool_decide (calleeID ∉ snd st) then
           let st := (fst st, {[calleeID]} ∪ snd st) in
           match Functions cg !! calleeID with
           | Some node =>
             getCalleesRecursiveHelper cg remaining' calleeID (fst st ++ [node], snd st)
           | None => st
           end
         else st)
      (idsAt (Callees cg) funcID) st
  end.

(** [GetCalleesRecursive]. *)
Definition GetCalleesRecursive (cg : CallGraphFull) (funcID : Z) (maxDepth : Z)
    : list Node :=
  fst (getCalleesRecursiveHelper cg (Z.to_nat (maxDepth - 0)) funcID ([], ∅)).

(** [GetAllRelatedFunctions]. *)
Definition GetAllRelatedFunctions (cg : CallGraphFull) (maxDepth : Z) : list Node :=
  let uniqueNodes :=
    fold_left
      (fun uniqueNodes entry =>
         fold_left (fun uniqueNodes callee => <[ID callee := callee]> uniqueNodes)
                   (GetCalleesRecursive cg (ID entry) maxDepth) uniqueNodes)
      (GetPublicEntryPoints cg) (∅ : gmap Z Node) in
  map snd (rangeMap Node uniqueNodes).

(** [GetNodeName]. *)
Definition GetNodeName (cg : CallGraphFull) (nodeID : Z) : gostring :=
  match FunctionRefs cg !! nodeID with
  | Some ref => ContractName ref ++ lit "." ++ FunctionName ref
  | None =>
    match Functions cg !! nodeID with
    | Some node => Name node
    | None => lit "Node_" ++ strconv.FormatInt nodeID
    end
  end.

(** The line feed. *)
Definition newline : gostring := ["010"%char].

(** [strings.Repeat]. *)
Fixpoint Repeat (s : gostring) (count : nat) : gostring :=
  match count with
  | O => []
  | S k => s ++ Repeat s k
  end.

(** [printCallTreeRecursive], [remaining] being [maxDepth + 1 - depth]:
    the marker is written when [depth > maxDepth].  The result is the
    text written to the builder; [pathVisited] is restored by every
    call, so it is passed down only. *)
Fixpoint printCallTreeRecursive (cg : CallGraphFull) (remaining : nat)
    (funcID : Z) (depth : nat) (pathVisited : gset Z) : gostring :=
  match remaining with
  | O => Repeat (lit "  ") depth ++ lit "-> ... (max depth)" ++ newline
  | S remaining' =>
    flat_map
      (fun calleeID =>
         let prefix := Repeat (lit "  ") depth in
         let name := GetNodeName cg calleeID in
         if bool_decide (calleeID ∈ pathVisited) then
           prefix ++ lit "-> " ++ name ++ lit " (Recursive Cycle)"
                  ++ newline
         else
           prefix ++ lit "-> " ++ name ++ newline
           ++ printCallTreeRecursive cg remaining' calleeID (S depth)
                                     ({[calleeID]} ∪ pathVisited))
      (idsAt (Callees cg) funcID)
  end.

(** The depth limit of the printer. *)
Definition printerMaxDepth : nat := 10.

(** [GenerateCallGraphTree]. *)
Definition GenerateCallGraphTree (cg : CallGraphFull) : gostring :=
  lit "Global Call Graph Tree:" ++ newline
  ++ flat_map
       (fun entry =>
          lit "- Entry: " ++ GetNodeName cg (ID entry) ++ newline
          ++ printCallTreeRecursive cg (S printerMaxDepth - 1) (ID entry) 1 {[ID entry]}
          ++ newline)
       (GetPublicEntryPoints cg).

End MapRange.

(** *** Auxiliary notions for the call-graph proofs *)

(** What the second pass maintains, [handled] being the functions handled
    so far. *)
Definition callsConsistent (handled : list Z)
    (acc : gmap Z (list Z) * gmap Z (list Z)) : Prop :=
  (forall i j, i ∈ idsAt (fst acc) j <-> j ∈ idsAt (snd acc) i)
  /\ (forall j, j ∉ handled -> fst acc !! j = None)
  /\ (forall i j, j ∈ idsAt (snd acc) i -> j ∈ handled).


(** A chain of [n] calls from one function to another, along the
    [Callees] of the graph. *)
Inductive callPath (cg : CallGraphFull) : nat -> Z -> Z -> Prop :=
| path_call a b :
    b ∈ idsAt (Callees cg) a -> callPath cg 1 a b
| path_step n a c b :
    c ∈ idsAt (Callees cg) a -> callPath cg n c b -> callPath cg (S n) a b.

(** The lines of the call tree, each with its depth, as the printer
    produces them, and the text the printer writes for a line. *)
Fixpoint callTreeLines (cg : CallGraphFull) (remaining : nat) (funcID : Z)
    (depth : nat) (pathVisited : gset Z) : list (nat * gostring) :=
  match remaining with
  | O => [(depth, lit "... (max depth)")]
  | S remaining' =>
    flat_map
      (fun calleeID =>
         let name := GetNodeName cg calleeID in
         if bool_decide (calleeID ∈ pathVisited) then
           [(depth, name ++ lit " (Recursive Cycle)")]
         else
           (depth, name)
           :: callTreeLines cg remaining' calleeID (S depth)
                            ({[calleeID]} ∪ pathVisited))
      (idsAt (Callees cg) funcID)
  end.

Definition renderLine (l : nat * gostring) : gostring :=
  Repeat (lit "  ") (fst l) ++ lit "-> " ++ snd l ++ newline.

(** ** [internal/astparser]: the index of the nodes *)

(** [indexNodes], for one node: the node is recorded under its id, then
    its members, body, statements, expression and arguments. *)
Fixpoint indexNode (node : Node) (byID : gmap Z Node) {struct node} : gmap Z Node :=
  let byID := <[ID node := node]> byID in
  let byID := fold_left (fun m n => indexNode n m) (Nodes node) byID in
  let byID := match Body node with
              | Some b => indexNode b byID
              | None => byID
              end in
  let byID := fold_left (fun m n => indexNode n m) (Statements node) byID in
  let byID := match Expression node with
              | Some e => indexNode e byID
              | None => byID
              end in
  fold_left (fun m n => indexNode n m) (Arguments node) byID.

Definition indexNodes (nodes : list Node) (byID : gmap Z Node) : gmap Z Node :=
  fold_left (fun m n => indexNode n m) nodes byID.

(** The parsed source built by [parseASTOutput] from a decoded tree. *)
Definition parsedSourceOf (ast : list Node) (sourceCode : gostring) : ParsedSource :=
  mkParsedSource ast sourceCode (indexNodes ast ∅).

(** ** [internal/astparser]: dead-code pruning *)

(** [collectDependencies] with [checkReference]: the sub-trees of the
    node are walked, then the declaration the node refers to is marked
    and walked unless it was marked before.  [fuel] bounds the number of
    references followed one inside the other. *)
Fixpoint collectDependencies (fuel : nat) (ps : ParsedSource) {struct fuel}
    : Node -> gmap Z Node -> gmap Z Node :=
  let follow :=
    match fuel with
    | O => fun (_ : Node) (visited : gmap Z Node) => visited
    | S fuel' => collectDependencies fuel' ps
    end in
  fix walk (node : Node) (visited : gmap Z Node) {struct node} : gmap Z Node :=
    let visited := match Body node with
                   | Some b => walk b visited
                   | None => visited
                   end in
    let visited := match Expression node with
                   | Some e => walk e visited
                   | None => visited
                   end in
    let visited := fold_left (fun v n => walk n v) (Nodes node) visited in
    let visited := fold_left (fun v n => walk n v) (Statements node) visited in
    let visited := fold_left (fun v n => walk n v) (Arguments node) visited in
    let visited := fold_left (fun v n => walk n v) (Modifiers node) visited in
    let refID := ReferencedDeclaration node in
    if bool_decide (refID <> 0) then
      match visited !! refID with
      | Some _ => visited
      | None =>
        match NodesByID ps !! refID with
        | Some refNode => follow refNode (<[refID := refNode]> visited)
        | None => visited
        end
      end
    else visited.

(** References are never followed deeper than there are indexed nodes. *)
Definition dependencyFuel (ps : ParsedSource) : nat := size (NodesByID ps).

(** The contract the pruning starts from: the last contract definition
    of the unit, or the first one of the given name. *)
Definition findMainContract (ps : ParsedSource) (mainContractName : gostring)
    : option Node :=
  if bool_decide (mainContractName = []) then
    head (List.filter
            (fun n => bool_decide (NodeType n = lit "ContractDefinition"))
            (rev (AST ps)))
  else
    head (List.filter
            (fun n => bool_decide (NodeType n = lit "ContractDefinition")
                      && bool_decide (Name n = mainContractName))
            (AST ps)).

Definition isPruneEntry (node : Node) : bool :=
  if bool_decide (Kind node = lit "constructor")
     || bool_decide (Kind node = lit "fallback")
     || bool_decide (Kind node = lit "receive")
  then true
  else bool_decide (Visibility node = lit "public")
       || bool_decide (Visibility node = lit "external").

Definition shouldKeep (node : Node) : bool :=
  oneOf (NodeType node)
        ["VariableDeclaration"; "ModifierDefinition"; "EventDefinition";
         "ErrorDefinition"; "UsingForDirective"].

(** The marking loop of [PruneDeadCode] over the members of the main
    contract. *)
Definition markReachable (ps : ParsedSource) (conservative : bool)
    (mainContract : Node) : gmap Z Node :=
  fold_left
    (fun visited node =>
       let visited :=
         if bool_decide (NodeType node = lit "FunctionDefinition")
            && isPruneEntry node && Implemented node
         then collectDependencies (dependencyFuel ps) ps node (<[ID node := node]> visited)
         else visited in
       if conservative && shouldKeep node
       then collectDependencies (dependencyFuel ps) ps node (<[ID node := node]> visited)
       else visited)
    (Nodes mainContract) ∅.

(** The text [PruneDeadCode] writes for one node of the unit. *)
Definition emitRoot (ps : ParsedSource) (conservative : bool)
    (visited : gmap Z Node) (rootNode : Node) : gostring :=
  if bool_decide (NodeType rootNode = lit "PragmaDirective")
     || bool_decide (NodeType rootNode = lit "ImportDirective")
  then GetSourceRange ps (Src rootNode) ++ newline
  else if bool_decide (NodeType rootNode = lit "ContractDefinition") then
    let contractSrc := GetSourceRange ps (Src rootNode) in
    match strings.IndexByte contractSrc "{"%char with
    | None => []
    | Some contractBodyStart =>
      newline ++ slice contractSrc 0 (contractBodyStart + 1) ++ newline
      ++ flat_map
           (fun child =>
              match visited !! ID child with
              | Some _ => GetSourceRange ps (Src child) ++ newline
              | None =>
                if negb (bool_decide (NodeType child = lit "FunctionDefinition"))
                   && negb conservative
                then GetSourceRange ps (Src child) ++ newline
                else []
              end)
           (Nodes rootNode)
      ++ lit "}" ++ newline
    end
  else GetSourceRange ps (Src rootNode) ++ newline.

(** [PruneDeadCode]: the text and whether an error is returned. *)
Definition PruneDeadCode (ps : ParsedSource) (mainContractName : gostring)
    (conservative : bool) : gostring * bool :=
  match findMainContract ps mainContractName with
  | None => ([], true)
  | Some mainContract =>
    let visited := markReachable ps conservative mainContract in
    (flat_map (emitRoot ps conservative visited) (AST ps), false)
  end.

(** *** Auxiliary notions for the pruning proofs *)

(** The body of [collectDependencies], with the walk of the sub-trees
    and the walk of a referenced declaration as parameters. *)
Definition dependenciesBody (ps : ParsedSource)
    (follow walk : Node -> gmap Z Node -> gmap Z Node)
    (node : Node) (visited : gmap Z Node) : gmap Z Node :=
  let visited := match Body node with
                 | Some b => walk b visited
                 | None => visited
                 end in
  let visited := match Expression node with
                 | Some e => walk e visited
                 | None => visited
                 end in
  let visited := fold_left (fun v n => walk n v) (Nodes node) visited in
  let visited := fold_left (fun v n => walk n v) (Statements node) visited in
  let visited := fold_left (fun v n => walk n v) (Arguments node) visited in
  let visited := fold_left (fun v n => walk n v) (Modifiers node) visited in
  let refID := ReferencedDeclaration node in
  if bool_decide (refID <> 0) then
    match visited !! refID with
    | Some _ => visited
    | None =>
      match NodesByID ps !! refID with
      | Some refNode => follow refNode (<[refID := refNode]> visited)
      | None => visited
      end
    end
  else visited.

Definition followWith (fuel : nat) (ps : ParsedSource)
    : Node -> gmap Z Node -> gmap Z Node :=
  match fuel with
  | O => fun _ visited => visited
  | S fuel' => collectDependencies fuel' ps
  end.

(** The indexed nodes not marked yet. *)
Definition unvisited (ps : ParsedSource) (visited : gmap Z Node) : gset Z :=
  dom (NodesByID ps) ∖ dom visited.

(** Induction on a syntax tree, through the lists and the optional
    sub-trees of its nodes. *)
Section NodeInduction.

Variable P : Node -> Prop.

Hypothesis step :
  forall n,
    (forall b, Body n = Some b -> P b) ->
    (forall e, Expression n = Some e -> P e) ->
    Forall P (Nodes n) -> Forall P (Statements n) ->
    Forall P (Arguments n) -> Forall P (Modifiers n) ->
    P n.

Fixpoint Node_nested_ind (n : Node) : P n :=
  let all :=
    fix all (l : list Node) : Forall P l :=
      match l with
      | [] => @List.Forall_nil Node P
      | x :: l' => @List.Forall_cons Node P x l' (Node_nested_ind x) (all l')
      end in
  match n with
  | mkNode id ty name src bases kind body impl vis mut mods expr ref args nodes stmts =>
    step (mkNode id ty name src bases kind body impl vis mut mods expr ref args nodes stmts)
      (fun b Hb =>
         match body as o return o = Some b -> P b with
         | Some b' => fun H => eq_ind b' P (Node_nested_ind b') b (f_equal (default b') H)
         | None => fun H => False_ind _ (eq_ind None (fun o : option Node => match o with Some _ => False | None => True end) I _ H)
         end Hb)
      (fun e He =>
         match expr as o return o = Some e -> P e with
         | Some e' => fun H => eq_ind e' P (Node_nested_ind e') e (f_equal (default e') H)
         | None => fun H => False_ind _ (eq_ind None (fun o : option Node => match o with Some _ => False | None => True end) I _ H)
         end He)
      (all nodes) (all stmts) (all args) (all mods)
  end.

End NodeInduction.

(** ** [internal/handler]: shared types *)

(** A finding of the static analyser. *)
Record Detector := mkDetector {
  Check : gostring;
  Impact : gostring;
  Confidence : gostring;
  Description : gostring;
  LineNumbers : list Z
}.

(** The result of the static analyser, as far as the pipeline reads it. *)
Record StaticResult := mkStaticResult {
  Detectors : list Detector
}.

Record Vulnerability := mkVulnerability {
  vType : gostring;
  vSeverity : gostring;
  vDescription : gostring;
  vLocation : gostring;
  vLineNumbers : list Z;
  vReferences : list gostring
}.

Record AIVerificationResult := mkAIVerificationResult {
  IsVulnerability : bool;
  vrSeverity : gostring;
  Reason : gostring;
  VulnType : gostring
}.

Record VerificationStats := mkVerificationStats {
  Verified : Z;
  FalsePositives : Z
}.

(** [parser.AnalysisResult], with the fields the pipelines fill in. *)
Record AnalysisResult := mkAnalysisResult {
  Vulnerabilities : list Vulnerability;
  Summary : gostring;
  RawResponse : gostring
}.

Record ScanResult := mkScanResult {
  Address : gostring;
  ResolvedAddress : gostring;
  IsProxy : bool;
  scanAnalysis : option AnalysisResult;
  Timestamp : Z;
  Mode : gostring;
  Strategy : gostring;
  InputFile : gostring
}.

(** What a pipeline does with one contract: nothing, an error, or a
    scan result. *)
Inductive outcome :=
| Skipped
| Failed
| Emitted (r : ScanResult).

(** A request sent to the model: source, prompt and strategy. *)
Record AIRequest := mkAIRequest {
  reqCode : gostring;
  reqPrompt : gostring;
  reqStrategy : gostring
}.

(** A value bound to a name of a prompt template. *)
Inductive promptValue :=
| PString (s : gostring)
| PBool (b : bool)
| PInt (n : Z)
| PInts (l : list Z).

(** [normalizeVerificationResult]. *)
Definition normalizeVerificationResult (MapToLower : gostring -> gostring)
    (r : AIVerificationResult) : AIVerificationResult :=
  let reason :=
    if bool_decide (strings.TrimSpace (Reason r) = []) then lit "No reason provided"
    else Reason r in
  let vulnType :=
    if bool_decide (strings.TrimSpace (VulnType r) = []) then lit "Unknown"
    else VulnType r in
  let severity := normalizeSeverity MapToLower (vrSeverity r) in
  let severity := if negb (IsVulnerability r) then lit "None" else severity in
  mkAIVerificationResult (IsVulnerability r) severity reason vulnType.

(** ** Call-graph context of the prompts *)

Section CallGraphContext.

Variable rangeMap : forall A : Type, gmap Z A -> list (Z * A).

(** The summary written by both context builders, up to the last line
    feed. *)
Definition callGraphSummary (cg : CallGraphFull) : gostring :=
  let total := Z.of_nat (size (Functions cg)) in
  let entryPoints := Z.of_nat (length (GetPublicEntryPoints rangeMap cg)) in
  let internalFuncs := total - entryPoints in
  let internalFuncs := if internalFuncs <? 0 then 0 else internalFuncs in
  lit "// Call Graph Summary:" ++ newline
  ++ lit "// - Total Functions: " ++ strconv.FormatInt total ++ newline
  ++ lit "// - Public Entry Points: " ++ strconv.FormatInt entryPoints ++ newline
  ++ lit "// - Internal Functions: " ++ strconv.FormatInt internalFuncs ++ newline.

(** The functions whose code the targeted pipeline adds to the prompt:
    [relatedFuncs := cg.GetAllRelatedFunctions(5)]. *)
Definition mode1RelatedFuncs (cg : CallGraphFull) : list Node :=
  GetAllRelatedFunctions rangeMap cg 5.

(** The functions whose code the verified pipeline adds to the prompt:
    [relatedFuncs := cg.GetAllRelatedFunctions(3)]. *)
Definition mode2RelatedFuncs (cg : CallGraphFull) : list Node :=
  GetAllRelatedFunctions rangeMap cg 3.

(** The loop of [buildCallGraphContext] over the related functions, with
    its budget of [maxCalleesChars] bytes; a [break] returns the text
    written so far. *)
Fixpoint mode1CalleesLoop (cg : CallGraphFull) (ps : ParsedSource)
    (maxCalleesChars : Z) (nodes : list Node) (calleesBuilder : gostring)
    : gostring :=
  match nodes with
  | [] => calleesBuilder
  | node :: rest =>
    if maxCalleesChars <=? Z.of_nat (length calleesBuilder) then calleesBuilder
    else
      let header :=
        match FunctionRefs cg !! ID node with
        | Some ref =>
          lit "// Internal/Called Function: " ++ ContractName ref ++ lit "."
          ++ FunctionName ref ++ newline
        | None => lit "// Internal/Called Function: " ++ Name node ++ newline
        end in
      let calleesBuilder := calleesBuilder ++ header in
      let src := GetSourceRange ps (Src node) in
      let remaining := maxCalleesChars - Z.of_nat (length calleesBuilder) in
      if remaining <=? 0 then calleesBuilder
      else if remaining <? Z.of_nat (length src) + 2 then
        if 2 <? remaining then
          mode1CalleesLoop cg ps maxCalleesChars rest
            (calleesBuilder ++ slice src 0 (Z.to_nat (remaining - 2)) ++ newline ++ newline)
        else calleesBuilder
      else
        mode1CalleesLoop cg ps maxCalleesChars rest
          (calleesBuilder ++ src ++ newline ++ newline)
  end.

(** [buildCallGraphContext]: enriched context, callers code, callees
    code and call-graph summary. *)
Definition buildCallGraphContext (cg : CallGraphFull) (ps : ParsedSource)
    : gostring * gostring * gostring * gostring :=
  let maxEnrichedChars := 20000 in
  let maxCalleesChars := 20000 in
  let info := callGraphSummary cg ++ newline in
  let tree := GenerateCallGraphTree rangeMap cg in
  let tree := if maxEnrichedChars <? Z.of_nat (length tree)
              then slice tree 0 (Z.to_nat maxEnrichedChars) else tree in
  let callees := mode1CalleesLoop cg ps maxCalleesChars (mode1RelatedFuncs cg) [] in
  (tree, [], callees, info).

(** The loop of [buildMode2CallGraphContext] over the related functions. *)
Fixpoint mode2CalleesLoop (cg : CallGraphFull) (ps : ParsedSource)
    (maxCalleesChars : Z) (nodes : list Node) (calleesBuilder : gostring)
    : gostring :=
  match nodes with
  | [] => calleesBuilder
  | node :: rest =>
    if maxCalleesChars <=? Z.of_nat (length calleesBuilder) then calleesBuilder
    else
      let header :=
        match FunctionRefs cg !! ID node with
        | Some ref =>
          lit "// Related Function: " ++ ContractName ref ++ lit "."
          ++ FunctionName ref ++ newline
        | None => lit "// Related Function: " ++ Name node ++ newline
        end in
      mode2CalleesLoop cg ps maxCalleesChars rest
        (calleesBuilder ++ header ++ GetSourceRange ps (Src node) ++ newline ++ newline)
  end.

(** [ParseSource] runs the compiler on the source; it is taken as given. *)
Variable ParseSource : gostring -> option ParsedSource.

(** [buildMode2CallGraphContext]: whether a call graph is available, the
    summary, the callees code and the enriched context. *)
Definition buildMode2CallGraphContext (code : gostring)
    : bool * gostring * gostring * gostring :=
  match ParseSource code with
  | None => (false, [], [], [])
  | Some parsedSource =>
    let cg := BuildCallGraph rangeMap parsedSource in
    let info := callGraphSummary cg in
    let enrichedContext := GenerateCallGraphTree rangeMap cg in
    let maxCalleesChars := 12000 in
    let callees :=
      mode2CalleesLoop cg parsedSource maxCalleesChars (mode2RelatedFuncs cg) [] in
    (true, info, callees, enrichedContext)
  end.

End CallGraphContext.

(** ** The verified pipeline (mode 2) *)

(** An entry of the cache of static-analysis results. *)
Record slitherCacheEntry := mkSlitherCacheEntry {
  ce_result : option StaticResult;
  ce_expires : Z
}.

Definition slitherCacheTTL : Z := 5 * Minute.

(** [normalizeContractCodeForPrompt]: the lines of the source, numbered
    from 1. *)
Fixpoint numberLines (lines : list gostring) (i : Z) : gostring :=
  match lines with
  | [] => []
  | line :: rest =>
    strconv.FormatInt (i + 1) ++ lit ": " ++ line ++ newline
    ++ numberLines rest (i + 1)
  end.

Definition normalizeContractCodeForPrompt (code : gostring) : gostring :=
  numberLines (strings.Split code "010"%char) 0.

Section Mode2.

Variable rangeMap : forall A : Type, gmap Z A -> list (Z * A).

(** The collaborators of the pipeline: the compiler front end, the
    template engine, the model (whose answer may depend on the number of
    earlier requests), the decoder of its answers, the download layer,
    the static analyser and the digest used in cache keys. *)
Variable ParseSource : gostring -> option ParsedSource.
Variable BuildPrompt : gostring -> list (string * promptValue) -> gostring.
Variable AnalyzeContractWithStrategy : nat -> AIRequest -> option AnalysisResult.
Variable ParseVerificationResult : gostring -> option AIVerificationResult.
Variable getOrDownloadContract : gostring -> option (gostring * gostring * bool).
Variable runSlitherAnalysis : gostring -> gostring -> option StaticResult.
Variable sha256hex : gostring -> gostring.

(** [slitherCacheKey]. *)
Definition slitherCacheKey (code address : gostring) : gostring :=
  address ++ lit ":" ++ sha256hex code.

(** One round of the loop of [verifyDetectors]; the state is the slice
    of verified vulnerabilities, the statistics and the requests sent to
    the model so far. *)
Definition verifyDetector (code address template prettyCode : gostring)
    (context : bool * gostring * gostring * gostring)
    (st : list Vulnerability * VerificationStats * list AIRequest)
    (detector : Detector)
    : list Vulnerability * VerificationStats * list AIRequest :=
  let '(verifiedVulns, stats, sent) := st in
  let '(enableCallGraph, callGraphInfo, calleesCode, enrichedContext) := context in
  let prompt :=
    BuildPrompt template
      [ ("ContractAddress", PString address);
        ("ContractCode", PString prettyCode);
        ("EnableCallGraph", PBool enableCallGraph);
        ("CallGraphInfo", PString callGraphInfo);
        ("CalleesCode", PString calleesCode);
        ("EnrichedContext", PString enrichedContext);
        ("DetectorCheck", PString (Check detector));
        ("DetectorImpact", PString (Impact detector));
        ("DetectorConfidence", PString (Confidence detector));
        ("DetectorDescription", PString (Description detector));
        ("LineNumbers", PInts (LineNumbers detector)) ] in
  let request := mkAIRequest code prompt (lit "mode2_fuzzy") in
  match AnalyzeContractWithStrategy (length sent) request with
  | None => (verifiedVulns, stats, sent ++ [request])
  | Some aiResult =>
    match ParseVerificationResult (RawResponse aiResult) with
    | None => (verifiedVulns, stats, sent ++ [request])
    | Some verificationResult =>
      if IsVulnerability verificationResult then
        let vuln :=
          mkVulnerability
            (Check detector) (vrSeverity verificationResult)
            (lit "Slither: " ++ Description detector ++ newline
             ++ lit "AI: Confirmed" ++ newline
             ++ lit "Reason: " ++ Reason verificationResult)
            address (LineNumbers detector)
            [lit "Slither Detector: " ++ Check detector] in
        (verifiedVulns ++ [vuln],
         mkVerificationStats (Verified stats + 1) (FalsePositives stats),
         sent ++ [request])
      else
        (verifiedVulns,
         mkVerificationStats (Verified stats) (FalsePositives stats + 1),
         sent ++ [request])
    end
  end.

(** [verifyDetectors]: the verified vulnerabilities, the statistics and
    the requests sent to the model. *)
Definition verifyDetectors (staticResult : StaticResult)
    (code address template : gostring)
    : list Vulnerability * VerificationStats * list AIRequest :=
  if bool_decide (length (Detectors staticResult) = 0%nat) then
    ([], mkVerificationStats 0 0, [])
  else
    let prettyCode := normalizeContractCodeForPrompt code in
    let context := buildMode2CallGraphContext rangeMap ParseSource code in
    fold_left (verifyDetector code address template prettyCode context)
              (Detectors staticResult)
              ([], mkVerificationStats 0 0, []).

(** The static-analysis step of [processContractMode2]: a cached result
    that has not expired is reused, otherwise the analyser runs and its
    result is cached.  [now] is the reading of the clock. *)
Definition staticAnalysis (now : Z) (cache : gmap gostring slitherCacheEntry)
    (contractCode address effectiveAddr : gostring)
    : option StaticResult * gmap gostring slitherCacheEntry :=
  let cacheAddr :=
    if bool_decide (strings.TrimSpace effectiveAddr = []) then address
    else effectiveAddr in
  let cacheKey := slitherCacheKey contractCode cacheAddr in
  let '(staticResult, cache) :=
    match cache !! cacheKey with
    | Some entry =>
      match ce_result entry with
      | Some r => if now <? ce_expires entry then (Some r, cache)
                  else (None, delete cacheKey cache)
      | None => (None, delete cacheKey cache)
      end
    | None => (None, cache)
    end in
  match staticResult with
  | Some r => (Some r, cache)
  | None =>
    match runSlitherAnalysis contractCode effectiveAddr with
    | None => (None, cache)
    | Some r =>
      (Some r, <[cacheKey := mkSlitherCacheEntry (Some r) (now + slitherCacheTTL)]> cache)
    end
  end.

(** [processContractMode2]: the outcome, the cache afterwards and the
    requests sent to the model. *)
Definition processContractMode2 (now : Z) (cache : gmap gostring slitherCacheEntry)
    (address mode promptTemplate : gostring)
    : outcome * gmap gostring slitherCacheEntry * list AIRequest :=
  match getOrDownloadContract address with
  | None => (Failed, cache, [])
  | Some (contractCode, effectiveAddr, isProxy) =>
    if isOnlyBytecode contractCode then (Skipped, cache, [])
    else
      match staticAnalysis now cache contractCode address effectiveAddr with
      | (None, cache) => (Skipped, cache, [])
      | (Some staticResult, cache) =>
        let '(verifiedVulns, stats, sent) :=
          verifyDetectors staticResult contractCode effectiveAddr promptTemplate in
        let found := Z.of_nat (length (Detectors staticResult)) in
        let summary :=
          lit "Slither: " ++ strconv.FormatInt found
          ++ lit " | Verified: " ++ strconv.FormatInt (Verified stats)
          ++ lit " | FP: " ++ strconv.FormatInt (FalsePositives stats) in
        let rawResp :=
          lit "Slither Results: " ++ strconv.FormatInt found ++ newline
          ++ lit "AI Verified: " ++ strconv.FormatInt (Verified stats) in
        (Emitted (mkScanResult address effectiveAddr isProxy
                    (Some (mkAnalysisResult verifiedVulns summary rawResp))
                    now mode (lit "slither_scan") []),
         cache, sent)
      end
  end.

End Mode2.

(** ** The targeted pipeline (mode 1) *)

Record cachedContract := mkCachedContract {
  Code : gostring;
  EffectiveAddr : gostring;
  ccIsProxy : bool;
  IsBytecode : bool
}.

Record cachedPreprocess := mkCachedPreprocess {
  FinalCode : gostring;
  EnableCallGraph : bool;
  CallGraphInfo : gostring;
  CallersCode : gostring;
  CalleesCode : gostring;
  EnrichedContext : gostring;
  TotalFunctions : Z;
  PublicFunctions : Z;
  InternalFunctions : Z;
  OriginalLen : Z
}.

Record ScanTask := mkScanTask {
  taskInputFile : gostring;
  InputFileContent : gostring;
  StrategyName : gostring;
  TargetAddress : gostring
}.

Record PromptVariables := mkPromptVariables {
  pvContractAddress : gostring;
  pvContractCode : gostring;
  pvStrategy : gostring;
  pvInputFileContent : gostring;
  pvEnableCallGraph : bool;
  pvCallGraphInfo : gostring;
  pvCallersCode : gostring;
  pvCalleesCode : gostring;
  pvEnrichedContext : gostring;
  pvTotalFunctions : Z;
  pvPublicFunctions : Z;
  pvInternalFunctions : Z
}.

Section Mode1.

Variable rangeMap : forall A : Type, gmap Z A -> list (Z * A).

(** The collaborators: the source cleaner, the compiler front end, the
    digest of the cache keys, the download layer, the template engine,
    the base name of a path and the model. *)
Variable CleanCode : gostring -> bool -> gostring.
Variable ParseSource : gostring -> option ParsedSource.
Variable hashString : gostring -> gostring.
Variable getOrDownloadContract : gostring -> option (gostring * gostring * bool).
Variable BuildPrompt : gostring -> PromptVariables -> gostring.
Variable Base : gostring -> gostring.
Variable AnalyzeContractWithStrategy : nat -> AIRequest -> option AnalysisResult.

(** The computation cached by [getCachedContract]. *)
Definition loadContract (addr : gostring) : option cachedContract :=
  match getOrDownloadContract addr with
  | None => None
  | Some (code, effectiveAddr, isProxy) =>
    Some (mkCachedContract code effectiveAddr isProxy (isOnlyBytecode code))
  end.

(** [getCachedContract]: the contract, if any, and the cache afterwards. *)
Definition getCachedContract (contractCache : gmap gostring cachedContract)
    (addr : gostring) : option cachedContract * gmap gostring cachedContract :=
  let addr := strings.TrimSpace addr in
  if bool_decide (addr = []) then (None, contractCache)
  else
    match contractCache !! addr with
    | Some c => (Some c, contractCache)
    | None =>
      match loadContract addr with
      | None => (None, contractCache)
      | Some c => (Some c, <[addr := c]> contractCache)
      end
    end.

(** The computation cached by [getCachedPreprocess]: cleaning, parsing,
    call-graph context when the template asks for it, and pruning.  The
    dump of the flattened source written in verbose runs has no part in
    the result and is left out. *)
Definition preprocess (needCallGraph : bool) (contract : cachedContract)
    : cachedPreprocess :=
  let originalLen := Z.of_nat (length (Code contract)) in
  let cleanCode := CleanCode (Code contract) true in
  let finalCode := cleanCode in
  match ParseSource cleanCode with
  | Some parsedSource =>
    let '(enableCallGraph, callGraphInfo, callersCode, calleesCode,
          enrichedContext, totalFunctions, publicFunctions, internalFunctions) :=
      if needCallGraph then
        let callGraph := BuildCallGraph rangeMap parsedSource in
        let totalFunctions := Z.of_nat (size (Functions callGraph)) in
        let publicFunctions :=
          Z.of_nat (length (GetPublicEntryPoints rangeMap callGraph)) in
        let internalFunctions := totalFunctions - publicFunctions in
        let internalFunctions :=
          if internalFunctions <? 0 then 0 else internalFunctions in
        let '(enrichedContext, callersCode, calleesCode, callGraphInfo) :=
          buildCallGraphContext rangeMap callGraph parsedSource in
        (true, callGraphInfo, callersCode, calleesCode, enrichedContext,
         totalFunctions, publicFunctions, internalFunctions)
      else (false, [], [], [], [], 0, 0, 0) in
    let '(prunedCode, pruneErr) := PruneDeadCode parsedSource [] true in
    let finalCode :=
      if negb pruneErr && (100 <=? Z.of_nat (length prunedCode))
      then prunedCode else finalCode in
    mkCachedPreprocess finalCode enableCallGraph callGraphInfo callersCode
                       calleesCode enrichedContext totalFunctions
                       publicFunctions internalFunctions originalLen
  | None =>
    mkCachedPreprocess finalCode false [] [] [] [] 0 0 0 originalLen
  end.

(** [getCachedPreprocess]. *)
Definition getCachedPreprocess (needCallGraph : bool)
    (preprocessCache : gmap gostring cachedPreprocess)
    (contract : cachedContract)
    : cachedPreprocess * gmap gostring cachedPreprocess :=
  let key := EffectiveAddr contract ++ lit ":" ++ hashString (Code contract) in
  match preprocessCache !! key with
  | Some p => (p, preprocessCache)
  | None =>
    let p := preprocess needCallGraph contract in
    (p, <[key := p]> preprocessCache)
  end.

(** The state shared by the workers of the targeted pipeline. *)
Record mode1State := mkMode1State {
  contractCache : gmap gostring cachedContract;
  preprocessCache : gmap gostring cachedPreprocess;
  results : list ScanResult;
  sent : list AIRequest
}.

(** What a worker does with one task. *)
Definition runTask (now : Z) (mode promptTemplate : gostring)
    (needCallGraph : bool) (st : mode1State) (task : ScanTask) : mode1State :=
  match getCachedContract (contractCache st) (TargetAddress task) with
  | (None, cc) => mkMode1State cc (preprocessCache st) (results st) (sent st)
  | (Some contract, cc) =>
    if IsBytecode contract then
      mkMode1State cc (preprocessCache st) (results st) (sent st)
    else
      let '(pre, pc) := getCachedPreprocess needCallGraph (preprocessCache st) contract in
      let contractCode := FinalCode pre in
      let promptVars :=
        mkPromptVariables (TargetAddress task) contractCode (StrategyName task)
          (InputFileContent task) (EnableCallGraph pre) (CallGraphInfo pre)
          (CallersCode pre) (CalleesCode pre) (EnrichedContext pre)
          (TotalFunctions pre) (PublicFunctions pre) (InternalFunctions pre) in
      let prompt := BuildPrompt promptTemplate promptVars in
      let request := mkAIRequest contractCode prompt (StrategyName task) in
      match AnalyzeContractWithStrategy (length (sent st)) request with
      | None => mkMode1State cc pc (results st) (sent st ++ [request])
      | Some analysisResult =>
        let scanResult :=
          mkScanResult (TargetAddress task) (EffectiveAddr contract)
                       (ccIsProxy contract) (Some analysisResult) now mode
                       (StrategyName task) (Base (taskInputFile task)) in
        mkMode1State cc pc (results st ++ [scanResult]) (sent st ++ [request])
      end
  end.

End Mode1.

(** The entries of the contract cache are those [getCachedContract]
    stores: the bytecode flag is the predicate on the code. *)
Definition contractCacheOk (cache : gmap gostring cachedContract) : Prop :=
  forall addr c, cache !! addr = Some c -> IsBytecode c = isOnlyBytecode (Code c).

(** ** A sample source: a chain of calls

    Contract [Chain] with [n] functions [f1 .. fn], numbered [1 .. n]:
    [f1] is public, the others are internal, and each function calls the
    next one. *)

Definition identifierNode (id ref : Z) : Node :=
  mkNode id (lit "Identifier") [] [] [] [] None false [] [] [] None ref [] [] [].

Definition callNode (id ref : Z) : Node :=
  mkNode id (lit "FunctionCall") [] [] [] [] None false [] [] []
         (Some (identifierNode (id + 1) ref)) 0 [] [] [].

Definition statementNode (id ref : Z) : Node :=
  mkNode id (lit "ExpressionStatement") [] [] [] [] None false [] [] []
         (Some (callNode (id + 1) ref)) 0 [] [] [].

Definition blockNode (id : Z) (stmts : list Node) : Node :=
  mkNode id (lit "Block") [] [] [] [] None false [] [] [] None 0 [] [] stmts.

Definition chainFunction (n : nat) (i : nat) : Node :=
  let id := Z.of_nat i in
  mkNode id (lit "FunctionDefinition") (lit "f" ++ strconv.FormatInt id) [] []
         (lit "function")
         (Some (blockNode (1000 + 10 * id)
                  (if (i <? n)%nat then [statementNode (1001 + 10 * id) (id + 1)] else [])))
         true
         (if (i =? 1)%nat then lit "public" else lit "internal")
         [] [] None 0 [] [] [].

Definition chainContract (n : nat) : Node :=
  mkNode 9000 (lit "ContractDefinition") (lit "Chain") [] [] (lit "contract")
         None false [] [] [] None 0 []
         (map (chainFunction n) (seq 1 n)) [].

Definition chainSource (n : nat) : ParsedSource :=
  mkParsedSource [chainContract n] [] ∅.

(** The entries of a map in the order of its keys' internal layout: one
    admissible order for [range]. *)
Definition rangeInOrder (A : Type) (m : gmap Z A) : list (Z * A) := map_to_list m.

(** The call graph of the chain of eight functions, and of thirteen. *)
Definition chainGraph8 : CallGraphFull := BuildCallGraph rangeInOrder (chainSource 8).
Definition chainGraph13 : CallGraphFull := BuildCallGraph rangeInOrder (chainSource 13).

(** [collect] only returns functions that some entry point reaches by at
    most [cap] calls. *)
Definition collectsWithin (collect : CallGraphFull -> list Node) (cap : nat)
    (cg : CallGraphFull) : Prop :=
  forall n, n ∈ collect cg ->
    exists entry k d,
      entry ∈ GetPublicEntryPoints rangeInOrder cg
      /\ (1 <= d <= cap)%nat
      /\ callPath cg d (ID entry) k /\ Functions cg !! k = Some n.

(** Sample collaborators of the pipelines: an explorer that serves one
    verified contract, an analyser without findings, a model that never
    answers, and trivial text helpers. *)
Definition sampleCode : gostring :=
  lit "pragma solidity ^0.8.0;" ++ newline
  ++ lit "contract A { function f() public {} }".

Definition sampleDownload (addr : gostring) : option (gostring * gostring * bool) :=
  Some (sampleCode, lit "0xabc", false).

Definition sampleAnalyser (code addr : gostring) : option StaticResult :=
  Some (mkStaticResult []).

Definition noParse (code : gostring) : option ParsedSource := None.

Definition silentModel (n : nat) (r : AIRequest) : option AnalysisResult := None.

Definition noVerdict (answer : gostring) : option AIVerificationResult := None.

Definition templateOnly2 (t : gostring) (vars : list (string * promptValue)) : gostring := t.

Definition templateOnly1 (t : gostring) (vars : PromptVariables) : gostring := t.

Definition keepCode (code : gostring) (stripComments : bool) : gostring := code.

Definition sampleContract : cachedContract :=
  mkCachedContract sampleCode (lit "0xabc") false false.

(** The cache of static-analysis results after the sample contract was
    analysed at time 0. *)
Definition sampleCacheAfter : gmap gostring slitherCacheEntry :=
  <[lit "0xabc:" ++ sampleCode :=
      mkSlitherCacheEntry (Some (mkStaticResult [])) (0 + slitherCacheTTL)]> ∅.

(** Flattened sources: two files that pin the compiler to a minor
    version only, and two files with full versions under a licence line. *)
Definition flattenedMinorOnly : gostring :=
  lit "pragma solidity ^0.8;" ++ newline ++ lit "contract A {}" ++ newline
  ++ lit "pragma solidity ^0.8;" ++ newline ++ lit "contract B {}".

Definition flattenedTwoVersions : gostring :=
  lit "// SPDX-License-Identifier: MIT" ++ newline
  ++ lit "pragma solidity >=0.6.12 <0.9.0;" ++ newline ++ lit "contract A {}" ++ newline
  ++ lit "pragma solidity ^0.8.19;" ++ newline ++ lit "contract B {}".

(** The parsed form of the sample contract: a pragma directive and a
    contract with one public function. *)
Definition sampleParsed : ParsedSource :=
  parsedSourceOf
    [ mkNode 1 (lit "PragmaDirective") [] (lit "0:23:0") [] [] None false [] [] []
             None 0 [] [] [];
      mkNode 3 (lit "ContractDefinition") (lit "A") (lit "24:37:0") []
             (lit "contract") None false [] [] [] None 0 []
             [ mkNode 2 (lit "FunctionDefinition") (lit "f") (lit "37:22:0") []
                      (lit "function")
                      (Some (blockNode 4 [])) true (lit "public") [] [] None 0 [] [] [] ]
             [] ]
    sampleCode.

Definition parseSample (code : gostring) : option ParsedSource := Some sampleParsed.

(** A larger source: a vault whose public function calls one internal
    function, a second internal function being called by nobody. *)
Definition vaultCode : gostring :=
  lit "pragma solidity ^0.8.0;" ++ newline
  ++ lit "contract Vault {" ++ newline
  ++ lit "  uint total;" ++ newline
  ++ lit "  function deposit() public { _credit(); }" ++ newline
  ++ lit "  function _credit() internal { total += 1; }" ++ newline
  ++ lit "  function _unused() internal { total -= 1; }" ++ newline
  ++ lit "}".

Definition vaultFunction (id : Z) (name src visibility : string) (calls : list Node)
    : Node :=
  mkNode id (lit "FunctionDefinition") (lit name) (lit src) [] (lit "function")
         (Some (blockNode (100 + id) calls)) true (lit visibility) [] [] None 0 [] [] [].

Definition vaultParsed : ParsedSource :=
  parsedSourceOf
    [ mkNode 1 (lit "PragmaDirective") [] (lit "0:23:0") [] [] None false [] [] []
             None 0 [] [] [];
      mkNode 10 (lit "ContractDefinition") (lit "Vault") (lit "24:167:0") []
             (lit "contract") None false [] [] [] None 0 []
             [ mkNode 5 (lit "VariableDeclaration") (lit "total") (lit "43:11:0") [] []
                      None false (lit "internal") [] [] None 0 [] [] [];
               vaultFunction 2 "deposit" "57:40:0" "public" [statementNode 200 3];
               vaultFunction 3 "_credit" "100:43:0" "internal" [];
               vaultFunction 4 "_unused" "146:43:0" "internal" [] ]
             [] ]
    vaultCode.

Definition parseVault (code : gostring) : option ParsedSource := Some vaultParsed.

Definition vaultContract : cachedContract :=
  mkCachedContract vaultCode (lit "0xdef") false false.

(** Latencies, from a nanosecond to a day, on which the blend is
    compared with the exact value. *)
Definition latencyGrid : list Z :=
  [1; 7; 999; 1000000; 123456789; Second; 25 * Second - 1; 25 * Second;
   25 * Second + 1; 40 * Second - 1; 40 * Second + 1; Minute; 60 * Minute;
   24 * 60 * Minute].

(** ** [internal/solc/flatten.go]: pragma clean-up

    The two regular expressions of [cleanupPragmas] are modelled by
    their matchers at the head of a string; [regexp] searches the
    leftmost match and resumes after it. *)

Module regexp.

(** The class [\s] of the library: tab, line feed, form feed, carriage
    return and space. *)
Definition isSpace (c : ascii) : bool :=
  let b := byteZ c in
  (b =? 9) || (b =? 10) || (b =? 12) || (b =? 13) || (b =? 32).

(** The longest prefix whose bytes satisfy [p], and what follows it. *)
Fixpoint span (p : ascii -> bool) (s : gostring) : gostring * gostring :=
  match s with
  | [] => ([], [])
  | c :: s' =>
    if p c then let '(run, rest) := span p s' in (c :: run, rest)
    else ([], s)
  end.

(** What follows the literal [p] at the head of [s]. *)
Fixpoint stripPrefix (p s : gostring) : option gostring :=
  match p, s with
  | [], _ => Some s
  | _ :: _, [] => None
  | a :: p', b :: s' => if Ascii.eqb a b then stripPrefix p' s' else None
  end.

Section Search.

Context {G : Type}.

(** [matchAt s]: the length of the match at the head of [s], never 0,
    and its submatches. *)
Variable matchAt : gostring -> option (nat * G).

(** [FindAllStringSubmatch(s, -1)]: the submatches of the successive
    matches; [skip] bytes of the last match are still to be passed. *)
Fixpoint FindAllStringSubmatch (s : gostring) (skip : nat) : list G :=
  match s with
  | [] => []
  | _ :: s' =>
    match skip with
    | S k => FindAllStringSubmatch s' k
    | O =>
      match matchAt s with
      | Some (len, g) => g :: FindAllStringSubmatch s' (len - 1)
      | None => FindAllStringSubmatch s' 0
      end
    end
  end.

(** [ReplaceAllString(s, repl)] for the empty replacement: the matches
    are cut out. *)
Fixpoint ReplaceAllStringEmpty (s : gostring) (skip : nat) : gostring :=
  match s with
  | [] => []
  | c :: s' =>
    match skip with
    | S k => ReplaceAllStringEmpty s' k
    | O =>
      match matchAt s with
      | Some (len, _) => ReplaceAllStringEmpty s' (len - 1)
      | None => c :: ReplaceAllStringEmpty s' 0
      end
    end
  end.

End Search.

End regexp.

(** The expression [pragma\s+solidity\s+([^;]+);] at the head of [s]:
    the two runs of white space are as long as the rest of the
    expression allows, and the match ends at the first semicolon. *)
Definition matchPragmaAt (s : gostring) : option (nat * gostring) :=
  match regexp.stripPrefix (lit "pragma") s with
  | None => None
  | Some rest1 =>
    let '(ws1, rest2) := regexp.span regexp.isSpace rest1 in
    if bool_decide (ws1 = []) then None
    else
      match regexp.stripPrefix (lit "solidity") rest2 with
      | None => None
      | Some t =>
        let k := length (fst (regexp.span regexp.isSpace t)) in
        match strings.IndexByte t ";"%char with
        | None => None
        | Some m =>
          if (k <? 1)%nat || (m <? 2)%nat then None
          else
            let j := Nat.min k (m - 1) in
            Some ((6 + length ws1 + 8 + m + 1)%nat, slice t j m)
        end
      end
  end.

(** The expression [(\d+)\.(\d+)\.(\d+)] at the head of [s]. *)
Definition matchVersionAt (s : gostring)
    : option (nat * (gostring * gostring * gostring)) :=
  let '(d1, r1) := regexp.span strconv.isDigit s in
  if bool_decide (d1 = []) then None
  else
    match regexp.stripPrefix (lit ".") r1 with
    | None => None
    | Some r2 =>
      let '(d2, r3) := regexp.span strconv.isDigit r2 in
      if bool_decide (d2 = []) then None
      else
        match regexp.stripPrefix (lit ".") r3 with
        | None => None
        | Some r4 =>
          let d3 := fst (regexp.span strconv.isDigit r4) in
          if bool_decide (d3 = []) then None
          else Some ((length d1 + 1 + length d2 + 1 + length d3)%nat, (d1, d2, d3))
        end
    end.

(** A version, as the three numbers read by [strconv.Atoi]. *)
Definition version := (Z * Z * Z)%type.

(** The versions found in one pragma constraint, in order. *)
Definition versionsOf (versionStr : gostring) : list version :=
  map (fun '(a, b, c) =>
         (fst (strconv.Atoi a), fst (strconv.Atoi b), fst (strconv.Atoi c)))
      (regexp.FindAllStringSubmatch matchVersionAt versionStr 0).

(** [fmt.Sprintf("%d.%d.%d", major, minor, patch)]. *)
Definition formatVersion (v : version) : gostring :=
  let '(major, minor, patch) := v in
  strconv.FormatInt major ++ lit "." ++ strconv.FormatInt minor ++ lit "."
  ++ strconv.FormatInt patch.

(** The body of the inner loop of [cleanupPragmas]; the state is
    [highestVersion] and the three numbers kept with it. *)
Definition keepHigher (st : gostring * version) (v : version) : gostring * version :=
  let '(highestVersion, (highestVerMajor, highestVerMinor, highestVerPatch)) := st in
  let '(major, minor, patch) := v in
  let isHigher :=
    if highestVerMajor <? major then true
    else if major =? highestVerMajor then
      if highestVerMinor <? minor then true
      else if minor =? highestVerMinor then
        if highestVerPatch <? patch then true else false
      else false
    else false in
  if isHigher || bool_decide (highestVersion = []) then (formatVersion v, v)
  else st.

(** The first index of a line containing [substr]. *)
Fixpoint indexOfLine (substr : gostring) (lines : list gostring) : option nat :=
  match lines with
  | [] => None
  | line :: rest =>
    if strings.Contains line substr then Some 0%nat
    else option_map S (indexOfLine substr rest)
  end.

(** [cleanupPragmas]. *)
Definition cleanupPragmas (source : gostring) : gostring :=
  let matches := regexp.FindAllStringSubmatch matchPragmaAt source 0 in
  if bool_decide (length matches = 0%nat) then source
  else
    let '(highestVersion, _) :=
      fold_left (fun st versionStr => fold_left keepHigher (versionsOf versionStr) st)
                matches ([], (0, 0, 0)) in
    if bool_decide (highestVersion = []) then source
    else
      let cleanedSource := regexp.ReplaceAllStringEmpty matchPragmaAt source 0 in
      let finalPragma := lit "pragma solidity ^" ++ highestVersion ++ lit ";" in
      let lines := strings.Split cleanedSource "010"%char in
      let finalLines :=
        match indexOfLine (lit "SPDX-License-Identifier") lines with
        | Some spdxIndex =>
          take (spdxIndex + 1) lines ++ [finalPragma] ++ drop (spdxIndex + 1) lines
        | None => finalPragma :: lines
        end in
      strings.Join finalLines newline.

(** The end of [FlattenWithFoundry], once the flattener has written
    [output]: an output without any pragma is refused (the error is
    [None]), otherwise its pragmas are cleaned up. *)
Definition flattenOutput (output : gostring) : option gostring :=
  let flattened := output in
  if negb (strings.Contains flattened (lit "pragma solidity")) then None
  else Some (cleanupPragmas flattened).

(** The number of lines of a text that hold a pragma. *)
Definition pragmaLines (text : gostring) : nat :=
  length (List.filter (fun line => strings.Contains line (lit "pragma solidity"))
                      (strings.Split text "010"%char)).

(** Versions ordered by major, then minor, then patch number. *)
Definition versionLe (a b : version) : Prop :=
  let '(a1, a2, a3) := a in
  let '(b1, b2, b3) := b in
  a1 < b1 \/ (a1 = b1 /\ (a2 < b2 \/ (a2 = b2 /\ a3 <= b3))).

(** All versions found in the pragma occurrences of a source. *)
Definition allVersions (source : gostring) : list version :=
  flat_map versionsOf (regexp.FindAllStringSubmatch matchPragmaAt source 0).

(** ** [internal/config]: the rotation of the explorer keys *)

(** [n] successive calls of [GetNextKey]: the keys handed out, in call
    order, and the manager left behind. *)
Fixpoint nextKeys (n : nat) (m : option APIKeyManager)
    : list gostring * option APIKeyManager :=
  match n with
  | O => ([], m)
  | S k =>
    let '(key, m') := GetNextKey m in
    let '(served, m'') := nextKeys k m' in
    (key :: served, m'')
  end.

(** The index of a manager points into its key list. *)
Definition indexInRange (m : APIKeyManager) : Prop :=
  0 <= current m < Z.of_nat (length (apiKeys m)).

(** ** [internal/ai/ai_manager.go]: pacing of the requests *)

(** The largest and smallest [time.Duration]. *)
Definition maxDuration : Z := 2 ^ 63 - 1.
Definition minDuration : Z := - 2 ^ 63.

(** [Time.Sub]: the difference of two instants, saturated to the range
    of [time.Duration].  Instants are counted in nanoseconds; instant 0
    is the zero [Time], as in [newRateLimiter]. *)
Definition timeSub (t u : Z) : Z :=
  let d := t - u in
  if d <? minDuration then minDuration
  else if maxDuration <? d then maxDuration
  else d.

(** [rateLimiter.Wait], up to the point where the lock is released: the
    limiter after the call and the time the caller then sleeps; [None]
    is the error of a closed limiter.  [now] is the reading of
    [time.Now]. *)
Definition Wait (rl : rateLimiter) (now : Z) : rateLimiter * option Z :=
  if rl_closed rl then (rl, None)
  else
    let wait :=
      if negb (rl_last rl =? 0) then
        let next := rl_last rl + rl_interval rl in
        if now <? next then timeSub next now else 0
      else 0 in
    (mkRateLimiter (rl_interval rl) (now + wait) (rl_closed rl), Some wait).

(** [rateLimiter.Close]. *)
Definition Close (rl : option rateLimiter) : option rateLimiter :=
  match rl with
  | None => None
  | Some r => Some (mkRateLimiter (rl_interval r) (rl_last r) true)
  end.

(** Calls of [Wait] at the instants [nows], one after the other: the
    instants at which the callers are released. *)
Fixpoint releases (rl : rateLimiter) (nows : list Z) : list Z :=
  match nows with
  | [] => []
  | now :: rest =>
    let '(rl', _) := Wait rl now in
    rl_last rl' :: releases rl' rest
  end.

(** One round of the loop of [concurrencyLimiter.Acquire]: the slot is
    taken when the count is below the cap; otherwise the caller sleeps
    and tries again. *)
Definition acquireAttempt (l : concurrencyLimiter) : concurrencyLimiter * bool :=
  if cl_inflight l <? cl_max l
  then (mkConcurrencyLimiter (cl_inflight l + 1) (cl_max l), true)
  else (l, false).

(** [concurrencyLimiter.Release]. *)
Definition Release (l : concurrencyLimiter) : concurrencyLimiter :=
  if 0 <? cl_inflight l
  then mkConcurrencyLimiter (cl_inflight l - 1) (cl_max l)
  else l.

(** The calls a limiter receives. *)
Inductive limiterCall :=
| CallAcquire
| CallRelease
| CallUpdateMax (max : Z).

Definition limiterStep (l : concurrencyLimiter) (c : limiterCall) : concurrencyLimiter :=
  match c with
  | CallAcquire => fst (acquireAttempt l)
  | CallRelease => Release l
  | CallUpdateMax max => UpdateMax l max
  end.

(** The caps requested by a sequence of calls. *)
Definition requestedCaps (cs : list limiterCall) : list Z :=
  flat_map (fun c => match c with CallUpdateMax max => [max] | _ => [] end) cs.

(** The manager after the latencies [ds] were reported, one call of
    [adjustLimits] each. *)
Definition reportLatencies (m : Manager) (ds : list Z) : Manager :=
  fold_left adjustLimits ds m.

(** ** [internal/astparser]: direct and transitive callers *)

(** [GetCallers]: the nodes of the recorded callers that are functions
    of the graph. *)
Definition GetCallers (cg : CallGraphFull) (funcID : Z) : list Node :=
  omap (fun id => Functions cg !! id) (idsAt (Callers cg) funcID).

(** [GetCallees]. *)
Definition GetCallees (cg : CallGraphFull) (funcID : Z) : list Node :=
  omap (fun id => Functions cg !! id) (idsAt (Callees cg) funcID).

(** [getCallersRecursiveHelper], [remaining] being [maxDepth - depth]. *)
Fixpoint getCallersRecursiveHelper (cg : CallGraphFull) (remaining : nat)
    (funcID : Z) (st : list Node * gset Z) : list Node * gset Z :=
  match remaining with
  | O => st
  | S remaining' =>
    fold_left
      (fun st callerID =>
         if bool_decide (callerID ∉ snd st) then
           let st := (fst st, {[callerID]} ∪ snd st) in
           match Functions cg !! callerID with
           | Some node =>
             getCallersRecursiveHelper cg remaining' callerID (fst st ++ [node], snd st)
           | None => st
           end
         else st)
      (idsAt (Callers cg) funcID) st
  end.

(** [GetCallersRecursive]. *)
Definition GetCallersRecursive (cg : CallGraphFull) (funcID : Z) (maxDepth : Z)
    : list Node :=
  fst (getCallersRecursiveHelper cg (Z.to_nat (maxDepth - 0)) funcID ([], ∅)).

(** *** Auxiliary notions for the proofs about the syntax tree *)

(** What [extractCalleesRecursive] maintains: the callees found so far
    are distinct, marked as visited, different from 0 and functions of
    the graph. *)
Definition calleesOk (fns : gmap Z Node) (st : list Z * gset Z) : Prop :=
  NoDup (fst st)
  /\ forall x, x ∈ fst st -> x ∈ snd st /\ x <> 0 /\ is_Some (fns !! x).

(** [m] lies in the part of the tree of [n] that [indexNodes] records:
    members, body, statements, expression and arguments, at any depth. *)
Inductive indexedUnder : Node -> Node -> Prop :=
| indexed_self n : indexedUnder n n
| indexed_nodes n c m : c ∈ Nodes n -> indexedUnder c m -> indexedUnder n m
| indexed_body n c m : Body n = Some c -> indexedUnder c m -> indexedUnder n m
| indexed_statements n c m : c ∈ Statements n -> indexedUnder c m -> indexedUnder n m
| indexed_expression n c m : Expression n = Some c -> indexedUnder c m -> indexedUnder n m
| indexed_arguments n c m : c ∈ Arguments n -> indexedUnder c m -> indexedUnder n m.

(** [m] lies in the part of the tree of [n] that [collectDependencies]
    walks: body, expression, members, statements, arguments and
    modifiers, at any depth. *)
Inductive walkedUnder : Node -> Node -> Prop :=
| walked_self n : walkedUnder n n
| walked_body n c m : Body n = Some c -> walkedUnder c m -> walkedUnder n m
| walked_expression n c m : Expression n = Some c -> walkedUnder c m -> walkedUnder n m
| walked_nodes n c m : c ∈ Nodes n -> walkedUnder c m -> walkedUnder n m
| walked_statements n c m : c ∈ Statements n -> walkedUnder c m -> walkedUnder n m
| walked_arguments n c m : c ∈ Arguments n -> walkedUnder c m -> walkedUnder n m
| walked_modifiers n c m : c ∈ Modifiers n -> walkedUnder c m -> walkedUnder n m.

(** The declarations a node refers to, directly or from inside: the
    indexed declarations named by the nodes walked under it. *)
Definition refersTo (ps : ParsedSource) (n : Node) (refID : Z) : Prop :=
  exists m, walkedUnder n m /\ ReferencedDeclaration m = refID
            /\ refID <> 0 /\ is_Some (NodesByID ps !! refID).

(** A set of marked declarations that lacks nothing its members refer
    to. *)
Definition closedUnderReferences (ps : ParsedSource) (visited : gmap Z Node) : Prop :=
  forall k n refID,
    visited !! k = Some n -> refersTo ps n refID -> is_Some (visited !! refID).

(** What the recursive traversals maintain: the collected nodes are
    functions of the graph with distinct ids, all marked as visited, and
    every visited id that is a function has its node collected. *)
Definition collected (cg : CallGraphFull) (st : list Node * gset Z) : Prop :=
  (forall n, n ∈ fst st -> ID n ∈ snd st /\ Functions cg !! ID n = Some n)
  /\ NoDup (map ID (fst st))
  /\ (forall k n, k ∈ snd st -> Functions cg !! k = Some n -> n ∈ fst st).

(** What a step of [indexNodes] that records the nodes [sub] does to
    the index: nothing is removed, every node of [sub] has its id
    recorded, and a recorded node was there before or belongs to [sub]
    and sits under its own id. *)
Definition indexSpec (sub : Node -> Prop) (byID byID' : gmap Z Node) : Prop :=
  dom byID ⊆ dom byID'
  /\ (forall x, sub x -> ID x ∈ dom byID')
  /\ (forall k v, byID' !! k = Some v ->
        byID !! k = Some v \/ (ID v = k /\ sub v)).

(** What a walk of [collectDependencies] that has to mark the
    declarations [target] does to the marks: marks stay as they are,
    every declaration of [target] is marked, and a declaration marked by
    the walk lacks nothing it refers to. *)
Definition depSpec (ps : ParsedSource) (target : Z -> Prop)
    (visited visited' : gmap Z Node) : Prop :=
  (forall k x, visited !! k = Some x -> visited' !! k = Some x)
  /\ (forall r, target r -> is_Some (visited' !! r))
  /\ (forall k x, visited' !! k = Some x ->
        visited !! k = Some x
        \/ forall r, refersTo ps x r -> is_Some (visited' !! r)).

(** The parts of the vault sample: its contract and its public
    function, which calls [_credit] through the identifier 202. *)
Definition vaultDeposit : Node :=
  vaultFunction 2 "deposit" "57:40:0" "public" [statementNode 200 3].

Definition vaultMain : Node :=
  mkNode 10 (lit "ContractDefinition") (lit "Vault") (lit "24:167:0") []
         (lit "contract") None false [] [] [] None 0 []
         [ mkNode 5 (lit "VariableDeclaration") (lit "total") (lit "43:11:0") [] []
                  None false (lit "internal") [] [] None 0 [] [] [];
           vaultDeposit;
           vaultFunction 3 "_credit" "100:43:0" "internal" [];
           vaultFunction 4 "_unused" "146:43:0" "internal" [] ]
         [].

(** ** [strings]: prefixes and suffixes *)

(** [strings.TrimPrefix]. *)
Definition TrimPrefix (s prefix : gostring) : gostring :=
  if strings.HasPrefix s prefix then drop (length prefix) s else s.

(** [strings.HasSuffix] and [strings.TrimSuffix]. *)
Definition HasSuffix (s suffix : gostring) : bool :=
  (length suffix <=? length s)%nat
  && bool_decide (drop (length s - length suffix) s = suffix).

Definition TrimSuffix (s suffix : gostring) : gostring :=
  if HasSuffix s suffix then take (length s - length suffix) s else s.

(** ** [internal/ai/parser]: decoding of the answers of the model *)

Module parser.

(** [parser.AnalysisResult] as the parser reads and writes it.  The
    risk score, a free-form JSON value, and the duration, which the
    manager sets, play no part in the parser and are left out.  A nil
    slice and an empty slice are the same list. *)
Record AnalysisResult := mkAnalysisResult {
  ContractAddress : gostring;
  Vulnerabilities : list Vulnerability;
  Summary : gostring;
  VulnProbability : gostring;
  Severity : gostring;
  Recommendations : list gostring;
  RawResponse : gostring;
  ParseError : gostring
}.

(** The zero value of the struct. *)
Definition zeroResult : AnalysisResult :=
  mkAnalysisResult [] [] [] [] [] [] [] [].

Section Decode.

(** The Unicode path of [strings.ToLower]; the JSON decoder, which
    updates the value it is given and may leave it partly updated when
    it fails ([true] stands for a nil error); and the search of the
    fenced-block pattern of [NewParser], which returns the match and
    its group, or nothing. *)
Variable MapToLower : gostring -> gostring.
Variable unmarshalVerification :
  gostring -> AIVerificationResult -> AIVerificationResult * bool.
Variable unmarshalResult : gostring -> AnalysisResult -> AnalysisResult * bool.
Variable unmarshalVulns : gostring -> list Vulnerability -> list Vulnerability * bool.
Variable FindStringSubmatch : gostring -> list gostring.

(** [normalizeVulnerability]. *)
Definition normalizeVulnerability (v : Vulnerability) : Vulnerability :=
  let type :=
    if bool_decide (strings.TrimSpace (vType v) = []) then lit "Unknown"
    else vType v in
  let severity := normalizeSeverity MapToLower (vSeverity v) in
  let description :=
    if bool_decide (strings.TrimSpace (vDescription v) = [])
    then lit "No description provided" else vDescription v in
  mkVulnerability type severity description (vLocation v) (vLineNumbers v)
                  (vReferences v).

(** [normalizeAnalysisResult]. *)
Definition normalizeAnalysisResult (r : AnalysisResult) : AnalysisResult :=
  let summary :=
    if bool_decide (strings.TrimSpace (Summary r) = [])
    then lit "No summary provided" else Summary r in
  mkAnalysisResult (ContractAddress r)
                   (map normalizeVulnerability (Vulnerabilities r))
                   summary (VulnProbability r)
                   (normalizeSeverity MapToLower (Severity r))
                   (Recommendations r) (RawResponse r) (ParseError r).

(** [Parser.cleanResponse]. *)
Definition cleanResponse (response : gostring) : gostring :=
  match FindStringSubmatch response with
  | _ :: group :: _ => strings.TrimSpace group
  | _ =>
    let response := TrimPrefix (strings.TrimSpace response) (lit "```json") in
    let response := TrimPrefix response (lit "```") in
    let response := TrimSuffix response (lit "```") in
    strings.TrimSpace response
  end.

(** Decoding of the first object of [text], if there is one. *)
Definition unmarshalFirstObject {T : Type} (unmarshal : gostring -> T -> T * bool)
    (text : gostring) (result : T) : T * bool :=
  match extractFirstJSONObject text with
  | (jsonPart, true) => unmarshal jsonPart result
  | (_, false) => (result, false)
  end.

(** [Parser.ParseVerificationResult]; [None] is the error.  The four
    attempts decode into the same variable. *)
Definition ParseVerificationResult (response : gostring)
    : option AIVerificationResult :=
  let result := mkAIVerificationResult false [] [] [] in
  let '(result, ok) := unmarshalVerification response result in
  if ok then Some (normalizeVerificationResult MapToLower result)
  else
    let cleaned := cleanResponse response in
    let '(result, ok) := unmarshalVerification cleaned result in
    if ok then Some (normalizeVerificationResult MapToLower result)
    else
      let '(result, ok) := unmarshalFirstObject unmarshalVerification cleaned result in
      if ok then Some (normalizeVerificationResult MapToLower result)
      else
        let '(result, ok) :=
          unmarshalFirstObject unmarshalVerification response result in
        if ok then Some (normalizeVerificationResult MapToLower result)
        else None.

(** [Parser.parseTextFormat]. *)
Definition parseTextFormat (response : gostring) : AnalysisResult :=
  let textVulnerability (severity : string) :=
    mkVulnerability (lit "Unknown (Text Parsed)") (lit severity)
                    (lit "Parsed from text response") [] [] [] in
  let vulnerabilities :=
    if strings.Contains response (lit "漏洞等级：严重")
       || strings.Contains response (lit "Severity: Critical")
    then [textVulnerability "Critical"]
    else if strings.Contains response (lit "漏洞等级：高")
            || strings.Contains response (lit "Severity: High")
    then [textVulnerability "High"]
    else if strings.Contains response (lit "漏洞等级：中")
            || strings.Contains response (lit "Severity: Medium")
    then [textVulnerability "Medium"]
    else [] in
  normalizeAnalysisResult
    (mkAnalysisResult [] vulnerabilities [] [] [] [] response
                      (lit "failed to parse JSON; used text fallback")).

Definition withVulnerabilities (r : AnalysisResult) (vulns : list Vulnerability)
    : AnalysisResult :=
  mkAnalysisResult (ContractAddress r) vulns (Summary r) (VulnProbability r)
                   (Severity r) (Recommendations r) (RawResponse r) (ParseError r).

(** [Parser.Parse] for a parser of the given strategy.  The error it
    returns is nil on every path, so only the result is modelled. *)
Definition Parse (strategy response : gostring) : AnalysisResult :=
  if bool_decide (strategy = lit "mode2_fuzzy") then
    match ParseVerificationResult response with
    | None =>
      mkAnalysisResult [] [] [] [] [] [] response
                       (lit "failed to parse JSON verification result")
    | Some vr =>
      let vulns :=
        if IsVulnerability vr
        then [mkVulnerability (VulnType vr) (vrSeverity vr) (Reason vr) [] [] []]
        else [] in
      mkAnalysisResult [] vulns (Reason vr) [] [] [] response []
    end
  else
    let result := zeroResult in
    let '(result, ok) := unmarshalResult response result in
    if ok then normalizeAnalysisResult result
    else
      let vulnsOnly := [] in
      let '(vulnsOnly, ok) := unmarshalVulns response vulnsOnly in
      if ok then normalizeAnalysisResult (withVulnerabilities result vulnsOnly)
      else
        let cleaned := cleanResponse response in
        let '(result, ok) := unmarshalResult cleaned result in
        if ok then normalizeAnalysisResult result
        else
          let '(vulnsOnly, ok) := unmarshalVulns cleaned vulnsOnly in
          if ok then normalizeAnalysisResult (withVulnerabilities result vulnsOnly)
          else
            let '(result, ok) := unmarshalFirstObject unmarshalResult cleaned result in
            if ok then normalizeAnalysisResult result
            else
              let '(result, ok) :=
                unmarshalFirstObject unmarshalResult response result in
              if ok then normalizeAnalysisResult result
              else parseTextFormat response.



End Decode.

End parser.

(** A vulnerability as the normalisation leaves it: a canonical
    severity, and a type and a description that are not blank. *)
Definition normalisedVulnerability (v : Vulnerability) : Prop :=
  vSeverity v ∈ severities
  /\ strings.TrimSpace (vType v) <> []
  /\ strings.TrimSpace (vDescription v) <> [].

(** A verdict as the normalisation leaves it. *)
Definition normalisedVerdict (r : AIVerificationResult) : Prop :=
  vrSeverity r ∈ severities
  /\ strings.TrimSpace (Reason r) <> []
  /\ strings.TrimSpace (VulnType r) <> []
  /\ (IsVulnerability r = false -> vrSeverity r = lit "None").

(** Sample decoders: one that accepts nothing, and one that reads the
    verdict off the first byte of the text. *)
Definition rejectAll {T : Type} (text : gostring) (result : T) : T * bool :=
  (result, false).

Definition firstByteVerdict (text : gostring) (result : AIVerificationResult)
    : AIVerificationResult * bool :=
  match text with
  | c :: _ =>
    if Ascii.eqb c "{"%char
    then (mkAIVerificationResult true (lit " HIGH ") [] (lit "reentrancy"), true)
    else (result, false)
  | [] => (result, false)
  end.

(** ** [strings.FieldsFunc] *)

(** The field that is open, if any, as a list of fields. *)
Definition closeField (cur : option gostring) : list gostring :=
  match cur with
  | Some field => [field]
  | None => []
  end.

(** The loop [for end, rune := range s] of [strings.FieldsFunc]: [cur]
    is the text [s[start:end]] of the field that is open, [None] when
    [start < 0].  [fuel] bounds the number of runes. *)
Fixpoint fieldsFunc (f : Z -> bool) (fuel : nat) (s : gostring)
    (cur : option gostring) : list gostring :=
  match fuel with
  | O => closeField cur
  | S k =>
    match s with
    | [] => closeField cur
    | _ :: _ =>
      let '(r, w) := utf8.DecodeRuneInString s in
      if f r then closeField cur ++ fieldsFunc f k (drop w s) None
      else fieldsFunc f k (drop w s) (Some (default [] cur ++ take w s))
    end
  end.

Definition FieldsFunc (s : gostring) (f : Z -> bool) : list gostring :=
  fieldsFunc f (length s) s None.

(** ** [internal/ai/ai_manager.go]: the credentials of the model *)

(** The separators of [parseAPIKeys]: comma, semicolon, line feed, tab
    and space. *)
Definition isKeySeparator (r : Z) : bool :=
  (r =? 44) || (r =? 59) || (r =? 10) || (r =? 9) || (r =? 32).

(** [parseAPIKeys]; the state of the loop is the slice [keys] and the
    set [seen]. *)
Definition parseAPIKeys (raw : gostring) : list gostring :=
  let raw := strings.TrimSpace raw in
  if bool_decide (raw = []) then []
  else
    let parts := FieldsFunc raw isKeySeparator in
    fst (fold_left
           (fun (st : list gostring * gset gostring) p =>
              let k := strings.TrimSpace p in
              if bool_decide (k = []) then st
              else if bool_decide (k ∈ snd st) then st
              else (fst st ++ [k], {[k]} ∪ snd st))
           parts ([], ∅)).

(** The credentials [NewManager] creates clients for: the parsed keys,
    or the configured value as it stands when parsing gives none. *)
Definition managerKeys (apiKey : gostring) : list gostring :=
  let keys := parseAPIKeys apiKey in
  if bool_decide (length keys = 0%nat) then [apiKey] else keys.

(** ** [internal/handler/common.go]: the list of target addresses *)

(** [uniqueStrings]. *)
Definition uniqueStrings (input : list gostring) : list gostring :=
  fst (fold_left
         (fun (st : list gostring * gset gostring) s =>
            let s := strings.TrimSpace s in
            if bool_decide (s = []) then st
            else if negb (bool_decide (s ∈ snd st))
            then (fst st ++ [s], {[s]} ∪ snd st)
            else st)
         input ([], ∅)).

(** ** [internal]: the entries of a target file *)

Section TargetFile.

Variable MapToLower : gostring -> gostring.

(** [normalizeUniqueNonEmpty]. *)
Definition normalizeUniqueNonEmpty (items : list gostring) : list gostring :=
  fst (fold_left
         (fun (st : list gostring * gset gostring) it =>
            let v := strings.TrimSpace it in
            if bool_decide (v = []) || strings.HasPrefix v (lit "#")
               || strings.HasPrefix v (lit "//")
            then st
            else
              let key := strings.ToLower MapToLower v in
              if bool_decide (key ∈ snd st) then st
              else (fst st ++ [v], {[key]} ∪ snd st))
         items ([], ∅)).

End TargetFile.

(** *** Auxiliary notions for the proofs about these loops *)

(** The common shape of the three loops: an item is normalised, skipped
    when it is of no use or when its key was seen, and appended
    otherwise. *)
Definition dedupStep (norm : gostring -> gostring) (skip : gostring -> bool)
    (key : gostring -> gostring) (st : list gostring * gset gostring)
    (item : gostring) : list gostring * gset gostring :=
  let v := norm item in
  if skip v then st
  else if bool_decide (key v ∈ snd st) then st
  else (fst st ++ [v], {[key v]} ∪ snd st).

(** A byte that is one of the separators of [parseAPIKeys]. *)
Definition separatorByte (c : ascii) : Prop := isKeySeparator (byteZ c) = true.

(** ** [internal/download]: the block ranges already downloaded *)

(** A [uint64] after an operation whose exact result is [z]. *)
Definition wrapU64 (z : Z) : Z := z mod 2 ^ 64.

(** [BlockRangeRecord]; both ends are block numbers and belong to the
    range. *)
Record BlockRangeRecord := mkBlockRange {
  Start : Z;
  End_ : Z
}.

(** [minUint64]. *)
Definition minUint64 (a b : Z) : Z := if a <? b then a else b.

(** The merging loop shared by [mergeAndInsertRange] and
    [getUncoveredRanges], over the sorted records behind the first:
    [curr] absorbs the records that overlap it or touch it. *)
Fixpoint mergeLoop (curr : BlockRangeRecord) (rest merged : list BlockRangeRecord)
    : list BlockRangeRecord :=
  match rest with
  | [] => merged ++ [curr]
  | r :: rest' =>
    if Start r <=? wrapU64 (End_ curr + 1) then
      let curr :=
        if End_ curr <? End_ r then mkBlockRange (Start curr) (End_ r) else curr in
      mergeLoop curr rest' merged
    else mergeLoop r rest' (merged ++ [curr])
  end.

Section Ranges.

(** [sort.Slice] by [Start]: the library promises a sorted permutation
    and no more (the sort is not stable). *)
Variable sortSlice : list BlockRangeRecord -> list BlockRangeRecord.

(** [mergeAndInsertRange].  The sorted slice cannot be empty; were it
    so, indexing it would fail, and the empty slice stands for that. *)
Definition mergeAndInsertRange (existing : list BlockRangeRecord)
    (newRange : BlockRangeRecord) : list BlockRangeRecord :=
  let existing := existing ++ [newRange] in
  if bool_decide (length existing = 0%nat) then existing
  else
    match sortSlice existing with
    | [] => []
    | curr :: rest => mergeLoop curr rest []
    end.

(** The second loop of [getUncoveredRanges], over the merged records:
    the slice [out] and the cursor when the loop is left. *)
Fixpoint uncoveredLoop (merged : list BlockRangeRecord) (requestEnd cursor : Z)
    (out : list BlockRangeRecord) : list BlockRangeRecord * Z :=
  match merged with
  | [] => (out, cursor)
  | r :: rest =>
    if End_ r <? cursor then uncoveredLoop rest requestEnd cursor out
    else if requestEnd <? Start r then (out, cursor)
    else
      let out :=
        if cursor <? Start r then
          let end_ := minUint64 (wrapU64 (Start r - 1)) requestEnd in
          if cursor <=? end_ then out ++ [mkBlockRange cursor end_] else out
        else out in
      let cursor :=
        if cursor <? wrapU64 (End_ r + 1) then wrapU64 (End_ r + 1) else cursor in
      if requestEnd <? cursor then (out, cursor)
      else uncoveredLoop rest requestEnd cursor out
  end.

(** [getUncoveredRanges]. *)
Definition getUncoveredRanges (existingRanges : list BlockRangeRecord)
    (requestStart requestEnd : Z) : list BlockRangeRecord :=
  if requestEnd <? requestStart then []
  else if bool_decide (length existingRanges = 0%nat)
  then [mkBlockRange requestStart requestEnd]
  else
    match sortSlice existingRanges with
    | [] => []
    | curr :: rest =>
      let merged := mergeLoop curr rest [] in
      let '(out, cursor) := uncoveredLoop merged requestEnd requestStart [] in
      if cursor <=? requestEnd then out ++ [mkBlockRange cursor requestEnd] else out
    end.

End Ranges.

(** *** Auxiliary notions for the proofs about ranges *)

(** Block [b] belongs to the record, and to one of the records of a
    list. *)
Definition inRange (b : Z) (r : BlockRangeRecord) : Prop :=
  Start r <= b <= End_ r.

Definition covered (l : list BlockRangeRecord) (b : Z) : Prop :=
  exists r, r ∈ l /\ inRange b r.

(** What [getUncoveredRanges] does with the state of its second loop:
    the rest of the request behind the cursor is one more range. *)
Definition closeRequest (requestEnd : Z) (st : list BlockRangeRecord * Z)
    : list BlockRangeRecord :=
  if snd st <=? requestEnd then fst st ++ [mkBlockRange (snd st) requestEnd]
  else fst st.

(** A record with its ends in order, the last block number being left
    free. *)
Definition wellFormed (r : BlockRangeRecord) : Prop :=
  0 <= Start r <= End_ r /\ End_ r < 2 ^ 64 - 1.

(** Lists in which every record stands in relation [R] to all the
    records behind it. *)
Fixpoint sortedBy (R : BlockRangeRecord -> BlockRangeRecord -> Prop)
    (l : list BlockRangeRecord) : Prop :=
  match l with
  | [] => True
  | a :: l' => Forall (R a) l' /\ sortedBy R l'
  end.

(** Records in increasing order with at least one block between any two
    of them. *)
Definition separated (l : list BlockRangeRecord) : Prop :=
  sortedBy (fun a b => End_ a + 1 < Start b) l.

Definition sortedByStart (l : list BlockRangeRecord) : Prop :=
  sortedBy (fun a b => Start a <= Start b) l.

(** Sample records, in the order of their starts. *)
Definition sampleRanges : list BlockRangeRecord :=
  [mkBlockRange 10 20; mkBlockRange 15 30; mkBlockRange 31 40; mkBlockRange 60 70].

(** ** [internal/solc/flatten.go]: the metadata line *)

Definition MetadataPrefix : gostring := lit "// SolExcavator Metadata: ".

Record Metadata := mkMetadata {
  metaContractName : gostring
}.

Section MetadataLine.

(** [json.Marshal] and [json.Unmarshal] for [Metadata]; [None] is the
    error of the decoder. *)
Variable marshalMetadata : Metadata -> gostring.
Variable unmarshalMetadata : gostring -> option Metadata.

(** [AttachMetadata]. *)
Definition AttachMetadata (source contractName : gostring) : gostring :=
  if bool_decide (contractName = []) then source
  else
    let meta := mkMetadata contractName in
    let bs := marshalMetadata meta in
    MetadataPrefix ++ bs ++ newline ++ source.

(** [DetachMetadata]: the source and the metadata, [None] being nil. *)
Definition DetachMetadata (source : gostring) : gostring * option Metadata :=
  if strings.HasPrefix source MetadataPrefix then
    match strings.IndexByte source "010"%char with
    | Some idx =>
      let jsonStr := slice source (length MetadataPrefix) idx in
      match unmarshalMetadata jsonStr with
      | Some meta => (drop (idx + 1) source, Some meta)
      | None => (source, None)
      end
    | None => (source, None)
    end
  else (source, None).

(** [IsJSONSource]. *)
Definition IsJSONSource (source : gostring) : bool :=
  let '(cleanSource, _) := DetachMetadata source in
  let trimmed := strings.TrimSpace cleanSource in
  strings.HasPrefix trimmed (lit "{")
  && strings.Contains trimmed ([ch_quote] ++ lit "content" ++ [ch_quote]).

(** [FlattenWithFoundry] runs the flattener; [None] is an error. *)
Variable FlattenWithFoundry : gostring -> gostring -> option gostring.

(** [FlattenJSONSource]. *)
Definition FlattenJSONSource (source : gostring) : option gostring :=
  let '(cleanSource, meta) := DetachMetadata source in
  if negb (IsJSONSource cleanSource) then Some cleanSource
  else
    let contractName :=
      match meta with
      | Some m => metaContractName m
      | None => []
      end in
    FlattenWithFoundry cleanSource contractName.

End MetadataLine.

(** A sample encoding of the metadata: the name between braces. *)
Definition sampleMarshal (m : Metadata) : gostring :=
  lit "{" ++ metaContractName m ++ lit "}".

Definition sampleUnmarshal (text : gostring) : option Metadata :=
  match text with
  | c :: rest =>
    if Ascii.eqb c "{"%char
    then Some (mkMetadata (take (length rest - 1) rest))
    else None
  | [] => None
  end.

(** ** [internal/handler/mode2_fuzzy.go]: compiler versions *)

(** The number [compareVersions] reads at index [i] of the parts of a
    version: 0 when the part is missing, and what [strconv.Atoi]
    returns otherwise, its error being dropped. *)
Definition versionPart (parts : list gostring) (i : nat) : Z :=
  match parts !! i with
  | Some part => fst (strconv.Atoi part)
  | None => 0
  end.

(** The loop of [compareVersions] from index [i] on, [n] rounds being
    left. *)
Fixpoint compareParts (parts1 parts2 : list gostring) (i n : nat) : Z :=
  match n with
  | O => 0
  | S n' =>
    let p1 := versionPart parts1 i in
    let p2 := versionPart parts2 i in
    if p2 <? p1 then 1
    else if p1 <? p2 then -1
    else compareParts parts1 parts2 (S i) n'
  end.

(** [compareVersions]. *)
Definition compareVersions (v1 v2 : gostring) : Z :=
  let parts1 := strings.Split v1 "."%char in
  let parts2 := strings.Split v2 "."%char in
  compareParts parts1 parts2 0 3.

(** The end of [extractSolidityVersion]: the highest of the versions
    collected, the empty string when there is none. *)
Definition highestVersion (versions : list gostring) : gostring :=
  match versions with
  | [] => []
  | first :: rest =>
    fold_left (fun maxVersion v =>
                 if 0 <? compareVersions v maxVersion then v else maxVersion)
              rest first
  end.

(** [normalizeSolidityVersion]. *)
Definition normalizeSolidityVersion (version : gostring) : gostring :=
  if bool_decide (version = []) then lit "0.8.0"
  else
    let parts := strings.Split version "."%char in
    if (length parts <? 2)%nat then lit "0.8.0"
    else if bool_decide (length parts = 2%nat) then version ++ lit ".0"
    else version.

(** The three numbers a version is compared by. *)
Definition versionKey (v : gostring) : Z * Z * Z :=
  let parts := strings.Split v "."%char in
  (versionPart parts 0, versionPart parts 1, versionPart parts 2).

(** ** [internal/handler/mode1_targeted.go]: the results of a run *)

(** A scan result that stems from one of the tasks: it carries the
    task's address, strategy and input file, an analysis, and the
    resolved address and proxy flag of the contract the cache holds for
    the address, a contract with source code. *)
Definition resultOf (Base : gostring -> gostring) (mode : gostring)
    (cache : gmap gostring cachedContract) (tasks : list ScanTask)
    (r : ScanResult) : Prop :=
  Mode r = mode
  /\ is_Some (scanAnalysis r)
  /\ exists task c,
       task ∈ tasks
       /\ Address r = TargetAddress task
       /\ Strategy r = StrategyName task
       /\ InputFile r = Base (taskInputFile task)
       /\ cache !! strings.TrimSpace (TargetAddress task) = Some c
       /\ ResolvedAddress r = EffectiveAddr c
       /\ IsProxy r = ccIsProxy c
       /\ IsBytecode c = false.

(** A request that stems from one of the tasks. *)
Definition requestOf (tasks : list ScanTask) (q : AIRequest) : Prop :=
  exists task, task ∈ tasks /\ reqStrategy q = StrategyName task.

Definition sampleTasks : list ScanTask :=
  [mkScanTask (lit "in/a.txt") (lit "reentrancy") (lit "a") (lit "0xA");
   mkScanTask (lit "in/b.txt") (lit "overflow") (lit "b") (lit " 0xA ");
   mkScanTask (lit "in/b.txt") (lit "overflow") (lit "b") (lit "  ")].

(** A model that answers every request with an empty analysis. *)
Definition emptyModel (n : nat) (r : AIRequest) : option AnalysisResult :=
  Some (mkAnalysisResult [] [] []).

(** ** Binary64 values as integers

    The value [m * 2 ^ e] of a finite binary64 number, in units of
    [2 ^ -2200]: small enough a unit for every product of two binary64
    numbers to be a whole number of units. *)
Definition scaled (m e : Z) : Z := m * 2 ^ (e + 2200).

Definition scaleUnit : Z := 2 ^ 2200.

(** * Properties *)

(** ** Bytes, runes and the bytecode-only predicate *)

Section Bytecode.

Local Ltac euclid := Z.to_euclidean_division_equations; lia.

Lemma byteZ_range (c : ascii) : 0 <= byteZ c < 256.
Proof.
  unfold byteZ. pose proof (N_ascii_bounded c) as Hb. lia.
Qed.

Lemma lor_ge_l (a b : Z) : 0 <= b -> a <= Z.lor a b.
Proof.
  intros Hb. pose proof (Z.sub_lor_l_same_l b a) as Hs.
  assert (0 <= Z.land b (Z.lnot a)) by (apply Z.land_nonneg; auto).
  lia.
Qed.

Lemma lor_ge_r (a b : Z) : 0 <= a -> b <= Z.lor a b.
Proof. intros Ha. rewrite Z.lor_comm. by apply lor_ge_l. Qed.

Lemma lor_lb_l (n a b : Z) : 0 <= b -> n <= a -> n <= Z.lor a b.
Proof. intros Hb Ha. pose proof (lor_ge_l a b Hb). lia. Qed.

Lemma lor_lb_r (n a b : Z) : 0 <= a -> n <= b -> n <= Z.lor a b.
Proof. intros Ha Hb. pose proof (lor_ge_r a b Ha). lia. Qed.

Local Ltac lor_nn := repeat (apply Z.lor_nonneg; split); euclid.

Local Ltac lor_lb :=
  first [ euclid
        | apply lor_lb_r; [lor_nn | lor_lb]
        | apply lor_lb_l; [lor_nn | lor_lb] ].

Lemma land_low_nonneg (a m : Z) : 0 <= m -> 0 <= Z.land a m.
Proof. intros. apply Z.land_nonneg. auto. Qed.

Lemma isHexRune_small (r : Z) : isHexRune r = true -> r < 128.
Proof. unfold isHexRune. lia. Qed.

Lemma land_31 (a : Z) : Z.land a 31 = a mod 32.
Proof. change 31 with (Z.ones 5). by rewrite Z.land_ones. Qed.

Lemma land_15 (a : Z) : Z.land a 15 = a mod 16.
Proof. change 15 with (Z.ones 4). by rewrite Z.land_ones. Qed.

Lemma land_7 (a : Z) : Z.land a 7 = a mod 8.
Proof. change 7 with (Z.ones 3). by rewrite Z.land_ones. Qed.

Lemma land_63 (a : Z) : Z.land a 63 = a mod 64.
Proof. change 63 with (Z.ones 6). by rewrite Z.land_ones. Qed.

(** A rune decoded from a non-ASCII lead byte is never an ASCII
    character: it is [RuneError] or a code point from 128 on. *)
Lemma decode_nonascii_ge (c0 : ascii) (t : gostring) :
  utf8.RuneSelf <= byteZ c0 ->
  128 <= fst (utf8.DecodeRuneInString (c0 :: t)).
Proof.
  intros Hc. pose proof (byteZ_range c0) as H0.
  unfold utf8.DecodeRuneInString, utf8.RuneSelf in *.
  destruct (Z.ltb_spec (byteZ c0) 128); [lia|].
  unfold utf8.first, utf8.locb, utf8.hicb, utf8.cont, utf8.RuneError.
  repeat match goal with
  | |- context [if ?b then _ else _] =>
      let E := fresh "E" in destruct b eqn:E; simpl fst; try lia
  | |- context [match ?l with [] => _ | _ :: _ => _ end] =>
      destruct l; simpl fst; try lia
  end;
  rewrite ?Z.shiftl_mul_pow2, ?land_31, ?land_15, ?land_7, ?land_63 by lia;
  repeat match goal with
  | H : (_ || _) = false |- _ => apply orb_false_elim in H; destruct H
  | H : negb _ = false |- _ => apply negb_false_iff in H
  | H : (_ && _) = true |- _ => apply andb_true_iff in H; destruct H
  end.
  all: repeat match goal with a : ascii |- _ =>
         pose proof (byteZ_range a); generalize dependent (byteZ a); clear a; intros end.
  all: lor_lb.
Qed.

Lemma rangeRunes_hex (fuel : nat) (s : gostring) :
  (length s <= fuel)%nat ->
  forallb isHexRune (rangeRunes fuel s)
  = forallb (fun c => isHexRune (byteZ c)) s.
Proof.
  revert s. induction fuel as [|k IH]; intros s Hlen.
  - destruct s; [reflexivity | simpl in Hlen; lia].
  - destruct s as [|c0 t]; [reflexivity|].
    cbn [rangeRunes].
    destruct (Z.ltb_spec (byteZ c0) utf8.RuneSelf) as [Hlt|Hge].
    + assert (utf8.DecodeRuneInString (c0 :: t) = (byteZ c0, 1%nat)) as ->.
      { unfold utf8.DecodeRuneInString.
        destruct (Z.ltb_spec (byteZ c0) utf8.RuneSelf); [done | lia]. }
      cbn [forallb drop]. rewrite drop_0. f_equal. apply IH.
      simpl in Hlen. lia.
    + pose proof (decode_nonascii_ge c0 t Hge) as Hr.
      destruct (utf8.DecodeRuneInString (c0 :: t)) as [r w]. simpl in Hr.
      cbn [forallb].
      assert (isHexRune r = false) as ->.
      { destruct (isHexRune r) eqn:E; [|done].
        apply isHexRune_small in E. lia. }
      assert (isHexRune (byteZ c0) = false) as ->; [|done].
      destruct (isHexRune (byteZ c0)) eqn:E; [|done].
      apply isHexRune_small in E. unfold utf8.RuneSelf in Hge. lia.
Qed.

Lemma isHexRune_hexDigit (c : ascii) :
  isHexRune (byteZ c) = true <-> hexDigit c.
Proof. unfold isHexRune, hexDigit. lia. Qed.

Lemma forallb_hexDigit (s : gostring) :
  forallb (fun c => isHexRune (byteZ c)) s = true <-> Forall hexDigit s.
Proof.
  rewrite forallb_forall, Forall_forall.
  split; intros H c Hc.
  - apply isHexRune_hexDigit, H. by apply list_elem_of_In.
  - apply isHexRune_hexDigit, H. by apply list_elem_of_In.
Qed.

Lemma HasPrefix_spec (s p : gostring) :
  strings.HasPrefix s p = true <-> exists rest, s = p ++ rest.
Proof.
  revert s. induction p as [|a p IH]; intros s; simpl.
  - split; [eauto | by destruct s].
  - destruct s as [|b s]; simpl.
    + split; [done | intros [rest Hr]; discriminate].
    + rewrite andb_true_iff, Ascii.eqb_eq, IH. split.
      * intros [-> [rest ->]]. eauto.
      * intros [rest Hr]. injection Hr as -> ->. eauto.
Qed.

(** The predicate, read off byte by byte on the trimmed source. *)
Lemma isOnlyBytecode_trimmed (code : gostring) :
  isOnlyBytecode code = true <->
  (length (strings.TrimSpace code) < 10)%nat \/
  exists rest, strings.TrimSpace code = lit "0x" ++ rest /\ Forall hexDigit rest.
Proof.
  unfold isOnlyBytecode.
  set (t := strings.TrimSpace code).
  destruct (Nat.ltb_spec (length t) 10) as [Hlt|Hge].
  - split; [auto | done].
  - destruct (strings.HasPrefix t (lit "0x")) eqn:Hp; cbn [negb].
    + apply HasPrefix_spec in Hp as [rest Hrest].
      rewrite rangeRunes_hex by lia. rewrite forallb_hexDigit.
      rewrite Hrest. cbn [lit list_ascii_of_string app drop].
      split.
      * intros Hf. right. exists rest. auto.
      * intros [Hl | [rest' [Heq Hf]]]; [rewrite Hrest in Hge; simpl in *; lia|].
        injection Heq as ->. done.
    + split; [done|].
      intros [Hl | [rest [Heq _]]]; [lia|].
      assert (strings.HasPrefix t (lit "0x") = true) as Hp'
        by (apply HasPrefix_spec; eauto).
      congruence.
Qed.

End Bytecode.

(** ** The severity normaliser *)

Section Severity.

Variable MapToLower : gostring -> gostring.

Local Abbreviation normSev := (normalizeSeverity MapToLower).

Lemma oneOf_elim (x : gostring) (cases : list string) :
  oneOf x cases = true -> exists y, In y cases /\ x = lit y.
Proof.
  unfold oneOf. rewrite existsb_exists. intros [y [Hy Hd]].
  apply bool_decide_eq_true in Hd. eauto.
Qed.

Lemma normalizeSeverity_closed (s : gostring) : normSev s ∈ severities.
Proof.
  unfold normalizeSeverity, severities.
  repeat match goal with
  | |- context [if ?b then _ else _] =>
      let E := fresh "E" in destruct b eqn:E
  end; try (repeat first [apply list_elem_of_here | apply list_elem_of_further]; fail).
  apply oneOf_elim in E6 as [y [Hy ->]].
  simpl in Hy. intuition subst;
    repeat first [apply list_elem_of_here | apply list_elem_of_further].
Qed.

Lemma normalizeSeverity_fixes_canonical (v : gostring) :
  v ∈ severities -> normSev v = v.
Proof.
  unfold severities. rewrite !elem_of_cons, elem_of_nil.
  intros [-> | [-> | [-> | [-> | [-> | [-> | []]]]]]]; reflexivity.
Qed.

Lemma normalizeSeverity_blank (s : gostring) :
  strings.TrimSpace s = [] -> normSev s = lit "Unknown".
Proof. unfold normalizeSeverity. by intros ->. Qed.

Lemma normalizeSeverity_alias (s : gostring) (w c : string) :
  (w, c) ∈ severityAliases ->
  strings.ToLower MapToLower (strings.TrimSpace s) = lit w ->
  normSev s = lit c.
Proof.
  intros Hin Hlow. unfold normalizeSeverity. rewrite Hlow.
  destruct (bool_decide_reflect (strings.TrimSpace s = [])) as [He|_].
  - rewrite He in Hlow. cbn in Hlow.
    unfold severityAliases in Hin.
    repeat (apply elem_of_cons in Hin as [[= -> ->]|Hin]; [discriminate Hlow|]).
    by apply elem_of_nil in Hin.
  - unfold severityAliases in Hin.
    repeat (apply elem_of_cons in Hin as [[= -> ->]|Hin]; [reflexivity|]).
    by apply elem_of_nil in Hin.
Qed.

End Severity.

(** C3.  [normalizeSeverity] sends every string into the closed set
    Critical, High, Medium, Low, None, Unknown and is idempotent; a blank
    string is sent to Unknown, and every alias of the table (English
    word, single letter or Chinese word), whatever its case and the
    white space around it, is sent to its canonical severity.  The
    statement holds for any behaviour of the Unicode path of
    [strings.ToLower]. *)
Theorem normalizeSeverity_closed_idempotent (MapToLower : gostring -> gostring) :
  let norm := normalizeSeverity MapToLower in
  (forall s, norm s ∈ severities)
  /\ (forall s, norm (norm s) = norm s)
  /\ (forall s, strings.TrimSpace s = [] -> norm s = lit "Unknown")
  /\ (forall s w c, (w, c) ∈ severityAliases ->
        strings.ToLower MapToLower (strings.TrimSpace s) = lit w ->
        norm s = lit c).
Proof.
  cbv zeta. split; [|split; [|split]].
  - apply normalizeSeverity_closed.
  - intros s. apply normalizeSeverity_fixes_canonical, normalizeSeverity_closed.
  - apply normalizeSeverity_blank.
  - apply normalizeSeverity_alias.
Qed.

Lemma normalizeSeverity_closed_idempotent_witness :
  normalizeSeverity id (lit "  ") = lit "Unknown"
  /\ normalizeSeverity id (lit " HiGh ") = lit "High"
  /\ normalizeSeverity id (lit "严重") = lit "Critical".
Proof.
  pose proof (normalizeSeverity_closed_idempotent id) as (_ & _ & Hblank & Halias).
  split; [|split].
  - apply Hblank. reflexivity.
  - apply (Halias _ "high" "High"); [|reflexivity].
    unfold severityAliases. set_solver.
  - apply (Halias _ "严重" "Critical"); [|reflexivity].
    unfold severityAliases. set_solver.
Defined.

(** ** The JSON object scanner *)

Section Scanner.

Lemma scanJSON_tscan (s : gostring) (i start depth : Z) (inS esc : bool) :
  (inS = false -> esc = false) ->
  scanJSON s i (mkScan start depth inS esc)
  = tscan (lexJSON inS esc s) i start depth.
Proof.
  revert i start depth inS esc.
  induction s as [|ch s IH]; intros i start depth inS esc Hesc; [reflexivity|].
  cbn [scanJSON lexJSON sc_inString sc_escape sc_start sc_depth].
  destruct inS.
  - destruct esc; [by rewrite IH|].
    destruct (Ascii.eqb ch ch_backslash); [by rewrite IH|].
    destruct (Ascii.eqb ch ch_quote); by rewrite IH.
  - rewrite (Hesc eq_refl).
    destruct (Ascii.eqb ch ch_quote); [by rewrite IH|].
    destruct (Ascii.eqb ch ch_lbrace); [by rewrite IH|].
    destruct (Ascii.eqb ch ch_rbrace); [|by rewrite IH].
    cbn [tscan]. destruct (depth =? 0); [by rewrite IH|].
    destruct ((depth - 1 =? 0) && negb (start =? -1)); [done | by rewrite IH].
Qed.

Lemma length_lexJSON (inS esc : bool) (s : gostring) :
  length (lexJSON inS esc s) = length s.
Proof.
  revert inS esc. induction s as [|ch s IH]; intros inS esc; [reflexivity|].
  cbn [lexJSON].
  repeat match goal with
  | |- context [if ?b then _ else _] => destruct b
  end; cbn [length]; by rewrite IH.
Qed.

(** Below depth one nothing is returned across a balanced stretch. *)
Lemma tscan_balanced (b rest : list tok) (i start depth : Z) :
  balanced b -> 1 <= depth ->
  tscan (b ++ rest) i start depth = tscan rest (i + Z.of_nat (length b)) start depth.
Proof.
  intros Hb. revert rest i start depth.
  induction Hb as [|l Hl IH|a b Ha IHa Hb IHb]; intros rest i start depth Hd.
  - cbn. f_equal. lia.
  - cbn [app tscan]. rewrite IH by done. f_equal. cbn [length]. lia.
  - cbn [app tscan].
    destruct (Z.eqb_spec depth 0) as [|_]; [lia|].
    rewrite <- app_assoc. rewrite IHa by lia.
    cbn [app tscan].
    destruct (Z.eqb_spec (depth + 1) 0) as [|_]; [lia|].
    destruct (Z.eqb_spec (depth + 1 - 1) 0) as [|_]; [lia|].
    cbn [andb]. rewrite IHb by lia.
    f_equal; [|lia]. cbn [length]. rewrite length_app. cbn [length]. lia.
Qed.

(** Before the first opening brace the scanner only moves on. *)
Lemma tscan_no_open (tpre rest : list tok) (i start : Z) :
  TOpen ∉ tpre ->
  tscan (tpre ++ rest) i start 0 = tscan rest (i + Z.of_nat (length tpre)) start 0.
Proof.
  revert i. induction tpre as [|t tpre IH]; intros i Hno.
  - cbn. f_equal. lia.
  - apply not_elem_of_cons in Hno as [Hne Hno].
    destruct t; [done| |]; cbn [app tscan Z.eqb]; rewrite IH by done;
      f_equal; cbn [length]; lia.
Qed.

Lemma tscan_first_object (tpre tin tpost : list tok) :
  TOpen ∉ tpre -> balanced tin ->
  tscan (tpre ++ TOpen :: tin ++ TClose :: tpost) 0 (-1) 0
  = Some (Z.of_nat (length tpre), Z.of_nat (length tpre + length tin + 1)).
Proof.
  intros Hno Hb. rewrite tscan_no_open by done.
  cbn [tscan Z.eqb]. rewrite tscan_balanced by (done || lia).
  cbn [tscan]. change (0 + 1 =? 0) with false. cbn [Z.add Z.sub Z.eqb Z.pos_sub andb].
  destruct (Z.eqb_spec (0 + Z.of_nat (length tpre)) (-1)) as [|_]; [lia|].
  cbn [negb]. f_equal. f_equal; lia.
Qed.

Lemma unwinds_other (d : nat) (l : list tok) :
  unwinds d l -> unwinds d (TOther :: l).
Proof.
  intros H. destruct H as [b Hb|d b l Hb Hl].
  - apply (unw_last (TOther :: b)). by constructor.
  - apply (unw_more d (TOther :: b) l); [by constructor | done].
Qed.

Lemma unwinds_open (d : nat) (l : list tok) :
  unwinds (S (S d)) l -> unwinds (S d) (TOpen :: l).
Proof.
  intros H. inversion H as [|d' b l' Hb Hl]; subst.
  inversion Hl as [b' Hb'|d'' b' l'' Hb' Hl'']; subst.
  - replace (TOpen :: b ++ TClose :: b' ++ [TClose])
      with ((TOpen :: b ++ TClose :: b') ++ [TClose])
      by (cbn; rewrite <- app_assoc; reflexivity).
    apply unw_last. by constructor.
  - replace (TOpen :: b ++ TClose :: b' ++ TClose :: l'')
      with ((TOpen :: b ++ TClose :: b') ++ TClose :: l'')
      by (cbn; rewrite <- app_assoc; reflexivity).
    apply unw_more; [by constructor | done].
Qed.

Lemma unwinds_close (d : nat) (l : list tok) :
  unwinds (S d) l -> unwinds (S (S d)) (TClose :: l).
Proof. intros H. apply (unw_more d [] l); [constructor | done]. Qed.

Lemma tscan_inside (toks : list tok) (i start : Z) (d : nat) (st j : Z) :
  start <> -1 ->
  tscan toks i start (Z.of_nat (S d)) = Some (st, j) ->
  st = start /\
  exists l tpost, toks = l ++ tpost /\ unwinds (S d) l
                  /\ j = i + Z.of_nat (length l) - 1.
Proof.
  intros Hst. revert i d. induction toks as [|t toks IH]; intros i d H; [done|].
  destruct t; cbn [tscan] in H.
  - destruct (Z.eqb_spec (Z.of_nat (S d)) 0) as [|_]; [lia|].
    replace (Z.of_nat (S d) + 1) with (Z.of_nat (S (S d))) in H by lia.
    apply IH in H as [-> (l & tpost & -> & Hu & ->)].
    split; [done|]. exists (TOpen :: l), tpost.
    split; [done|]. split; [by apply unwinds_open|]. cbn [length]. lia.
  - destruct (Z.eqb_spec (Z.of_nat (S d)) 0) as [|_]; [lia|].
    destruct (Z.eqb_spec start (-1)) as [|_]; [done|].
    destruct d as [|d].
    + cbn in H. injection H as <- <-. split; [done|].
      exists [TClose], toks. split; [done|].
      split; [apply (unw_last []); constructor | cbn; lia].
    + replace (Z.of_nat (S (S d)) - 1) with (Z.of_nat (S d)) in H by lia.
      destruct (Z.eqb_spec (Z.of_nat (S d)) 0) as [|_]; [lia|].
      cbn [andb] in H.
      apply IH in H as [-> (l & tpost & -> & Hu & ->)].
      split; [done|]. exists (TClose :: l), tpost.
      split; [done|]. split; [by apply unwinds_close|]. cbn [length]. lia.
  - apply IH in H as [-> (l & tpost & -> & Hu & ->)].
    split; [done|]. exists (TOther :: l), tpost.
    split; [done|]. split; [by apply unwinds_other|]. cbn [length]. lia.
Qed.

Lemma tscan_outside (toks : list tok) (i start : Z) (st j : Z) :
  0 <= i ->
  tscan toks i start 0 = Some (st, j) ->
  exists tpre tin tpost,
    toks = tpre ++ TOpen :: tin ++ TClose :: tpost
    /\ (TOpen ∉ tpre) /\ balanced tin
    /\ st = i + Z.of_nat (length tpre)
    /\ j = st + Z.of_nat (length tin) + 1.
Proof.
  revert i. induction toks as [|t toks IH]; intros i Hi H; [done|].
  destruct t; cbn [tscan Z.eqb] in H.
  - change (0 + 1) with (Z.of_nat 1) in H.
    apply tscan_inside in H as [-> (l & tpost & -> & Hu & ->)]; [|lia].
    inversion Hu as [b Hb|]; subst.
    exists [], b, tpost. rewrite <- app_assoc.
    split; [done|]. split; [apply not_elem_of_nil|]. split; [done|].
    cbn [length]. rewrite length_app. cbn [length]. lia.
  - apply IH in H as (tpre & tin & tpost & -> & Hno & Hb & -> & ->); [|lia].
    exists (TClose :: tpre), tin, tpost.
    split; [done|]. split; [by apply not_elem_of_cons|]. split; [done|].
    cbn [length]. lia.
  - apply IH in H as (tpre & tin & tpost & -> & Hno & Hb & -> & ->); [|lia].
    exists (TOther :: tpre), tin, tpost.
    split; [done|]. split; [by apply not_elem_of_cons|]. split; [done|].
    cbn [length]. lia.
Qed.

Lemma extract_found (s : gostring) (i n : nat) :
  FirstObject s i n ->
  extractFirstJSONObject s = (slice s i (i + n), true).
Proof.
  intros (tpre & tin & tpost & Hlex & Hno & Hb & -> & ->).
  unfold extractFirstJSONObject.
  rewrite scanJSON_tscan by done. rewrite Hlex.
  rewrite tscan_first_object by done.
  rewrite Nat2Z.id. f_equal. f_equal. lia.
Qed.

Lemma extract_true (s sub : gostring) :
  extractFirstJSONObject s = (sub, true) ->
  exists i n, FirstObject s i n /\ sub = slice s i (i + n).
Proof.
  unfold extractFirstJSONObject. rewrite scanJSON_tscan by done.
  destruct (tscan (lexJSON false false s) 0 (-1) 0) as [[st j]|] eqn:E; [|done].
  intros [= <-].
  apply tscan_outside in E as (tpre & tin & tpost & Hlex & Hno & Hb & -> & ->); [|lia].
  exists (length tpre), (length tin + 2)%nat. split.
  - exists tpre, tin, tpost. done.
  - f_equal; lia.
Qed.

Lemma extract_false (s sub : gostring) :
  extractFirstJSONObject s = (sub, false) ->
  sub = [] /\ ~ exists i n, FirstObject s i n.
Proof.
  intros H. split.
  - unfold extractFirstJSONObject in H.
    destruct (scanJSON s 0 _) as [[st j]|]; [done|]. by injection H.
  - intros (i & n & Hf). apply extract_found in Hf. congruence.
Qed.

End Scanner.

(** C8.  [extractFirstJSONObject] returns the first brace-delimited
    object: the bytes from the first opening brace outside any
    double-quoted literal up to the closing brace matching it, braces
    inside literals and backslash-escaped bytes of literals being
    skipped; it returns the empty string and [false] exactly when there
    is no such object. *)
Theorem extractFirstJSONObject_first_balanced (s : gostring) :
  (forall i n, FirstObject s i n ->
     extractFirstJSONObject s = (slice s i (i + n), true))
  /\ (forall sub, extractFirstJSONObject s = (sub, true) ->
        exists i n, FirstObject s i n /\ sub = slice s i (i + n))
  /\ (extractFirstJSONObject s = ([], false) <->
      ~ exists i n, FirstObject s i n).
Proof.
  split; [|split].
  - intros i n. apply extract_found.
  - intros sub. apply extract_true.
  - split.
    + intros H. by apply extract_false in H as [_ H].
    + intros Hno. destruct (extractFirstJSONObject s) as [sub [|]] eqn:E.
      * apply extract_true in E as (i & n & Hf & _). destruct Hno; eauto.
      * apply extract_false in E as [-> _]. done.
Qed.

Lemma extractFirstJSONObject_first_balanced_witness :
  extractFirstJSONObject sampleAnswer
  = (lit "{" ++ [ch_quote] ++ lit "a\" ++ [ch_quote] ++ lit "}" ++ [ch_quote]
     ++ lit ":{}}", true).
Proof.
  apply (proj1 (extractFirstJSONObject_first_balanced sampleAnswer) 6%nat 11%nat).
  exists [TClose; TOther; TOther; TOther; TOther; TOther],
         [TOther; TOther; TOther; TOther; TOther; TOther; TOther; TOpen; TClose],
         [TOther; TOther; TOther; TOther; TOther].
  split; [reflexivity|]. split; [|split; [|split; reflexivity]].
  - intros H. repeat (apply elem_of_cons in H as [H|H]; [discriminate H|]).
    by apply elem_of_nil in H.
  - do 7 apply bal_other. apply (bal_nest [] []); constructor.
Defined.

(** ** The key rotator *)

Lemma collectValidKeys_acc (keys acc : list gostring) :
  fold_left (fun validKeys key =>
               if bool_decide (key <> []) then validKeys ++ [key] else validKeys)
            keys acc
  = acc ++ filter (fun k => k <> []) keys.
Proof.
  revert acc. induction keys as [|k keys IH]; intros acc; cbn [fold_left].
  - by rewrite app_nil_r.
  - rewrite IH. destruct (decide (k = [])) as [Hk|Hk].
    + rewrite bool_decide_eq_false_2 by auto. rewrite filter_cons_False by auto. done.
    + rewrite bool_decide_eq_true_2 by done. rewrite filter_cons_True by done.
      rewrite <- app_assoc. reflexivity.
Qed.

Lemma collectValidKeys_filter (keys : list gostring) :
  collectValidKeys keys = filter (fun k => k <> []) keys.
Proof. unfold collectValidKeys. by rewrite collectValidKeys_acc. Qed.

Lemma filter_nonempty_no_blank (keys : list gostring) :
  [] ∉ filter (fun k : gostring => k <> []) keys.
Proof. intros H. apply list_elem_of_filter in H as [H _]. by apply H. Qed.

Lemma NewAPIKeyManager_cases (intn : Z -> Z) (keys : list gostring)
    (fallbackKey : gostring) :
  NewAPIKeyManager intn keys fallbackKey =
  match filter (fun k => k <> []) keys with
  | [] => if decide (fallbackKey = []) then None
          else Some (mkAPIKeyManager [fallbackKey] (intn 1))
  | valid => Some (mkAPIKeyManager valid (intn (Z.of_nat (length valid))))
  end.
Proof.
  unfold NewAPIKeyManager. rewrite collectValidKeys_filter.
  destruct (filter (fun k => k <> []) keys) as [|k valid].
  - destruct (decide (fallbackKey = [])) as [Hf|Hf].
    + repeat case_bool_decide; try done.
    + repeat case_bool_decide; try done; cbn [andb app length] in *;
        try case_bool_decide; try done.
  - repeat case_bool_decide; try done; cbn [andb app length] in *;
      try case_bool_decide; try done.
Qed.

(** C4, as stated, fails: a credential given twice is stored twice. *)
Lemma NewAPIKeyManager_keeps_duplicates :
  exists m,
    NewAPIKeyManager (fun _ => 0) [lit "key-A"; lit "key-A"] [] = Some m
    /\ apiKeys m = [lit "key-A"; lit "key-A"]
    /\ ~ NoDup (apiKeys m).
Proof.
  eexists. split; [reflexivity|]. split; [reflexivity|].
  cbn. intros H. apply NoDup_cons in H as [H _]. apply H. left.
Qed.

(** C4, amended.  The constructor drops the empty-string entries and
    keeps the remaining credentials in their order, duplicates included;
    when none remains it stores the fallback key alone if that key is
    not empty.  So the stored list holds no empty entry and is never
    empty, and the nil rotator (whose key is the empty string) is
    returned exactly when every candidate and the fallback are empty. *)
Theorem NewAPIKeyManager_drops_empty (intn : Z -> Z) (keys : list gostring)
    (fallbackKey : gostring) :
  let valid := filter (fun k => k <> []) keys in
  (forall m, NewAPIKeyManager intn keys fallbackKey = Some m ->
     apiKeys m = (if decide (valid = []) then [fallbackKey] else valid)
     /\ ([] ∉ apiKeys m) /\ apiKeys m <> [])
  /\ (NewAPIKeyManager intn keys fallbackKey = None <->
      valid = [] /\ fallbackKey = [])
  /\ GetKey (NewAPIKeyManager intn [] []) = [].
Proof.
  cbv zeta. split; [|split; [|reflexivity]].
  - intros m. rewrite NewAPIKeyManager_cases.
    pose proof (filter_nonempty_no_blank keys) as Hnb.
    destruct (filter (fun k => k <> []) keys) as [|k valid] eqn:Ev.
    + destruct (decide (fallbackKey = [])) as [Hf|Hf]; [done|].
      intros [= <-]. cbn. split; [done|]. split; [|done].
      intros H. apply list_elem_of_singleton in H. done.
    + intros [= <-]. cbn [apiKeys].
      split; [by destruct (decide (k :: valid = []))|]. split; [rewrite <- Ev; apply filter_nonempty_no_blank | done].
  - rewrite NewAPIKeyManager_cases.
    destruct (filter (fun k => k <> []) keys) as [|k valid] eqn:Ev.
    + destruct (decide (fallbackKey = [])) as [Hf|Hf].
      * done.
      * split; [done|]. intros [_ ?]. done.
    + split; [done|]. intros [? _]. done.
Qed.

Lemma NewAPIKeyManager_drops_empty_witness :
  exists m,
    NewAPIKeyManager (fun _ => 0) [[]; lit "key-A"; []; lit "key-B"; lit "key-A"]
                     (lit "fallback") = Some m
    /\ apiKeys m = [lit "key-A"; lit "key-B"; lit "key-A"].
Proof.
  eexists. split; [reflexivity|].
  exact (proj1 (proj1 (NewAPIKeyManager_drops_empty (fun _ => 0)
                  [[]; lit "key-A"; []; lit "key-B"; lit "key-A"]
                  (lit "fallback")) _ eq_refl)).
Defined.

(** ** Binary64 arithmetic: rounding of products and sums

    The operations on [float] are specified by [SpecFloat]; the lemmas
    below bound the rounding of a product and of a sum of positive
    normal numbers by one part in [2 ^ 52]. *)

Lemma digits2_pos_bounds (m : positive) :
  2 ^ (Zpos (digits2_pos m) - 1) <= Zpos m < 2 ^ Zpos (digits2_pos m).
Proof.
  induction m as [m IH|m IH|]; cbn [digits2_pos].
  - rewrite Pos2Z.inj_succ.
    replace (Z.succ (Z.pos (digits2_pos m)) - 1) with (Z.pos (digits2_pos m) - 1 + 1)
      by lia.
    rewrite Z.pow_succ_r, Z.pow_add_r by lia. lia.
  - rewrite Pos2Z.inj_succ.
    replace (Z.succ (Z.pos (digits2_pos m)) - 1) with (Z.pos (digits2_pos m) - 1 + 1)
      by lia.
    rewrite Z.pow_succ_r, Z.pow_add_r by lia. lia.
  - cbn. lia.
Qed.

Lemma digits2_pos_unique (m : positive) (d : Z) :
  2 ^ (d - 1) <= Zpos m < 2 ^ d -> Zpos (digits2_pos m) = d.
Proof.
  intros [Hlo Hhi]. pose proof (digits2_pos_bounds m) as [Hlo' Hhi'].
  assert (0 < d) as Hd.
  { destruct (Z.ltb_spec 0 d); [done|].
    destruct (Z.eq_dec d 0) as [->|]; [cbn in Hhi; lia|].
    rewrite Z.pow_neg_r in Hhi by lia. lia. }
  destruct (Z.lt_trichotomy (Zpos (digits2_pos m)) d) as [Hlt|[Heq|Hgt]]; [|done|].
  - assert (2 ^ Zpos (digits2_pos m) <= 2 ^ (d - 1))
      by (apply Z.pow_le_mono_r; lia). lia.
  - assert (2 ^ d <= 2 ^ (Zpos (digits2_pos m) - 1))
      by (apply Z.pow_le_mono_r; lia). lia.
Qed.

Lemma shr_1_m (r : shr_record) :
  0 <= shr_m r -> shr_m (shr_1 r) = shr_m r / 2.
Proof.
  destruct r as [m rb sb]. cbn [shr_m]. intros Hm.
  destruct m as [|[p|p|]|p]; cbn [shr_1 shr_m]; [reflexivity| | |reflexivity|lia].
  - apply Z.div_unique with 1; lia.
  - apply Z.div_unique with 0; lia.
Qed.

Lemma iter_shr_1_m (p : positive) (r : shr_record) :
  0 <= shr_m r -> shr_m (SpecFloat.iter_pos shr_1 p r) = shr_m r / 2 ^ Zpos p.
Proof.
  revert r. induction p as [p IH|p IH|]; intros r Hr; cbn [SpecFloat.iter_pos].
  - assert (0 <= shr_m (shr_1 r)) as H1
      by (rewrite shr_1_m by done; apply Z.div_pos; lia).
    assert (0 <= shr_m (SpecFloat.iter_pos shr_1 p (shr_1 r))) as H2
      by (rewrite IH by done; apply Z.div_pos; lia).
    rewrite IH, IH, shr_1_m by done.
    rewrite !Z.div_div by lia.
    f_equal.
    replace (Z.pos p~1) with (1 + Z.pos p + Z.pos p) by lia.
    rewrite !Z.pow_add_r by lia. lia.
  - assert (0 <= shr_m (SpecFloat.iter_pos shr_1 p r)) as H2
      by (rewrite IH by done; apply Z.div_pos; lia).
    rewrite IH, IH by done.
    rewrite !Z.div_div by lia.
    f_equal.
    replace (Z.pos p~0) with (Z.pos p + Z.pos p) by lia.
    rewrite !Z.pow_add_r by lia. lia.
  - by apply shr_1_m.
Qed.

Lemma round_nearest_even_cases (mx : Z) (lx : location) :
  round_nearest_even mx lx = mx \/ round_nearest_even mx lx = mx + 1.
Proof.
  destruct lx as [|[ | | ]]; cbn; auto. destruct (Z.even mx); auto.
Qed.

Lemma iter_xO (m d : positive) : Zpos (Pos.iter xO m d) = Zpos m * 2 ^ Zpos d.
Proof.
  induction d as [|d IH] using Pos.peano_ind.
  - cbn. lia.
  - rewrite Pos.iter_succ, Pos2Z.inj_xO, IH, Pos2Z.inj_succ, Z.pow_succ_r by lia.
    lia.
Qed.

Lemma fexp_normal (d : Z) : -1074 <= d - 53 -> fexp prec emax d = d - 53.
Proof. intros H. unfold fexp, SpecFloat.emin, prec, emax. lia. Qed.

Lemma shr_fexp_small (m : positive) (e : Z) :
  -1074 <= Zpos (digits2_pos m) + e - 53 ->
  Zpos (digits2_pos m) <= 53 ->
  shr_fexp prec emax (Zpos m) e loc_Exact
  = (Build_shr_record (Zpos m) false false, e).
Proof.
  intros Hn Hd. unfold shr_fexp. cbn [Zdigits2 shr_record_of_loc].
  rewrite fexp_normal by done.
  replace (Z.pos (digits2_pos m) + e - 53 - e) with (Z.pos (digits2_pos m) - 53)
    by lia.
  destruct (Z.pos (digits2_pos m) - 53) eqn:E; [reflexivity|lia|reflexivity].
Qed.

Lemma binary_round_aux_finite (s : bool) (m : positive) (e : Z) :
  -1074 <= Zpos (digits2_pos m) + e - 53 ->
  Zpos (digits2_pos m) + e <= 900 -> e <= 900 ->
  exists m' e',
    binary_round_aux prec emax s (Zpos m) e loc_Exact = S754_finite s m' e'
    /\ e <= e' /\ -1074 <= e'
    /\ 2 ^ 52 * Z.abs (Zpos m' * 2 ^ (e' - e) - Zpos m) <= Zpos m
    /\ (Zpos (digits2_pos m) <= 53 -> m' = m /\ e' = e).
Proof.
  intros Hn Hhi He. unfold binary_round_aux.
  destruct (Z_le_gt_dec (Zpos (digits2_pos m)) 53) as [Hd|Hd].
  - rewrite shr_fexp_small by done. cbn [shr_m loc_of_shr_record round_nearest_even].
    rewrite shr_fexp_small by done. cbn [shr_m].
    assert ((e <=? emax - prec) = true) as -> by (unfold emax, prec; lia).
    exists m, e. split; [reflexivity|]. split; [lia|]. split; [lia|].
    rewrite Z.sub_diag, Z.pow_0_r. split; [lia|done].
  - pose proof (digits2_pos_bounds m) as [Hlo Hup].
    unfold shr_fexp at 1. cbn [Zdigits2 shr_record_of_loc].
    rewrite fexp_normal by done.
    replace (Z.pos (digits2_pos m) + e - 53 - e) with (Z.pos (digits2_pos m) - 53)
      by lia.
    destruct (Z.pos (digits2_pos m) - 53) as [|p|p] eqn:Ep; [lia| |lia].
    cbn [shr].
    set (R := SpecFloat.iter_pos shr_1 p (Build_shr_record (Zpos m) false false)).
    assert (shr_m R = Zpos m / 2 ^ Zpos p) as HR
      by (unfold R; rewrite iter_shr_1_m; [reflexivity|cbn; lia]).
    set (q := Zpos m / 2 ^ Zpos p) in *.
    assert (0 < 2 ^ Zpos p) as Hp by (apply Z.pow_pos_nonneg; lia).
    assert (2 ^ 52 * 2 ^ Zpos p <= Zpos m < 2 ^ 53 * 2 ^ Zpos p) as [Hm1 Hm2].
    { rewrite <- !Z.pow_add_r by lia.
      replace (52 + Z.pos p) with (Z.pos (digits2_pos m) - 1) by lia.
      replace (53 + Z.pos p) with (Z.pos (digits2_pos m)) by lia. done. }
    assert (q * 2 ^ Zpos p <= Zpos m < (q + 1) * 2 ^ Zpos p) as [Hq1 Hq2].
    { unfold q. split.
      - rewrite Z.mul_comm. apply Z.mul_div_le. lia.
      - rewrite Z.mul_comm. apply Z.mul_succ_div_gt. lia. }
    assert (2 ^ 52 <= q < 2 ^ 53) as [Hq3 Hq4] by nia.
    set (mr := round_nearest_even (shr_m R) (loc_of_shr_record R)).
    assert (mr = q \/ mr = q + 1) as Hmr
      by (unfold mr; rewrite <- HR; apply round_nearest_even_cases).
    assert (2 ^ 52 <= mr <= 2 ^ 53) as [Hr1 Hr2] by lia.
    assert (2 ^ 52 * Z.abs (mr * 2 ^ Zpos p - Zpos m) <= Zpos m) as Hval by nia.
    destruct mr as [|mp|mp] eqn:Emr; [lia| |lia].
    destruct (Z_lt_ge_dec (Zpos mp) (2 ^ 53)) as [Hlt|Hge].
    + assert (Zpos (digits2_pos mp) = 53) as Hdg
        by (apply digits2_pos_unique; lia).
      rewrite shr_fexp_small by lia. cbn [shr_m].
      assert ((e + Z.pos p <=? emax - prec) = true) as ->
        by (unfold emax, prec; lia).
      exists mp, (e + Zpos p). split; [reflexivity|]. split; [lia|]. split; [lia|].
      replace (e + Z.pos p - e) with (Z.pos p) by lia.
      split; [exact Hval|lia].
    + assert (Zpos mp = 2 ^ 53) as Hmp by lia.
      assert (Zpos (digits2_pos mp) = 54) as Hdg
        by (apply digits2_pos_unique; rewrite Hmp; cbn; lia).
      unfold shr_fexp. cbn [Zdigits2 shr_record_of_loc].
      rewrite Hdg, fexp_normal by lia.
      replace (54 + (e + Z.pos p) - 53 - (e + Z.pos p)) with 1 by lia.
      cbn [shr SpecFloat.iter_pos].
      assert (shr_m (shr_1 (Build_shr_record (Zpos mp) false false)) = 2 ^ 52) as Hs.
      { rewrite shr_1_m by (cbn; lia). cbn [shr_m]. rewrite Hmp. reflexivity. }
      destruct (shr_m (shr_1 (Build_shr_record (Zpos mp) false false)))
        as [|m2|m2] eqn:E2; [discriminate Hs| |discriminate Hs].
      assert ((e + Z.pos p + 1 <=? emax - prec) = true) as ->
        by (unfold emax, prec; lia).
      exists m2, (e + Zpos p + 1). split; [reflexivity|]. split; [lia|].
      split; [lia|].
      replace (e + Z.pos p + 1 - e) with (1 + Z.pos p) by lia.
      rewrite Z.pow_add_r by lia. split; [|lia].
      rewrite Hs. replace (2 ^ 52 * (2 ^ 1 * 2 ^ Z.pos p)) with (Zpos mp * 2 ^ Zpos p)
        by (rewrite Hmp; lia).
      exact Hval.
Qed.

Lemma scaleUnit_pos : 0 < scaleUnit.
Proof. unfold scaleUnit. apply Z.pow_pos_nonneg; lia. Qed.

Lemma scaled_shift (m e t : Z) :
  0 <= t -> -2200 <= e - t -> scaled (m * 2 ^ t) (e - t) = scaled m e.
Proof.
  intros Ht He. unfold scaled.
  replace (e + 2200) with (t + (e - t + 2200)) by lia.
  rewrite (Z.pow_add_r 2 t) by lia. lia.
Qed.

Lemma scaled_pos (m : positive) (e : Z) : -2200 <= e -> 0 < scaled (Zpos m) e.
Proof.
  intros He. unfold scaled.
  assert (0 < 2 ^ (e + 2200)) by (apply Z.pow_pos_nonneg; lia). lia.
Qed.

(** The number of digits and the exponent of a number, from bounds on
    its value. *)
Lemma digits_exponent_bounds (m : positive) (e i j : Z) :
  -2200 <= e -> 0 <= i -> 0 <= j <= 2200 ->
  scaleUnit <= 2 ^ j * scaled (Zpos m) e ->
  scaled (Zpos m) e < 2 ^ i * scaleUnit ->
  1 - j <= Zpos (digits2_pos m) + e <= i.
Proof.
  intros He Hi Hj Hlo Hhi. unfold scaled, scaleUnit in *.
  pose proof (digits2_pos_bounds m) as [Hd1 Hd2].
  set (dg := Zpos (digits2_pos m)) in *.
  assert (0 < dg) by (unfold dg; lia).
  assert (0 < 2 ^ (e + 2200)) as Hpe by (apply Z.pow_pos_nonneg; lia).
  assert (0 < 2 ^ j) as Hpj by (apply Z.pow_pos_nonneg; lia).
  set (u := 2 ^ (e + 2200)) in *. set (U := 2 ^ 2200) in *.
  split.
  - assert (U < 2 ^ (j + dg + e + 2200)) as H1.
    { replace (j + dg + e + 2200) with (j + (dg + (e + 2200))) by lia.
      rewrite !Z.pow_add_r by lia. fold u.
      assert (Z.pos m * u < 2 ^ dg * u) as H2
        by (apply Z.mul_lt_mono_pos_r; lia).
      assert (2 ^ j * (Z.pos m * u) < 2 ^ j * (2 ^ dg * u)) as H3
        by (apply Z.mul_lt_mono_pos_l; lia).
      lia. }
    apply Z.pow_lt_mono_r_iff in H1; lia.
  - assert (2 ^ (dg - 1 + e + 2200) < 2 ^ (i + 2200)) as H1.
    { replace (dg - 1 + e + 2200) with (dg - 1 + (e + 2200)) by lia.
      rewrite (Z.pow_add_r 2 (dg - 1)), (Z.pow_add_r 2 i 2200) by lia.
      fold u. fold U.
      assert (2 ^ (dg - 1) * u <= Z.pos m * u) as H2
        by (apply Z.mul_le_mono_nonneg_r; lia).
      lia. }
    apply Z.pow_lt_mono_r_iff in H1; lia.
Qed.

Lemma binary_round_aux_scaled (s : bool) (m : positive) (e : Z) :
  -2200 <= e ->
  -1074 <= Zpos (digits2_pos m) + e - 53 ->
  Zpos (digits2_pos m) + e <= 900 ->
  exists m' e',
    binary_round_aux prec emax s (Zpos m) e loc_Exact = S754_finite s m' e'
    /\ -1074 <= e'
    /\ 2 ^ 52 * Z.abs (scaled (Zpos m') e' - scaled (Zpos m) e) <= scaled (Zpos m) e
    /\ (Zpos (digits2_pos m) <= 53 -> m' = m /\ e' = e).
Proof.
  intros He Hn Hhi.
  destruct (binary_round_aux_finite s m e Hn Hhi) as (m' & e' & Hr & Hee & He' & Hv & Hx);
    [lia|].
  exists m', e'. split; [exact Hr|]. split; [exact He'|]. split; [|exact Hx].
  unfold scaled.
  replace (e' + 2200) with ((e' - e) + (e + 2200)) by lia.
  rewrite Z.pow_add_r by lia.
  assert (0 < 2 ^ (e + 2200)) as Hpe by (apply Z.pow_pos_nonneg; lia).
  set (u := 2 ^ (e + 2200)) in *. set (v := Zpos m' * 2 ^ (e' - e)) in *.
  replace (Z.pos m' * (2 ^ (e' - e) * u) - Z.pos m * u) with ((v - Zpos m) * u)
    by (unfold v; lia).
  rewrite Z.abs_mul, (Z.abs_eq u) by lia. nia.
Qed.

Lemma binary_round_scaled (s : bool) (m : positive) (e : Z) :
  -1074 <= e ->
  -1074 <= Zpos (digits2_pos m) + e - 53 ->
  Zpos (digits2_pos m) + e <= 900 ->
  exists m' e',
    binary_round prec emax s m e = S754_finite s m' e'
    /\ -1074 <= e'
    /\ 2 ^ 52 * Z.abs (scaled (Zpos m') e' - scaled (Zpos m) e) <= scaled (Zpos m) e
    /\ (Zpos (digits2_pos m) <= 53 -> scaled (Zpos m') e' = scaled (Zpos m) e).
Proof.
  intros He Hn Hhi. unfold binary_round.
  pose proof (digits2_pos_bounds m) as [Hd1 Hd2].
  assert (0 < Zpos (digits2_pos m)) as Hdg by lia.
  rewrite fexp_normal by done. unfold shl_align.
  replace (Z.pos (digits2_pos m) + e - 53 - e) with (Z.pos (digits2_pos m) - 53)
    by lia.
  destruct (Z.pos (digits2_pos m) - 53) as [|p|p] eqn:Ep.
  - destruct (binary_round_aux_scaled s m e) as (m' & e' & Hr & He' & Hv & Hx);
      [lia|lia|lia|].
    exists m', e'. split; [exact Hr|]. split; [exact He'|]. split; [exact Hv|].
    intros _. destruct Hx as [-> ->]; [lia|reflexivity].
  - destruct (binary_round_aux_scaled s m e) as (m' & e' & Hr & He' & Hv & Hx);
      [lia|lia|lia|].
    exists m', e'. split; [exact Hr|]. split; [exact He'|]. split; [exact Hv|].
    intros Hle. lia.
  - set (mz := Pos.iter xO m p).
    assert (Zpos mz = Zpos m * 2 ^ Zpos p) as Hmz by apply iter_xO.
    assert (Zpos (digits2_pos mz) = 53) as Hdz.
    { apply digits2_pos_unique. rewrite Hmz.
      assert (0 < 2 ^ Zpos p) by (apply Z.pow_pos_nonneg; lia).
      assert (2 ^ 53 = 2 ^ Zpos (digits2_pos m) * 2 ^ Zpos p) as ->
        by (rewrite <- Z.pow_add_r by lia; f_equal; lia).
      assert (2 ^ (53 - 1) = 2 ^ (Zpos (digits2_pos m) - 1) * 2 ^ Zpos p) as ->
        by (rewrite <- Z.pow_add_r by lia; f_equal; lia).
      split; [apply Z.mul_le_mono_nonneg_r; lia|apply Z.mul_lt_mono_pos_r; lia]. }
    destruct (binary_round_aux_scaled s mz (Zpos (digits2_pos m) + e - 53))
      as (m' & e' & Hr & He' & Hv & Hx); [lia|lia|lia|].
    destruct Hx as [-> ->]; [lia|].
    exists mz, (Zpos (digits2_pos m) + e - 53). split; [exact Hr|].
    split; [lia|].
    assert (scaled (Zpos mz) (Zpos (digits2_pos m) + e - 53) = scaled (Zpos m) e) as ->.
    { rewrite Hmz.
      replace (Zpos (digits2_pos m) + e - 53) with (e - Zpos p) by lia.
      apply scaled_shift; lia. }
    rewrite Z.sub_diag. cbn [Z.abs].
    pose proof (scaled_pos m e ltac:(lia)). split; [lia|reflexivity].
Qed.

Lemma scaled_add (a b e : Z) : scaled (a + b) e = scaled a e + scaled b e.
Proof. unfold scaled. lia. Qed.

Lemma scaled_mul (ma mc ea ec : Z) :
  ec <= 0 -> -2200 <= ea + ec ->
  2 ^ (- ec) * scaled (ma * mc) (ea + ec) = mc * scaled ma ea.
Proof.
  intros Hc He. unfold scaled.
  replace (ea + 2200) with (- ec + (ea + ec + 2200)) by lia.
  rewrite (Z.pow_add_r 2 (- ec)) by lia. lia.
Qed.

Lemma shl_align_fst (mx : positive) (ex ez : Z) :
  ez <= ex -> Zpos (fst (shl_align mx ex ez)) = Zpos mx * 2 ^ (ex - ez).
Proof.
  intros He. unfold shl_align.
  destruct (ez - ex) as [|p|p] eqn:E; cbn [fst].
  - replace (ex - ez) with 0 by lia. lia.
  - lia.
  - rewrite iter_xO. f_equal. f_equal. lia.
Qed.

Lemma SF64mul_scaled (ma mc : positive) (ea ec i j : Z) :
  -1074 <= ea -> -1074 <= ec <= 0 ->
  0 <= i <= 900 -> 0 <= j <= 1000 ->
  scaleUnit <= 2 ^ j * scaled (Zpos (ma * mc)) (ea + ec) ->
  scaled (Zpos (ma * mc)) (ea + ec) < 2 ^ i * scaleUnit ->
  exists m' e',
    SF64mul (S754_finite false ma ea) (S754_finite false mc ec)
    = S754_finite false m' e'
    /\ -1074 <= e'
    /\ 2 ^ 52 * Z.abs (scaled (Zpos m') e' - scaled (Zpos (ma * mc)) (ea + ec))
       <= scaled (Zpos (ma * mc)) (ea + ec).
Proof.
  intros Ha Hc Hi Hj Hlo Hhi. unfold SF64mul, SFmul. cbn [xorb].
  destruct (digits_exponent_bounds (ma * mc) (ea + ec) i j) as [Hd1 Hd2];
    [lia|lia|lia|done|done|].
  destruct (binary_round_aux_scaled false (ma * mc) (ea + ec))
    as (m' & e' & Hr & He' & Hv & _); [lia|lia|lia|].
  exists m', e'. done.
Qed.

Lemma SF64add_scaled (mp mq : positive) (ep eq i j : Z) :
  -1074 <= ep -> -1074 <= eq ->
  0 <= i <= 900 -> 0 <= j <= 1000 ->
  scaleUnit <= 2 ^ j * (scaled (Zpos mp) ep + scaled (Zpos mq) eq) ->
  scaled (Zpos mp) ep + scaled (Zpos mq) eq < 2 ^ i * scaleUnit ->
  exists m' e',
    SF64add (S754_finite false mp ep) (S754_finite false mq eq)
    = S754_finite false m' e'
    /\ -1074 <= e'
    /\ 2 ^ 52 * Z.abs (scaled (Zpos m') e'
                       - (scaled (Zpos mp) ep + scaled (Zpos mq) eq))
       <= scaled (Zpos mp) ep + scaled (Zpos mq) eq.
Proof.
  intros Hp Hq Hi Hj Hlo Hhi. unfold SF64add, SFadd. cbn [cond_Zopp].
  set (ez := Z.min ep eq).
  rewrite !shl_align_fst by (unfold ez; lia).
  assert (0 < 2 ^ (ep - ez)) by (apply Z.pow_pos_nonneg; unfold ez; lia).
  assert (0 < 2 ^ (eq - ez)) by (apply Z.pow_pos_nonneg; unfold ez; lia).
  assert (scaled (Zpos mp * 2 ^ (ep - ez) + Zpos mq * 2 ^ (eq - ez)) ez
          = scaled (Zpos mp) ep + scaled (Zpos mq) eq) as Hs.
  { rewrite scaled_add.
    rewrite <- (scaled_shift (Zpos mp) ep (ep - ez)) by (unfold ez; lia).
    rewrite <- (scaled_shift (Zpos mq) eq (eq - ez)) by (unfold ez; lia).
    f_equal; f_equal; lia. }
  destruct (Zpos mp * 2 ^ (ep - ez) + Zpos mq * 2 ^ (eq - ez)) as [|ms|ms] eqn:Es;
    [lia| |lia].
  cbn [binary_normalize]. rewrite <- Hs in *.
  destruct (digits_exponent_bounds ms ez i j) as [Hd1 Hd2];
    [unfold ez; lia|lia|lia|done|done|].
  destruct (binary_round_scaled false ms ez)
    as (m' & e' & Hr & He' & Hv & _); [unfold ez; lia|lia|lia|].
  exists m', e'. done.
Qed.

Lemma int64_of_float64_finite (f : float) (m : positive) (e : Z) :
  Prim2SF f = S754_finite false m e -> -1074 <= e ->
  exists v,
    0 <= v
    /\ v * scaleUnit <= scaled (Zpos m) e < (v + 1) * scaleUnit
    /\ (v < 2 ^ 63 -> int64_of_float64 f = v).
Proof.
  intros Hf He. unfold int64_of_float64. rewrite Hf.
  unfold scaled, scaleUnit.
  destruct (Z.leb_spec 0 e) as [Hpos|Hneg].
  - exists (Zpos m * 2 ^ e).
    assert (0 < 2 ^ e) by (apply Z.pow_pos_nonneg; lia).
    split; [lia|]. rewrite Z.pow_add_r by lia.
    assert (0 < 2 ^ 2200) by (apply Z.pow_pos_nonneg; lia).
    split; [nia|]. intros Hv. rewrite Z.shiftl_mul_pow2 by lia.
    destruct (Z.leb_spec (- 2 ^ 63) (Zpos m * 2 ^ e)); [|lia].
    destruct (Z.ltb_spec (Zpos m * 2 ^ e) (2 ^ 63)); [reflexivity|lia].
  - exists (Zpos m / 2 ^ (- e)).
    assert (0 < 2 ^ (- e)) as Hp by (apply Z.pow_pos_nonneg; lia).
    assert (0 < 2 ^ (e + 2200)) as Hu by (apply Z.pow_pos_nonneg; lia).
    assert (2 ^ 2200 = 2 ^ (- e) * 2 ^ (e + 2200)) as ->
      by (rewrite <- Z.pow_add_r by lia; f_equal; lia).
    set (q := Zpos m / 2 ^ (- e)).
    assert (0 <= q) as Hq0 by (apply Z.div_pos; lia).
    assert (q * 2 ^ (- e) <= Zpos m < (q + 1) * 2 ^ (- e)) as [Hq1 Hq2].
    { unfold q. split.
      - rewrite Z.mul_comm. apply Z.mul_div_le. lia.
      - rewrite Z.mul_comm. apply Z.mul_succ_div_gt. lia. }
    split; [exact Hq0|]. split.
    + split.
      * rewrite Z.mul_assoc. apply Z.mul_le_mono_nonneg_r; lia.
      * rewrite Z.mul_assoc. apply Z.mul_lt_mono_pos_r; lia.
    + intros Hv. rewrite Z.shiftr_div_pow2 by lia. fold q.
      destruct (Z.leb_spec (- 2 ^ 63) q); [|lia].
      destruct (Z.ltb_spec q (2 ^ 63)); [reflexivity|lia].
Qed.

#[warnings="-inexact-float"]
Lemma Prim2SF_four_fifths :
  Prim2SF 0.8%float = S754_finite false 7205759403792794 (-53).
Proof. vm_compute. reflexivity. Qed.

#[warnings="-inexact-float"]
Lemma Prim2SF_one_fifth :
  Prim2SF 0.2%float = S754_finite false 7205759403792794 (-55).
Proof. vm_compute. reflexivity. Qed.

Lemma float64_of_int64_exact (x : Z) :
  0 < x < 2 ^ 53 ->
  exists m e,
    Prim2SF (float64_of_int64 x) = S754_finite false m e
    /\ -1074 <= e
    /\ scaled (Zpos m) e = x * scaleUnit.
Proof.
  intros Hx. unfold float64_of_int64.
  destruct (Z.ltb_spec x 0); [lia|].
  rewrite of_uint63_spec, Uint63.of_Z_spec.
  rewrite Z.mod_small by (change wB with (2 ^ 63); lia).
  destruct x as [|p|p]; [lia| |lia]. cbn [binary_normalize].
  pose proof (digits2_pos_bounds p) as [Hd1 Hd2].
  assert (Zpos (digits2_pos p) <= 53) as Hd.
  { assert (2 ^ (Zpos (digits2_pos p) - 1) < 2 ^ 53) as H1 by lia.
    apply Z.pow_lt_mono_r_iff in H1; lia. }
  destruct (binary_round_scaled false p 0) as (m & e & Hr & He & _ & Hv);
    [lia|lia|lia|].
  exists m, e. split; [exact Hr|]. split; [exact He|].
  rewrite (Hv Hd). reflexivity.
Qed.

Lemma float64_of_int64_zero : Prim2SF (float64_of_int64 0) = S754_zero false.
Proof. vm_compute. reflexivity. Qed.

Lemma blend_arith (U L d P Q SP SQ SS v : Z) :
  0 < U -> 0 < L <= 2 ^ 48 -> 0 <= d <= 2 ^ 48 ->
  2 ^ 53 * P = 7205759403792794 * (L * U) ->
  2 ^ 55 * Q = 7205759403792794 * (d * U) ->
  2 ^ 52 * Z.abs (SP - P) <= P ->
  2 ^ 52 * Z.abs (SQ - Q) <= Q ->
  2 ^ 52 * Z.abs (SS - (SP + SQ)) <= SP + SQ ->
  v * U <= SS < (v + 1) * U ->
  4 * L + d - 5 <= 5 * v <= 4 * L + d.
Proof.
  intros HU HL Hd HP HQ HSP HSQ HSS [Hv1 Hv2].
  assert (U <= L * U <= 2 ^ 48 * U) as HLU by nia.
  assert (0 <= d * U <= 2 ^ 48 * U) as HdU by nia.
  replace ((v + 1) * U) with (v * U + U) in Hv2 by ring.
  set (LU := L * U) in *. set (dU := d * U) in *. set (vU := v * U) in *.
  assert (5 * vU < 4 * LU + dU + U) as Hup by lia.
  assert (4 * LU + dU - U <= 5 * (vU + U)) as Hdown by lia.
  split.
  - assert ((4 * L + d - 6) * U < (5 * v) * U) as H
      by (unfold LU, dU, vU in *; lia).
    apply Z.mul_lt_mono_pos_r in H; lia.
  - assert ((5 * v) * U < (4 * L + d + 1) * U) as H
      by (unfold LU, dU, vU in *; lia).
    apply Z.mul_lt_mono_pos_r in H; lia.
Qed.

Lemma Prim2SF_mul (x y : float) (X Y : spec_float) :
  Prim2SF x = X -> Prim2SF y = Y -> Prim2SF (PrimFloat.mul x y) = SF64mul X Y.
Proof. intros <- <-. apply FloatAxioms.mul_spec. Qed.

Lemma Prim2SF_add (x y : float) (X Y : spec_float) :
  Prim2SF x = X -> Prim2SF y = Y -> Prim2SF (PrimFloat.add x y) = SF64add X Y.
Proof. intros <- <-. apply FloatAxioms.add_spec. Qed.

(** The blend in integers: for an average and a sample of up to
    [2 ^ 48] ns (more than three days) the result is the integer part
    of [(4 * L + d) / 5], or one nanosecond less. *)
Lemma ewmaBlend_enclosure (L d : Z) :
  0 < L <= 2 ^ 48 -> 0 <= d <= 2 ^ 48 ->
  4 * L + d - 5 <= 5 * ewmaBlend L d <= 4 * L + d.
Proof.
  intros HL Hd. unfold ewmaBlend.
  pose proof scaleUnit_pos as HU.
  assert (scaleUnit <= L * scaleUnit <= 2 ^ 48 * scaleUnit) as HLU by nia.
  assert (0 <= d * scaleUnit <= 2 ^ 48 * scaleUnit) as HdU by nia.
  (* the old average, converted and multiplied *)
  destruct (float64_of_int64_exact L) as (ma & ea & Ha & Hea & HSa); [lia|].
  pose proof (scaled_mul (Zpos ma) 7205759403792794 ea (-53)) as HP.
  rewrite HSa in HP. change (- -53) with 53 in HP.
  specialize (HP ltac:(lia) ltac:(lia)).
  change (Zpos ma * 7205759403792794) with (Zpos (ma * 7205759403792794)) in HP.
  destruct (SF64mul_scaled ma 7205759403792794 ea (-53) 48 1)
    as (mp & ep & Hp & Hep & HSp); [lia|lia|lia|lia|lia|lia|].
  set (P := scaled (Zpos (ma * 7205759403792794)) (ea + -53)) in *.
  pose proof (Prim2SF_mul _ _ _ _ Ha Prim2SF_four_fifths) as Hmul1.
  rewrite Hp in Hmul1.
  destruct (Z.eq_dec d 0) as [->|Hd0].
  - (* no second term *)
    pose proof (Prim2SF_mul _ _ _ _ float64_of_int64_zero Prim2SF_one_fifth)
      as Hmul2.
    pose proof (Prim2SF_add _ _ _ _ Hmul1 Hmul2) as Hadd.
    change (SF64add _ _) with (S754_finite false mp ep) in Hadd.
    destruct (int64_of_float64_finite _ mp ep Hadd Hep) as (v & Hv0 & Hv & Hres).
    assert (4 * L + 0 - 5 <= 5 * v <= 4 * L + 0) as Hbound.
    { pose proof (scaled_pos mp ep ltac:(lia)).
      apply (blend_arith scaleUnit L 0 P 0 (scaled (Zpos mp) ep) 0
               (scaled (Zpos mp) ep) v); lia. }
    rewrite Hres by lia. exact Hbound.
  - destruct (float64_of_int64_exact d) as (mb & eb & Hb & Heb & HSb); [lia|].
    pose proof (scaled_mul (Zpos mb) 7205759403792794 eb (-55)) as HQ.
    rewrite HSb in HQ. change (- -55) with 55 in HQ.
    specialize (HQ ltac:(lia) ltac:(lia)).
    change (Zpos mb * 7205759403792794) with (Zpos (mb * 7205759403792794)) in HQ.
    assert (scaleUnit <= d * scaleUnit) as HdU' by nia.
    destruct (SF64mul_scaled mb 7205759403792794 eb (-55) 48 3)
      as (mq & eq & Hq & Heq & HSq); [lia|lia|lia|lia|lia|lia|].
    set (Q := scaled (Zpos (mb * 7205759403792794)) (eb + -55)) in *.
    pose proof (Prim2SF_mul _ _ _ _ Hb Prim2SF_one_fifth) as Hmul2.
    rewrite Hq in Hmul2.
    destruct (SF64add_scaled mp mq ep eq 50 2)
      as (ms & es & Hs & Hes & HSs); [lia|lia|lia|lia|lia|lia|].
    pose proof (Prim2SF_add _ _ _ _ Hmul1 Hmul2) as Hadd.
    rewrite Hs in Hadd.
    destruct (int64_of_float64_finite _ ms es Hadd Hes) as (v & Hv0 & Hv & Hres).
    assert (4 * L + d - 5 <= 5 * v <= 4 * L + d) as Hbound
      by (apply (blend_arith scaleUnit L d P Q (scaled (Zpos mp) ep)
                   (scaled (Zpos mq) eq) (scaled (Zpos ms) es) v); done).
    rewrite Hres by lia. exact Hbound.
Qed.

(** ** Adaptive limits of the model orchestrator *)

Lemma wrap64_small (z : Z) : - 2 ^ 63 <= z < 2 ^ 63 -> wrap64 z = z.
Proof.
  intros H. unfold wrap64.
  rewrite Z.mod_small by lia. lia.
Qed.

Lemma maxInt_max (a b : Z) : maxInt a b = Z.max a b.
Proof. unfold maxInt. destruct (Z.ltb_spec b a); lia. Qed.

Lemma minInt_min (a b : Z) : minInt a b = Z.min a b.
Proof. unfold minInt. destruct (Z.ltb_spec a b); lia. Qed.

(** The limits set up by [NewManager] are positive, whatever the
    configuration (up to sixty thousand million requests per minute,
    beyond which the base interval would round to zero). *)
Lemma NewManager_base_limits (keyCount requestsPerMin tmo : Z) :
  0 <= keyCount ->
  (if requestsPerMin <=? 0 then 20 else requestsPerMin) * Z.max 1 keyCount <= Minute ->
  let m := NewManager keyCount requestsPerMin tmo in
  0 < baseInterval m /\ 1 <= baseConcurrency m /\ latencyEWMA m = 0
  /\ rateLimit m <> None /\ limiter m <> None.
Proof.
  intros Hk Hr. unfold NewManager.
  cbn [baseInterval baseConcurrency latencyEWMA rateLimit limiter].
  rewrite !maxInt_max. unfold Minute, Second in *.
  split; [|split; [lia|done]].
  apply Z.quot_str_pos.
  destruct (Z.ltb_spec 1 keyCount).
  - rewrite (Z.max_r 1 keyCount) in Hr by lia.
    rewrite wrap64_small by (destruct (Z.leb_spec requestsPerMin 0); nia).
    destruct (Z.leb_spec requestsPerMin 0); nia.
  - rewrite (Z.max_l 1 keyCount) in Hr by lia.
    destruct (Z.leb_spec requestsPerMin 0); nia.
Qed.

(** A few values of the blend, computed in binary64: four fifths of the
    old value plus one fifth of the sample, the fraction discarded. *)
Example ewmaBlend_30s_10s : ewmaBlend (30 * Second) (10 * Second) = 26 * Second.
Proof. vm_compute. reflexivity. Qed.

Example ewmaBlend_26s_1s : ewmaBlend (26 * Second) (1 * Second) = 21 * Second.
Proof. vm_compute. reflexivity. Qed.

Example ewmaBlend_odd : ewmaBlend 12345678901 98765432101 = 29629629541.
Proof. vm_compute. reflexivity. Qed.

(** On the grid of latencies the blend is exactly the integer part of
    [(4 * L + d) / 5]. *)
Example ewmaBlend_on_grid :
  forallb (fun L => forallb (fun d => ewmaBlend L d =? (4 * L + d) / 5) latencyGrid)
          latencyGrid = true.
Proof. vm_compute. reflexivity. Qed.

(** C1.  After a completed call of duration [d], [adjustLimits] sets the
    latency average to [d] when the average is still zero (no sample was
    recorded yet) and otherwise to the blend [0.8 * L + 0.2 * d] of the
    old average [L] and the sample, computed in binary64 (both operands
    converted, each operation rounded on its own) and cut to whole
    nanoseconds: for an average and a sample of up to [2 ^ 48] ns this
    is the integer part of [(4 * L + d) / 5] or one nanosecond less.
    With the new average above 25 s the pacer interval becomes the
    larger of the base interval and half the average, and the
    concurrency cap the larger of 1 and half the base concurrency, or 1
    when the average is also above 40 s; with the average at 25 s or
    below, the base interval and the base concurrency are restored. *)
#[warnings="-inexact-float"] Theorem adjustLimits_adaptation (m : Manager) (rl : rateLimiter)
    (cl : concurrencyLimiter) (d : Z) :
  rateLimit m = Some rl -> limiter m = Some cl ->
  0 < baseInterval m -> 1 <= baseConcurrency m ->
  let m' := adjustLimits m d in
  let L := latencyEWMA m' in
  L = (if latencyEWMA m =? 0 then d
       else int64_of_float64
              (PrimFloat.add
                 (PrimFloat.mul (float64_of_int64 (latencyEWMA m)) 0.8%float)
                 (PrimFloat.mul (float64_of_int64 d) 0.2%float)))
  /\ (0 < latencyEWMA m <= 2 ^ 48 -> 0 <= d <= 2 ^ 48 ->
      (4 * latencyEWMA m + d) / 5 - 1 <= L <= (4 * latencyEWMA m + d) / 5)
  /\ baseInterval m' = baseInterval m
  /\ baseConcurrency m' = baseConcurrency m
  /\ (25 * Second < L ->
      rateLimit m' =
        Some (mkRateLimiter (Z.max (baseInterval m) (Z.quot L 2))
                            (rl_last rl) (rl_closed rl))
      /\ limiter m' =
        Some (mkConcurrencyLimiter (cl_inflight cl)
                (if 40 * Second <? L then 1
                 else Z.max 1 (Z.quot (baseConcurrency m) 2))))
  /\ (L <= 25 * Second ->
      rateLimit m' =
        Some (mkRateLimiter (baseInterval m) (rl_last rl) (rl_closed rl))
      /\ limiter m' =
        Some (mkConcurrencyLimiter (cl_inflight cl) (baseConcurrency m))).
Proof.
  intros Hrl Hcl Hbi Hbc. cbv zeta. unfold adjustLimits.
  set (L := if latencyEWMA m =? 0 then d else ewmaBlend (latencyEWMA m) d).
  assert (0 < latencyEWMA m <= 2 ^ 48 -> 0 <= d <= 2 ^ 48 ->
          (4 * latencyEWMA m + d) / 5 - 1 <= L <= (4 * latencyEWMA m + d) / 5)
    as Henc.
  { intros HL Hd. unfold L.
    destruct (Z.eqb_spec (latencyEWMA m) 0); [lia|].
    pose proof (ewmaBlend_enclosure (latencyEWMA m) d HL Hd).
    pose proof (Z.div_mod (4 * latencyEWMA m + d) 5 ltac:(lia)).
    pose proof (Z.mod_pos_bound (4 * latencyEWMA m + d) 5 ltac:(lia)).
    lia. }
  rewrite Hrl, Hcl. unfold Second in *.
  destruct (Z.ltb_spec (25 * 1000000000) L) as [Hhi|Hlo].
  - cbn [latencyEWMA baseInterval baseConcurrency rateLimit limiter].
    split; [reflexivity|]. split; [exact Henc|]. split; [done|]. split; [done|].
    split; [|lia]. intros _.
    assert (12500000000 <= Z.quot L 2) as Hq.
    { apply Z.quot_le_lower_bound; lia. }
    split.
    + unfold UpdateInterval.
      destruct (Z.ltb_spec (Z.quot L 2) (baseInterval m)).
      * destruct (Z.leb_spec (baseInterval m) 0); [lia|]. do 2 f_equal. lia.
      * destruct (Z.leb_spec (Z.quot L 2) 0); [lia|]. do 2 f_equal. lia.
    + unfold UpdateMax. rewrite maxInt_max.
      destruct (Z.ltb_spec (40 * 1000000000) L); [done|].
      destruct (Z.leb_spec (Z.max 1 (Z.quot (baseConcurrency m) 2)) 0); [lia|done].
  - cbn [latencyEWMA baseInterval baseConcurrency rateLimit limiter].
    split; [reflexivity|]. split; [exact Henc|]. split; [done|]. split; [done|].
    split; [lia|]. intros _.
    destruct (Z.ltb_spec (40 * 1000000000) L); [lia|].
    split.
    + unfold UpdateInterval. destruct (Z.leb_spec (baseInterval m) 0); [lia|done].
    + unfold UpdateMax. destruct (Z.leb_spec (baseConcurrency m) 0); [lia|done].
Qed.

Lemma adjustLimits_adaptation_witness :
  let m1 := adjustLimits (NewManager 1 20 0) (30 * Second) in
  let m2 := adjustLimits m1 (10 * Second) in
  latencyEWMA m1 = 30 * Second
  /\ latencyEWMA m2 = 26 * Second
  /\ rateLimit m2 = Some (mkRateLimiter (13 * Second) 0 false)
  /\ limiter m2 = Some (mkConcurrencyLimiter 0 1).
Proof.
  cbv zeta.
  pose proof (adjustLimits_adaptation (NewManager 1 20 0)
                (newRateLimiter 20) (newConcurrencyLimiter 2) (30 * Second)
                eq_refl eq_refl eq_refl ltac:(discriminate))
    as (HL1 & _).
  pose proof (adjustLimits_adaptation
                (adjustLimits (NewManager 1 20 0) (30 * Second))
                (mkRateLimiter (15 * Second) 0 false) (mkConcurrencyLimiter 0 1)
                (10 * Second)
                eq_refl eq_refl eq_refl ltac:(discriminate))
    as (HL2 & _ & _ & _ & Hhi & _).
  cbv zeta in *.
  assert (latencyEWMA (adjustLimits (adjustLimits (NewManager 1 20 0) (30 * Second))
                                    (10 * Second)) = 26 * Second) as H26
    by (rewrite HL2; vm_compute; reflexivity).
  split; [exact HL1|]. split; [exact H26|].
  rewrite H26 in Hhi. apply Hhi. reflexivity.
Defined.

(** ** The call graph *)

Section CallGraph.

Variable rangeMap : forall A : Type, gmap Z A -> list (Z * A).

Hypothesis rangeMap_perm :
  forall (A : Type) (m : gmap Z A), rangeMap A m ≡ₚ map_to_list m.

Lemma rangeMap_NoDup_keys (A : Type) (m : gmap Z A) : NoDup (rangeMap A m).*1.
Proof.
  rewrite (rangeMap_perm A m). apply NoDup_fst_map_to_list.
Qed.

Lemma rangeMap_lookup (A : Type) (m : gmap Z A) (k : Z) (x : A) :
  (k, x) ∈ rangeMap A m <-> m !! k = Some x.
Proof. rewrite (rangeMap_perm A m). apply elem_of_map_to_list. Qed.

Lemma idsAt_insert (m : gmap Z (list Z)) (k k' : Z) (v : list Z) :
  idsAt (<[k := v]> m) k' = if decide (k = k') then v else idsAt m k'.
Proof.
  unfold idsAt. destruct (decide (k = k')) as [->|Hne].
  - by rewrite lookup_insert_eq.
  - by rewrite lookup_insert_ne.
Qed.

(** The callers after one function was handled: what was there, and the
    function itself at each of its callees. *)
Lemma callers_after (funcID : Z) (callees : list Z) (callers : gmap Z (list Z))
    (i j : Z) :
  j ∈ idsAt (fold_left (fun callers calleeID =>
                          <[calleeID := idsAt callers calleeID ++ [funcID]]> callers)
                       callees callers) i
  <-> j ∈ idsAt callers i \/ (j = funcID /\ i ∈ callees).
Proof.
  revert callers. induction callees as [|c callees IH]; intros callers; cbn [fold_left].
  - rewrite elem_of_nil. tauto.
  - rewrite IH, idsAt_insert, elem_of_cons.
    destruct (decide (c = i)) as [->|Hne].
    + rewrite elem_of_app, list_elem_of_singleton. tauto.
    + split; [|intros [?|[? [?|?]]]; auto; congruence]. tauto.
Qed.

Lemma recordCalls_consistent (fns : gmap Z Node) (handled : list Z)
    (acc : gmap Z (list Z) * gmap Z (list Z)) (entry : Z * Node) :
  entry.1 ∉ handled ->
  callsConsistent handled acc ->
  callsConsistent (handled ++ [entry.1]) (recordCalls fns acc entry).
Proof.
  destruct entry as [f node]. cbn [fst]. intros Hnew (Hiff & Hdom & Hcod).
  unfold recordCalls, callsConsistent. cbn [fst snd].
  split; [|split].
  - intros i j. rewrite callers_after, idsAt_insert.
    destruct (decide (f = j)) as [<-|Hne].
    + split; [auto|]. intros [Hin|[_ ?]]; [|done].
      apply Hcod in Hin. done.
    + rewrite Hiff. split; [auto|]. intros [?|[? _]]; [done|congruence].
  - intros j Hj. rewrite elem_of_app, list_elem_of_singleton in Hj.
    rewrite lookup_insert_ne by (intros ->; tauto). apply Hdom. tauto.
  - intros i j. rewrite callers_after, elem_of_app, list_elem_of_singleton.
    intros [Hin|[-> _]]; [left; eauto | by right].
Qed.

Lemma secondPass_consistent (fns : gmap Z Node) (entries : list (Z * Node))
    (handled : list Z) (acc : gmap Z (list Z) * gmap Z (list Z)) :
  NoDup (handled ++ entries.*1) ->
  callsConsistent handled acc ->
  callsConsistent (handled ++ entries.*1) (fold_left (recordCalls fns) entries acc).
Proof.
  revert handled acc. induction entries as [|e entries IH]; intros handled acc Hnd Hc.
  - cbn. by rewrite app_nil_r.
  - cbn [fold_left fmap list_fmap]. 
    replace (handled ++ e.1 :: entries.*1) with ((handled ++ [e.1]) ++ entries.*1)
      by (rewrite <- app_assoc; reflexivity).
    apply IH.
    + rewrite <- app_assoc. exact Hnd.
    + apply recordCalls_consistent; [|done].
      cbn in Hnd. apply NoDup_app in Hnd as (_ & Hdisj & _).
      intros Hin. apply (Hdisj _ Hin). left.
Qed.

Lemma BuildCallGraph_consistent (ps : ParsedSource) (i j : Z) :
  let cg := BuildCallGraph rangeMap ps in
  i ∈ idsAt (Callees cg) j <-> j ∈ idsAt (Callers cg) i.
Proof.
  cbv zeta. unfold BuildCallGraph.
  destruct (collectFunctions (AST ps)) as [fns refs].
  pose proof (secondPass_consistent fns (rangeMap Node fns) [] (∅, ∅)) as H.
  destruct (fold_left (recordCalls fns) (rangeMap Node fns) (∅, ∅))
    as [callees callers].
  cbn [Callees Callers].
  destruct H as (Hiff & _); [apply rangeMap_NoDup_keys| |apply Hiff].
  split; [|split]; cbn.
  - intros i' j'. unfold idsAt. rewrite !lookup_empty. cbn. rewrite !elem_of_nil. tauto.
  - done.
  - intros i' j'. unfold idsAt. rewrite lookup_empty. cbn. by rewrite elem_of_nil.
Qed.

End CallGraph.

Lemma fold_left_invariant {A B : Type} (P : A -> Prop) (f : A -> B -> A)
    (l : list B) (a : A) :
  P a -> (forall a x, x ∈ l -> P a -> P (f a x)) -> P (fold_left f l a).
Proof.
  revert a. induction l as [|x l IH]; intros a Ha Hstep; [done|].
  cbn. apply IH.
  - apply Hstep; [left | done].
  - intros a' x' Hx'. apply Hstep. by right.
Qed.

(** The first pass only records implemented function definitions that
    sit directly under a contract definition, each under its own id. *)
Lemma collectFunctions_sound (ast : list Node) (k : Z) (n : Node) :
  (collectFunctions ast).1 !! k = Some n ->
  exists c, c ∈ ast /\ NodeType c = lit "ContractDefinition"
            /\ n ∈ Nodes c /\ NodeType n = lit "FunctionDefinition"
            /\ Implemented n = true /\ ID n = k.
Proof.
  unfold collectFunctions. revert k n.
  apply (fold_left_invariant
           (fun acc : gmap Z Node * gmap Z FunctionRef =>
              forall k n, acc.1 !! k = Some n ->
                exists c, c ∈ ast /\ NodeType c = lit "ContractDefinition"
                          /\ n ∈ Nodes c /\ NodeType n = lit "FunctionDefinition"
                          /\ Implemented n = true /\ ID n = k)).
  - intros k n H. cbn in H. by rewrite lookup_empty in H.
  - intros acc c Hc Hacc.
    case_bool_decide as Hty; [|done].
    apply fold_left_invariant; [done|].
    intros acc' sub Hsub Hacc'.
    destruct (bool_decide (NodeType sub = lit "FunctionDefinition")) eqn:Hf;
      [|done].
    destruct (Implemented sub) eqn:Himpl; [|done].
    cbn [andb fst]. intros k n.
    destruct (decide (ID sub = k)) as [<-|Hne].
    + rewrite lookup_insert_eq. intros [= <-].
      apply bool_decide_eq_true in Hf. exists c. done.
    + rewrite lookup_insert_ne by done. apply Hacc'.
Qed.

Lemma BuildCallGraph_Functions
    (rm : forall A : Type, gmap Z A -> list (Z * A)) (ps : ParsedSource) :
  Functions (BuildCallGraph rm ps) = (collectFunctions (AST ps)).1.
Proof.
  unfold BuildCallGraph. destruct (collectFunctions (AST ps)) as [fns refs].
  by destruct (fold_left (recordCalls fns) (rm Node fns) (∅, ∅)).
Qed.

(** C2.  In the call graph built by [BuildCallGraph], whatever the order
    in which the map of functions is ranged over, the functions are
    implemented function definitions found directly under contract
    definitions, and for all ids [i] and [j], [i] is among the callees of
    [j] exactly when [j] is among the callers of [i]. *)
Theorem BuildCallGraph_callees_iff_callers
    (rangeAny : forall A : Type, gmap Z A -> list (Z * A))
    (Hrange : forall (A : Type) (m : gmap Z A), rangeAny A m ≡ₚ map_to_list m)
    (ps : ParsedSource) :
  let cg := BuildCallGraph rangeAny ps in
  (forall k n, Functions cg !! k = Some n ->
     exists c, c ∈ AST ps /\ NodeType c = lit "ContractDefinition"
               /\ n ∈ Nodes c /\ NodeType n = lit "FunctionDefinition"
               /\ Implemented n = true /\ ID n = k)
  /\ (forall i j, i ∈ idsAt (Callees cg) j <-> j ∈ idsAt (Callers cg) i).
Proof.
  cbv zeta. split.
  - intros k n. rewrite BuildCallGraph_Functions. apply collectFunctions_sound.
  - intros i j. by apply BuildCallGraph_consistent.
Qed.

Lemma BuildCallGraph_callees_iff_callers_witness :
  let cg := BuildCallGraph rangeInOrder (chainSource 3) in
  idsAt (Callees cg) 1 = [2] /\ idsAt (Callers cg) 2 = [1]
  /\ (2 ∈ idsAt (Callees cg) 1 <-> 1 ∈ idsAt (Callers cg) 2).
Proof.
  cbv zeta. split; [vm_compute; reflexivity|]. split; [vm_compute; reflexivity|].
  apply (BuildCallGraph_callees_iff_callers rangeInOrder
           (fun A m => reflexivity (map_to_list m)) (chainSource 3)).
Defined.

(** ** Dead-code pruning: the walk of the dependencies ends *)


Section Dependencies.

Variable ps : ParsedSource.

Lemma collectDependencies_unfold (fuel : nat) (node : Node) (visited : gmap Z Node) :
  collectDependencies fuel ps node visited
  = dependenciesBody ps (followWith fuel ps) (collectDependencies fuel ps) node visited.
Proof. destruct fuel; destruct node; reflexivity. Qed.

(** A walk that only adds marks keeps doing so along a list of nodes. *)
Lemma fold_walk_grows (walk : Node -> gmap Z Node -> gmap Z Node) (l : list Node) :
  Forall (fun n => forall v, dom v ⊆ dom (walk n v)) l ->
  forall v, dom v ⊆ dom (fold_left (fun v n => walk n v) l v).
Proof.
  induction 1 as [|n l Hn _ IH]; intros v; cbn [fold_left]; [done|].
  etrans; [apply Hn | apply IH].
Qed.

Lemma dependenciesBody_grows (follow walk : Node -> gmap Z Node -> gmap Z Node)
    (node : Node) :
  (forall n v, dom v ⊆ dom (follow n v)) ->
  (forall b, Body node = Some b -> forall v, dom v ⊆ dom (walk b v)) ->
  (forall e, Expression node = Some e -> forall v, dom v ⊆ dom (walk e v)) ->
  Forall (fun n => forall v, dom v ⊆ dom (walk n v)) (Nodes node) ->
  Forall (fun n => forall v, dom v ⊆ dom (walk n v)) (Statements node) ->
  Forall (fun n => forall v, dom v ⊆ dom (walk n v)) (Arguments node) ->
  Forall (fun n => forall v, dom v ⊆ dom (walk n v)) (Modifiers node) ->
  forall v, dom v ⊆ dom (dependenciesBody ps follow walk node v).
Proof.
  intros Hfollow Hbody Hexpr Hnodes Hstmts Hargs Hmods v.
  unfold dependenciesBody.
  set (v1 := match Body node with Some b => walk b v | None => v end).
  assert (dom v ⊆ dom v1) as H1.
  { subst v1. destruct (Body node) as [b|]; [by apply Hbody | done]. }
  set (v2 := match Expression node with Some e => walk e v1 | None => v1 end).
  assert (dom v1 ⊆ dom v2) as H2.
  { subst v2. destruct (Expression node) as [e|]; [by apply Hexpr | done]. }
  pose proof (fold_walk_grows walk _ Hnodes v2) as H3.
  set (v3 := fold_left _ (Nodes node) v2) in *.
  pose proof (fold_walk_grows walk _ Hstmts v3) as H4.
  set (v4 := fold_left _ (Statements node) v3) in *.
  pose proof (fold_walk_grows walk _ Hargs v4) as H5.
  set (v5 := fold_left _ (Arguments node) v4) in *.
  pose proof (fold_walk_grows walk _ Hmods v5) as H6.
  set (v6 := fold_left _ (Modifiers node) v5) in *.
  assert (dom v ⊆ dom v6) as H
    by (do 5 (etrans; [eassumption|]); done).
  case_bool_decide; [|done].
  destruct (v6 !! ReferencedDeclaration node); [done|].
  destruct (NodesByID ps !! ReferencedDeclaration node) as [refNode|]; [|done].
  etrans; [|apply Hfollow]. rewrite dom_insert.
  etrans; [exact H|]. apply union_subseteq_r.
Qed.

(** Marks are only added. *)
Lemma collectDependencies_grows (fuel : nat) (node : Node) (visited : gmap Z Node) :
  dom visited ⊆ dom (collectDependencies fuel ps node visited).
Proof.
  revert node visited. induction fuel as [|fuel IHfuel].
  - intros node. induction node as [node Hb He Hn Hs Ha Hm] using Node_nested_ind.
    intros visited. rewrite collectDependencies_unfold.
    by apply dependenciesBody_grows.
  - intros node. induction node as [node Hb He Hn Hs Ha Hm] using Node_nested_ind.
    intros visited. rewrite collectDependencies_unfold.
    by apply dependenciesBody_grows.
Qed.

Lemma unvisited_mono (v v' : gmap Z Node) :
  dom v ⊆ dom v' -> (size (unvisited ps v') <= size (unvisited ps v))%nat.
Proof.
  intros H. apply subseteq_size. unfold unvisited.
  intros x. rewrite !elem_of_difference. intros [Hx Hnx]. split; [done|]. auto.
Qed.

Lemma unvisited_insert (v : gmap Z Node) (k : Z) (n : Node) :
  v !! k = None -> NodesByID ps !! k = Some n ->
  (size (unvisited ps (<[k := n]> v)) < size (unvisited ps v))%nat.
Proof.
  intros Hv Hk. apply subset_size. unfold unvisited. rewrite dom_insert.
  assert (k ∈ dom (NodesByID ps)) as Hin by (apply elem_of_dom; eauto).
  assert (k ∉ dom v) as Hout by (by apply not_elem_of_dom).
  split.
  - intros x. rewrite !elem_of_difference, elem_of_union. tauto.
  - intros Hsub. specialize (Hsub k).
    rewrite !elem_of_difference, elem_of_union, elem_of_singleton in Hsub. tauto.
Qed.

(** Two walks that agree while few enough nodes are unmarked agree
    along a list of nodes. *)
Lemma fold_walk_agree (walk walk' : Node -> gmap Z Node -> gmap Z Node)
    (bound : nat) (l : list Node) :
  (forall n v, dom v ⊆ dom (walk' n v)) ->
  Forall (fun n => forall v, (size (unvisited ps v) <= bound)%nat ->
                             walk n v = walk' n v) l ->
  forall v, (size (unvisited ps v) <= bound)%nat ->
            fold_left (fun v n => walk n v) l v = fold_left (fun v n => walk' n v) l v
            /\ (size (unvisited ps (fold_left (fun v n => walk' n v) l v)) <= bound)%nat.
Proof.
  intros Hgrow. induction 1 as [|n l Hn _ IH]; intros v Hv; cbn [fold_left]; [done|].
  rewrite Hn by done. apply IH.
  pose proof (unvisited_mono v (walk' n v) (Hgrow n v)) as Hle. lia.
Qed.

Lemma dependenciesBody_agree
    (follow follow' walk walk' : Node -> gmap Z Node -> gmap Z Node)
    (bound : nat) (node : Node) :
  (forall n v, dom v ⊆ dom (walk' n v)) ->
  (forall b, Body node = Some b ->
     forall v, (size (unvisited ps v) <= bound)%nat -> walk b v = walk' b v) ->
  (forall e, Expression node = Some e ->
     forall v, (size (unvisited ps v) <= bound)%nat -> walk e v = walk' e v) ->
  Forall (fun n => forall v, (size (unvisited ps v) <= bound)%nat ->
                             walk n v = walk' n v) (Nodes node) ->
  Forall (fun n => forall v, (size (unvisited ps v) <= bound)%nat ->
                             walk n v = walk' n v) (Statements node) ->
  Forall (fun n => forall v, (size (unvisited ps v) <= bound)%nat ->
                             walk n v = walk' n v) (Arguments node) ->
  Forall (fun n => forall v, (size (unvisited ps v) <= bound)%nat ->
                             walk n v = walk' n v) (Modifiers node) ->
  (forall k n v, v !! k = None -> NodesByID ps !! k = Some n ->
     (size (unvisited ps v) <= bound)%nat ->
     follow n (<[k := n]> v) = follow' n (<[k := n]> v)) ->
  forall v, (size (unvisited ps v) <= bound)%nat ->
    dependenciesBody ps follow walk node v = dependenciesBody ps follow' walk' node v.
Proof.
  intros Hgrow Hbody Hexpr Hnodes Hstmts Hargs Hmods Hfollow v Hv.
  unfold dependenciesBody.
  assert (exists v1,
            match Body node with Some b => walk b v | None => v end = v1
            /\ match Body node with Some b => walk' b v | None => v end = v1
            /\ (size (unvisited ps v1) <= bound)%nat) as (v1 & -> & -> & Hv1).
  { destruct (Body node) as [b|]; [|by exists v].
    exists (walk' b v). split; [by apply Hbody|]. split; [done|].
    pose proof (unvisited_mono v _ (Hgrow b v)). lia. }
  assert (exists v2,
            match Expression node with Some e => walk e v1 | None => v1 end = v2
            /\ match Expression node with Some e => walk' e v1 | None => v1 end = v2
            /\ (size (unvisited ps v2) <= bound)%nat) as (v2 & -> & -> & Hv2).
  { destruct (Expression node) as [e|]; [|by exists v1].
    exists (walk' e v1). split; [by apply Hexpr|]. split; [done|].
    pose proof (unvisited_mono v1 _ (Hgrow e v1)). lia. }
  destruct (fold_walk_agree walk walk' bound _ Hgrow Hnodes v2 Hv2) as [-> Hv3].
  set (v3 := fold_left _ (Nodes node) v2) in *.
  destruct (fold_walk_agree walk walk' bound _ Hgrow Hstmts v3 Hv3) as [-> Hv4].
  set (v4 := fold_left _ (Statements node) v3) in *.
  destruct (fold_walk_agree walk walk' bound _ Hgrow Hargs v4 Hv4) as [-> Hv5].
  set (v5 := fold_left _ (Arguments node) v4) in *.
  destruct (fold_walk_agree walk walk' bound _ Hgrow Hmods v5 Hv5) as [-> Hv6].
  set (v6 := fold_left _ (Modifiers node) v5) in *.
  case_bool_decide; [|done].
  destruct (v6 !! ReferencedDeclaration node) eqn:Hvis; [done|].
  destruct (NodesByID ps !! ReferencedDeclaration node) as [refNode|] eqn:Href; [|done].
  by apply Hfollow.
Qed.

(** One more unit of fuel changes nothing once the fuel is at least the
    number of unmarked nodes. *)
Lemma collectDependencies_fuel_stable (fuel : nat) (node : Node)
    (visited : gmap Z Node) :
  (size (unvisited ps visited) <= fuel)%nat ->
  collectDependencies (S fuel) ps node visited
  = collectDependencies fuel ps node visited.
Proof.
  revert node visited. induction fuel as [|fuel IHfuel].
  - intros node. induction node as [node Hb He Hn Hs Ha Hm] using Node_nested_ind.
    intros visited Hv. rewrite !collectDependencies_unfold.
    apply (dependenciesBody_agree _ _ _ _ 0); try done.
    + intros. apply collectDependencies_grows.
    + intros k n v Hk Hn' Hsize.
      pose proof (unvisited_insert v k n Hk Hn'). lia.
  - intros node. induction node as [node Hb He Hn Hs Ha Hm] using Node_nested_ind.
    intros visited Hv. rewrite !collectDependencies_unfold.
    apply (dependenciesBody_agree _ _ _ _ (S fuel)); try done.
    + intros. apply collectDependencies_grows.
    + intros k n v Hk Hn' Hsize. cbn [followWith]. apply IHfuel.
      pose proof (unvisited_insert v k n Hk Hn'). lia.
Qed.

(** With the fuel [PruneDeadCode] gives it, the walk is the one any
    larger amount of fuel gives: no reference is left unfollowed for
    want of fuel. *)
Lemma collectDependencies_fuel_enough (extra : nat) (node : Node)
    (visited : gmap Z Node) :
  collectDependencies (dependencyFuel ps + extra) ps node visited
  = collectDependencies (dependencyFuel ps) ps node visited.
Proof.
  induction extra as [|extra IH].
  - by rewrite Nat.add_0_r.
  - rewrite Nat.add_succ_r, collectDependencies_fuel_stable; [done|].
    unfold dependencyFuel. etrans; [|apply Nat.le_add_r].
    rewrite <- (size_dom (D := gset Z)). apply subseteq_size.
    unfold unvisited. intros x. rewrite elem_of_difference. tauto.
Qed.

End Dependencies.

(** ** Depth limits of the traversals *)

Section DepthCaps.

Variable rangeAny : forall A : Type, gmap Z A -> list (Z * A).

Hypothesis rangeAny_perm :
  forall (A : Type) (m : gmap Z A), rangeAny A m ≡ₚ map_to_list m.

Variable cg : CallGraphFull.

Lemma callPath_le (n : nat) (a b : Z) : callPath cg n a b -> (1 <= n)%nat.
Proof. destruct 1; lia. Qed.

(** Whatever the helper adds to [result] is a function reached from
    [funcID] by at most [remaining] calls. *)
Lemma getCalleesRecursiveHelper_within (remaining : nat) (funcID : Z)
    (st : list Node * gset Z) (n : Node) :
  n ∈ (getCalleesRecursiveHelper cg remaining funcID st).1 ->
  n ∈ st.1 \/
  exists k d, (1 <= d <= remaining)%nat /\ callPath cg d funcID k
              /\ Functions cg !! k = Some n.
Proof.
  revert funcID st n. induction remaining as [|r IH]; intros funcID st n.
  - cbn. auto.
  - cbn [getCalleesRecursiveHelper]. revert n.
    apply (fold_left_invariant
             (fun st' : list Node * gset Z =>
                forall n, n ∈ st'.1 ->
                  n ∈ st.1 \/
                  exists k d, (1 <= d <= S r)%nat /\ callPath cg d funcID k
                              /\ Functions cg !! k = Some n)).
    + auto.
    + intros st' c Hc Hst' n.
      case_bool_decide as Hvis; [|apply Hst'].
      cbn [fst snd].
      destruct (Functions cg !! c) as [node|] eqn:Hfn; [|apply Hst'].
      intros Hn. apply IH in Hn as [Hn|(k & d & Hd & Hp & Hk)].
      * cbn [fst] in Hn. apply elem_of_app in Hn as [Hn|Hn]; [by apply Hst'|].
        apply list_elem_of_singleton in Hn as ->. right.
        exists c, 1%nat. split; [lia|]. split; [by constructor | done].
      * right. exists k, (S d). split; [lia|].
        split; [by econstructor | done].
Qed.

Lemma GetCalleesRecursive_within (funcID maxDepth : Z) (n : Node) :
  n ∈ GetCalleesRecursive cg funcID maxDepth ->
  exists k d, (1 <= d)%nat /\ Z.of_nat d <= maxDepth
              /\ callPath cg d funcID k /\ Functions cg !! k = Some n.
Proof.
  unfold GetCalleesRecursive. intros H.
  apply getCalleesRecursiveHelper_within in H as [H|(k & d & Hd & Hp & Hk)].
  - by apply elem_of_nil in H.
  - exists k, d. split; [lia|]. split; [lia | done].
Qed.

(** The related functions are callees collected from an entry point. *)
Lemma GetAllRelatedFunctions_within (maxDepth : Z) (n : Node) :
  n ∈ GetAllRelatedFunctions rangeAny cg maxDepth ->
  exists entry k d,
    entry ∈ GetPublicEntryPoints rangeAny cg
    /\ (1 <= d)%nat /\ Z.of_nat d <= maxDepth
    /\ callPath cg d (ID entry) k /\ Functions cg !! k = Some n.
Proof.
  unfold GetAllRelatedFunctions. intros H.
  apply list_elem_of_fmap in H as ([key n'] & -> & H). cbn [snd].
  rewrite (rangeAny_perm Node) in H.
  apply elem_of_map_to_list in H. revert key n' H.
  apply (fold_left_invariant
           (fun unique : gmap Z Node =>
              forall key n', unique !! key = Some n' ->
                exists entry k d,
                  entry ∈ GetPublicEntryPoints rangeAny cg
                  /\ (1 <= d)%nat /\ Z.of_nat d <= maxDepth
                  /\ callPath cg d (ID entry) k /\ Functions cg !! k = Some n')).
  - intros key n' H. by rewrite lookup_empty in H.
  - intros unique entry Hentry Hunique.
    apply fold_left_invariant; [done|].
    intros unique' callee Hcallee Hunique' key n'.
    destruct (decide (ID callee = key)) as [<-|Hne].
    + rewrite lookup_insert_eq. intros [= <-].
      apply GetCalleesRecursive_within in Hcallee as (k & d & Hd1 & Hd2 & Hp & Hk).
      exists entry, k, d. done.
    + rewrite lookup_insert_ne by done. apply Hunique'.
Qed.

(** The printer writes the lines of the call tree. *)
Lemma printCallTreeRecursive_lines (remaining : nat) (funcID : Z) (depth : nat)
    (pathVisited : gset Z) :
  printCallTreeRecursive cg remaining funcID depth pathVisited
  = flat_map renderLine (callTreeLines cg remaining funcID depth pathVisited).
Proof.
  revert funcID depth pathVisited.
  induction remaining as [|r IH]; intros funcID depth pathVisited.
  - cbn. unfold renderLine. cbn [fst snd]. rewrite app_nil_r. reflexivity.
  - cbn [printCallTreeRecursive callTreeLines].
    induction (idsAt (Callees cg) funcID) as [|c l IHl]; [done|].
    cbn [flat_map]. rewrite flat_map_app. f_equal; [|exact IHl].
    case_bool_decide.
    + cbn [flat_map]. unfold renderLine. cbn [fst snd]. rewrite app_nil_r.
      rewrite <- ?app_assoc. reflexivity.
    + cbn [flat_map]. rewrite IH. unfold renderLine at 2. cbn [fst snd].
      rewrite <- ?app_assoc. reflexivity.
Qed.

(** A line of the tree printed from depth [depth] with [remaining]
    levels left is at most [remaining] levels further down, and a line
    at that last level is the marker. *)
Lemma callTreeLines_depth (remaining : nat) (funcID : Z) (depth : nat)
    (pathVisited : gset Z) (l : nat * gostring) :
  l ∈ callTreeLines cg remaining funcID depth pathVisited ->
  (depth <= l.1 <= depth + remaining)%nat
  /\ (l.1 = (depth + remaining)%nat -> l.2 = lit "... (max depth)").
Proof.
  revert funcID depth pathVisited.
  induction remaining as [|r IH]; intros funcID depth pathVisited.
  - cbn. intros H. apply list_elem_of_singleton in H as ->. cbn. split; [lia|done].
  - cbn [callTreeLines]. intros H.
    apply list_elem_of_In, in_flat_map in H as (c & _ & H).
    apply list_elem_of_In in H.
    case_bool_decide.
    + apply list_elem_of_singleton in H as ->. cbn. split; lia.
    + apply elem_of_cons in H as [->|H]; [cbn; split; lia|].
      apply IH in H as (Hd & Hm). split; [lia|].
      intros Heq. apply Hm. lia.
Qed.

End DepthCaps.

(** *** The chain of calls *)

Lemma chainGraph8_edges (a b : Z) :
  b ∈ idsAt (Callees chainGraph8) a -> b = a + 1.
Proof.
  assert (map_Forall (fun a l => Forall (fun b => b = a + 1) l)
                     (Callees chainGraph8)) as Hall.
  { apply (bool_decide_unpack _). vm_compute. exact I. }
  unfold idsAt. destruct (Callees chainGraph8 !! a) as [l|] eqn:E; cbn.
  - intros Hb. apply Hall in E. rewrite Forall_forall in E. by apply E.
  - intros Hb. by apply elem_of_nil in Hb.
Qed.

Lemma chainGraph8_path (d : nat) (a b : Z) :
  callPath chainGraph8 d a b -> b = a + Z.of_nat d.
Proof.
  induction 1 as [a b Hb|n a c b Hc _ IH].
  - apply chainGraph8_edges in Hb. lia.
  - apply chainGraph8_edges in Hc. lia.
Qed.

(** C5, as stated, fails.  In the chain of eight functions the targeted
    pipeline (mode 1) collects the functions up to five calls away from
    the entry point, [f6] included, which no entry point reaches by three
    calls or fewer; the verified pipeline (mode 2) stops three calls
    away. *)
Lemma depth_caps_of_the_pipelines_swapped :
  map ID (mode1RelatedFuncs rangeInOrder chainGraph8) = [5; 3; 6; 4; 2]
  /\ map ID (mode2RelatedFuncs rangeInOrder chainGraph8) = [3; 4; 2]
  /\ ~ collectsWithin (mode1RelatedFuncs rangeInOrder) 3 chainGraph8.
Proof.
  split; [vm_compute; reflexivity|]. split; [vm_compute; reflexivity|].
  intros Hcap.
  destruct (Hcap (chainFunction 8 6)) as (entry & k & d & Hentry & Hd & Hpath & Hk).
  { apply (list_elem_of_lookup_2 _ 2). vm_compute. reflexivity. }
  assert (ID entry = 1) as Hid.
  { assert (GetPublicEntryPoints rangeInOrder chainGraph8 = [chainFunction 8 1]) as Heq
      by (vm_compute; reflexivity).
    rewrite Heq in Hentry. apply list_elem_of_singleton in Hentry. by subst. }
  unfold chainGraph8 in Hk. rewrite BuildCallGraph_Functions in Hk.
  apply collectFunctions_sound in Hk as (_ & _ & _ & _ & _ & _ & Hk').
  apply chainGraph8_path in Hpath. rewrite Hid in Hpath.
  cbn in Hk'. lia.
Qed.

(** C5, amended.  The depth limits are 10 for the call-tree printer, 5
    for the collection of callees in the targeted pipeline (mode 1) and
    3 for the collection of callees in the verified pipeline (mode 2):
    the tree printed for an entry point has its callee lines at depths 1
    to 10 and only the marker of the limit at depth 11, and every
    function collected is reached from an entry point by at most five,
    respectively three, calls. *)
Theorem traversal_depth_caps
    (rangeAny : forall A : Type, gmap Z A -> list (Z * A))
    (Hrange : forall (A : Type) (m : gmap Z A), rangeAny A m ≡ₚ map_to_list m)
    (cg : CallGraphFull) :
  GenerateCallGraphTree rangeAny cg
  = lit "Global Call Graph Tree:" ++ newline
    ++ flat_map
         (fun entry =>
            lit "- Entry: " ++ GetNodeName cg (ID entry) ++ newline
            ++ flat_map renderLine (callTreeLines cg 10 (ID entry) 1 {[ID entry]})
            ++ newline)
         (GetPublicEntryPoints rangeAny cg)
  /\ (forall entry l,
        l ∈ callTreeLines cg 10 (ID entry) 1 {[ID entry]} ->
        (1 <= l.1 <= 11)%nat /\ (l.1 = 11%nat -> l.2 = lit "... (max depth)"))
  /\ (forall n, n ∈ mode1RelatedFuncs rangeAny cg ->
        exists entry k d,
          entry ∈ GetPublicEntryPoints rangeAny cg
          /\ (1 <= d <= 5)%nat
          /\ callPath cg d (ID entry) k /\ Functions cg !! k = Some n)
  /\ (forall n, n ∈ mode2RelatedFuncs rangeAny cg ->
        exists entry k d,
          entry ∈ GetPublicEntryPoints rangeAny cg
          /\ (1 <= d <= 3)%nat
          /\ callPath cg d (ID entry) k /\ Functions cg !! k = Some n).
Proof.
  split; [|split; [|split]].
  - unfold GenerateCallGraphTree. do 2 f_equal.
    induction (GetPublicEntryPoints rangeAny cg) as [|e l IH]; [done|].
    cbn [flat_map]. rewrite IH. f_equal. do 2 f_equal.
    rewrite <- printCallTreeRecursive_lines. reflexivity.
  - intros entry l Hl. apply callTreeLines_depth in Hl. cbn in Hl. exact Hl.
  - intros n Hn.
    apply (GetAllRelatedFunctions_within rangeAny Hrange) in Hn
      as (entry & k & d & He & Hd1 & Hd2 & Hp & Hk).
    exists entry, k, d. split; [done|]. split; [lia|done].
  - intros n Hn.
    apply (GetAllRelatedFunctions_within rangeAny Hrange) in Hn
      as (entry & k & d & He & Hd1 & Hd2 & Hp & Hk).
    exists entry, k, d. split; [done|]. split; [lia|done].
Qed.

Lemma traversal_depth_caps_witness :
  collectsWithin (mode1RelatedFuncs rangeInOrder) 5 chainGraph8
  /\ collectsWithin (mode2RelatedFuncs rangeInOrder) 3 chainGraph8.
Proof.
  pose proof (traversal_depth_caps rangeInOrder
                (fun A m => reflexivity (map_to_list m)) chainGraph8)
    as (_ & _ & H1 & H2).
  split; [exact H1 | exact H2].
Defined.

(** The limits are reached: in the chain of thirteen functions the tree
    of the entry point lists [f2] to [f11] and then the marker, and in
    the chain of eight the two pipelines collect up to [f6] and [f4]. *)
Example printer_reaches_depth_10 :
  map fst (callTreeLines chainGraph13 10 1 1 {[1]}) = seq 1 11
  /\ last (callTreeLines chainGraph13 10 1 1 {[1]}) = Some (11%nat, lit "... (max depth)").
Proof. split; vm_compute; reflexivity. Qed.

(** ** The pipelines *)

Section Pipelines.

Variable rangeMap : forall A : Type, gmap Z A -> list (Z * A).
Variable ParseSource : gostring -> option ParsedSource.
Variable getOrDownloadContract : gostring -> option (gostring * gostring * bool).

(** *** Mode 2 *)

Variable BuildPrompt2 : gostring -> list (string * promptValue) -> gostring.
Variable Analyze : nat -> AIRequest -> option AnalysisResult.
Variable ParseVerificationResult : gostring -> option AIVerificationResult.
Variable runSlitherAnalysis : gostring -> gostring -> option StaticResult.
Variable sha256hex : gostring -> gostring.

Local Abbreviation process2 :=
  (processContractMode2 rangeMap ParseSource BuildPrompt2 Analyze
     ParseVerificationResult getOrDownloadContract runSlitherAnalysis sha256hex).

Local Abbreviation static2 := (staticAnalysis runSlitherAnalysis sha256hex).

Lemma verifyDetectors_none (sr : StaticResult) (code address template : gostring) :
  Detectors sr = [] ->
  verifyDetectors rangeMap ParseSource BuildPrompt2 Analyze
                  ParseVerificationResult sr code address template
  = ([], mkVerificationStats 0 0, []).
Proof. intros H. unfold verifyDetectors. by rewrite H. Qed.

Lemma processContractMode2_no_detectors (now : Z)
    (cache cache' : gmap gostring slitherCacheEntry)
    (address mode template code effectiveAddr : gostring) (isProxy : bool)
    (sr : StaticResult) :
  getOrDownloadContract address = Some (code, effectiveAddr, isProxy) ->
  isOnlyBytecode code = false ->
  static2 now cache code address effectiveAddr = (Some sr, cache') ->
  Detectors sr = [] ->
  process2 now cache address mode template
  = (Emitted (mkScanResult address effectiveAddr isProxy
                (Some (mkAnalysisResult []
                         (lit "Slither: 0 | Verified: 0 | FP: 0")
                         (lit "Slither Results: 0" ++ newline ++ lit "AI Verified: 0")))
                now mode (lit "slither_scan") []),
     cache', []).
Proof.
  intros Hdl Hbc Hst Hdet. unfold processContractMode2.
  rewrite Hdl, Hbc, Hst, verifyDetectors_none by done.
  rewrite Hdet. reflexivity.
Qed.

Lemma processContractMode2_bytecode (now : Z)
    (cache : gmap gostring slitherCacheEntry)
    (address mode template code effectiveAddr : gostring) (isProxy : bool) :
  getOrDownloadContract address = Some (code, effectiveAddr, isProxy) ->
  isOnlyBytecode code = true ->
  process2 now cache address mode template = (Skipped, cache, []).
Proof.
  intros Hdl Hbc. unfold processContractMode2. by rewrite Hdl, Hbc.
Qed.

(** *** Mode 1 *)

Variable CleanCode : gostring -> bool -> gostring.
Variable hashString : gostring -> gostring.
Variable BuildPrompt1 : gostring -> PromptVariables -> gostring.
Variable Base : gostring -> gostring.
Variable Analyze1 : nat -> AIRequest -> option AnalysisResult.

Local Abbreviation preprocess1 :=
  (preprocess rangeMap CleanCode ParseSource).

Local Abbreviation runTask1 :=
  (runTask rangeMap CleanCode ParseSource hashString
           getOrDownloadContract BuildPrompt1 Base Analyze1).

Lemma preprocess_FinalCode_parsed (needCallGraph : bool) (contract : cachedContract)
    (parsed : ParsedSource) (pruned : gostring) (pruneErr : bool) :
  ParseSource (CleanCode (Code contract) true) = Some parsed ->
  PruneDeadCode parsed [] true = (pruned, pruneErr) ->
  FinalCode (preprocess1 needCallGraph contract)
  = if negb pruneErr && (100 <=? Z.of_nat (length pruned))
    then pruned else CleanCode (Code contract) true.
Proof.
  intros Hparse Hprune. unfold preprocess. rewrite Hparse.
  destruct needCallGraph.
  - destruct (buildCallGraphContext rangeMap _ parsed) as [[[e c1] c2] i].
    by rewrite Hprune.
  - by rewrite Hprune.
Qed.

Lemma preprocess_FinalCode_unparsed (needCallGraph : bool) (contract : cachedContract) :
  ParseSource (CleanCode (Code contract) true) = None ->
  FinalCode (preprocess1 needCallGraph contract) = CleanCode (Code contract) true.
Proof. intros Hparse. unfold preprocess. by rewrite Hparse. Qed.

Lemma getCachedContract_ok (cache cache' : gmap gostring cachedContract)
    (addr : gostring) (c : cachedContract) :
  contractCacheOk cache ->
  getCachedContract getOrDownloadContract cache addr = (Some c, cache') ->
  contractCacheOk cache' /\ IsBytecode c = isOnlyBytecode (Code c).
Proof.
  intros Hok. unfold getCachedContract.
  case_bool_decide; [done|].
  destruct (cache !! strings.TrimSpace addr) as [c0|] eqn:Hc.
  - intros [= <- <-]. split; [done | by eapply Hok].
  - unfold loadContract.
    destruct (getOrDownloadContract (strings.TrimSpace addr))
      as [[[code eff] proxy]|]; [|done].
    intros [= <- <-]. split; [|done].
    intros a c'. destruct (decide (strings.TrimSpace addr = a)) as [<-|Hne].
    + rewrite lookup_insert_eq. by intros [= <-].
    + rewrite lookup_insert_ne by done. apply Hok.
Qed.

Lemma runTask_bytecode (now : Z) (mode template : gostring) (needCallGraph : bool)
    (st : mode1State) (task : ScanTask) (c : cachedContract)
    (cache' : gmap gostring cachedContract) :
  contractCacheOk (contractCache st) ->
  getCachedContract getOrDownloadContract (contractCache st) (TargetAddress task)
  = (Some c, cache') ->
  isOnlyBytecode (Code c) = true ->
  let st' := runTask1 now mode template needCallGraph st task in
  results st' = results st /\ sent st' = sent st.
Proof.
  intros Hok Hget Hbc. cbv zeta. unfold runTask. rewrite Hget.
  apply (getCachedContract_ok _ _ _ _ Hok) in Hget as [_ Hflag].
  rewrite Hflag, Hbc. done.
Qed.

End Pipelines.

(** C6.  In the preprocessing of the targeted pipeline, for a source
    that parses, the pruned text replaces the cleaned source exactly
    when pruning succeeded and the pruned text is at least 100 bytes
    long; a pruned text shorter than 100 bytes leaves the cleaned source
    in place.  This holds whatever the cleaner, the parser and the
    pruner return. *)
Theorem preprocess_pruned_floor
    (rangeMap : forall A : Type, gmap Z A -> list (Z * A))
    (CleanCode : gostring -> bool -> gostring)
    (ParseSource : gostring -> option ParsedSource)
    (needCallGraph : bool) (contract : cachedContract)
    (parsed : ParsedSource) (pruned : gostring) (pruneErr : bool) :
  ParseSource (CleanCode (Code contract) true) = Some parsed ->
  PruneDeadCode parsed [] true = (pruned, pruneErr) ->
  let cleanCode := CleanCode (Code contract) true in
  let final :=
    FinalCode (preprocess rangeMap CleanCode ParseSource needCallGraph contract) in
  (pruneErr = false /\ (100 <= length pruned)%nat -> final = pruned)
  /\ (pruneErr = true \/ (length pruned < 100)%nat -> final = cleanCode)
  /\ (final <> cleanCode ->
      final = pruned /\ pruneErr = false /\ (100 <= length pruned)%nat).
Proof.
  intros Hparse Hprune. cbv zeta.
  rewrite (preprocess_FinalCode_parsed _ _ _ _ _ _ _ _ Hparse Hprune).
  destruct pruneErr; cbn [negb andb].
  - split; [intros [? _]; done|]. split; [done|]. done.
  - destruct (Z.leb_spec 100 (Z.of_nat (length pruned))) as [Hge|Hlt].
    + split; [done|]. split; [intros [?|?]; [done|lia]|].
      intros _. split; [done|]. split; [done|lia].
    + split; [intros [_ ?]; lia|]. split; [done|]. done.
Qed.

Lemma preprocess_pruned_floor_witness :
  FinalCode (preprocess rangeInOrder keepCode parseSample true sampleContract)
  = sampleCode
  /\ FinalCode (preprocess rangeInOrder keepCode parseVault true vaultContract)
     = fst (PruneDeadCode vaultParsed [] true).
Proof.
  split.
  - assert (PruneDeadCode sampleParsed [] true
            = (fst (PruneDeadCode sampleParsed [] true), false)) as Hprune
      by (vm_compute; reflexivity).
    destruct (preprocess_pruned_floor rangeInOrder keepCode parseSample
                true sampleContract sampleParsed _ false eq_refl Hprune)
      as (_ & Hshort & _).
    apply Hshort. right. apply Nat.ltb_lt. vm_compute. reflexivity.
  - assert (PruneDeadCode vaultParsed [] true
            = (fst (PruneDeadCode vaultParsed [] true), false)) as Hprune
      by (vm_compute; reflexivity).
    destruct (preprocess_pruned_floor rangeInOrder keepCode parseVault
                true vaultContract vaultParsed _ false eq_refl Hprune)
      as (Hlong & _ & _).
    apply Hlong. split; [reflexivity|]. apply Nat.leb_le. vm_compute. reflexivity.
Defined.

(** C9.  In the verified pipeline, a contract whose static-analysis
    result has no detector finding leads to no request to the model, and
    the scan result emitted carries an empty list of verified
    vulnerabilities and the summary
    [Slither: 0 | Verified: 0 | FP: 0]. *)
Theorem processContractMode2_zero_detectors
    (rangeMap : forall A : Type, gmap Z A -> list (Z * A))
    (ParseSource : gostring -> option ParsedSource)
    (BuildPrompt : gostring -> list (string * promptValue) -> gostring)
    (Analyze : nat -> AIRequest -> option AnalysisResult)
    (ParseVerificationResult : gostring -> option AIVerificationResult)
    (getOrDownloadContract : gostring -> option (gostring * gostring * bool))
    (runSlitherAnalysis : gostring -> gostring -> option StaticResult)
    (sha256hex : gostring -> gostring)
    (now : Z) (cache cache' : gmap gostring slitherCacheEntry)
    (address mode template code effectiveAddr : gostring) (isProxy : bool)
    (sr : StaticResult) :
  getOrDownloadContract address = Some (code, effectiveAddr, isProxy) ->
  isOnlyBytecode code = false ->
  staticAnalysis runSlitherAnalysis sha256hex now cache code address effectiveAddr
  = (Some sr, cache') ->
  Detectors sr = [] ->
  exists r analysis,
    processContractMode2 rangeMap ParseSource BuildPrompt Analyze
      ParseVerificationResult getOrDownloadContract runSlitherAnalysis sha256hex
      now cache address mode template
    = (Emitted r, cache', [])
    /\ scanAnalysis r = Some analysis
    /\ Vulnerabilities analysis = []
    /\ Summary analysis = lit "Slither: 0 | Verified: 0 | FP: 0".
Proof.
  intros Hdl Hbc Hst Hdet.
  eexists _, _. split.
  - by apply processContractMode2_no_detectors with (code := code) (sr := sr).
  - done.
Qed.

Lemma processContractMode2_zero_detectors_witness :
  exists r analysis cache',
    processContractMode2 rangeInOrder noParse templateOnly2 silentModel noVerdict
      sampleDownload sampleAnalyser id 0 ∅ (lit "0xabc") (lit "mode2") (lit "t")
    = (Emitted r, cache', [])
    /\ scanAnalysis r = Some analysis
    /\ Vulnerabilities analysis = []
    /\ Summary analysis = lit "Slither: 0 | Verified: 0 | FP: 0".
Proof.
  assert (staticAnalysis sampleAnalyser id 0 ∅ sampleCode (lit "0xabc") (lit "0xabc")
          = (Some (mkStaticResult []), sampleCacheAfter)) as Hst by reflexivity.
  destruct (processContractMode2_zero_detectors rangeInOrder noParse templateOnly2
              silentModel noVerdict sampleDownload sampleAnalyser id 0 ∅
              sampleCacheAfter
              (lit "0xabc") (lit "mode2") (lit "t") sampleCode (lit "0xabc") false
              (mkStaticResult []) eq_refl eq_refl Hst eq_refl)
    as (r & analysis & H).
  exists r, analysis. eexists. exact H.
Defined.

(** C10.  [isOnlyBytecode] is true of every source whose trimmed length
    is below 10, also when it does not begin with [0x]; for a trimmed
    source of length at least 10 it is true exactly when the source is
    [0x] followed by hexadecimal digits only.  A source it is true of is
    skipped by both pipelines without any request to the model. *)
Theorem isOnlyBytecode_short_or_hex
    (rangeMap : forall A : Type, gmap Z A -> list (Z * A))
    (ParseSource : gostring -> option ParsedSource)
    (getOrDownloadContract : gostring -> option (gostring * gostring * bool))
    (BuildPrompt2 : gostring -> list (string * promptValue) -> gostring)
    (Analyze2 : nat -> AIRequest -> option AnalysisResult)
    (ParseVerificationResult : gostring -> option AIVerificationResult)
    (runSlitherAnalysis : gostring -> gostring -> option StaticResult)
    (sha256hex : gostring -> gostring)
    (CleanCode : gostring -> bool -> gostring)
    (hashString : gostring -> gostring)
    (BuildPrompt1 : gostring -> PromptVariables -> gostring)
    (Base : gostring -> gostring)
    (Analyze1 : nat -> AIRequest -> option AnalysisResult) :
  (forall code,
     (length (strings.TrimSpace code) < 10)%nat -> isOnlyBytecode code = true)
  /\ (isOnlyBytecode (lit "contract") = true
      /\ strings.HasPrefix (lit "contract") (lit "0x") = false)
  /\ (forall code,
        (10 <= length (strings.TrimSpace code))%nat ->
        (isOnlyBytecode code = true <->
         exists rest, strings.TrimSpace code = lit "0x" ++ rest
                      /\ Forall hexDigit rest))
  /\ (forall now cache address mode template code effectiveAddr isProxy,
        getOrDownloadContract address = Some (code, effectiveAddr, isProxy) ->
        isOnlyBytecode code = true ->
        processContractMode2 rangeMap ParseSource BuildPrompt2 Analyze2
          ParseVerificationResult getOrDownloadContract runSlitherAnalysis
          sha256hex now cache address mode template
        = (Skipped, cache, []))
  /\ (forall now mode template needCallGraph st task c cache',
        contractCacheOk (contractCache st) ->
        getCachedContract getOrDownloadContract (contractCache st)
                          (TargetAddress task) = (Some c, cache') ->
        isOnlyBytecode (Code c) = true ->
        let st' := runTask rangeMap CleanCode ParseSource hashString
                     getOrDownloadContract BuildPrompt1 Base Analyze1
                     now mode template needCallGraph st task in
        results st' = results st /\ sent st' = sent st).
Proof.
  split; [|split; [|split; [|split]]].
  - intros code Hlen. apply isOnlyBytecode_trimmed. by left.
  - split; reflexivity.
  - intros code Hlen. rewrite isOnlyBytecode_trimmed.
    split; [intros [?|?]; [lia|done] | by right].
  - intros. by eapply processContractMode2_bytecode.
  - intros. by eapply runTask_bytecode.
Qed.

Lemma isOnlyBytecode_short_or_hex_witness :
  isOnlyBytecode (lit "  pragma  ") = true
  /\ isOnlyBytecode (lit " 0x60806040aB ") = true.
Proof.
  pose proof (isOnlyBytecode_short_or_hex rangeInOrder noParse sampleDownload
                templateOnly2 silentModel noVerdict sampleAnalyser id keepCode
                id templateOnly1 id silentModel)
    as (Hshort & _ & Hhex & _).
  split.
  - apply Hshort. apply Nat.ltb_lt. reflexivity.
  - apply Hhex; [apply Nat.leb_le; reflexivity|].
    exists (lit "60806040aB"). split; [reflexivity|].
    repeat constructor; unfold hexDigit; vm_compute; intuition discriminate.
Defined.

(** ** Pragma clean-up *)

Section Pragmas.

Lemma versionLe_refl (v : version) : versionLe v v.
Proof. destruct v as [[a b] c]. cbn. lia. Qed.

Lemma versionLe_trans (a b c : version) :
  versionLe a b -> versionLe b c -> versionLe a c.
Proof.
  destruct a as [[a1 a2] a3], b as [[b1 b2] b3], c as [[c1 c2] c3]. cbn. lia.
Qed.

Lemma formatVersion_nonempty (v : version) : formatVersion v <> [].
Proof.
  destruct v as [[a b] c]. unfold formatVersion.
  intros H. apply app_eq_nil in H as [_ H]. discriminate H.
Qed.

(** One round of the inner loop: the version kept is the higher one. *)
Lemma keepHigher_step (h v : version) :
  (keepHigher (formatVersion h, h) v = (formatVersion v, v) /\ versionLe h v)
  \/ (keepHigher (formatVersion h, h) v = (formatVersion h, h) /\ versionLe v h).
Proof.
  destruct h as [[h1 h2] h3], v as [[v1 v2] v3].
  unfold keepHigher.
  case_bool_decide as Hnil; [by apply formatVersion_nonempty in Hnil|].
  rewrite orb_false_r. cbn [versionLe].
  destruct (Z.ltb_spec h1 v1); [left; split; [done|lia]|].
  destruct (Z.eqb_spec v1 h1); [|right; split; [done|lia]].
  destruct (Z.ltb_spec h2 v2); [left; split; [done|lia]|].
  destruct (Z.eqb_spec v2 h2); [|right; split; [done|lia]].
  destruct (Z.ltb_spec h3 v3); [left; split; [done|lia]|].
  right; split; [done|lia].
Qed.

(** After the loops, the state holds the highest of the versions seen,
    if any. *)
Lemma keepHigher_fold (vs : list version) (h : version) :
  exists v, v ∈ h :: vs
            /\ fold_left keepHigher vs (formatVersion h, h) = (formatVersion v, v)
            /\ forall w, w ∈ h :: vs -> versionLe w v.
Proof.
  revert h. induction vs as [|x vs IH]; intros h.
  - exists h. split; [left|]. split; [done|].
    intros w Hw. apply list_elem_of_singleton in Hw as ->. apply versionLe_refl.
  - cbn [fold_left].
    destruct (keepHigher_step h x) as [[-> Hle]|[-> Hle]].
    + destruct (IH x) as (v & Hv & Hf & Hmax).
      exists v. split; [by right|]. split; [done|].
      intros w Hw. apply elem_of_cons in Hw as [->|Hw]; [|by apply Hmax].
      eapply versionLe_trans; [exact Hle|]. apply Hmax. left.
    + destruct (IH h) as (v & Hv & Hf & Hmax).
      exists v. split.
      { apply elem_of_cons in Hv as [->|Hv]; [left | by do 2 right]. }
      split; [done|].
      intros w Hw. apply elem_of_cons in Hw as [->|Hw]; [apply Hmax; left|].
      apply elem_of_cons in Hw as [->|Hw].
      * eapply versionLe_trans; [exact Hle|]. apply Hmax. left.
      * apply Hmax. by right.
Qed.

Lemma keepHigher_first (v : version) (nums : version) :
  keepHigher ([], nums) v = (formatVersion v, v).
Proof.
  destruct nums as [[h1 h2] h3], v as [[v1 v2] v3]. unfold keepHigher.
  case_bool_decide; [|done]. by rewrite orb_true_r.
Qed.

Lemma keepHigher_all (vs : list version) :
  vs <> [] ->
  exists v, v ∈ vs
            /\ fold_left keepHigher vs ([], (0, 0, 0)) = (formatVersion v, v)
            /\ forall w, w ∈ vs -> versionLe w v.
Proof.
  destruct vs as [|x vs]; [done|]. intros _.
  cbn [fold_left]. rewrite keepHigher_first. apply keepHigher_fold.
Qed.

Lemma fold_left_nested {A B C : Type} (f : A -> C -> A) (g : B -> list C)
    (l : list B) (a : A) :
  fold_left (fun st x => fold_left f (g x) st) l a = fold_left f (flat_map g l) a.
Proof.
  revert a. induction l as [|x l IH]; intros a; [done|].
  cbn [fold_left flat_map]. by rewrite fold_left_app, IH.
Qed.

(** Where the pragma line goes. *)
Lemma indexOfLine_Some (substr : gostring) (lines : list gostring) (i : nat) :
  indexOfLine substr lines = Some i ->
  exists pre line post,
    lines = pre ++ line :: post /\ length pre = i
    /\ strings.Contains line substr = true
    /\ forall l, l ∈ pre -> strings.Contains l substr = false.
Proof.
  revert i. induction lines as [|x lines IH]; intros i; [done|].
  cbn [indexOfLine]. destruct (strings.Contains x substr) eqn:Hx.
  - intros [= <-]. exists [], x, lines. split; [done|]. split; [done|].
    split; [done|]. intros l Hl. by apply elem_of_nil in Hl.
  - destruct (indexOfLine substr lines) as [j|]; [|done].
    intros [= <-]. destruct (IH j eq_refl) as (pre & line & post & -> & <- & Hl & Hpre).
    exists (x :: pre), line, post. split; [done|]. split; [done|]. split; [done|].
    intros l Hin. apply elem_of_cons in Hin as [->|Hin]; [done | by apply Hpre].
Qed.

Lemma indexOfLine_None (substr : gostring) (lines : list gostring) :
  indexOfLine substr lines = None ->
  forall l, l ∈ lines -> strings.Contains l substr = false.
Proof.
  induction lines as [|x lines IH]; intros H l Hl; [by apply elem_of_nil in Hl|].
  cbn [indexOfLine] in H. destruct (strings.Contains x substr) eqn:Hx; [done|].
  destruct (indexOfLine substr lines); [done|].
  apply elem_of_cons in Hl as [->|Hl]; [done | by apply IH].
Qed.

Lemma cleanupPragmas_unversioned (source : gostring) :
  allVersions source = [] -> cleanupPragmas source = source.
Proof.
  unfold allVersions, cleanupPragmas. intros Hnone.
  case_bool_decide; [done|].
  rewrite fold_left_nested, Hnone. cbn [fold_left].
  by rewrite bool_decide_eq_true_2.
Qed.

Lemma cleanupPragmas_versioned (source : gostring) :
  allVersions source <> [] ->
  exists v pre post,
    v ∈ allVersions source
    /\ (forall w, w ∈ allVersions source -> versionLe w v)
    /\ strings.Split (regexp.ReplaceAllStringEmpty matchPragmaAt source 0) "010"%char
       = pre ++ post
    /\ cleanupPragmas source
       = strings.Join
           (pre ++ [lit "pragma solidity ^" ++ formatVersion v ++ lit ";"] ++ post)
           newline
    /\ ((pre = [] /\
         forall l, l ∈ post -> strings.Contains l (lit "SPDX-License-Identifier") = false)
        \/ exists pre' line,
             pre = pre' ++ [line]
             /\ strings.Contains line (lit "SPDX-License-Identifier") = true
             /\ forall l, l ∈ pre' ->
                  strings.Contains l (lit "SPDX-License-Identifier") = false).
Proof.
  intros Hsome. unfold cleanupPragmas.
  assert (regexp.FindAllStringSubmatch matchPragmaAt source 0 <> []) as Hm.
  { intros H. apply Hsome. unfold allVersions. by rewrite H. }
  rewrite bool_decide_eq_false_2
    by (destruct (regexp.FindAllStringSubmatch matchPragmaAt source 0); cbn; done).
  rewrite fold_left_nested. fold (allVersions source).
  destruct (keepHigher_all _ Hsome) as (v & Hv & -> & Hmax).
  rewrite bool_decide_eq_false_2 by apply formatVersion_nonempty.
  set (lines := strings.Split _ _).
  destruct (indexOfLine (lit "SPDX-License-Identifier") lines) as [i|] eqn:Hi.
  - apply indexOfLine_Some in Hi as (pre & line & post & Hlines & Hlen & Hline & Hpre).
    exists v, (pre ++ [line]), post.
    split; [done|]. split; [done|].
    split; [by rewrite Hlines, <- app_assoc|].
    split.
    + rewrite Hlines. replace (i + 1)%nat with (length (pre ++ [line]))
        by (rewrite length_app; cbn; lia).
      replace (pre ++ line :: post) with ((pre ++ [line]) ++ post)
        by (by rewrite <- app_assoc).
      by rewrite take_app_length, drop_app_length.
    + right. exists pre, line. done.
  - exists v, [], lines. split; [done|]. split; [done|]. split; [done|].
    split; [done|]. left. split; [done|]. by apply indexOfLine_None.
Qed.

End Pragmas.

(** C7, as stated, fails: a flattened source whose pragmas give a minor
    version only is accepted and returned as it is, with its two pragma
    lines. *)
Lemma flattenOutput_keeps_unversioned_pragmas :
  flattenOutput flattenedMinorOnly = Some flattenedMinorOnly
  /\ pragmaLines flattenedMinorOnly = 2%nat.
Proof. split; vm_compute; reflexivity. Qed.

(** Cutting the occurrences out in one pass can also bring the pieces of
    a new occurrence together, which then stays in the result. *)
Example cleanupPragmas_leaves_joined_occurrence :
  cleanupPragmas (lit "pragma pragma solidity ^0.8.0; solidity ^0.7.0;")
  = lit "pragma solidity ^0.8.0;" ++ newline ++ lit "pragma  solidity ^0.7.0;".
Proof. vm_compute. reflexivity. Qed.

(** C7, amended.  For a flattened source that is accepted: when no
    pragma occurrence carries a numeric version X.Y.Z the source is
    returned unchanged; otherwise every pragma occurrence is cut out and
    one line [pragma solidity ^X.Y.Z;] with the highest version found in
    the original constraints is inserted, directly after the first line
    holding the SPDX licence identifier when there is one, and as the
    first line otherwise. *)
Theorem flattenOutput_single_highest_pragma (output flat : gostring) :
  flattenOutput output = Some flat ->
  strings.Contains output (lit "pragma solidity") = true
  /\ (allVersions output = [] -> flat = output)
  /\ (allVersions output <> [] ->
      exists v pre post,
        v ∈ allVersions output
        /\ (forall w, w ∈ allVersions output -> versionLe w v)
        /\ strings.Split (regexp.ReplaceAllStringEmpty matchPragmaAt output 0) "010"%char
           = pre ++ post
        /\ flat
           = strings.Join
               (pre ++ [lit "pragma solidity ^" ++ formatVersion v ++ lit ";"] ++ post)
               newline
        /\ ((pre = [] /\
             forall l, l ∈ post ->
               strings.Contains l (lit "SPDX-License-Identifier") = false)
            \/ exists pre' line,
                 pre = pre' ++ [line]
                 /\ strings.Contains line (lit "SPDX-License-Identifier") = true
                 /\ forall l, l ∈ pre' ->
                      strings.Contains l (lit "SPDX-License-Identifier") = false)).
Proof.
  unfold flattenOutput.
  destruct (strings.Contains output (lit "pragma solidity")); [|done].
  cbn [negb]. intros [= <-]. split; [done|]. split.
  - apply cleanupPragmas_unversioned.
  - apply cleanupPragmas_versioned.
Qed.

Lemma flattenOutput_single_highest_pragma_witness :
  exists flat,
    flattenOutput flattenedTwoVersions = Some flat
    /\ strings.Contains flattenedTwoVersions (lit "pragma solidity") = true
    /\ pragmaLines flat = 1%nat.
Proof.
  eexists. split; [vm_compute; reflexivity|].
  split; [|vm_compute; reflexivity].
  exact (proj1 (flattenOutput_single_highest_pragma flattenedTwoVersions _
                  ltac:(vm_compute; reflexivity))).
Defined.

(** ** The rotation of the explorer keys *)

Lemma GetNextKey_in_range (m : APIKeyManager) :
  indexInRange m ->
  exists m', GetNextKey (Some m) = (keyAt m' (current m'), Some m')
    /\ apiKeys m' = apiKeys m
    /\ current m' = (current m + 1) mod Z.of_nat (length (apiKeys m))
    /\ indexInRange m'.
Proof.
  intros [H0 H1]. unfold GetNextKey.
  case_bool_decide as Hl; [lia|].
  exists (mkAPIKeyManager (apiKeys m)
            ((current m + 1) `rem` Z.of_nat (length (apiKeys m)))).
  split; [reflexivity|]. cbn [apiKeys current].
  rewrite Z.rem_mod_nonneg by lia.
  split; [done|]. split; [done|].
  unfold indexInRange; cbn [apiKeys current].
  apply Z.mod_pos_bound. lia.
Qed.

Lemma nextKeys_in_range (n : nat) (m : APIKeyManager) :
  indexInRange m ->
  exists m', snd (nextKeys n (Some m)) = Some m'
    /\ apiKeys m' = apiKeys m
    /\ current m' = (current m + Z.of_nat n) mod Z.of_nat (length (apiKeys m))
    /\ indexInRange m'
    /\ fst (nextKeys n (Some m))
       = map (fun i => keyAt m ((current m + 1 + Z.of_nat i)
                                  mod Z.of_nat (length (apiKeys m))))
             (seq 0 n).
Proof.
  revert m. induction n as [|n IH]; intros m Hm.
  - exists m. cbn. split; [done|]. split; [done|].
    split; [|done]. rewrite Z.add_0_r, Z.mod_small; [done|exact Hm].
  - destruct (GetNextKey_in_range m Hm) as (m1 & Hstep & Hk1 & Hc1 & Hr1).
    destruct (IH m1 Hr1) as (m' & Hsnd & Hk & Hc & Hr & Hfst).
    cbn [nextKeys]. rewrite Hstep.
    destruct (nextKeys n (Some m1)) as [served m''] eqn:Hn.
    cbn [fst snd] in *. exists m'.
    assert (0 < Z.of_nat (length (apiKeys m))) as Hlen
      by (destruct Hm; lia).
    split; [done|]. split; [congruence|].
    split; [|split; [done|]].
    + rewrite Hc, Hk1, Hc1. rewrite Z.add_mod_idemp_l by lia. f_equal. lia.
    + cbn [seq map]. f_equal.
      * unfold keyAt. rewrite Hk1, Hc1. do 2 f_equal. f_equal. lia.
      * rewrite Hfst, <- seq_shift, map_map. apply map_ext. intros i.
        unfold keyAt. rewrite Hk1, Hc1.
        rewrite <- Z.add_assoc, Z.add_mod_idemp_l by lia.
        do 2 f_equal. f_equal. lia.
Qed.

(** X1.  One full round of [GetNextKey] calls, as many as there are
    keys, hands out every key exactly once, in list order starting
    behind the current one, and leaves the manager as it was. *)
Theorem GetNextKey_round_robin (m : APIKeyManager) :
  indexInRange m ->
  nextKeys (length (apiKeys m)) (Some m)
  = (rotate (S (Z.to_nat (current m))) (apiKeys m), Some m).
Proof.
  intros Hm.
  destruct (nextKeys_in_range (length (apiKeys m)) m Hm)
    as (m' & Hsnd & Hk & Hc & Hr & Hfst).
  destruct (nextKeys (length (apiKeys m)) (Some m)) as [served m''] eqn:Hn.
  cbn [fst snd] in *. subst m''.
  destruct Hm as [H0 H1].
  set (len := length (apiKeys m)) in *.
  assert (0 < len)%nat as Hlen by lia.
  f_equal.
  - subst served. apply list_eq. intros i.
    rewrite list_lookup_fmap.
    destruct (decide (i < len)%nat) as [Hi|Hi].
    + rewrite lookup_seq_lt by done. cbn [fmap option_fmap option_map].
      rewrite lookup_rotate_r by done.
      unfold keyAt, rotate_nat_add.
      assert (Z.to_nat ((current m + 1 + Z.of_nat (0 + i)) mod Z.of_nat len)
              = Z.to_nat ((Z.of_nat (S (Z.to_nat (current m))) + Z.of_nat i)
                          `mod` Z.of_nat len)) as ->.
      { do 2 f_equal. lia. }
      set (k := Z.to_nat _).
      assert (k < len)%nat as Hk'.
      { subst k. pose proof (Z.mod_pos_bound
          (Z.of_nat (S (Z.to_nat (current m))) + Z.of_nat i) (Z.of_nat len)). lia. }
      destruct (lookup_lt_is_Some_2 (apiKeys m) k Hk') as [x Hx].
      rewrite Hx. f_equal. apply nth_lookup_Some with (d := []) in Hx. exact Hx.
    + rewrite lookup_seq_ge by lia. cbn.
      symmetry. apply lookup_ge_None. rewrite length_rotate. fold len. lia.
  - f_equal. destruct m as [ks c], m' as [ks' c']. cbn in *. subst ks'.
    f_equal. rewrite Hc. fold len.
    rewrite <- Z.add_mod_idemp_r, Z_mod_same_full, Z.add_0_r by lia.
    apply Z.mod_small. lia.
Qed.

Lemma GetNextKey_round_robin_witness :
  nextKeys 3 (Some (mkAPIKeyManager [lit "k1"; lit "k2"; lit "k3"] 1))
  = ([lit "k3"; lit "k1"; lit "k2"],
     Some (mkAPIKeyManager [lit "k1"; lit "k2"; lit "k3"] 1)).
Proof.
  apply (GetNextKey_round_robin (mkAPIKeyManager [lit "k1"; lit "k2"; lit "k3"] 1)).
  unfold indexInRange; cbn; lia.
Defined.

Lemma keyAt_elem (m : APIKeyManager) (i : Z) :
  0 <= i < Z.of_nat (length (apiKeys m)) -> keyAt m i ∈ apiKeys m.
Proof.
  intros Hi.
  assert (Z.to_nat i < length (apiKeys m))%nat as Hlt by lia.
  destruct (lookup_lt_is_Some_2 (apiKeys m) (Z.to_nat i) Hlt) as [x Hx].
  pose proof Hx as Hn. apply nth_lookup_Some with (d := []) in Hn.
  assert (keyAt m i = x) as -> by exact Hn.
  eapply list_elem_of_lookup_2; eauto.
Qed.

(** X2.  A manager built by [NewAPIKeyManager] never hands out an empty
    key: whatever number of rotations came before, [GetKey],
    [GetNextKey] and [GetRandomKey] return one of the non-empty
    configured keys, or the fallback key when no configured key was
    usable.  The draws of the generator lie in [[0, n)], as [Intn]
    promises. *)
Theorem APIKeyManager_serves_configured_keys (intn : Z -> Z)
    (keys : list gostring) (fallbackKey : gostring) (m : APIKeyManager) (n : nat) :
  (forall k, 0 < k -> 0 <= intn k < k) ->
  NewAPIKeyManager intn keys fallbackKey = Some m ->
  let m' := snd (nextKeys n (Some m)) in
  let served key := key <> [] /\ (key ∈ keys \/ key = fallbackKey) in
  served (GetKey m') /\ served (fst (GetNextKey m')) /\ served (GetRandomKey intn m')
  /\ Forall served (fst (nextKeys n (Some m))).
Proof.
  intros Hintn Hnew. cbv zeta.
  assert (indexInRange m /\ forall key, key ∈ apiKeys m ->
            key <> [] /\ (key ∈ keys \/ key = fallbackKey)) as [Hm Hkeys].
  { rewrite NewAPIKeyManager_cases in Hnew.
    pose proof (filter_nonempty_no_blank keys) as Hnb.
    destruct (filter (fun k => k <> []) keys) as [|k valid] eqn:Hf.
    - destruct (decide (fallbackKey = [])) as [|Hfb]; [done|].
      injection Hnew as <-. split.
      + unfold indexInRange; cbn. apply (Hintn 1). lia.
      + cbn. intros key Hkey. apply list_elem_of_singleton in Hkey as ->. auto.
    - injection Hnew as <-. split.
      + unfold indexInRange; cbn [apiKeys current]. apply Hintn. cbn; lia.
      + cbn [apiKeys]. intros key Hkey. split.
        * intros ->. apply Hnb. unfold gostring in *. rewrite Hf. exact Hkey.
        * left. rewrite <- Hf in Hkey.
          apply list_elem_of_filter in Hkey. tauto. }
  destruct (nextKeys_in_range n m Hm) as (m' & Hsnd & Hk & Hc & Hr & Hfst).
  rewrite Hsnd.
  assert (0 < Z.of_nat (length (apiKeys m))) as Hlen by (destruct Hm; lia).
  split; [|split; [|split]].
  - apply Hkeys. rewrite <- Hk. unfold GetKey.
    case_bool_decide; [rewrite Hk in *; lia|].
    apply keyAt_elem, Hr.
  - destruct (GetNextKey_in_range m' Hr) as (m2 & -> & Hk2 & _ & Hr2).
    cbn [fst]. apply Hkeys. rewrite <- Hk, <- Hk2. apply keyAt_elem, Hr2.
  - apply Hkeys. rewrite <- Hk. unfold GetRandomKey.
    case_bool_decide; [rewrite Hk in *; lia|].
    apply keyAt_elem, Hintn. rewrite Hk. lia.
  - rewrite Hfst. apply Forall_forall. intros key Hkey.
    apply list_elem_of_fmap in Hkey as (i & -> & _).
    apply Hkeys, keyAt_elem, Z.mod_pos_bound. lia.
Qed.

Lemma APIKeyManager_serves_configured_keys_witness :
  GetKey (snd (nextKeys 4 (NewAPIKeyManager (fun _ => 0)
                             [[]; lit "k1"; lit "k2"] (lit "fb")))) <> [].
Proof.
  exact (proj1 (proj1 (APIKeyManager_serves_configured_keys (fun _ => 0)
                  [[]; lit "k1"; lit "k2"] (lit "fb")
                  (mkAPIKeyManager [lit "k1"; lit "k2"] 0) 4
                  ltac:(intros; lia) eq_refl))).
Defined.

(** ** Pacing of the requests *)

(** X3.  Whatever the configuration, [NewManager] starts both limiters
    at the base limits: the rate limiter at the base interval, with no
    call recorded, and the concurrency limiter at the base cap with no
    request in flight.  The base cap lies between 1 and 32, the base
    interval between zero and one minute, and the time-out is never
    zero. *)
Theorem NewManager_initial_limits (keyCount requestsPerMin tmo : Z) :
  let m := NewManager keyCount requestsPerMin tmo in
  rateLimit m = Some (mkRateLimiter (baseInterval m) 0 false)
  /\ limiter m = Some (mkConcurrencyLimiter 0 (baseConcurrency m))
  /\ 1 <= baseConcurrency m <= 32
  /\ 0 <= baseInterval m <= Minute
  /\ timeout m <> 0.
Proof.
  cbv zeta. unfold NewManager.
  cbn [rateLimit limiter baseConcurrency baseInterval timeout].
  set (cfg := if requestsPerMin <=? 0 then 20 else requestsPerMin).
  set (r := if 1 <? keyCount then wrap64 (cfg * keyCount) else cfg).
  set (c := maxInt 1 (minInt 32 (maxInt (wrap64 (keyCount * 2)) (cfg `quot` 30)))).
  assert (1 <= c <= 32) as Hc.
  { subst c. rewrite !maxInt_max, minInt_min. lia. }
  assert (1 <= maxInt 1 r) as Hr by (rewrite maxInt_max; lia).
  split; [|split; [|split; [exact Hc|split]]].
  - unfold newRateLimiter. do 2 f_equal.
    rewrite maxInt_max.
    destruct (Z.leb_spec r 0).
    + rewrite Z.max_l by lia. reflexivity.
    + rewrite Z.max_r by lia. reflexivity.
  - unfold newConcurrencyLimiter.
    destruct (Z.leb_spec c 0); [lia|reflexivity].
  - unfold Minute, Second in *. split.
    + apply Z.quot_pos; lia.
    + apply Z.quot_le_upper_bound; nia.
  - destruct (Z.eqb_spec tmo 0); [unfold Second; lia|done].
Qed.

Lemma adjustLimits_keeps_limits (m : Manager) (rl : rateLimiter)
    (cl : concurrencyLimiter) (d : Z) :
  rateLimit m = Some rl -> limiter m = Some cl ->
  0 < baseInterval m -> 1 <= baseConcurrency m ->
  exists rl' cl',
    rateLimit (adjustLimits m d) = Some rl'
    /\ limiter (adjustLimits m d) = Some cl'
    /\ baseInterval m <= rl_interval rl'
    /\ 1 <= cl_max cl' <= baseConcurrency m
    /\ rl_last rl' = rl_last rl /\ rl_closed rl' = rl_closed rl
    /\ cl_inflight cl' = cl_inflight cl.
Proof.
  intros Hrl Hcl Hbi Hbc. unfold adjustLimits. rewrite Hrl, Hcl.
  cbn [rateLimit limiter].
  set (ewma := if latencyEWMA m =? 0 then d else ewmaBlend (latencyEWMA m) d).
  destruct (25 * Second <? ewma) eqn:H25.
  - set (ti := if ewma `quot` 2 <? baseInterval m then baseInterval m
               else ewma `quot` 2).
    assert (baseInterval m <= ti) as Hti.
    { subst ti. destruct (Z.ltb_spec (ewma `quot` 2) (baseInterval m)); lia. }
    set (tc := if 40 * Second <? ewma then 1
               else maxInt 1 (baseConcurrency m `quot` 2)).
    assert (1 <= tc <= baseConcurrency m) as Htc.
    { subst tc. destruct (40 * Second <? ewma); [lia|].
      rewrite maxInt_max.
      pose proof (Z.quot_le_upper_bound (baseConcurrency m) 2 (baseConcurrency m)).
      lia. }
    unfold UpdateInterval, UpdateMax.
    destruct (Z.leb_spec ti 0); [lia|].
    destruct (Z.leb_spec tc 0); [lia|].
    do 2 eexists. split; [reflexivity|]. split; [reflexivity|].
    cbn [rl_interval rl_last rl_closed cl_max cl_inflight]. auto with zarith.
  - set (tc := if 40 * Second <? ewma then 1 else baseConcurrency m).
    assert (1 <= tc <= baseConcurrency m) as Htc.
    { subst tc. destruct (40 * Second <? ewma); lia. }
    unfold UpdateInterval, UpdateMax.
    destruct (Z.leb_spec (baseInterval m) 0); [lia|].
    destruct (Z.leb_spec tc 0); [lia|].
    do 2 eexists. split; [reflexivity|]. split; [reflexivity|].
    cbn [rl_interval rl_last rl_closed cl_max cl_inflight]. auto with zarith.
Qed.

Lemma adjustLimits_base (m : Manager) (d : Z) :
  baseInterval (adjustLimits m d) = baseInterval m
  /\ baseConcurrency (adjustLimits m d) = baseConcurrency m
  /\ timeout (adjustLimits m d) = timeout m.
Proof.
  unfold adjustLimits.
  destruct (25 * Second <? _); cbn; auto.
Qed.

(** X4.  However many latencies are reported and whatever they are, the
    adaptation never paces faster than configured: after every call of
    [adjustLimits] the interval of the rate limiter is at least the base
    interval and the cap of the concurrency limiter lies between one and
    the base cap.  The base values, the time-out, the instant of the
    last call and the number of requests in flight are left alone. *)
Theorem reportLatencies_within_base (m : Manager) (rl : rateLimiter)
    (cl : concurrencyLimiter) (ds : list Z) :
  rateLimit m = Some rl -> limiter m = Some cl ->
  0 < baseInterval m -> 1 <= baseConcurrency m ->
  baseInterval m <= rl_interval rl -> 1 <= cl_max cl <= baseConcurrency m ->
  let m' := reportLatencies m ds in
  exists rl' cl',
    rateLimit m' = Some rl' /\ limiter m' = Some cl'
    /\ baseInterval m <= rl_interval rl'
    /\ 1 <= cl_max cl' <= baseConcurrency m
    /\ rl_last rl' = rl_last rl /\ rl_closed rl' = rl_closed rl
    /\ cl_inflight cl' = cl_inflight cl
    /\ baseInterval m' = baseInterval m
    /\ baseConcurrency m' = baseConcurrency m
    /\ timeout m' = timeout m.
Proof.
  cbv zeta. unfold reportLatencies.
  revert m rl cl. induction ds as [|d ds IH]; intros m rl cl Hrl Hcl Hbi Hbc Hi Hc.
  - cbn. exists rl, cl. auto 10.
  - cbn [fold_left].
    destruct (adjustLimits_keeps_limits m rl cl d Hrl Hcl Hbi Hbc)
      as (rl1 & cl1 & Hrl1 & Hcl1 & Hi1 & Hc1 & Hl1 & Hx1 & Hf1).
    destruct (adjustLimits_base m d) as (Hb1 & Hb2 & Hb3).
    destruct (IH (adjustLimits m d) rl1 cl1 Hrl1 Hcl1) as
      (rl' & cl' & ? & ? & ? & ? & ? & ? & ? & ? & ? & ?);
      rewrite ?Hb1, ?Hb2; try assumption.
    exists rl', cl'. rewrite Hb1, Hb2, Hb3 in *.
    repeat split; try congruence; try lia.
Qed.

Lemma reportLatencies_within_base_witness :
  exists rl' cl',
    rateLimit (reportLatencies (NewManager 3 20 0)
                 [50 * Second; 1 * Second; 90 * Second]) = Some rl'
    /\ limiter (reportLatencies (NewManager 3 20 0)
                 [50 * Second; 1 * Second; 90 * Second]) = Some cl'
    /\ Second <= rl_interval rl' /\ 1 <= cl_max cl' <= 6.
Proof.
  destruct (reportLatencies_within_base (NewManager 3 20 0)
              (newRateLimiter 60) (newConcurrencyLimiter 6)
              [50 * Second; 1 * Second; 90 * Second]
              eq_refl eq_refl eq_refl ltac:(discriminate)
              ltac:(discriminate) ltac:(split; discriminate))
    as (rl' & cl' & H1 & H2 & H3 & H4 & _).
  exists rl', cl'. split; [exact H1|]. split; [exact H2|].
  split; [exact H3|exact H4].
Defined.

(** ** The rate limiter *)

Lemma Wait_open (rl : rateLimiter) (now : Z) :
  rl_closed rl = false -> 0 < now -> 0 <= rl_last rl ->
  rl_last rl + rl_interval rl - now <= maxDuration ->
  0 <= rl_interval rl ->
  exists wait,
    Wait rl now = (mkRateLimiter (rl_interval rl) (now + wait) false, Some wait)
    /\ 0 <= wait
    /\ (rl_last rl <> 0 -> rl_last rl + rl_interval rl <= now + wait)
    /\ (wait = 0 \/ (rl_last rl <> 0 /\ now + wait = rl_last rl + rl_interval rl)).
Proof.
  intros Hopen Hnow Hlast Hsat Hint. unfold Wait. rewrite Hopen.
  destruct (Z.eqb_spec (rl_last rl) 0) as [H0|H0]; cbn [negb].
  - exists 0. split; [reflexivity|]. split; [lia|]. split; [done|]. by left.
  - destruct (Z.ltb_spec now (rl_last rl + rl_interval rl)) as [Hlt|Hge].
    + exists (rl_last rl + rl_interval rl - now).
      unfold timeSub, minDuration, maxDuration in *.
      destruct (Z.ltb_spec (rl_last rl + rl_interval rl - now) (- 2 ^ 63)); [lia|].
      destruct (Z.ltb_spec (2 ^ 63 - 1) (rl_last rl + rl_interval rl - now)); [lia|].
      split; [reflexivity|]. split; [lia|]. split; [lia|]. right. split; [done|lia].
    + exists 0. split; [reflexivity|]. split; [lia|]. split; [lia|]. by left.
Qed.

(** X5.  Callers of an open rate limiter are released at least one
    interval apart, whenever they arrive: the release of a caller comes
    no earlier than its arrival and no earlier than one interval after
    the release before it, and no later than the later of the two.  The
    first caller of a fresh limiter is released at once.  (All instants
    lie in a window short enough for the differences to fit a
    [time.Duration].) *)
Theorem Wait_spaces_releases (rl : rateLimiter) (nows : list Z) (t0 T : Z) :
  rl_closed rl = false -> 0 <= rl_interval rl ->
  0 < t0 -> Forall (fun now => t0 <= now <= T) nows ->
  0 <= rl_last rl <= T ->
  T + Z.of_nat (length nows) * rl_interval rl - t0 <= maxDuration ->
  let rs := releases rl nows in
  length rs = length nows
  /\ (forall i now r, nows !! i = Some now -> rs !! i = Some r ->
        let prev := match i with O => rl_last rl | S j => default 0 (rs !! j) end in
        now <= r
        /\ (prev <> 0 -> prev + rl_interval rl <= r)
        /\ (r = now \/ (prev <> 0 /\ r = prev + rl_interval rl))).
Proof.
  intros Hopen Hint Ht0 Hnows Hlast Hsat. cbv zeta.
  revert rl T Hopen Hint Hnows Hlast Hsat.
  induction nows as [|now nows IH]; intros rl T Hopen Hint Hnows Hlast Hsat.
  - split; [reflexivity|]. intros i now r Hn. by rewrite lookup_nil in Hn.
  - apply Forall_cons in Hnows as [Hnow Hnows].
    cbn [length] in Hsat.
    destruct (Wait_open rl now Hopen ltac:(lia) ltac:(lia) ltac:(nia) Hint)
      as (wait & HW & Hw0 & Hw1 & Hw2).
    cbn [releases]. rewrite HW. cbn [rl_last].
    set (rl' := mkRateLimiter (rl_interval rl) (now + wait) false).
    destruct (IH rl' (T + rl_interval rl)) as [Hlen Hrest].
    { reflexivity. }
    { exact Hint. }
    { eapply Forall_impl; [exact Hnows|]. cbn. intros; lia. }
    { cbn [rl_last rl']. lia. }
    { cbn [rl_interval rl']. lia. }
    split; [cbn [length]; by rewrite Hlen|].
    intros [|i] now' r Hn Hr.
    + cbn in Hn, Hr. injection Hn as <-. injection Hr as <-.
      split; [lia|]. split; [exact Hw1|].
      destruct Hw2 as [->|[? ?]]; [left; lia|right; split; [done|lia]].
    + change (nows !! i = Some now') in Hn.
      change (releases rl' nows !! i = Some r) in Hr.
      specialize (Hrest i now' r Hn Hr). cbn [rl_interval rl' rl_last] in Hrest.
      destruct i as [|j]; exact Hrest.
Qed.

Lemma Wait_spaces_releases_witness :
  releases (newRateLimiter 20) [10 * Second; 10 * Second; 11 * Second; 30 * Second]
  = [10 * Second; 13 * Second; 16 * Second; 30 * Second]
  /\ length (releases (newRateLimiter 20)
               [10 * Second; 10 * Second; 11 * Second; 30 * Second]) = 4%nat.
Proof.
  split; [reflexivity|].
  exact (proj1 (Wait_spaces_releases (newRateLimiter 20)
                  [10 * Second; 10 * Second; 11 * Second; 30 * Second]
                  Second (30 * Second)
                  eq_refl ltac:(discriminate) eq_refl
                  ltac:(repeat constructor; discriminate)
                  ltac:(split; discriminate) ltac:(discriminate))).
Defined.

(** ** The concurrency limiter *)

Lemma limiterStep_bounds (C : Z) (l : concurrencyLimiter) (c : limiterCall) :
  0 <= cl_inflight l <= Z.max 1 C -> 1 <= cl_max l <= Z.max 1 C ->
  Forall (fun k => k <= C) (requestedCaps [c]) ->
  0 <= cl_inflight (limiterStep l c) <= Z.max 1 C
  /\ 1 <= cl_max (limiterStep l c) <= Z.max 1 C.
Proof.
  intros Hi Hm Hc. destruct c as [| |k]; cbn [limiterStep].
  - unfold acquireAttempt.
    destruct (Z.ltb_spec (cl_inflight l) (cl_max l)); cbn; lia.
  - unfold Release. destruct (Z.ltb_spec 0 (cl_inflight l)); cbn; lia.
  - cbn in Hc. apply Forall_cons in Hc as [Hk _].
    unfold UpdateMax. destruct (Z.leb_spec k 0); cbn; lia.
Qed.

(** X6.  Whatever calls a concurrency limiter receives (attempts to
    acquire, releases, changes of the cap), the number of requests in
    flight never becomes negative and never exceeds the largest cap that
    was asked for (or one, if all were smaller), and the cap in force is
    never below one.  A slot that was acquired and is released again
    leaves the limiter as it was. *)
Theorem concurrencyLimiter_bounds (max0 C : Z) (cs : list limiterCall) :
  max0 <= C -> Forall (fun k => k <= C) (requestedCaps cs) ->
  let l := fold_left limiterStep cs (newConcurrencyLimiter max0) in
  0 <= cl_inflight l <= Z.max 1 C
  /\ 1 <= cl_max l <= Z.max 1 C
  /\ (forall l', acquireAttempt l = (l', true) -> Release l' = l).
Proof.
  intros H0 Hcs. cbv zeta.
  assert (forall l,
            0 <= cl_inflight l <= Z.max 1 C -> 1 <= cl_max l <= Z.max 1 C ->
            0 <= cl_inflight (fold_left limiterStep cs l) <= Z.max 1 C
            /\ 1 <= cl_max (fold_left limiterStep cs l) <= Z.max 1 C) as Hfold.
  { induction cs as [|c cs IH]; intros l Hi Hm; [done|].
    cbn [fold_left]. cbn [requestedCaps flat_map] in Hcs.
    apply Forall_app in Hcs as [Hc Hcs].
    destruct (limiterStep_bounds C l c Hi Hm) as [Hi' Hm'].
    { cbn [requestedCaps flat_map]. by rewrite app_nil_r. }
    apply IH; assumption. }
  destruct (Hfold (newConcurrencyLimiter max0)) as [Hi Hm].
  { cbn. lia. }
  { unfold newConcurrencyLimiter. destruct (Z.leb_spec max0 0); cbn; lia. }
  split; [exact Hi|]. split; [exact Hm|].
  intros l'. unfold acquireAttempt.
  destruct (Z.ltb_spec (cl_inflight (fold_left limiterStep cs (newConcurrencyLimiter max0)))
                       (cl_max (fold_left limiterStep cs (newConcurrencyLimiter max0))));
    [|discriminate].
  intros [= <-]. unfold Release. cbn [cl_inflight cl_max].
  destruct (Z.ltb_spec 0 (cl_inflight (fold_left limiterStep cs (newConcurrencyLimiter max0)) + 1));
    [|lia].
  destruct (fold_left limiterStep cs (newConcurrencyLimiter max0)) as [i mx].
  cbn. f_equal. lia.
Qed.

Lemma concurrencyLimiter_bounds_witness :
  let l := fold_left limiterStep
             [CallAcquire; CallAcquire; CallUpdateMax 1; CallAcquire;
              CallRelease; CallRelease; CallRelease]
             (newConcurrencyLimiter 2) in
  0 <= cl_inflight l <= 2 /\ 1 <= cl_max l <= 2.
Proof.
  destruct (concurrencyLimiter_bounds 2 2
              [CallAcquire; CallAcquire; CallUpdateMax 1; CallAcquire;
               CallRelease; CallRelease; CallRelease]
              ltac:(lia) ltac:(repeat constructor; lia)) as (H1 & H2 & _).
  split; [exact H1|exact H2].
Defined.

(** ** The verified pipeline: bookkeeping of the verification loop *)

Section VerifyLoop.

Variable rangeMap : forall A : Type, gmap Z A -> list (Z * A).
Variable ParseSource : gostring -> option ParsedSource.
Variable BuildPrompt : gostring -> list (string * promptValue) -> gostring.
Variable Analyze : nat -> AIRequest -> option AnalysisResult.
Variable ParseVerificationResult : gostring -> option AIVerificationResult.

Local Abbreviation step code address template prettyCode context :=
  (verifyDetector BuildPrompt Analyze ParseVerificationResult
     code address template prettyCode context).

Lemma verifyDetector_loop (code address template prettyCode : gostring)
    (context : bool * gostring * gostring * gostring)
    (detectors : list Detector) (vulns0 : list Vulnerability)
    (verified0 fp0 : Z) (sent0 : list AIRequest) :
  exists (vulns : list Vulnerability) (fp : nat) (sent : list AIRequest),
    fold_left (step code address template prettyCode context) detectors
              (vulns0, mkVerificationStats verified0 fp0, sent0)
    = (vulns0 ++ vulns,
       mkVerificationStats (verified0 + Z.of_nat (length vulns))
                           (fp0 + Z.of_nat fp),
       sent0 ++ sent)
    /\ length sent = length detectors
    /\ (length vulns + fp <= length detectors)%nat
    /\ Forall (fun r => reqCode r = code /\ reqStrategy r = lit "mode2_fuzzy") sent
    /\ sublist (map (fun v => (vType v, vLineNumbers v)) vulns)
               (map (fun d => (Check d, LineNumbers d)) detectors)
    /\ Forall (fun v => vLocation v = address) vulns.
Proof.
  revert vulns0 verified0 fp0 sent0.
  induction detectors as [|d ds IH]; intros vulns0 verified0 fp0 sent0.
  - exists [], 0%nat, []. cbn. rewrite !app_nil_r, !Z.add_0_r.
    split; [reflexivity|]. split; [reflexivity|]. split; [lia|].
    split; [constructor|]. split; constructor.
  - cbn [fold_left]. unfold verifyDetector at 2.
    destruct context as [[[ecg info] callees] enriched].
    set (request := mkAIRequest code _ _).
    assert (reqCode request = code /\ reqStrategy request = lit "mode2_fuzzy")
      as Hreq by done.
    clearbody request.
    destruct (Analyze (length sent0) request) as [aiResult|].
    2: { destruct (IH vulns0 verified0 fp0 (sent0 ++ [request]))
           as (vulns & fp & sent & -> & Hlen & Hcount & Hsent & Hsub & Hloc).
         exists vulns, fp, (request :: sent). rewrite <- app_assoc.
         split; [reflexivity|]. cbn [length map].
         split; [lia|]. split; [lia|]. split; [by constructor|].
         split; [by apply sublist_cons|exact Hloc]. }
    destruct (ParseVerificationResult (RawResponse aiResult)) as [vr|].
    2: { destruct (IH vulns0 verified0 fp0 (sent0 ++ [request]))
           as (vulns & fp & sent & -> & Hlen & Hcount & Hsent & Hsub & Hloc).
         exists vulns, fp, (request :: sent). rewrite <- app_assoc.
         split; [reflexivity|]. cbn [length map].
         split; [lia|]. split; [lia|]. split; [by constructor|].
         split; [by apply sublist_cons|exact Hloc]. }
    destruct (IsVulnerability vr); cbn [Verified FalsePositives].
    + set (vuln := mkVulnerability _ _ _ _ _ _).
      destruct (IH (vulns0 ++ [vuln]) (verified0 + 1) fp0 (sent0 ++ [request]))
        as (vulns & fp & sent & -> & Hlen & Hcount & Hsent & Hsub & Hloc).
      exists (vuln :: vulns), fp, (request :: sent). rewrite <- !app_assoc.
      split; [cbn [app length]; do 2 f_equal; f_equal; lia|].
      cbn [length map].
      split; [lia|]. split; [lia|]. split; [by constructor|].
      split; [by apply sublist_skip|].
      constructor; [reflexivity|exact Hloc].
    + destruct (IH vulns0 verified0 (fp0 + 1) (sent0 ++ [request]))
        as (vulns & fp & sent & -> & Hlen & Hcount & Hsent & Hsub & Hloc).
      exists vulns, (S fp), (request :: sent). rewrite <- app_assoc.
      split; [cbn [app]; do 2 f_equal; f_equal; lia|].
      cbn [length map].
      split; [lia|]. split; [lia|]. split; [by constructor|].
      split; [by apply sublist_cons|exact Hloc].
Qed.

End VerifyLoop.

(** X7.  Whatever the model answers and however its answers decode,
    [verifyDetectors] sends exactly one request per static finding, each
    with the contract code and the strategy [mode2_fuzzy]; it reports
    only findings of the static analyser, in their order and with their
    line numbers, located at the contract address; the count of verified
    findings is the number of reported vulnerabilities, and verified and
    false positives together never exceed the number of findings. *)
Theorem verifyDetectors_accounting
    (rangeMap : forall A : Type, gmap Z A -> list (Z * A))
    (ParseSource : gostring -> option ParsedSource)
    (BuildPrompt : gostring -> list (string * promptValue) -> gostring)
    (Analyze : nat -> AIRequest -> option AnalysisResult)
    (ParseVerificationResult : gostring -> option AIVerificationResult)
    (staticResult : StaticResult) (code address template : gostring) :
  let r := verifyDetectors rangeMap ParseSource BuildPrompt Analyze
             ParseVerificationResult staticResult code address template in
  let vulns := fst (fst r) in
  let stats := snd (fst r) in
  let sent := snd r in
  length sent = length (Detectors staticResult)
  /\ Forall (fun q => reqCode q = code /\ reqStrategy q = lit "mode2_fuzzy") sent
  /\ Verified stats = Z.of_nat (length vulns)
  /\ 0 <= FalsePositives stats
  /\ Verified stats + FalsePositives stats
     <= Z.of_nat (length (Detectors staticResult))
  /\ sublist (map (fun v => (vType v, vLineNumbers v)) vulns)
             (map (fun d => (Check d, LineNumbers d)) (Detectors staticResult))
  /\ Forall (fun v => vLocation v = address) vulns.
Proof.
  cbv zeta. unfold verifyDetectors.
  case_bool_decide as Hnil.
  - destruct (Detectors staticResult); [|done]. cbn.
    split; [reflexivity|]. split; [constructor|]. split; [reflexivity|].
    split; [lia|]. split; [lia|]. split; constructor.
  - destruct (verifyDetector_loop BuildPrompt Analyze ParseVerificationResult
                code address template (normalizeContractCodeForPrompt code)
                (buildMode2CallGraphContext rangeMap ParseSource code)
                (Detectors staticResult) [] 0 0 [])
      as (vulns & fp & sent & -> & Hlen & Hcount & Hsent & Hsub & Hloc).
    cbn [fst snd app Verified FalsePositives].
    split; [exact Hlen|]. split; [exact Hsent|]. split; [lia|].
    split; [lia|]. split; [lia|]. split; [exact Hsub|exact Hloc].
Qed.

(** ** The verified pipeline: the cache of static-analysis results *)



(** ** The targeted pipeline: the cache of contracts *)

(** X9.  The targeted pipeline downloads a contract at most once: after
    a successful look-up every look-up of the same address, surrounding
    white space aside, returns the same contract without a download and
    leaves the cache alone.  A failed download and an address that is
    blank change nothing in the cache, so that a later task tries
    again. *)
Theorem getCachedContract_reuse
    (download download' : gostring -> option (gostring * gostring * bool))
    (cache cache' : gmap gostring cachedContract) (addr addr' : gostring)
    (res : option cachedContract) :
  getCachedContract download cache addr = (res, cache') ->
  match res with
  | Some c =>
    strings.TrimSpace addr' = strings.TrimSpace addr ->
    getCachedContract download' cache' addr' = (Some c, cache')
  | None => cache' = cache
  end.
Proof.
  unfold getCachedContract.
  case_bool_decide as Hblank; [by intros [= <- <-]|].
  destruct (cache !! strings.TrimSpace addr) as [c0|] eqn:Hc.
  - intros [= <- <-] ->.
    rewrite bool_decide_eq_false_2 by done. by rewrite Hc.
  - destruct (loadContract download (strings.TrimSpace addr)) as [c|].
    + intros [= <- <-] ->.
      rewrite bool_decide_eq_false_2 by done.
      by rewrite lookup_insert_eq.
    + by intros [= <- <-].
Qed.

Lemma getCachedContract_reuse_witness :
  getCachedContract (fun _ => None)
    (snd (getCachedContract sampleDownload ∅ (lit " 0xA ")))
    (lit "0xA")
  = getCachedContract sampleDownload ∅ (lit " 0xA ").
Proof.
  pose proof (getCachedContract_reuse sampleDownload (fun _ => None) ∅
                (snd (getCachedContract sampleDownload ∅ (lit " 0xA ")))
                (lit " 0xA ") (lit "0xA")
                (fst (getCachedContract sampleDownload ∅ (lit " 0xA ")))) as H.
  destruct (getCachedContract sampleDownload ∅ (lit " 0xA ")) as [[c|] cache'] eqn:E;
    cbn [fst snd] in *.
  - apply H; reflexivity.
  - discriminate E.
Defined.

(** ** The call graph: shape of the recorded lists *)

Lemma extractCalleesRecursive_unfold (fns : gmap Z Node) (node : Node)
    (st : list Z * gset Z) :
  extractCalleesRecursive fns node st
  = let st := noteCallee fns (ReferencedDeclaration node) st in
    let st := match Body node with
              | Some b => extractCalleesRecursive fns b st
              | None => st
              end in
    let st := match Expression node with
              | Some e => extractCalleesRecursive fns e st
              | None => st
              end in
    let st := fold_left (fun st n => extractCalleesRecursive fns n st) (Nodes node) st in
    let st := fold_left (fun st n => extractCalleesRecursive fns n st) (Statements node) st in
    let st := fold_left (fun st n => extractCalleesRecursive fns n st) (Arguments node) st in
    fold_left (fun st n => extractCalleesRecursive fns n st) (Modifiers node) st.
Proof. destruct node; reflexivity. Qed.

Lemma fold_left_Forall_preserves {A B : Type} (I : A -> Prop) (f : B -> A -> A)
    (l : list B) :
  Forall (fun x => forall a, I a -> I (f x a)) l ->
  forall a, I a -> I (fold_left (fun a x => f x a) l a).
Proof.
  induction 1 as [|x l Hx _ IH]; intros a Ha; cbn [fold_left]; [done|].
  apply IH, Hx, Ha.
Qed.

Lemma noteCallee_ok (fns : gmap Z Node) (refID : Z) (st : list Z * gset Z) :
  calleesOk fns st -> calleesOk fns (noteCallee fns refID st).
Proof.
  intros [Hnd Hin]. unfold noteCallee.
  case_bool_decide as H0; [|done].
  case_bool_decide as Hfn; [|done].
  case_bool_decide as Hvis; [|done].
  split; cbn [fst snd].
  - apply NoDup_app. split; [done|]. split; [|apply NoDup_singleton].
    intros x Hx Hx'. apply list_elem_of_singleton in Hx' as ->.
    apply Hin in Hx as [Hx _]. done.
  - intros x Hx. apply elem_of_app in Hx as [Hx|Hx].
    + apply Hin in Hx as (? & ? & ?).
      split; [apply elem_of_union; by right|done].
    + apply list_elem_of_singleton in Hx as ->.
      split; [apply elem_of_union; left; by apply elem_of_singleton|done].
Qed.

Lemma extractCalleesRecursive_ok (fns : gmap Z Node) (node : Node) :
  forall st, calleesOk fns st -> calleesOk fns (extractCalleesRecursive fns node st).
Proof.
  induction node as [node Hb He Hn Hs Ha Hm] using Node_nested_ind.
  intros st Hst. rewrite extractCalleesRecursive_unfold. cbv zeta.
  apply (fold_left_Forall_preserves (calleesOk fns)
           (extractCalleesRecursive fns)); [exact Hm|].
  apply (fold_left_Forall_preserves (calleesOk fns)
           (extractCalleesRecursive fns)); [exact Ha|].
  apply (fold_left_Forall_preserves (calleesOk fns)
           (extractCalleesRecursive fns)); [exact Hs|].
  apply (fold_left_Forall_preserves (calleesOk fns)
           (extractCalleesRecursive fns)); [exact Hn|].
  assert (calleesOk fns (noteCallee fns (ReferencedDeclaration node) st)) as H1
    by (by apply noteCallee_ok).
  destruct (Body node) as [b|]; [specialize (Hb b eq_refl _ H1)|];
    (destruct (Expression node) as [e|]; [apply (He e eq_refl)|]); done.
Qed.

Lemma extractCallees_ok (fns : gmap Z Node) (node : Node) :
  NoDup (extractCallees fns node)
  /\ forall x, x ∈ extractCallees fns node -> x <> 0 /\ is_Some (fns !! x).
Proof.
  destruct (extractCalleesRecursive_ok fns node ([], ∅)) as [Hnd Hin].
  { split; [constructor|]. intros x Hx. by apply elem_of_nil in Hx. }
  split; [exact Hnd|]. intros x Hx. apply Hin in Hx. tauto.
Qed.

(** The callers after one function was handled, as lists. *)
Lemma callers_after_exact (funcID : Z) (callees : list Z)
    (callers : gmap Z (list Z)) (i : Z) :
  NoDup callees ->
  idsAt (fold_left (fun callers calleeID =>
                      <[calleeID := idsAt callers calleeID ++ [funcID]]> callers)
                   callees callers) i
  = idsAt callers i ++ (if decide (i ∈ callees) then [funcID] else []).
Proof.
  revert callers. induction callees as [|c callees IH]; intros callers Hnd;
    cbn [fold_left].
  - rewrite decide_False by apply not_elem_of_nil. by rewrite app_nil_r.
  - apply NoDup_cons in Hnd as [Hc Hnd]. rewrite IH by done.
    rewrite idsAt_insert.
    destruct (decide (c = i)) as [->|Hne].
    + rewrite (decide_False (P := i ∈ callees)) by done.
      rewrite (decide_True (P := i ∈ i :: callees)) by left.
      by rewrite app_nil_r.
    + destruct (decide (i ∈ callees)) as [Hi|Hi].
      * rewrite (decide_True (P := i ∈ c :: callees)) by (by right). done.
      * rewrite (decide_False (P := i ∈ c :: callees)); [done|].
        rewrite elem_of_cons. intros [->|?]; done.
Qed.

Section CallGraphShape.

Variable rangeMap : forall A : Type, gmap Z A -> list (Z * A).

Hypothesis rangeMap_perm :
  forall (A : Type) (m : gmap Z A), rangeMap A m ≡ₚ map_to_list m.

Variable fns : gmap Z Node.

Lemma secondPass_callees (entries : list (Z * Node))
    (acc : gmap Z (list Z) * gmap Z (list Z)) (f : Z) :
  (fold_left (recordCalls fns) entries acc).1 !! f
  = match last (List.filter (fun e => bool_decide (e.1 = f)) entries) with
    | Some e => Some (extractCallees fns e.2)
    | None => acc.1 !! f
    end.
Proof.
  revert acc. induction entries as [|[g node] entries IH]; intros acc;
    cbn [fold_left List.filter]; [done|].
  rewrite IH. cbn [fst recordCalls snd].
  case_bool_decide as Hg.
  - subst g. rewrite lookup_insert_eq.
    destruct (List.filter _ entries) as [|e l]; [reflexivity|].
    rewrite last_cons_cons.
    destruct (last (e :: l)) eqn:E; [done|]. by apply last_None in E.
  - rewrite lookup_insert_ne by done. done.
Qed.

Lemma secondPass_callers_NoDup (entries : list (Z * Node)) (handled : list Z)
    (acc : gmap Z (list Z) * gmap Z (list Z)) :
  NoDup (handled ++ entries.*1) ->
  callsConsistent handled acc ->
  (forall i, NoDup (idsAt acc.2 i)) ->
  forall i, NoDup (idsAt (fold_left (recordCalls fns) entries acc).2 i).
Proof.
  revert handled acc. induction entries as [|[f node] entries IH];
    intros handled acc Hnd Hc Hacc; [done|].
  cbn [fold_left].
  assert (f ∉ handled) as Hf.
  { cbn in Hnd. apply NoDup_app in Hnd as (_ & Hdisj & _).
    intros Hin. apply (Hdisj _ Hin). left. }
  apply (IH (handled ++ [f])).
  - cbn in Hnd. by rewrite <- app_assoc.
  - by apply (recordCalls_consistent fns handled acc (f, node)).
  - intros i. unfold recordCalls. cbn [snd].
    rewrite callers_after_exact by apply extractCallees_ok.
    destruct (decide (i ∈ extractCallees fns node)); [|by rewrite app_nil_r].
    apply NoDup_app. split; [apply Hacc|]. split; [|apply NoDup_singleton].
    intros x Hx Hx'. apply list_elem_of_singleton in Hx' as ->.
    destruct Hc as (_ & _ & Hcod). apply Hcod in Hx. done.
Qed.

End CallGraphShape.

(** The shape of a built call graph. *)
Lemma BuildCallGraph_shape
    (rangeAny : forall A : Type, gmap Z A -> list (Z * A))
    (Hrange : forall (A : Type) (m : gmap Z A), rangeAny A m ≡ₚ map_to_list m)
    (ps : ParsedSource) :
  let cg := BuildCallGraph rangeAny ps in
  dom (Callees cg) = dom (Functions cg)
  /\ (forall f node, Functions cg !! f = Some node ->
        Callees cg !! f = Some (extractCallees (Functions cg) node))
  /\ (forall f l, Callees cg !! f = Some l ->
        NoDup l /\ forall c, c ∈ l -> c <> 0 /\ is_Some (Functions cg !! c))
  /\ (forall g l, Callers cg !! g = Some l ->
        NoDup l
        /\ forall c, c ∈ l ->
             is_Some (Functions cg !! c) /\ is_Some (Functions cg !! g)).
Proof.
  cbv zeta.
  assert (forall f, Callees (BuildCallGraph rangeAny ps) !! f
                    = match Functions (BuildCallGraph rangeAny ps) !! f with
                      | Some node =>
                        Some (extractCallees (Functions (BuildCallGraph rangeAny ps)) node)
                      | None => None
                      end) as Hcallees.
  { intros f. unfold BuildCallGraph.
    destruct (collectFunctions (AST ps)) as [fns refs].
    pose proof (secondPass_callees fns (rangeAny Node fns) (∅, ∅) f) as H.
    destruct (fold_left (recordCalls fns) (rangeAny Node fns) (∅, ∅))
      as [callees callers].
    cbn [Callees Functions fst] in *. rewrite H. clear H.
    destruct (last (List.filter (fun e => bool_decide (e.1 = f)) (rangeAny Node fns)))
      as [[g node]|] eqn:Hlast.
    - apply last_Some_elem_of, list_elem_of_In, filter_In in Hlast as [Hin Hg].
      apply bool_decide_eq_true in Hg. cbn in Hg. subst g.
      apply list_elem_of_In, (rangeMap_lookup rangeAny Hrange) in Hin.
      by rewrite Hin.
    - rewrite lookup_empty.
      destruct (fns !! f) as [node|] eqn:Hf; [|done].
      apply (rangeMap_lookup rangeAny Hrange), list_elem_of_In in Hf.
      assert (In (f, node) (List.filter (fun e => bool_decide (e.1 = f))
                                        (rangeAny Node fns))) as Hin.
      { apply filter_In. split; [done|]. by apply bool_decide_eq_true. }
      apply last_None in Hlast. rewrite Hlast in Hin. done. }
  assert (forall f l, Callees (BuildCallGraph rangeAny ps) !! f = Some l ->
            NoDup l /\ forall c, c ∈ l ->
              c <> 0 /\ is_Some (Functions (BuildCallGraph rangeAny ps) !! c)) as Hlist.
  { intros f l. rewrite Hcallees.
    destruct (Functions (BuildCallGraph rangeAny ps) !! f) as [node|]; [|done].
    intros [= <-]. apply extractCallees_ok. }
  split; [|split; [|split; [exact Hlist|]]].
  - apply set_eq. intros f. rewrite !elem_of_dom, Hcallees.
    destruct (Functions (BuildCallGraph rangeAny ps) !! f); split;
      intros [? ?]; eauto; done.
  - intros f node Hf. by rewrite Hcallees, Hf.
  - intros g l Hg. split.
    + assert (l = idsAt (Callers (BuildCallGraph rangeAny ps)) g) as ->
        by (unfold idsAt; by rewrite Hg).
      unfold BuildCallGraph.
      destruct (collectFunctions (AST ps)) as [fns refs].
      pose proof (secondPass_callers_NoDup fns (rangeAny Node fns) [] (∅, ∅)) as H.
      destruct (fold_left (recordCalls fns) (rangeAny Node fns) (∅, ∅))
        as [callees callers].
      cbn [Callers snd] in *. apply H.
      * apply (rangeMap_NoDup_keys rangeAny Hrange).
      * split; [|split]; cbn.
        -- intros i' j'. unfold idsAt. rewrite !lookup_empty. cbn.
           rewrite !elem_of_nil. tauto.
        -- done.
        -- intros i' j'. unfold idsAt. rewrite lookup_empty. cbn.
           by rewrite elem_of_nil.
      * intros i. unfold idsAt. rewrite lookup_empty. constructor.
    + intros c Hc.
      assert (c ∈ idsAt (Callers (BuildCallGraph rangeAny ps)) g) as Hc'
        by (unfold idsAt; by rewrite Hg).
      apply (BuildCallGraph_consistent rangeAny Hrange) in Hc'.
      unfold idsAt in Hc'.
      destruct (Callees (BuildCallGraph rangeAny ps) !! c) as [l'|] eqn:Hl';
        [|by apply elem_of_nil in Hc'].
      cbn in Hc'. split.
      * rewrite Hcallees in Hl'.
        destruct (Functions (BuildCallGraph rangeAny ps) !! c); [eauto|done].
      * apply (Hlist c l' Hl') in Hc'. tauto.
Qed.

(** X10.  The call graph built by [BuildCallGraph] is well formed,
    whatever the order in which the map of functions is ranged over:
    the functions with a callee list are exactly the functions of the
    graph; a callee list is the list [extractCallees] finds in the body
    of its function, it has no duplicates and names only functions of
    the graph, never the id 0; a caller list has no duplicates and
    names only functions of the graph, as callers of a function of the
    graph. *)
Theorem BuildCallGraph_well_formed
    (rangeAny : forall A : Type, gmap Z A -> list (Z * A))
    (Hrange : forall (A : Type) (m : gmap Z A), rangeAny A m ≡ₚ map_to_list m)
    (ps : ParsedSource) :
  let cg := BuildCallGraph rangeAny ps in
  dom (Callees cg) = dom (Functions cg)
  /\ (forall f node, Functions cg !! f = Some node ->
        Callees cg !! f = Some (extractCallees (Functions cg) node))
  /\ (forall f l, Callees cg !! f = Some l ->
        NoDup l /\ forall c, c ∈ l -> c <> 0 /\ is_Some (Functions cg !! c))
  /\ (forall g l, Callers cg !! g = Some l ->
        NoDup l
        /\ forall c, c ∈ l ->
             is_Some (Functions cg !! c) /\ is_Some (Functions cg !! g)).
Proof. by apply BuildCallGraph_shape. Qed.

Lemma BuildCallGraph_well_formed_witness :
  dom (Callees (BuildCallGraph rangeInOrder (chainSource 3)))
  = dom (Functions (BuildCallGraph rangeInOrder (chainSource 3))).
Proof.
  exact (proj1 (BuildCallGraph_well_formed rangeInOrder
                  (fun A m => reflexivity (map_to_list m)) (chainSource 3))).
Defined.

(** ** Entry points and function counts *)

Lemma GetPublicEntryPoints_spec
    (rangeAny : forall A : Type, gmap Z A -> list (Z * A))
    (Hrange : forall (A : Type) (m : gmap Z A), rangeAny A m ≡ₚ map_to_list m)
    (cg : CallGraphFull) :
  (length (GetPublicEntryPoints rangeAny cg) <= size (Functions cg))%nat
  /\ forall n, n ∈ GetPublicEntryPoints rangeAny cg <->
               isEntryPoint n = true /\ exists k, Functions cg !! k = Some n.
Proof.
  unfold GetPublicEntryPoints. split.
  - etrans; [apply filter_length_le|].
    rewrite length_map, (Hrange Node (Functions cg)), length_map_to_list. done.
  - intros n. rewrite list_elem_of_In, filter_In, <- list_elem_of_In.
    rewrite list_elem_of_fmap. split.
    + intros [([k n'] & -> & Hin) He]. split; [done|].
      exists k. by apply (rangeMap_lookup rangeAny Hrange).
    + intros [He [k Hk]]. split; [|done].
      exists (k, n). split; [done|]. by apply (rangeMap_lookup rangeAny Hrange).
Qed.

(** X11.  The function counts the targeted pipeline hands to the prompt
    always add up: the total number of functions is the number of
    public entry points plus the number of internal functions, none of
    them negative, so that the clamp of the internal count at zero never
    takes effect.  Without a call graph all counts are zero and the
    call-graph texts are empty; the callers text is always empty, and
    the original length is the length of the downloaded code. *)
Theorem preprocess_function_counts
    (rangeAny : forall A : Type, gmap Z A -> list (Z * A))
    (Hrange : forall (A : Type) (m : gmap Z A), rangeAny A m ≡ₚ map_to_list m)
    (CleanCode : gostring -> bool -> gostring)
    (ParseSource : gostring -> option ParsedSource)
    (needCallGraph : bool) (contract : cachedContract) :
  let p := preprocess rangeAny CleanCode ParseSource needCallGraph contract in
  TotalFunctions p = PublicFunctions p + InternalFunctions p
  /\ 0 <= PublicFunctions p /\ 0 <= InternalFunctions p
  /\ (EnableCallGraph p = true <->
      needCallGraph = true /\ is_Some (ParseSource (CleanCode (Code contract) true)))
  /\ (EnableCallGraph p = false ->
      TotalFunctions p = 0 /\ CallGraphInfo p = [] /\ CalleesCode p = []
      /\ EnrichedContext p = [])
  /\ CallersCode p = []
  /\ OriginalLen p = Z.of_nat (length (Code contract)).
Proof.
  cbv zeta. unfold preprocess.
  destruct (ParseSource (CleanCode (Code contract) true)) as [parsed|].
  2: { cbn. split; [lia|]. split; [lia|]. split; [lia|].
       split; [split; [done|intros [_ [? ?]]; done]|]. done. }
  destruct needCallGraph.
  2: { destruct (PruneDeadCode parsed [] true) as [pruned err]. cbn.
       split; [lia|]. split; [lia|]. split; [lia|].
       split; [split; [done|intros [? _]; done]|]. done. }
  unfold buildCallGraphContext.
  destruct (PruneDeadCode parsed [] true) as [pruned err].
  cbn [TotalFunctions PublicFunctions InternalFunctions EnableCallGraph
       CallGraphInfo CalleesCode EnrichedContext CallersCode OriginalLen].
  destruct (GetPublicEntryPoints_spec rangeAny Hrange
              (BuildCallGraph rangeAny parsed)) as [Hle _].
  set (total := size (Functions (BuildCallGraph rangeAny parsed))) in *.
  set (public := length (GetPublicEntryPoints rangeAny (BuildCallGraph rangeAny parsed))) in *.
  destruct (Z.ltb_spec (Z.of_nat total - Z.of_nat public) 0); [lia|].
  split; [lia|]. split; [lia|]. split; [lia|].
  split; [split; [eauto|done]|]. done.
Qed.

Lemma preprocess_function_counts_witness :
  let p := preprocess rangeInOrder keepCode parseVault true vaultContract in
  TotalFunctions p = 3 /\ PublicFunctions p = 1 /\ InternalFunctions p = 2
  /\ TotalFunctions p = PublicFunctions p + InternalFunctions p.
Proof.
  cbv zeta. split; [vm_compute; reflexivity|].
  split; [vm_compute; reflexivity|]. split; [vm_compute; reflexivity|].
  exact (proj1 (preprocess_function_counts rangeInOrder
                  (fun A m => reflexivity (map_to_list m))
                  keepCode parseVault true vaultContract)).
Defined.

(** ** The traversals of the call graph *)

Section Traversals.

Variable cg : CallGraphFull.

Hypothesis functions_by_id :
  forall k n, Functions cg !! k = Some n -> ID n = k.

Lemma fold_left_visits {A : Type} (I : A * gset Z -> Prop)
    (f : A * gset Z -> Z -> A * gset Z) (l : list Z) :
  (forall st c, I st -> I (f st c) /\ st.2 ⊆ (f st c).2 /\ c ∈ (f st c).2) ->
  forall st, I st ->
    I (fold_left f l st) /\ st.2 ⊆ (fold_left f l st).2
    /\ forall c, c ∈ l -> c ∈ (fold_left f l st).2.
Proof.
  intros Hstep. induction l as [|c l IH]; intros st Hst; cbn [fold_left].
  - split; [done|]. split; [done|]. intros c Hc. by apply elem_of_nil in Hc.
  - destruct (Hstep st c Hst) as (H1 & H2 & H3).
    destruct (IH (f st c) H1) as (H4 & H5 & H6).
    split; [done|]. split; [by etrans|].
    intros c' Hc'. apply elem_of_cons in Hc' as [->|Hc']; [by apply H5|by apply H6].
Qed.

Lemma getCalleesRecursiveHelper_collected (remaining : nat) (funcID : Z)
    (st : list Node * gset Z) :
  collected cg st ->
  collected cg (getCalleesRecursiveHelper cg remaining funcID st)
  /\ st.2 ⊆ (getCalleesRecursiveHelper cg remaining funcID st).2
  /\ ((0 < remaining)%nat ->
      forall c, c ∈ idsAt (Callees cg) funcID ->
                c ∈ (getCalleesRecursiveHelper cg remaining funcID st).2).
Proof.
  revert funcID st. induction remaining as [|r IH]; intros funcID st Hst.
  - cbn. split; [done|]. split; [done|]. lia.
  - cbn [getCalleesRecursiveHelper].
    match goal with
    | |- context [fold_left ?f _ _] =>
        destruct (fold_left_visits (collected cg) f (idsAt (Callees cg) funcID)) with (st := st)
          as (H1 & H2 & H3); [|done|by auto]
    end.
    clear st Hst. intros st c (Hmem & Hnd & Hall).
    case_bool_decide as Hvis.
    2: { split; [done|]. split; [done|].
         exact Hvis. }
    cbn [fst snd].
    destruct (Functions cg !! c) as [node|] eqn:Hfn.
    + assert (collected cg (st.1 ++ [node], {[c]} ∪ st.2)) as Hst'.
      { pose proof (functions_by_id c node Hfn) as Hid.
        split; [|split]; cbn [fst snd].
        - intros n Hn. apply elem_of_app in Hn as [Hn|Hn].
          + destruct (Hmem n Hn). split; [apply elem_of_union; by right|done].
          + apply list_elem_of_singleton in Hn as ->. rewrite Hid.
            split; [apply elem_of_union; left; by apply elem_of_singleton|done].
        - rewrite map_app. apply NoDup_app. split; [done|].
          split; [|apply NoDup_singleton].
          intros x Hx Hx'. cbn in Hx'. apply list_elem_of_singleton in Hx' as ->.
          apply list_elem_of_fmap in Hx as (n & Hn & Hin).
          destruct (Hmem n Hin) as [Hv _]. rewrite <- Hn, Hid in Hv. done.
        - intros k n Hk Hkn. apply elem_of_union in Hk as [Hk|Hk].
          + apply elem_of_singleton in Hk as ->.
            rewrite Hfn in Hkn. injection Hkn as <-.
            apply elem_of_app. right. by apply list_elem_of_singleton.
          + apply elem_of_app. left. by apply (Hall k). }
      destruct (IH c _ Hst') as (H1 & H2 & _). cbn [snd] in H2.
      split; [done|]. split.
      * etrans; [|exact H2]. apply union_subseteq_r.
      * apply H2. apply elem_of_union. left. by apply elem_of_singleton.
    + split; [|split].
      * split; [|split]; cbn [fst snd].
        -- intros n Hn. destruct (Hmem n Hn).
           split; [apply elem_of_union; by right|done].
        -- done.
        -- intros k n Hk Hkn. apply elem_of_union in Hk as [Hk|Hk].
           ++ apply elem_of_singleton in Hk as ->. congruence.
           ++ by apply (Hall k).
      * apply union_subseteq_r.
      * apply elem_of_union. left. by apply elem_of_singleton.
Qed.

Lemma GetCalleesRecursive_collected (funcID maxDepth : Z) :
  NoDup (map ID (GetCalleesRecursive cg funcID maxDepth))
  /\ (forall n, n ∈ GetCalleesRecursive cg funcID maxDepth ->
        Functions cg !! ID n = Some n)
  /\ (maxDepth <= 0 -> GetCalleesRecursive cg funcID maxDepth = [])
  /\ (0 < maxDepth ->
      forall c n, c ∈ idsAt (Callees cg) funcID -> Functions cg !! c = Some n ->
                  n ∈ GetCalleesRecursive cg funcID maxDepth).
Proof.
  unfold GetCalleesRecursive.
  destruct (getCalleesRecursiveHelper_collected (Z.to_nat (maxDepth - 0)) funcID ([], ∅))
    as ((Hmem & Hnd & Hall) & _ & Hdirect).
  { split; [|split]; cbn.
    - intros n Hn. by apply elem_of_nil in Hn.
    - constructor.
    - intros k n Hk. by apply elem_of_empty in Hk. }
  split; [exact Hnd|]. split; [intros n Hn; by apply Hmem|]. split.
  - intros Hd. replace (Z.to_nat (maxDepth - 0)) with 0%nat by lia. reflexivity.
  - intros Hd c n Hc Hn. apply (Hall c); [|done]. apply Hdirect; [lia|done].
Qed.

(** A chain of calls extended by one call at its end. *)
Lemma callPath_snoc (n : nat) (a c b : Z) :
  callPath cg n a c -> b ∈ idsAt (Callees cg) c -> callPath cg (S n) a b.
Proof.
  induction 1 as [a c Hac|n a c' c Hac Hpath IH]; intros Hb.
  - eapply path_step; [exact Hac|]. by constructor.
  - eapply path_step; [exact Hac|]. by apply IH.
Qed.

Hypothesis callers_are_callees :
  forall i j, i ∈ idsAt (Callees cg) j <-> j ∈ idsAt (Callers cg) i.

Lemma getCallersRecursiveHelper_within (remaining : nat) (funcID : Z)
    (st : list Node * gset Z) (n : Node) :
  n ∈ (getCallersRecursiveHelper cg remaining funcID st).1 ->
  n ∈ st.1 \/
  exists k d, (1 <= d <= remaining)%nat /\ callPath cg d k funcID
              /\ Functions cg !! k = Some n.
Proof.
  revert funcID st n. induction remaining as [|r IH]; intros funcID st n.
  - cbn. auto.
  - cbn [getCallersRecursiveHelper]. revert n.
    apply (fold_left_invariant
             (fun st' : list Node * gset Z =>
                forall n, n ∈ st'.1 ->
                  n ∈ st.1 \/
                  exists k d, (1 <= d <= S r)%nat /\ callPath cg d k funcID
                              /\ Functions cg !! k = Some n)).
    + auto.
    + intros st' c Hc Hst' n.
      case_bool_decide as Hvis; [|apply Hst'].
      cbn [fst snd].
      destruct (Functions cg !! c) as [node|] eqn:Hfn; [|apply Hst'].
      apply callers_are_callees in Hc.
      intros Hn. apply IH in Hn as [Hn|(k & d & Hd & Hp & Hk)].
      * cbn [fst] in Hn. apply elem_of_app in Hn as [Hn|Hn]; [by apply Hst'|].
        apply list_elem_of_singleton in Hn as ->. right.
        exists c, 1%nat. split; [lia|]. split; [by constructor | done].
      * right. exists k, (S d). split; [lia|].
        split; [by eapply callPath_snoc | done].
Qed.

End Traversals.

(** X12.  In a graph built by [BuildCallGraph], [GetCalleesRecursive]
    lists no function twice and only functions of the graph; with a
    depth limit of zero or less it lists nothing, and with a positive
    limit it lists every direct callee of the function. *)
Theorem GetCalleesRecursive_distinct
    (rangeAny : forall A : Type, gmap Z A -> list (Z * A))
    (ps : ParsedSource) (funcID maxDepth : Z) :
  let cg := BuildCallGraph rangeAny ps in
  let result := GetCalleesRecursive cg funcID maxDepth in
  NoDup (map ID result)
  /\ (forall n, n ∈ result -> Functions cg !! ID n = Some n)
  /\ (maxDepth <= 0 -> result = [])
  /\ (0 < maxDepth ->
      forall c n, c ∈ idsAt (Callees cg) funcID -> Functions cg !! c = Some n ->
                  n ∈ result).
Proof.
  cbv zeta. apply GetCalleesRecursive_collected.
  intros k n. rewrite BuildCallGraph_Functions. intros H.
  apply collectFunctions_sound in H as (_ & _ & _ & _ & _ & _ & H). exact H.
Qed.

Lemma GetCalleesRecursive_distinct_witness :
  map ID (GetCalleesRecursive (BuildCallGraph rangeInOrder (chainSource 4)) 1 2) = [2; 3]
  /\ NoDup (map ID (GetCalleesRecursive (BuildCallGraph rangeInOrder (chainSource 4)) 1 2)).
Proof.
  split; [vm_compute; reflexivity|].
  exact (proj1 (GetCalleesRecursive_distinct rangeInOrder (chainSource 4) 1 2)).
Defined.

(** X13.  In a graph built by [BuildCallGraph], every function listed by
    [GetCallersRecursive] reaches the given function through a chain of
    at least one and at most [maxDepth] calls recorded in [Callees]:
    the upward search returns callers only, direct or indirect, and
    never looks further than the limit. *)
Theorem GetCallersRecursive_within
    (rangeAny : forall A : Type, gmap Z A -> list (Z * A))
    (Hrange : forall (A : Type) (m : gmap Z A), rangeAny A m ≡ₚ map_to_list m)
    (ps : ParsedSource) (funcID maxDepth : Z) (n : Node) :
  let cg := BuildCallGraph rangeAny ps in
  n ∈ GetCallersRecursive cg funcID maxDepth ->
  exists d, (1 <= d)%nat /\ Z.of_nat d <= maxDepth
            /\ callPath cg d (ID n) funcID /\ Functions cg !! ID n = Some n.
Proof.
  cbv zeta. unfold GetCallersRecursive. intros H.
  apply getCallersRecursiveHelper_within in H as [H|(k & d & Hd & Hp & Hk)].
  - by apply elem_of_nil in H.
  - assert (ID n = k) as ->.
    { rewrite BuildCallGraph_Functions in Hk.
      apply collectFunctions_sound in Hk as (_ & _ & _ & _ & _ & _ & Hk). exact Hk. }
    exists d. split; [lia|]. split; [lia|done].
  - intros i j. by apply BuildCallGraph_consistent.
Qed.

Lemma GetCallersRecursive_within_witness :
  exists d, (1 <= d)%nat /\ Z.of_nat d <= 5
            /\ callPath (BuildCallGraph rangeInOrder (chainSource 3)) d
                        (ID (chainFunction 3 1)) 3.
Proof.
  destruct (GetCallersRecursive_within rangeInOrder
              (fun A m => reflexivity (map_to_list m)) (chainSource 3) 3 5
              (chainFunction 3 1)) as (d & H1 & H2 & H3 & _).
  - apply list_elem_of_In. vm_compute. right. left. reflexivity.
  - exists d. split; [exact H1|]. split; [exact H2|exact H3].
Defined.

(** ** The index of the nodes *)

Lemma indexNode_unfold (node : Node) (byID : gmap Z Node) :
  indexNode node byID
  = let byID := <[ID node := node]> byID in
    let byID := fold_left (fun m n => indexNode n m) (Nodes node) byID in
    let byID := match Body node with
                | Some b => indexNode b byID
                | None => byID
                end in
    let byID := fold_left (fun m n => indexNode n m) (Statements node) byID in
    let byID := match Expression node with
                | Some e => indexNode e byID
                | None => byID
                end in
    fold_left (fun m n => indexNode n m) (Arguments node) byID.
Proof. destruct node; reflexivity. Qed.

Lemma indexSpec_refl (byID : gmap Z Node) : indexSpec (fun _ => False) byID byID.
Proof. split; [done|]. split; [done|]. auto. Qed.

Lemma indexSpec_trans (s1 s2 : Node -> Prop) (a b c : gmap Z Node) :
  indexSpec s1 a b -> indexSpec s2 b c -> indexSpec (fun x => s1 x \/ s2 x) a c.
Proof.
  intros (Hd1 & Hc1 & Hs1) (Hd2 & Hc2 & Hs2). split; [by etrans|]. split.
  - intros x [Hx|Hx]; [apply Hd2, Hc1, Hx|apply Hc2, Hx].
  - intros k v Hkv. apply Hs2 in Hkv as [Hkv|[? ?]]; [|by auto].
    apply Hs1 in Hkv as [Hkv|[? ?]]; auto.
Qed.

Lemma indexSpec_ext (s s' : Node -> Prop) (a b : gmap Z Node) :
  (forall x, s x <-> s' x) -> indexSpec s a b -> indexSpec s' a b.
Proof.
  intros Hext (Hd & Hc & Hs). split; [done|]. split.
  - intros x Hx. by apply Hc, Hext.
  - intros k v Hkv. apply Hs in Hkv as [?|[? ?]]; [by left|].
    right. split; [done|]. by apply Hext.
Qed.

Lemma indexSpec_insert (n : Node) (byID : gmap Z Node) :
  indexSpec (fun x => x = n) byID (<[ID n := n]> byID).
Proof.
  split; [|split].
  - rewrite dom_insert. apply union_subseteq_r.
  - intros x ->. rewrite dom_insert. apply elem_of_union. left.
    by apply elem_of_singleton.
  - intros k v. destruct (decide (ID n = k)) as [<-|Hne].
    + rewrite lookup_insert_eq. intros [= <-]. by right.
    + rewrite lookup_insert_ne by done. by left.
Qed.

Lemma indexSpec_fold (l : list Node) :
  Forall (fun n => forall byID, indexSpec (indexedUnder n) byID (indexNode n byID)) l ->
  forall byID,
    indexSpec (fun x => exists c, c ∈ l /\ indexedUnder c x) byID
              (fold_left (fun m n => indexNode n m) l byID).
Proof.
  induction 1 as [|n l Hn _ IH]; intros byID; cbn [fold_left].
  - eapply indexSpec_ext; [|apply indexSpec_refl].
    intros x. split; [done|]. intros (c & Hc & _). by apply elem_of_nil in Hc.
  - eapply indexSpec_ext; [|eapply indexSpec_trans; [apply Hn|apply IH]].
    intros x. cbn. split.
    + intros [Hx|(c & Hc & Hx)]; [exists n; split; [left|done]|].
      exists c. split; [by right|done].
    + intros (c & Hc & Hx). apply elem_of_cons in Hc as [->|Hc]; [by left|].
      right. by exists c.
Qed.

Lemma indexSpec_option (o : option Node) :
  (forall c, o = Some c ->
     forall byID, indexSpec (indexedUnder c) byID (indexNode c byID)) ->
  forall byID,
    indexSpec (fun x => exists c, o = Some c /\ indexedUnder c x) byID
              (match o with Some c => indexNode c byID | None => byID end).
Proof.
  intros H byID. destruct o as [c|].
  - eapply indexSpec_ext; [|apply (H c eq_refl)].
    intros x. split; [intros Hx; by exists c|]. by intros (c' & [= <-] & Hx).
  - eapply indexSpec_ext; [|apply indexSpec_refl].
    intros x. split; [done|]. by intros (c & ? & _).
Qed.

Lemma indexNode_spec (node : Node) :
  forall byID, indexSpec (indexedUnder node) byID (indexNode node byID).
Proof.
  induction node as [node Hb He Hn Hs Ha _] using Node_nested_ind.
  intros byID. rewrite indexNode_unfold. cbv zeta.
  eapply indexSpec_ext;
    [|eapply indexSpec_trans;
        [eapply indexSpec_trans;
           [eapply indexSpec_trans;
              [eapply indexSpec_trans;
                 [eapply indexSpec_trans;
                    [apply (indexSpec_insert node)
                    |apply (indexSpec_fold _ Hn)]
                 |apply (indexSpec_option _ Hb)]
              |apply (indexSpec_fold _ Hs)]
           |apply (indexSpec_option _ He)]
        |apply (indexSpec_fold _ Ha)]].
  intros x. cbn. split.
  - intros [[[[[->|(c & ? & ?)]|(c & ? & ?)]|(c & ? & ?)]|(c & ? & ?)]|(c & ? & ?)].
    + constructor.
    + by eapply indexed_nodes.
    + by eapply indexed_body.
    + by eapply indexed_statements.
    + by eapply indexed_expression.
    + by eapply indexed_arguments.
  - inversion 1; subst; eauto 10.
Qed.

(** X14.  The index built by [parseASTOutput] records every node of the
    unit that can be reached through members, bodies, statements,
    expressions and arguments, and nothing else; every recorded node
    sits under its own id. *)
Theorem indexNodes_by_id (ast : list Node) (sourceCode : gostring) :
  let ps := parsedSourceOf ast sourceCode in
  (forall k n, NodesByID ps !! k = Some n ->
     ID n = k /\ exists root, root ∈ ast /\ indexedUnder root n)
  /\ (forall root m, root ∈ ast -> indexedUnder root m ->
        is_Some (NodesByID ps !! ID m)).
Proof.
  cbv zeta. unfold parsedSourceOf, indexNodes. cbn [NodesByID].
  destruct (indexSpec_fold ast) with (byID := (∅ : gmap Z Node))
    as (_ & Hc & Hs).
  { apply Forall_forall. intros n _. apply indexNode_spec. }
  split.
  - intros k n Hkn. apply Hs in Hkn as [Hkn|[? ?]]; [|done].
    by rewrite lookup_empty in Hkn.
  - intros root m Hroot Hm. apply elem_of_dom, Hc. by exists root.
Qed.

Lemma indexNodes_by_id_witness :
  is_Some (NodesByID vaultParsed !! 202).
Proof.
  refine (proj2 (indexNodes_by_id (AST vaultParsed) vaultCode)
                vaultMain (identifierNode 202 3) _ _).
  - right. left.
  - eapply indexed_nodes; [right; left|].
    eapply indexed_body; [reflexivity|].
    eapply indexed_statements; [left|].
    eapply indexed_expression; [reflexivity|].
    eapply indexed_expression; [reflexivity|].
    constructor.
Defined.

(** ** Dead-code pruning: what is kept *)

Section Closure.

Variable ps : ParsedSource.

Lemma depSpec_refl (v : gmap Z Node) : depSpec ps (fun _ => False) v v.
Proof. split; [done|]. split; [done|]. auto. Qed.

Lemma depSpec_trans (t1 t2 : Z -> Prop) (a b c : gmap Z Node) :
  depSpec ps t1 a b -> depSpec ps t2 b c -> depSpec ps (fun r => t1 r \/ t2 r) a c.
Proof.
  intros (Hm1 & Ht1 & Hn1) (Hm2 & Ht2 & Hn2). split; [auto|]. split.
  - intros r [Hr|Hr]; [|by apply Ht2].
    destruct (Ht1 r Hr) as [x Hx]. exists x. by apply Hm2.
  - intros k x Hkx. apply Hn2 in Hkx as [Hkx|Hkx]; [|by right].
    apply Hn1 in Hkx as [Hkx|Hkx]; [by left|]. right.
    intros r Hr. destruct (Hkx r Hr) as [y Hy]. exists y. by apply Hm2.
Qed.

Lemma depSpec_weaken (t t' : Z -> Prop) (a b : gmap Z Node) :
  (forall r, t' r -> t r) -> depSpec ps t a b -> depSpec ps t' a b.
Proof.
  intros Hsub (Hm & Ht & Hn). split; [done|]. split; [|done].
  intros r Hr. by apply Ht, Hsub.
Qed.

Lemma depSpec_dom (t : Z -> Prop) (a b : gmap Z Node) :
  depSpec ps t a b -> dom a ⊆ dom b.
Proof.
  intros (Hm & _ & _) k. rewrite !elem_of_dom. intros [x Hx]. exists x. by apply Hm.
Qed.

Lemma depSpec_fold (walk : Node -> gmap Z Node -> gmap Z Node) (bound : nat)
    (l : list Node) :
  Forall (fun n => forall v, (size (unvisited ps v) <= bound)%nat ->
                             depSpec ps (refersTo ps n) v (walk n v)) l ->
  forall v, (size (unvisited ps v) <= bound)%nat ->
    depSpec ps (fun r => exists c, c ∈ l /\ refersTo ps c r) v
            (fold_left (fun v n => walk n v) l v).
Proof.
  induction 1 as [|n l Hn _ IH]; intros v Hv; cbn [fold_left].
  - eapply depSpec_weaken; [|apply depSpec_refl].
    intros r (c & Hc & _). by apply elem_of_nil in Hc.
  - eapply depSpec_weaken; [|eapply depSpec_trans; [apply (Hn v Hv)|apply IH]].
    + intros r (c & Hc & Hr). apply elem_of_cons in Hc as [->|Hc]; [by left|].
      right. by exists c.
    + pose proof (unvisited_mono ps v _ (depSpec_dom _ _ _ (Hn v Hv))). lia.
Qed.

Lemma depSpec_option (walk : Node -> gmap Z Node -> gmap Z Node) (bound : nat)
    (o : option Node) :
  (forall c, o = Some c ->
     forall v, (size (unvisited ps v) <= bound)%nat ->
               depSpec ps (refersTo ps c) v (walk c v)) ->
  forall v, (size (unvisited ps v) <= bound)%nat ->
    depSpec ps (fun r => exists c, o = Some c /\ refersTo ps c r) v
            (match o with Some c => walk c v | None => v end).
Proof.
  intros H v Hv. destruct o as [c|].
  - eapply depSpec_weaken; [|apply (H c eq_refl v Hv)].
    by intros r (c' & [= <-] & Hr).
  - eapply depSpec_weaken; [|apply depSpec_refl]. by intros r (c & ? & _).
Qed.

Lemma refersTo_cases (node : Node) (r : Z) :
  refersTo ps node r ->
  (((((((exists c, Body node = Some c /\ refersTo ps c r)
        \/ (exists c, Expression node = Some c /\ refersTo ps c r))
       \/ (exists c, c ∈ Nodes node /\ refersTo ps c r))
      \/ (exists c, c ∈ Statements node /\ refersTo ps c r))
     \/ (exists c, c ∈ Arguments node /\ refersTo ps c r))
    \/ (exists c, c ∈ Modifiers node /\ refersTo ps c r))
   \/ (ReferencedDeclaration node = r /\ r <> 0 /\ is_Some (NodesByID ps !! r))).
Proof.
  intros (m & Hm & Href). unfold refersTo.
  inversion Hm; subst; [by right|..]; left; eauto 12.
Qed.

Lemma dependenciesBody_spec
    (follow walk : Node -> gmap Z Node -> gmap Z Node) (bound : nat) (node : Node) :
  (forall b, Body node = Some b ->
     forall v, (size (unvisited ps v) <= bound)%nat ->
               depSpec ps (refersTo ps b) v (walk b v)) ->
  (forall e, Expression node = Some e ->
     forall v, (size (unvisited ps v) <= bound)%nat ->
               depSpec ps (refersTo ps e) v (walk e v)) ->
  Forall (fun n => forall v, (size (unvisited ps v) <= bound)%nat ->
                             depSpec ps (refersTo ps n) v (walk n v)) (Nodes node) ->
  Forall (fun n => forall v, (size (unvisited ps v) <= bound)%nat ->
                             depSpec ps (refersTo ps n) v (walk n v)) (Statements node) ->
  Forall (fun n => forall v, (size (unvisited ps v) <= bound)%nat ->
                             depSpec ps (refersTo ps n) v (walk n v)) (Arguments node) ->
  Forall (fun n => forall v, (size (unvisited ps v) <= bound)%nat ->
                             depSpec ps (refersTo ps n) v (walk n v)) (Modifiers node) ->
  (forall k n v, v !! k = None -> NodesByID ps !! k = Some n ->
     (size (unvisited ps v) <= bound)%nat ->
     depSpec ps (refersTo ps n) (<[k := n]> v) (follow n (<[k := n]> v))) ->
  forall v, (size (unvisited ps v) <= bound)%nat ->
    depSpec ps (refersTo ps node) v (dependenciesBody ps follow walk node v).
Proof.
  intros Hbody Hexpr Hnodes Hstmts Hargs Hmods Hfollow v Hv.
  unfold dependenciesBody.
  pose proof (depSpec_option walk bound _ Hbody v Hv) as S1.
  set (v1 := match Body node with Some b => walk b v | None => v end) in *.
  assert (size (unvisited ps v1) <= bound)%nat as Hv1
    by (pose proof (unvisited_mono ps v v1 (depSpec_dom _ _ _ S1)); lia).
  pose proof (depSpec_option walk bound _ Hexpr v1 Hv1) as S2.
  set (v2 := match Expression node with Some e => walk e v1 | None => v1 end) in *.
  assert (size (unvisited ps v2) <= bound)%nat as Hv2
    by (pose proof (unvisited_mono ps v1 v2 (depSpec_dom _ _ _ S2)); lia).
  pose proof (depSpec_fold walk bound _ Hnodes v2 Hv2) as S3.
  set (v3 := fold_left _ (Nodes node) v2) in *.
  assert (size (unvisited ps v3) <= bound)%nat as Hv3
    by (pose proof (unvisited_mono ps v2 v3 (depSpec_dom _ _ _ S3)); lia).
  pose proof (depSpec_fold walk bound _ Hstmts v3 Hv3) as S4.
  set (v4 := fold_left _ (Statements node) v3) in *.
  assert (size (unvisited ps v4) <= bound)%nat as Hv4
    by (pose proof (unvisited_mono ps v3 v4 (depSpec_dom _ _ _ S4)); lia).
  pose proof (depSpec_fold walk bound _ Hargs v4 Hv4) as S5.
  set (v5 := fold_left _ (Arguments node) v4) in *.
  assert (size (unvisited ps v5) <= bound)%nat as Hv5
    by (pose proof (unvisited_mono ps v4 v5 (depSpec_dom _ _ _ S5)); lia).
  pose proof (depSpec_fold walk bound _ Hmods v5 Hv5) as S6.
  set (v6 := fold_left _ (Modifiers node) v5) in *.
  assert (size (unvisited ps v6) <= bound)%nat as Hv6
    by (pose proof (unvisited_mono ps v5 v6 (depSpec_dom _ _ _ S6)); lia).
  pose proof (depSpec_trans _ _ _ _ _
                (depSpec_trans _ _ _ _ _
                   (depSpec_trans _ _ _ _ _
                      (depSpec_trans _ _ _ _ _
                         (depSpec_trans _ _ _ _ _ S1 S2) S3) S4) S5) S6) as S.
  clearbody v1 v2 v3 v4 v5 v6. clear S1 S2 S3 S4 S5 S6.
  set (r0 := ReferencedDeclaration node).
  assert (forall final,
            depSpec ps (fun r => r = r0 /\ r <> 0 /\ is_Some (NodesByID ps !! r))
                    v6 final ->
            depSpec ps (refersTo ps node) v final) as Hfinish.
  { intros final Slast.
    eapply depSpec_weaken; [|eapply depSpec_trans; [exact S|exact Slast]].
    intros r Hr. apply refersTo_cases in Hr. cbn. subst r0.
    destruct Hr as [Hr|(<- & ? & ?)]; [by left|by right]. }
  apply Hfinish.
  case_bool_decide as H0.
  2: { eapply depSpec_weaken; [|apply depSpec_refl]. intros r (-> & ? & _). done. }
  destruct (v6 !! r0) as [x|] eqn:Hvis.
  { split; [done|]. split; [|auto]. intros r (-> & _ & _). eauto. }
  destruct (NodesByID ps !! r0) as [refNode|] eqn:Href.
  2: { eapply depSpec_weaken; [|apply depSpec_refl].
       intros r (-> & _ & [? ?]). congruence. }
  destruct (Hfollow r0 refNode v6 Hvis Href Hv6) as (Hm & Ht & Hn).
  split; [|split].
  - intros k x Hkx. apply Hm. rewrite lookup_insert_ne; [done|]. congruence.
  - intros r (-> & _ & _). exists refNode. apply Hm. by rewrite lookup_insert_eq.
  - intros k x Hkx. destruct (Hn k x Hkx) as [Hold|Hclosed]; [|by right].
    destruct (decide (r0 = k)) as [<-|Hne].
    + rewrite lookup_insert_eq in Hold. injection Hold as <-. right. exact Ht.
    + rewrite lookup_insert_ne in Hold by done. by left.
Qed.

(** With enough fuel for the declarations not marked yet, a walk marks
    everything the node refers to, and whatever it marks lacks nothing
    it refers to. *)
Lemma collectDependencies_spec (fuel : nat) (node : Node) (visited : gmap Z Node) :
  (size (unvisited ps visited) <= fuel)%nat ->
  depSpec ps (refersTo ps node) visited (collectDependencies fuel ps node visited).
Proof.
  revert node visited. induction fuel as [|fuel IHfuel].
  - intros node. induction node as [node Hb He Hn Hs Ha Hm] using Node_nested_ind.
    intros visited Hv. rewrite collectDependencies_unfold.
    apply (dependenciesBody_spec _ _ 0); try done.
    intros k n v Hk Hn' Hsize.
    pose proof (unvisited_insert ps v k n Hk Hn'). lia.
  - intros node. induction node as [node Hb He Hn Hs Ha Hm] using Node_nested_ind.
    intros visited Hv. rewrite collectDependencies_unfold.
    apply (dependenciesBody_spec _ _ (S fuel)); try done.
    intros k n v Hk Hn' Hsize. cbn [followWith]. apply IHfuel.
    pose proof (unvisited_insert ps v k n Hk Hn'). lia.
Qed.

Lemma dependencyFuel_enough (visited : gmap Z Node) :
  (size (unvisited ps visited) <= dependencyFuel ps)%nat.
Proof.
  unfold dependencyFuel. rewrite <- (size_dom (D := gset Z)).
  apply subseteq_size. unfold unvisited. intros x. rewrite elem_of_difference. tauto.
Qed.

(** Marking a member and walking it keeps the marks closed under
    references, and keeps what was marked. *)
Lemma mark_and_collect_closed (node : Node) (visited : gmap Z Node) :
  closedUnderReferences ps visited ->
  let visited' :=
    collectDependencies (dependencyFuel ps) ps node (<[ID node := node]> visited) in
  closedUnderReferences ps visited'
  /\ dom visited ⊆ dom visited'
  /\ is_Some (visited' !! ID node).
Proof.
  intros Hclosed. cbv zeta.
  pose proof (collectDependencies_spec (dependencyFuel ps) node
                (<[ID node := node]> visited) (dependencyFuel_enough _))
    as (Hm & Ht & Hn).
  split; [|split].
  - intros k n r Hkn Hr. destruct (Hn k n Hkn) as [Hold|Hnew]; [|by apply Hnew].
    destruct (decide (ID node = k)) as [<-|Hne].
    + rewrite lookup_insert_eq in Hold. injection Hold as <-. by apply Ht.
    + rewrite lookup_insert_ne in Hold by done.
      destruct (Hclosed k n r Hold Hr) as [y Hy].
      destruct (decide (ID node = r)) as [<-|Hne'].
      * exists node. apply Hm. by rewrite lookup_insert_eq.
      * exists y. apply Hm. by rewrite lookup_insert_ne.
  - etrans; [|eapply depSpec_dom; split; [exact Hm|split; [exact Ht|exact Hn]]].
    rewrite dom_insert. apply union_subseteq_r.
  - exists node. apply Hm. by rewrite lookup_insert_eq.
Qed.

End Closure.

(** X15.  The declarations [PruneDeadCode] marks as reachable lack
    nothing they refer to: whenever a marked declaration contains, at
    any depth of its body, expressions, members, statements, arguments
    or modifiers, a reference to an indexed declaration, that
    declaration is marked as well.  Every implemented entry function of
    the main contract (public, external, constructor, fallback,
    receive) is marked, and in conservative mode every state variable,
    modifier, event, error and using directive of the main contract. *)
Theorem markReachable_closed (ps : ParsedSource) (conservative : bool)
    (mainContract : Node) :
  let visited := markReachable ps conservative mainContract in
  closedUnderReferences ps visited
  /\ (forall node, node ∈ Nodes mainContract ->
        (NodeType node = lit "FunctionDefinition" /\ isPruneEntry node = true
         /\ Implemented node = true)
        \/ (conservative = true /\ shouldKeep node = true) ->
        is_Some (visited !! ID node)).
Proof.
  cbv zeta. unfold markReachable.
  set (step := fun (visited : gmap Z Node) (node : Node) => _).
  assert (forall v node, closedUnderReferences ps v ->
            closedUnderReferences ps (step v node)
            /\ dom v ⊆ dom (step v node)
            /\ ((NodeType node = lit "FunctionDefinition" /\ isPruneEntry node = true
                 /\ Implemented node = true)
                \/ (conservative = true /\ shouldKeep node = true) ->
                is_Some (step v node !! ID node))) as Hstep.
  { intros v node Hv. subst step. cbv beta.
    set (b1 := bool_decide (NodeType node = lit "FunctionDefinition")
               && isPruneEntry node && Implemented node).
    set (b2 := conservative && shouldKeep node).
    assert (((NodeType node = lit "FunctionDefinition" /\ isPruneEntry node = true
              /\ Implemented node = true)
             \/ (conservative = true /\ shouldKeep node = true))
            -> b1 = true \/ b2 = true) as Hb.
    { intros [(H1 & H2 & H3)|[H1 H2]]; [left|right].
      - subst b1. rewrite H2, H3, bool_decide_eq_true_2 by done. done.
      - subst b2. by rewrite H1, H2. }
    destruct (mark_and_collect_closed ps node v Hv) as (Hc1 & Hd1 & Hs1).
    destruct b1, b2.
    - destruct (mark_and_collect_closed ps node _ Hc1) as (Hc2 & Hd2 & Hs2).
      split; [done|]. split; [by etrans|done].
    - split; [done|]. split; [done|done].
    - split; [done|]. split; [done|done].
    - split; [done|]. split; [done|]. intros H. apply Hb in H as [?|?]; done. }
  clearbody step.
  assert (forall l v, closedUnderReferences ps v ->
            closedUnderReferences ps (fold_left step l v)
            /\ dom v ⊆ dom (fold_left step l v)
            /\ forall node, node ∈ l ->
                 (NodeType node = lit "FunctionDefinition" /\ isPruneEntry node = true
                  /\ Implemented node = true)
                 \/ (conservative = true /\ shouldKeep node = true) ->
                 is_Some (fold_left step l v !! ID node)) as Hfold.
  { induction l as [|n l IH]; intros v Hv; cbn [fold_left].
    - split; [done|]. split; [done|]. intros node Hn. by apply elem_of_nil in Hn.
    - destruct (Hstep v n Hv) as (H1 & H2 & H3).
      destruct (IH _ H1) as (H4 & H5 & H6).
      split; [done|]. split; [by etrans|].
      intros node Hn Hq. apply elem_of_cons in Hn as [->|Hn]; [|by apply H6].
      apply elem_of_dom, H5, elem_of_dom, H3, Hq. }
  destruct (Hfold (Nodes mainContract) ∅) as (H1 & _ & H3).
  { intros k n r Hk. by rewrite lookup_empty in Hk. }
  split; [exact H1|exact H3].
Qed.

Lemma markReachable_closed_witness :
  is_Some (markReachable vaultParsed true vaultMain !! 3).
Proof.
  refine (proj1 (markReachable_closed vaultParsed true vaultMain)
                2 vaultDeposit 3 _ _).
  - vm_compute. reflexivity.
  - exists (identifierNode 202 3). split.
    + eapply walked_body; [reflexivity|].
      eapply walked_statements; [left|].
      eapply walked_expression; [reflexivity|].
      eapply walked_expression; [reflexivity|].
      constructor.
    + split; [reflexivity|]. split; [discriminate|].
      vm_compute. eexists. reflexivity.
Defined.

(** ** Decoding of the answers of the model *)

Section Decoding.

Variable MapToLower : gostring -> gostring.

Lemma normalizeVerificationResult_normalised (r : AIVerificationResult) :
  normalisedVerdict (normalizeVerificationResult MapToLower r)
  /\ IsVulnerability (normalizeVerificationResult MapToLower r) = IsVulnerability r.
Proof.
  unfold normalizeVerificationResult, normalisedVerdict.
  cbn [vrSeverity Reason VulnType IsVulnerability].
  split; [|done]. split; [|split; [|split]].
  - destruct (IsVulnerability r); cbn [negb].
    + apply normalizeSeverity_closed.
    + unfold severities. do 4 apply list_elem_of_further. apply list_elem_of_here.
  - case_bool_decide; [discriminate|done].
  - case_bool_decide; [discriminate|done].
  - by intros ->.
Qed.

Lemma normalizeVerificationResult_fixed (r : AIVerificationResult) :
  normalisedVerdict r -> normalizeVerificationResult MapToLower r = r.
Proof.
  intros (Hsev & Hreason & Htype & Hnone). unfold normalizeVerificationResult.
  rewrite !bool_decide_eq_false_2 by done.
  destruct r as [isVuln sev reason type]. cbn in *. f_equal.
  destruct isVuln; cbn [negb].
  - by apply normalizeSeverity_fixes_canonical.
  - symmetry. by apply Hnone.
Qed.

Lemma normalizeVulnerability_normalised (v : Vulnerability) :
  normalisedVulnerability (parser.normalizeVulnerability MapToLower v).
Proof.
  unfold parser.normalizeVulnerability, normalisedVulnerability.
  cbn [vSeverity vType vDescription].
  split; [apply normalizeSeverity_closed|].
  split; case_bool_decide; done || discriminate.
Qed.

Variable unmarshalVerification :
  gostring -> AIVerificationResult -> AIVerificationResult * bool.
Variable unmarshalResult :
  gostring -> parser.AnalysisResult -> parser.AnalysisResult * bool.
Variable unmarshalVulns : gostring -> list Vulnerability -> list Vulnerability * bool.
Variable FindStringSubmatch : gostring -> list gostring.

Local Abbreviation ParseVerification :=
  (parser.ParseVerificationResult MapToLower unmarshalVerification FindStringSubmatch).

Local Abbreviation Parse :=
  (parser.Parse MapToLower unmarshalVerification unmarshalResult unmarshalVulns
                FindStringSubmatch).

Lemma ParseVerificationResult_normalised (response : gostring)
    (r : AIVerificationResult) :
  ParseVerification response = Some r -> normalisedVerdict r.
Proof.
  unfold parser.ParseVerificationResult.
  repeat match goal with
  | |- context [let '(_, _) := ?x in _] => destruct x as [? []]
  end; intros [= <-]; apply normalizeVerificationResult_normalised.
Qed.

Lemma normalizeAnalysisResult_normalised (r : parser.AnalysisResult) :
  let r' := parser.normalizeAnalysisResult MapToLower r in
  Forall normalisedVulnerability (parser.Vulnerabilities r')
  /\ length (parser.Vulnerabilities r') = length (parser.Vulnerabilities r)
  /\ parser.Severity r' ∈ severities
  /\ strings.TrimSpace (parser.Summary r') <> [].
Proof.
  cbv zeta. unfold parser.normalizeAnalysisResult.
  cbn [parser.Vulnerabilities parser.Severity parser.Summary].
  split; [|split; [|split]].
  - apply Forall_forall. intros v Hv.
    apply list_elem_of_fmap in Hv as (v0 & -> & _).
    apply normalizeVulnerability_normalised.
  - apply length_map.
  - apply normalizeSeverity_closed.
  - case_bool_decide; done || discriminate.
Qed.

Lemma parseTextFormat_normalised (response : gostring) :
  let r := parser.parseTextFormat MapToLower response in
  Forall normalisedVulnerability (parser.Vulnerabilities r)
  /\ (length (parser.Vulnerabilities r) <= 1)%nat
  /\ parser.Severity r ∈ severities
  /\ strings.TrimSpace (parser.Summary r) <> []
  /\ parser.ParseError r <> [].
Proof.
  cbv zeta. unfold parser.parseTextFormat.
  match goal with
  | |- context [parser.normalizeAnalysisResult _ ?x] =>
      destruct (normalizeAnalysisResult_normalised x) as (H1 & H2 & H3 & H4)
  end.
  split; [exact H1|]. split; [|split; [exact H3|split; [exact H4|discriminate]]].
  rewrite H2. cbn [parser.Vulnerabilities].
  repeat match goal with
  | |- context [if ?b then _ else _] => destruct b
  end; cbn; lia.
Qed.

Lemma Parse_vulnerabilities_normalised (strategy response : gostring) :
  Forall normalisedVulnerability (parser.Vulnerabilities (Parse strategy response)).
Proof.
  unfold parser.Parse. case_bool_decide as Hmode.
  - destruct (parser.ParseVerificationResult _ _ _ response) as [vr|] eqn:Hvr;
      cbn [parser.Vulnerabilities]; [|constructor].
    apply ParseVerificationResult_normalised in Hvr as (H1 & H2 & H3 & H4).
    destruct (IsVulnerability vr); constructor; [|constructor].
    split; [exact H1|]. split; [exact H3|exact H2].
  - repeat match goal with
    | |- context [let '(_, _) := ?x in _] => destruct x as [? []]
    end;
    first [ exact (proj1 (parseTextFormat_normalised response))
          | match goal with
            | |- context [parser.normalizeAnalysisResult _ ?x] =>
                exact (proj1 (normalizeAnalysisResult_normalised x))
            end ].
Qed.

Lemma unmarshalFirstObject_fails {T : Type} (unmarshal : gostring -> T -> T * bool)
    (text : gostring) (x : T) :
  (forall t y, (unmarshal t y).2 = false) ->
  (parser.unmarshalFirstObject unmarshal text x).2 = false.
Proof.
  intros H. unfold parser.unmarshalFirstObject.
  destruct (extractFirstJSONObject text) as [part []]; [apply H|done].
Qed.

Lemma Parse_falls_back (strategy response : gostring) :
  strategy <> lit "mode2_fuzzy" ->
  (forall t y, (unmarshalResult t y).2 = false) ->
  (forall t y, (unmarshalVulns t y).2 = false) ->
  Parse strategy response = parser.parseTextFormat MapToLower response.
Proof.
  intros Hmode Hres Hvulns. unfold parser.Parse.
  rewrite bool_decide_eq_false_2 by done.
  repeat match goal with
  | |- context [let '(_, _) := ?x in _] =>
      let E := fresh "E" in
      let F := fresh "F" in
      assert (x.2 = false) as F
        by first [ apply Hres | apply Hvulns
                 | apply unmarshalFirstObject_fails, Hres ];
      destruct x as [? [|]] eqn:E; [discriminate F|clear F]
  end.
  reflexivity.
Qed.

End Decoding.

(** X16.  Whatever the JSON decoder does with the answer of the model
    and whichever of its four attempts succeeds, a verdict returned by
    [ParseVerificationResult] is normalised: its severity is one of
    Critical, High, Medium, Low, None and Unknown, and is None whenever
    the finding is judged not to be a vulnerability; its reason and its
    vulnerability type are not blank; normalising it again changes
    nothing. *)
Theorem ParseVerificationResult_verdict_normalised
    (MapToLower : gostring -> gostring)
    (unmarshalVerification :
       gostring -> AIVerificationResult -> AIVerificationResult * bool)
    (FindStringSubmatch : gostring -> list gostring)
    (response : gostring) (r : AIVerificationResult) :
  parser.ParseVerificationResult MapToLower unmarshalVerification
                                 FindStringSubmatch response = Some r ->
  vrSeverity r ∈ severities
  /\ (IsVulnerability r = false -> vrSeverity r = lit "None")
  /\ strings.TrimSpace (Reason r) <> []
  /\ strings.TrimSpace (VulnType r) <> []
  /\ normalizeVerificationResult MapToLower r = r.
Proof.
  intros H. pose proof (ParseVerificationResult_normalised _ _ _ _ _ H) as Hn.
  pose proof (normalizeVerificationResult_fixed MapToLower r Hn) as Hfix.
  destruct Hn as (H1 & H2 & H3 & H4). auto.
Qed.

Lemma ParseVerificationResult_verdict_normalised_witness :
  parser.ParseVerificationResult id firstByteVerdict (fun _ => [])
    (lit "Sure: {...}")
  = Some (mkAIVerificationResult true (lit "High") (lit "No reason provided")
                                 (lit "reentrancy"))
  /\ lit "High" ∈ severities.
Proof.
  split; [vm_compute; reflexivity|].
  exact (proj1 (ParseVerificationResult_verdict_normalised id firstByteVerdict
                  (fun _ => []) (lit "Sure: {...}")
                  (mkAIVerificationResult true (lit "High")
                     (lit "No reason provided") (lit "reentrancy"))
                  ltac:(vm_compute; reflexivity))).
Defined.

(** X17.  Whatever the model answers and whatever the JSON decoder makes
    of it, every vulnerability in the result of [Parse] has a canonical
    severity and a type and a description that are not blank.  A parser
    of the strategy [mode2_fuzzy] returns at most one vulnerability and
    keeps the answer as raw response; any other parser returns a result
    whose own severity is canonical and whose summary is not blank, and
    when no JSON could be decoded the text fall-back reports at most one
    vulnerability and says so in the parse error. *)
Theorem Parse_result_normalised
    (MapToLower : gostring -> gostring)
    (unmarshalVerification :
       gostring -> AIVerificationResult -> AIVerificationResult * bool)
    (unmarshalResult :
       gostring -> parser.AnalysisResult -> parser.AnalysisResult * bool)
    (unmarshalVulns : gostring -> list Vulnerability -> list Vulnerability * bool)
    (FindStringSubmatch : gostring -> list gostring)
    (strategy response : gostring) :
  let r := parser.Parse MapToLower unmarshalVerification unmarshalResult
                        unmarshalVulns FindStringSubmatch strategy response in
  Forall normalisedVulnerability (parser.Vulnerabilities r)
  /\ (strategy = lit "mode2_fuzzy" ->
      (length (parser.Vulnerabilities r) <= 1)%nat
      /\ parser.RawResponse r = response)
  /\ (strategy <> lit "mode2_fuzzy" ->
      parser.Severity r ∈ severities
      /\ strings.TrimSpace (parser.Summary r) <> []
      /\ ((forall t y, (unmarshalResult t y).2 = false) ->
          (forall t y, (unmarshalVulns t y).2 = false) ->
          (length (parser.Vulnerabilities r) <= 1)%nat
          /\ parser.ParseError r <> [] /\ parser.RawResponse r = response)).
Proof.
  cbv zeta. split; [apply Parse_vulnerabilities_normalised|].
  unfold parser.Parse.
  case_bool_decide as Hmode.
  - split; [|done]. intros _.
    destruct (parser.ParseVerificationResult _ _ _ response) as [vr|];
      cbn [parser.Vulnerabilities parser.RawResponse length]; [|split; [lia|done]].
    destruct (IsVulnerability vr); cbn [length]; split; lia || done.
  - split; [done|]. intros _.
    assert (forall x,
              parser.Severity (parser.normalizeAnalysisResult MapToLower x)
                ∈ severities
              /\ strings.TrimSpace
                   (parser.Summary (parser.normalizeAnalysisResult MapToLower x))
                 <> []) as Hnorm.
    { intros x.
      destruct (normalizeAnalysisResult_normalised MapToLower x)
        as (_ & _ & H3 & H4). done. }
    split; [|split].
    + repeat match goal with
      | |- context [let '(_, _) := ?x in _] => destruct x as [? []]
      end; apply Hnorm.
    + repeat match goal with
      | |- context [let '(_, _) := ?x in _] => destruct x as [? []]
      end; apply Hnorm.
    + intros Hres Hvulns.
      pose proof (Parse_falls_back MapToLower unmarshalVerification
                    unmarshalResult unmarshalVulns FindStringSubmatch
                    strategy response Hmode Hres Hvulns) as Hfb.
      unfold parser.Parse in Hfb.
      rewrite bool_decide_eq_false_2 in Hfb by done. rewrite Hfb.
      destruct (parseTextFormat_normalised MapToLower response)
        as (_ & ? & _ & _ & ?).
      split; [done|]. split; [done|reflexivity].
Qed.

Lemma Parse_result_normalised_witness :
  let r := parser.Parse id rejectAll rejectAll rejectAll (fun _ => [])
             (lit "default") (lit "Severity: High, see above") in
  map vSeverity (parser.Vulnerabilities r) = [lit "High"]
  /\ parser.Severity r ∈ severities.
Proof.
  cbv zeta. split; [vm_compute; reflexivity|].
  destruct (Parse_result_normalised id rejectAll rejectAll rejectAll (fun _ => [])
              (lit "default") (lit "Severity: High, see above"))
    as (_ & _ & H).
  apply H. discriminate.
Defined.

(** X18.  With the decoding of the source in place, every vulnerability
    the verified pipeline reports carries one of the six canonical
    severities, whatever the model answers: the severity is taken from a
    normalised verdict. *)
Theorem verifyDetectors_canonical_severity
    (rangeMap : forall A : Type, gmap Z A -> list (Z * A))
    (ParseSource : gostring -> option ParsedSource)
    (BuildPrompt : gostring -> list (string * promptValue) -> gostring)
    (Analyze : nat -> AIRequest -> option AnalysisResult)
    (MapToLower : gostring -> gostring)
    (unmarshalVerification :
       gostring -> AIVerificationResult -> AIVerificationResult * bool)
    (FindStringSubmatch : gostring -> list gostring)
    (staticResult : StaticResult) (code address template : gostring) :
  let r := verifyDetectors rangeMap ParseSource BuildPrompt Analyze
             (parser.ParseVerificationResult MapToLower unmarshalVerification
                                             FindStringSubmatch)
             staticResult code address template in
  Forall (fun v => vSeverity v ∈ severities) (fst (fst r)).
Proof.
  cbv zeta. unfold verifyDetectors.
  case_bool_decide; [constructor|].
  apply (fold_left_invariant
           (fun st : list Vulnerability * VerificationStats * list AIRequest =>
              Forall (fun v => vSeverity v ∈ severities) st.1.1)); [constructor|].
  intros [[vulns stats] sent] d _ Hst. unfold verifyDetector.
  destruct (buildMode2CallGraphContext rangeMap ParseSource code)
    as [[[ecg info] callees] enriched].
  destruct (Analyze _ _) as [aiResult|]; [|exact Hst].
  destruct (parser.ParseVerificationResult _ _ _ _) as [vr|] eqn:Hvr; [|exact Hst].
  apply ParseVerificationResult_normalised in Hvr as (H1 & _).
  destruct (IsVulnerability vr); [|exact Hst].
  cbn [fst] in *. apply Forall_app. split; [exact Hst|].
  constructor; [exact H1|constructor].
Qed.

(** ** The object returned by the JSON scanner *)

Lemma lexJSON_take (n : nat) (inS esc : bool) (s : gostring) :
  lexJSON inS esc (take n s) = take n (lexJSON inS esc s).
Proof.
  revert n inS esc. induction s as [|ch s IH]; intros n inS esc.
  - destruct n; reflexivity.
  - destruct n as [|n]; [reflexivity|]. cbn [take lexJSON].
    repeat match goal with
    | |- context [if ?b then _ else _] => destruct b
    end; cbn [take]; by rewrite IH.
Qed.

Lemma lexJSON_head (c : ascii) (s : gostring) (t : tok) (l : list tok) :
  lexJSON false false (c :: s) = t :: l ->
  (t = TOpen -> c = ch_lbrace) /\ (t = TClose -> c = ch_rbrace).
Proof.
  cbn [lexJSON].
  destruct (Ascii.eqb c ch_quote); [intros [= <- _]; split; discriminate|].
  destruct (Ascii.eqb_spec c ch_lbrace) as [->|_];
    [intros [= <- _]; split; [done|discriminate]|].
  destruct (Ascii.eqb_spec c ch_rbrace) as [->|_];
    [intros [= <- _]; split; [discriminate|done]|].
  intros [= <- _]; split; discriminate.
Qed.

(** A brace token is produced outside literals: the text splits there,
    and what follows is lexed as from the start. *)
Lemma lexJSON_split (s : gostring) (inS esc : bool) (l1 l2 : list tok) (t : tok) :
  lexJSON inS esc s = l1 ++ t :: l2 -> t <> TOther ->
  exists s1 c s2,
    s = s1 ++ c :: s2 /\ length s1 = length l1
    /\ lexJSON false false (c :: s2) = t :: l2.
Proof.
  revert inS esc l1. induction s as [|ch s IH]; intros inS esc l1 Hlex Ht.
  - by destruct l1.
  - destruct l1 as [|t1 l1].
    + exists [], ch, s. split; [done|]. split; [done|].
      cbn [app] in Hlex. cbn [lexJSON] in *.
      destruct inS.
      * repeat match type of Hlex with
        | context [if ?b then _ else _] => destruct b
        end; injection Hlex as <- _; done.
      * exact Hlex.
    + cbn [app lexJSON] in Hlex.
      assert (exists inS' esc', lexJSON inS' esc' s = l1 ++ t :: l2)
        as (inS' & esc' & Hrest).
      { repeat match type of Hlex with
        | context [if ?b then _ else _] => destruct b
        end; injection Hlex as _ Hlex; eauto. }
      destruct (IH _ _ _ Hrest Ht) as (s1 & c & s2 & -> & Hlen & Hlex').
      exists (ch :: s1), c, s2. split; [done|]. split; [cbn; by rewrite Hlen|done].
Qed.

Lemma take_bracket {A : Type} (x y : A) (a b : list A) :
  take (S (length a + 1)) (x :: a ++ y :: b) = x :: a ++ [y].
Proof.
  cbn [take]. f_equal. induction a as [|z a IH]; [reflexivity|].
  cbn [length Nat.add app take]. by rewrite IH.
Qed.

(** X19.  The object [extractFirstJSONObject] returns is a piece of the
    text that begins with an opening brace and ends with a closing
    brace, and the scanner finds it again in full when it is run on
    the object itself. *)
Theorem extractFirstJSONObject_stable (s sub : gostring) :
  extractFirstJSONObject s = (sub, true) ->
  extractFirstJSONObject sub = (sub, true)
  /\ head sub = Some ch_lbrace /\ last sub = Some ch_rbrace
  /\ (2 <= length sub)%nat
  /\ exists before after, s = before ++ sub ++ after.
Proof.
  intros H. apply extract_true in H
    as (i & n & (tpre & tin & tpost & Hlex & Hno & Hbal & -> & ->) & ->).
  destruct (lexJSON_split s false false tpre (tin ++ TClose :: tpost) TOpen Hlex)
    as (s1 & c & s2 & -> & Hlen1 & Hlex1); [done|].
  assert (c = ch_lbrace) as -> by (by apply (lexJSON_head _ _ _ _ Hlex1)).
  destruct (lexJSON_split (ch_lbrace :: s2) false false (TOpen :: tin) tpost TClose)
    as (s3 & c' & s4 & Hs2 & Hlen3 & Hlex3); [exact Hlex1|done|].
  assert (c' = ch_rbrace) as -> by (by apply (lexJSON_head _ _ _ _ Hlex3)).
  destruct s3 as [|c3 s3]; [done|]. injection Hs2 as <- ->.
  cbn [length] in Hlen3. injection Hlen3 as Hlen3.
  assert (slice (s1 ++ ch_lbrace :: s3 ++ ch_rbrace :: s4) (length tpre)
                (length tpre + (length tin + 2))
          = ch_lbrace :: s3 ++ [ch_rbrace]) as ->.
  { unfold slice. rewrite <- Hlen1, drop_app_length.
    replace (length s1 + (length tin + 2) - length s1)%nat
      with (S (length s3 + 1)) by lia.
    apply take_bracket. }
  split; [|split; [done|split; [|split]]].
  - assert (FirstObject (ch_lbrace :: s3 ++ [ch_rbrace]) 0 (length tin + 2)) as Hfirst.
    { exists [], tin, []. split; [|split; [apply not_elem_of_nil|done]].
      rewrite <- (take_bracket ch_lbrace ch_rbrace s3 s4).
      rewrite lexJSON_take, Hlex1, Hlen3. cbn [app]. apply take_bracket. }
    rewrite (extract_found _ _ _ Hfirst). f_equal.
    unfold slice. cbn [drop]. rewrite Nat.sub_0_r.
    apply take_ge. cbn [length]. rewrite length_app. cbn [length]. lia.
  - rewrite app_comm_cons. apply last_snoc.
  - cbn [length]. rewrite length_app. cbn [length]. lia.
  - exists s1, s4. cbn [app]. f_equal. f_equal. by rewrite <- app_assoc.
Qed.

Lemma extractFirstJSONObject_stable_witness :
  extractFirstJSONObject (fst (extractFirstJSONObject sampleAnswer))
  = extractFirstJSONObject sampleAnswer.
Proof.
  destruct (extractFirstJSONObject sampleAnswer) as [sub ok] eqn:E.
  assert (ok = true) as -> by (vm_compute in E; by injection E).
  exact (proj1 (extractFirstJSONObject_stable sampleAnswer sub E)).
Defined.

(** ** Severity counts *)




(** ** Trimming keeps bytes of the text *)

Lemma trimLeftSpace_subseteq (fuel : nat) (s : gostring) :
  strings.trimLeftSpace fuel s ⊆ s.
Proof.
  revert s. induction fuel as [|k IH]; intros s; [done|].
  cbn [strings.trimLeftSpace]. destruct s as [|c s]; [done|].
  destruct (utf8.DecodeRuneInString (c :: s)) as [r w].
  destruct (unicode.IsSpace r); [|done].
  etrans; [apply IH|apply subseteq_drop].
Qed.

Lemma trimRightSpace_subseteq (fuel : nat) (s : gostring) :
  strings.trimRightSpace fuel s ⊆ s.
Proof.
  revert s. induction fuel as [|k IH]; intros s; [done|].
  cbn [strings.trimRightSpace]. destruct s as [|c s]; [done|].
  destruct (utf8.DecodeLastRuneInString (c :: s)) as [r w].
  destruct (unicode.IsSpace r); [|done].
  etrans; [apply IH|apply subseteq_take].
Qed.

Lemma trimSpaceStop_subseteq (rs : list ascii) :
  strings.trimSpaceStop rs ⊆ rev rs.
Proof.
  induction rs as [|c rs IH]; [done|]. cbn [strings.trimSpaceStop].
  destruct (utf8.RuneSelf <=? byteZ c); [apply trimRightSpace_subseteq|].
  destruct (strings.asciiSpace (byteZ c)); [|done].
  etrans; [exact IH|]. cbn [rev]. intros x Hx. apply elem_of_app. by left.
Qed.

Lemma TrimSpace_subseteq (s : gostring) : strings.TrimSpace s ⊆ s.
Proof.
  induction s as [|c s IH]; [done|]. cbn [strings.TrimSpace].
  destruct (utf8.RuneSelf <=? byteZ c).
  - unfold strings.TrimFuncSpace, strings.TrimRightFuncSpace, strings.TrimLeftFuncSpace.
    etrans; [apply trimRightSpace_subseteq|apply trimLeftSpace_subseteq].
  - destruct (strings.asciiSpace (byteZ c)).
    + etrans; [exact IH|]. intros x Hx. by right.
    + etrans; [apply trimSpaceStop_subseteq|]. by rewrite rev_involutive.
Qed.

(** ** Runes and their bytes *)

Lemma decode_width_pos (c0 : ascii) (t : gostring) :
  (1 <= snd (utf8.DecodeRuneInString (c0 :: t)))%nat.
Proof.
  unfold utf8.DecodeRuneInString.
  repeat match goal with
  | |- context [if ?b then _ else _] => destruct b; cbn [snd]; try lia
  | |- context [match ?l with [] => _ | _ :: _ => _ end] =>
      destruct l; cbn [snd]; try lia
  | |- context [match ?o with Some _ => _ | None => _ end] =>
      destruct o as [[? [? ?]]|]; cbn [snd]; try lia
  end.
Qed.

(** The bytes of a rune that does not start with an ASCII byte are not
    ASCII bytes. *)
Lemma decode_multibyte (c0 : ascii) (t : gostring) :
  utf8.RuneSelf <= byteZ c0 ->
  Forall (fun c => 128 <= byteZ c)
         (take (snd (utf8.DecodeRuneInString (c0 :: t))) (c0 :: t)).
Proof.
  intros Hc. unfold utf8.DecodeRuneInString, utf8.RuneSelf in *.
  destruct (Z.ltb_spec (byteZ c0) 128); [lia|].
  unfold utf8.first, utf8.locb, utf8.hicb, utf8.cont.
  repeat match goal with
  | |- context [if ?b then _ else _] =>
      let E := fresh "E" in
      destruct b eqn:E; try (cbn in E; discriminate E); cbn [snd take]
  | |- context [match ?l with [] => _ | _ :: _ => _ end] =>
      destruct l; cbn [snd take]
  end;
  repeat match goal with
  | H : (_ || _) = false |- _ => apply orb_false_elim in H; destruct H
  | H : negb _ = false |- _ => apply negb_false_iff in H
  | H : (_ && _) = true |- _ => apply andb_true_iff in H; destruct H
  end;
  unfold utf8.locb, utf8.hicb in *; rewrite ?take_0;
  repeat (constructor; [lia|]); constructor.
Qed.

(** ** Fields *)

Section Fields.

Variable f : Z -> bool.

Lemma fieldsFunc_fuel (fuel fuel' : nat) (s : gostring) (cur : option gostring) :
  (length s <= fuel)%nat -> (length s <= fuel')%nat ->
  fieldsFunc f fuel s cur = fieldsFunc f fuel' s cur.
Proof.
  revert fuel' s cur. induction fuel as [|k IH]; intros fuel' s cur H1 H2.
  - destruct s; [|cbn in H1; lia]. by destruct fuel'.
  - destruct s as [|c0 t]; [by destruct fuel'|].
    destruct fuel' as [|k']; [cbn in H2; lia|].
    cbn [fieldsFunc].
    pose proof (decode_width_pos c0 t) as Hw.
    destruct (utf8.DecodeRuneInString (c0 :: t)) as [r w]. cbn [snd] in Hw.
    assert (length (drop w (c0 :: t)) <= k)%nat as Hk
      by (rewrite length_drop; cbn [length] in *; lia).
    assert (length (drop w (c0 :: t)) <= k')%nat as Hk'
      by (rewrite length_drop; cbn [length] in *; lia).
    destruct (f r); [f_equal|]; by apply IH.
Qed.

(** Bytes that [f] accepts as separators when they stand alone. *)
Local Abbreviation sep c := (byteZ c < 128 /\ f (byteZ c) = true).

Lemma closeField_no_separator (cur : option gostring) :
  (forall field, cur = Some field ->
     field <> [] /\ Forall (fun c => ~ sep c) field) ->
  Forall (fun field => field <> [] /\ Forall (fun c => ~ sep c) field)
         (closeField cur).
Proof.
  intros Hcur. destruct cur as [field|]; cbn; [|constructor].
  constructor; [by apply Hcur|constructor].
Qed.

Lemma fieldsFunc_no_separator (fuel : nat) (s : gostring) (cur : option gostring) :
  (forall field, cur = Some field ->
     field <> [] /\ Forall (fun c => ~ sep c) field) ->
  Forall (fun field => field <> [] /\ Forall (fun c => ~ sep c) field)
         (fieldsFunc f fuel s cur).
Proof.
  revert s cur. induction fuel as [|k IH]; intros s cur Hcur.
  - by apply closeField_no_separator.
  - destruct s as [|c0 t].
    + by apply closeField_no_separator.
    + cbn [fieldsFunc].
      pose proof (decode_width_pos c0 t) as Hw.
      pose proof (decode_multibyte c0 t) as Hmulti.
      assert (byteZ c0 < 128 ->
              utf8.DecodeRuneInString (c0 :: t) = (byteZ c0, 1%nat)) as Hascii.
      { intros Hlt. unfold utf8.DecodeRuneInString, utf8.RuneSelf.
        destruct (Z.ltb_spec (byteZ c0) 128); [done|lia]. }
      destruct (utf8.DecodeRuneInString (c0 :: t)) as [r w] eqn:Hdec.
      cbn [snd] in *.
      destruct (f r) eqn:Hf.
      * apply Forall_app. split.
        -- by apply closeField_no_separator.
        -- apply IH. intros field [=].
      * assert (Forall (fun c => ~ sep c) (take w (c0 :: t))) as Htake.
        { destruct (Z.ltb_spec (byteZ c0) 128) as [Hlt|Hge].
          - injection (Hascii Hlt) as -> ->. cbn [take].
            constructor; [|constructor]. intros [_ ?]. congruence.
          - eapply Forall_impl; [apply Hmulti; unfold utf8.RuneSelf; lia|].
            cbn. intros c Hc [? _]. lia. }
        apply IH. intros field [= <-]. split.
        -- destruct w as [|w]; [lia|]. cbn [take].
           by destruct (default [] cur).
        -- apply Forall_app. split; [|exact Htake].
           destruct cur as [field|]; cbn; [by apply Hcur|constructor].
Qed.

Lemma FieldsFunc_no_separator (s : gostring) :
  Forall (fun field => field <> [] /\ Forall (fun c => ~ sep c) field)
         (FieldsFunc s f).
Proof. apply fieldsFunc_no_separator. intros field [=]. Qed.

End Fields.

(** ** The loops that drop repeated entries *)

Lemma fold_left_pointwise {A B : Type} (g h : A -> B -> A) (l : list B) (a : A) :
  (forall a x, g a x = h a x) -> fold_left g l a = fold_left h l a.
Proof.
  intros Hgh. revert a. induction l as [|x l IH]; intros a; [done|].
  cbn. by rewrite Hgh, IH.
Qed.

Section Dedup.

Variable norm : gostring -> gostring.
Variable skip : gostring -> bool.
Variable key : gostring -> gostring.

Lemma dedupStep_fold (items : list gostring) (st : list gostring * gset gostring) :
  snd st = list_to_set (map key (fst st)) ->
  NoDup (map key (fst st)) ->
  exists added,
    fold_left (dedupStep norm skip key) items st
    = (fst st ++ added, list_to_set (map key (fst st ++ added)))
    /\ NoDup (map key (fst st ++ added))
    /\ sublist added (map norm items)
    /\ Forall (fun v => skip v = false) added
    /\ (forall item, item ∈ items -> skip (norm item) = false ->
          exists v, v ∈ fst st ++ added /\ key v = key (norm item)).
Proof.
  revert st. induction items as [|item items IH]; intros [out seen] Hseen Hnd;
    cbn [fst snd] in *.
  - exists []. rewrite app_nil_r. subst seen.
    split; [done|]. split; [done|]. split; [constructor|]. split; [constructor|].
    intros item Hitem. by apply elem_of_nil in Hitem.
  - cbn [fold_left]. unfold dedupStep at 2. cbn [fst snd].
    destruct (skip (norm item)) eqn:Hskip.
    { destruct (IH (out, seen) Hseen Hnd) as (added & -> & H1 & H2 & H3 & H4).
      exists added. split; [done|]. split; [done|].
      split; [by apply sublist_cons|]. split; [done|].
      intros it Hit Hk. apply elem_of_cons in Hit as [->|Hit]; [congruence|].
      by apply H4. }
    case_bool_decide as Hin.
    { destruct (IH (out, seen) Hseen Hnd) as (added & -> & H1 & H2 & H3 & H4).
      exists added. split; [done|]. split; [done|].
      split; [by apply sublist_cons|]. split; [done|].
      intros it Hit Hk. apply elem_of_cons in Hit as [->|Hit]; [|by apply H4].
      rewrite Hseen in Hin. apply elem_of_list_to_set, list_elem_of_fmap in Hin
        as (v & Hv & Hvin).
      exists v. split; [|done]. apply elem_of_app. by left. }
    destruct (IH (out ++ [norm item], {[key (norm item)]} ∪ seen))
      as (added & Hfold & H1 & H2 & H3 & H4); cbn [fst snd] in *.
    { rewrite map_app, list_to_set_app_L, Hseen. cbn.
      rewrite (union_empty_r_L (C := gset gostring)).
      apply (union_comm_L (C := gset gostring)). }
    { rewrite map_app. apply NoDup_app. split; [done|].
      split; [|apply NoDup_singleton].
      intros x Hx Hx'. cbn in Hx'. apply list_elem_of_singleton in Hx' as ->.
      apply Hin. rewrite Hseen. by apply elem_of_list_to_set. }
    exists (norm item :: added). rewrite Hfold, <- !app_assoc. cbn [app].
    split; [done|]. split; [by rewrite <- app_assoc in H1|].
    split; [by apply sublist_skip|]. split; [by constructor|].
    intros it Hit Hk. apply elem_of_cons in Hit as [->|Hit].
    + exists (norm item). split; [|done].
      apply elem_of_app. right. left.
    + destruct (H4 it Hit Hk) as (v & Hv & Hkey). exists v.
      split; [|done]. by rewrite <- app_assoc in Hv.
Qed.

Lemma dedup_loop (items : list gostring) :
  let out := fst (fold_left (dedupStep norm skip key) items ([], ∅)) in
  NoDup (map key out)
  /\ sublist out (map norm items)
  /\ Forall (fun v => skip v = false) out
  /\ (forall item, item ∈ items -> skip (norm item) = false ->
        exists v, v ∈ out /\ key v = key (norm item)).
Proof.
  cbv zeta. destruct (dedupStep_fold items ([], ∅)) as (added & -> & H); cbn.
  - reflexivity.
  - constructor.
  - exact H.
Qed.

End Dedup.

Lemma parseAPIKeys_loop (raw : gostring) :
  parseAPIKeys raw
  = if bool_decide (strings.TrimSpace raw = []) then []
    else fst (fold_left
                (dedupStep strings.TrimSpace (fun k => bool_decide (k = [])) id)
                (FieldsFunc (strings.TrimSpace raw) isKeySeparator) ([], ∅)).
Proof. reflexivity. Qed.

(** X21.  The credentials [parseAPIKeys] returns are pairwise distinct
    and not empty, and none contains a comma, a semicolon, a line feed,
    a tab or a space; a blank value gives no credential.  The splitting
    never stops early: more fuel for the loop over the runes gives the
    same fields.  [NewManager] therefore always works with at least one
    credential and never with the same credential twice. *)
Theorem parseAPIKeys_distinct (raw : gostring) :
  NoDup (parseAPIKeys raw)
  /\ Forall (fun k => k <> [] /\ Forall (fun c => ~ separatorByte c) k)
            (parseAPIKeys raw)
  /\ (strings.TrimSpace raw = [] -> parseAPIKeys raw = [])
  /\ (forall s extra,
        fieldsFunc isKeySeparator (length s + extra) s None
        = FieldsFunc s isKeySeparator)
  /\ NoDup (managerKeys raw) /\ (1 <= length (managerKeys raw))%nat.
Proof.
  assert (NoDup (parseAPIKeys raw)
          /\ Forall (fun k => k <> [] /\ Forall (fun c => ~ separatorByte c) k)
                    (parseAPIKeys raw)) as [Hnd Hkeys].
  { rewrite parseAPIKeys_loop. case_bool_decide; [split; constructor|].
    destruct (dedup_loop strings.TrimSpace (fun k => bool_decide (k = [])) id
                (FieldsFunc (strings.TrimSpace raw) isKeySeparator))
      as (H1 & H2 & H3 & _).
    split; [by rewrite map_id in H1|].
    apply Forall_forall. intros k Hk. split.
    - rewrite Forall_forall in H3. specialize (H3 k Hk).
      by apply bool_decide_eq_false in H3.
    - pose proof (elem_of_sublist _ _ _ Hk H2) as Hin.
      apply list_elem_of_fmap in Hin as (field & -> & Hfield).
      pose proof (FieldsFunc_no_separator isKeySeparator (strings.TrimSpace raw))
        as Hfields.
      rewrite Forall_forall in Hfields. destruct (Hfields field Hfield) as [_ Hsep].
      apply Forall_forall. intros c Hc Hbad.
      apply TrimSpace_subseteq in Hc.
      rewrite Forall_forall in Hsep. apply (Hsep c Hc).
      unfold separatorByte in Hbad. split; [|exact Hbad].
      unfold isKeySeparator in Hbad. lia. }
  split; [exact Hnd|]. split; [exact Hkeys|]. split; [|split; [|split]].
  - intros Hblank. rewrite parseAPIKeys_loop. by rewrite bool_decide_eq_true_2.
  - intros s extra. unfold FieldsFunc. apply fieldsFunc_fuel; lia.
  - unfold managerKeys. case_bool_decide; [apply NoDup_singleton|exact Hnd].
  - unfold managerKeys. case_bool_decide; [cbn; lia|lia].
Qed.

Lemma parseAPIKeys_distinct_witness :
  parseAPIKeys (lit " k1, k2;k1  k3 ") = [lit "k1"; lit "k2"; lit "k3"]
  /\ NoDup (parseAPIKeys (lit " k1, k2;k1  k3 ")).
Proof.
  split; [vm_compute; reflexivity|].
  exact (proj1 (parseAPIKeys_distinct (lit " k1, k2;k1  k3 "))).
Defined.

Lemma uniqueStrings_loop (input : list gostring) :
  uniqueStrings input
  = fst (fold_left (dedupStep strings.TrimSpace (fun s => bool_decide (s = [])) id)
                   input ([], ∅)).
Proof.
  unfold uniqueStrings. f_equal. apply fold_left_pointwise.
  intros st s. unfold dedupStep, id. by destruct (bool_decide (_ ∈ _)).
Qed.

(** X22.  [uniqueStrings] returns the trimmed, non-empty entries of its
    input, each exactly once and in the order of their first
    occurrence: the targeted pipeline never scans an address twice for
    the same input file, and never drops an address that is not
    blank. *)
Theorem uniqueStrings_once (input : list gostring) :
  NoDup (uniqueStrings input)
  /\ (forall x, x ∈ uniqueStrings input <->
                x <> [] /\ exists s, s ∈ input /\ strings.TrimSpace s = x)
  /\ sublist (uniqueStrings input) (map strings.TrimSpace input).
Proof.
  rewrite uniqueStrings_loop.
  destruct (dedup_loop strings.TrimSpace (fun s => bool_decide (s = [])) id input)
    as (H1 & H2 & H3 & H4).
  split; [by rewrite map_id in H1|]. split; [|exact H2].
  intros x. split.
  - intros Hx. split.
    + rewrite Forall_forall in H3. specialize (H3 x Hx).
      by apply bool_decide_eq_false in H3.
    + pose proof (elem_of_sublist _ _ _ Hx H2) as Hin.
      apply list_elem_of_fmap in Hin as (s & -> & Hs). by exists s.
  - intros [Hne (s & Hs & <-)].
    destruct (H4 s Hs) as (v & Hv & Hkey); [by apply bool_decide_eq_false|].
    unfold id in Hkey. by subst v.
Qed.

Lemma uniqueStrings_once_witness :
  uniqueStrings [lit " 0xA "; []; lit "0xB"; lit "0xA"] = [lit "0xA"; lit "0xB"]
  /\ NoDup (uniqueStrings [lit " 0xA "; []; lit "0xB"; lit "0xA"]).
Proof.
  split; [vm_compute; reflexivity|].
  exact (proj1 (uniqueStrings_once [lit " 0xA "; []; lit "0xB"; lit "0xA"])).
Defined.

Lemma normalizeUniqueNonEmpty_loop (MapToLower : gostring -> gostring)
    (items : list gostring) :
  normalizeUniqueNonEmpty MapToLower items
  = fst (fold_left
           (dedupStep strings.TrimSpace
              (fun v => bool_decide (v = []) || strings.HasPrefix v (lit "#")
                        || strings.HasPrefix v (lit "//"))
              (strings.ToLower MapToLower))
           items ([], ∅)).
Proof. reflexivity. Qed.

(** X23.  [normalizeUniqueNonEmpty] keeps the trimmed entries of a
    target list that are neither blank nor comments (starting with a
    hash sign or two slashes), one for each spelling up to letter case,
    in the order and the spelling of their first occurrence: no two
    entries of the result agree after lower-casing, and every entry of
    the input that is not blank and not a comment is represented. *)
Theorem normalizeUniqueNonEmpty_spec (MapToLower : gostring -> gostring)
    (items : list gostring) :
  let out := normalizeUniqueNonEmpty MapToLower items in
  let comment v :=
    strings.HasPrefix v (lit "#") = true \/ strings.HasPrefix v (lit "//") = true in
  NoDup (map (strings.ToLower MapToLower) out)
  /\ sublist out (map strings.TrimSpace items)
  /\ Forall (fun v => v <> [] /\ ~ comment v) out
  /\ (forall item, item ∈ items ->
        strings.TrimSpace item <> [] -> ~ comment (strings.TrimSpace item) ->
        exists v, v ∈ out
                  /\ strings.ToLower MapToLower v
                     = strings.ToLower MapToLower (strings.TrimSpace item)).
Proof.
  cbv zeta. rewrite normalizeUniqueNonEmpty_loop.
  match goal with
  | |- context [dedupStep ?n ?s ?k] =>
      destruct (dedup_loop n s k items) as (H1 & H2 & H3 & H4)
  end.
  split; [exact H1|]. split; [exact H2|]. split.
  - eapply Forall_impl; [exact H3|]. cbn. intros v Hv.
    apply orb_false_elim in Hv as [Hv Hc2]. apply orb_false_elim in Hv as [Hv Hc1].
    apply bool_decide_eq_false in Hv. split; [done|].
    intros [?|?]; congruence.
  - intros item Hitem Hne Hnc. apply H4; [done|].
    rewrite bool_decide_eq_false_2 by done. cbn [orb].
    destruct (strings.HasPrefix _ (lit "#")) eqn:E1; [destruct Hnc; by left|].
    destruct (strings.HasPrefix _ (lit "//")) eqn:E2; [destruct Hnc; by right|].
    done.
Qed.

Lemma normalizeUniqueNonEmpty_spec_witness :
  normalizeUniqueNonEmpty id
    [lit "# targets"; lit " 0xAb "; lit "0xab"; []; lit "// old"; lit "0xCD"]
  = [lit "0xAb"; lit "0xCD"]
  /\ NoDup (map (strings.ToLower id)
              (normalizeUniqueNonEmpty id
                 [lit "# targets"; lit " 0xAb "; lit "0xab"; []; lit "// old";
                  lit "0xCD"])).
Proof.
  split; [vm_compute; reflexivity|].
  exact (proj1 (normalizeUniqueNonEmpty_spec id
                  [lit "# targets"; lit " 0xAb "; lit "0xab"; []; lit "// old";
                   lit "0xCD"])).
Defined.

(** ** Block ranges *)

Lemma wrapU64_small (z : Z) : 0 <= z < 2 ^ 64 -> wrapU64 z = z.
Proof. intros H. unfold wrapU64. by apply Z.mod_small. Qed.

Lemma covered_nil (b : Z) : ~ covered [] b.
Proof. intros (r & Hr & _). by apply elem_of_nil in Hr. Qed.

Lemma covered_cons (r : BlockRangeRecord) (l : list BlockRangeRecord) (b : Z) :
  covered (r :: l) b <-> inRange b r \/ covered l b.
Proof.
  unfold covered. split.
  - intros (x & Hx & Hb). apply elem_of_cons in Hx as [->|Hx]; eauto.
  - intros [Hb|(x & Hx & Hb)].
    + exists r. split; [left|done].
    + exists x. split; [by right|done].
Qed.

Lemma covered_app (l1 l2 : list BlockRangeRecord) (b : Z) :
  covered (l1 ++ l2) b <-> covered l1 b \/ covered l2 b.
Proof.
  unfold covered. split.
  - intros (x & Hx & Hb). apply elem_of_app in Hx as [Hx|Hx]; eauto.
  - intros [(x & Hx & Hb)|(x & Hx & Hb)]; exists x;
      (split; [apply elem_of_app; auto|done]).
Qed.

Lemma covered_perm (l1 l2 : list BlockRangeRecord) (b : Z) :
  l1 ≡ₚ l2 -> covered l1 b <-> covered l2 b.
Proof.
  intros Hp. unfold covered. split; intros (x & Hx & Hb); exists x;
    (split; [|done]); [by rewrite <- Hp|by rewrite Hp].
Qed.

(** The merging loop turns sorted records into separated records that
    cover the same blocks. *)
Lemma mergeLoop_spec (rest : list BlockRangeRecord) :
  forall curr merged,
    wellFormed curr -> Forall wellFormed rest ->
    Forall (fun r => Start curr <= Start r) rest -> sortedByStart rest ->
    exists M,
      mergeLoop curr rest merged = merged ++ M
      /\ (forall b, covered M b <-> covered (curr :: rest) b)
      /\ Forall wellFormed M /\ separated M
      /\ Forall (fun m => Start curr <= Start m) M.
Proof.
  induction rest as [|r rest IH]; intros curr merged Hcurr Hwf Hle Hsorted.
  - exists [curr]. cbn. split; [done|]. split; [done|].
    split; [by constructor|]. split; [split; [constructor|done]|].
    constructor; [lia|constructor].
  - apply Forall_cons in Hwf as [Hr Hwf]. apply Forall_cons in Hle as [Hcr Hle].
    destruct Hsorted as [Hrle Hsorted].
    destruct Hcurr as [Hc1 Hc2]. destruct Hr as [Hr1 Hr2].
    cbn [mergeLoop]. rewrite wrapU64_small by lia.
    destruct (Z.leb_spec (Start r) (End_ curr + 1)) as [Htouch|Hapart].
    + set (curr' := if End_ curr <? End_ r
                    then mkBlockRange (Start curr) (End_ r) else curr).
      assert (Start curr' = Start curr
              /\ End_ curr' = Z.max (End_ curr) (End_ r)) as [Hs' He'].
      { subst curr'. destruct (Z.ltb_spec (End_ curr) (End_ r)); cbn; lia. }
      destruct (IH curr' merged) as (M & HM & Hcov & HwfM & Hsep & HleM).
      { unfold wellFormed. lia. }
      { exact Hwf. }
      { rewrite Hs'. exact Hle. }
      { exact Hsorted. }
      exists M. split; [exact HM|]. split; [|split; [done|split; [done|]]].
      * intros b. rewrite Hcov, !covered_cons. unfold inRange. rewrite Hs', He'.
        split; [intros [?|?]|intros [?|[?|?]]]; auto; lia.
      * by rewrite Hs' in HleM.
    + destruct (IH r (merged ++ [curr])) as (M & HM & Hcov & HwfM & Hsep & HleM).
      { done. }
      { exact Hwf. }
      { exact Hrle. }
      { exact Hsorted. }
      exists (curr :: M). rewrite HM, <- app_assoc. split; [done|].
      split; [|split; [|split]].
      * intros b. rewrite covered_cons, Hcov, (covered_cons curr). done.
      * by constructor.
      * split; [|done]. eapply Forall_impl; [exact HleM|]. cbn. intros; lia.
      * constructor; [lia|]. eapply Forall_impl; [exact HleM|]. cbn. intros; lia.
Qed.

(** Over separated records, the second loop returns the gaps of the
    request from the cursor on. *)
Lemma uncoveredLoop_spec (requestEnd : Z) (merged : list BlockRangeRecord) :
  forall cursor out,
    Forall wellFormed merged -> separated merged -> 0 <= cursor ->
    exists added,
      closeRequest requestEnd (uncoveredLoop merged requestEnd cursor out)
      = out ++ added
      /\ Forall (fun o => cursor <= Start o <= End_ o /\ End_ o <= requestEnd) added
      /\ (forall b, cursor <= b <= requestEnd ->
            covered added b <-> ~ covered merged b)
      /\ separated added.
Proof.
  assert (forall cursor out,
            exists added,
              closeRequest requestEnd (out, cursor) = out ++ added
              /\ Forall (fun o => cursor <= Start o <= End_ o /\ End_ o <= requestEnd)
                        added
              /\ (forall b, cursor <= b <= requestEnd -> covered added b)
              /\ separated added) as Hclose.
  { intros cursor out. unfold closeRequest. cbn [fst snd].
    destruct (Z.leb_spec cursor requestEnd).
    - exists [mkBlockRange cursor requestEnd]. split; [done|].
      split; [constructor; [cbn; lia|constructor]|].
      split; [|split; [constructor|done]].
      intros b Hb. exists (mkBlockRange cursor requestEnd).
      split; [left|unfold inRange; cbn; lia].
    - exists []. rewrite app_nil_r. split; [done|]. split; [constructor|].
      split; [intros b Hb; lia|done]. }
  induction merged as [|r rest IH]; intros cursor out Hwf Hsep Hcursor.
  - cbn [uncoveredLoop].
    destruct (Hclose cursor out) as (added & H1 & H2 & H3 & H4).
    exists added. split; [done|]. split; [done|]. split; [|done].
    intros b Hb. split; [intros _; apply covered_nil|intros _; by apply H3].
  - apply Forall_cons in Hwf as [[Hr1 Hr2] Hwf]. destruct Hsep as [Hrsep Hsep].
    cbn [uncoveredLoop].
    destruct (Z.ltb_spec (End_ r) cursor) as [Hbefore|Hreach].
    { destruct (IH cursor out Hwf Hsep Hcursor) as (added & H1 & H2 & H3 & H4).
      exists added. split; [done|]. split; [done|]. split; [|done].
      intros b Hb. rewrite H3, covered_cons by done. unfold inRange.
      split; [intros Hn [?|?]; [lia|done]|intros Hn Hc; apply Hn; by right]. }
    destruct (Z.ltb_spec requestEnd (Start r)) as [Hbeyond|Hwithin].
    { destruct (Hclose cursor out) as (added & H1 & H2 & H3 & H4).
      exists added. split; [done|]. split; [done|]. split; [|done].
      intros b Hb. split; [|intros _; by apply H3].
      intros _. rewrite covered_cons. unfold inRange. intros [?|(x & Hx & Hbx)]; [lia|].
      rewrite Forall_forall in Hrsep. specialize (Hrsep x Hx).
      unfold inRange in Hbx. lia. }
    rewrite (wrapU64_small (End_ r + 1)) by lia.
    destruct (Z.ltb_spec cursor (End_ r + 1)) as [_|?]; [|lia].
    set (gap := if cursor <? Start r
                then [mkBlockRange cursor (Start r - 1)] else []).
    assert ((if cursor <? Start r
             then
               if cursor <=? minUint64 (wrapU64 (Start r - 1)) requestEnd
               then out ++ [mkBlockRange cursor
                              (minUint64 (wrapU64 (Start r - 1)) requestEnd)]
               else out
             else out) = out ++ gap) as ->.
    { subst gap. destruct (Z.ltb_spec cursor (Start r)) as [Hlt|Hge];
        [|by rewrite app_nil_r].
      rewrite (wrapU64_small (Start r - 1)) by lia. unfold minUint64.
      destruct (Z.ltb_spec (Start r - 1) requestEnd); [|lia].
      destruct (Z.leb_spec cursor (Start r - 1)); [done|lia]. }
    assert (Forall (fun o => cursor <= Start o <= End_ o /\ End_ o < Start r) gap)
      as Hgap1.
    { subst gap. destruct (Z.ltb_spec cursor (Start r));
        [constructor; [cbn; lia|constructor]|constructor]. }
    assert (forall b, covered gap b <-> cursor <= b < Start r) as Hgap2.
    { intros b. subst gap. destruct (Z.ltb_spec cursor (Start r)).
      - rewrite covered_cons. unfold inRange. cbn [Start End_].
        split; [intros [?|Hn]; [lia|by apply covered_nil in Hn]|intros; left; lia].
      - split; [intros Hn; by apply covered_nil in Hn|lia]. }
    assert (forall tail,
              Forall (fun o => End_ r + 1 <= Start o) tail -> separated tail ->
              separated (gap ++ tail)) as Hgap3.
    { intros tail Htail Hseptail. subst gap.
      destruct (Z.ltb_spec cursor (Start r)); [|done].
      split; [|done]. eapply Forall_impl; [exact Htail|]. cbn. intros; lia. }
    clearbody gap.
    destruct (Z.ltb_spec requestEnd (End_ r + 1)) as [Hstop|Hgo].
    + exists gap. split.
      { unfold closeRequest. cbn [fst snd].
        destruct (Z.leb_spec (End_ r + 1) requestEnd); [lia|done]. }
      split; [eapply Forall_impl; [exact Hgap1|]; cbn; intros; lia|].
      split; [|specialize (Hgap3 [] ltac:(constructor) I);
               by rewrite app_nil_r in Hgap3].
      intros b Hb. rewrite Hgap2, covered_cons. unfold inRange. split.
      * intros Hlt [?|(x & Hx & Hbx)]; [lia|].
        rewrite Forall_forall in Hrsep. specialize (Hrsep x Hx).
        unfold inRange in Hbx. lia.
      * intros Hn. destruct (Z.ltb_spec b (Start r)); [lia|].
        exfalso. apply Hn. left. lia.
    + destruct (IH (End_ r + 1) (out ++ gap) Hwf Hsep ltac:(lia))
        as (added & H1 & H2 & H3 & H4).
      exists (gap ++ added). rewrite H1, <- app_assoc. split; [done|].
      split; [|split].
      * apply Forall_app. split.
        -- eapply Forall_impl; [exact Hgap1|]. cbn. intros; lia.
        -- eapply Forall_impl; [exact H2|]. cbn. intros; lia.
      * intros b Hb. rewrite covered_app, Hgap2, (covered_cons r). unfold inRange.
        assert (covered added b -> End_ r + 1 <= b) as Hadded.
        { intros (o & Ho & Hbo). rewrite Forall_forall in H2.
          specialize (H2 o Ho). unfold inRange in Hbo. lia. }
        assert (covered rest b -> End_ r + 1 < b) as Hrest.
        { intros (x & Hx & Hbx). rewrite Forall_forall in Hrsep.
          specialize (Hrsep x Hx). unfold inRange in Hbx. lia. }
        destruct (Z.ltb_spec b (End_ r + 1)) as [Hlow|Hhigh].
        -- split.
           ++ intros [?|Ha]; [|apply Hadded in Ha; lia].
              intros [?|Hc]; [lia|apply Hrest in Hc; lia].
           ++ intros Hn. destruct (Z.ltb_spec b (Start r)); [left; lia|].
              exfalso. apply Hn. left. lia.
        -- rewrite (H3 b) by lia. split.
           ++ intros [?|Hn]; [lia|]. intros [?|?]; [lia|done].
           ++ intros Hn. right. intros Hc. apply Hn. by right.
      * apply Hgap3; [|done]. eapply Forall_impl; [exact H2|]. cbn. intros; lia.
Qed.

Section RangeTheorems.

Variable sortSlice : list BlockRangeRecord -> list BlockRangeRecord.

Lemma sorted_head_le (curr : BlockRangeRecord) (rest : list BlockRangeRecord) :
  sortedByStart (curr :: rest) ->
  Forall (fun r => Start curr <= Start r) rest /\ sortedByStart rest.
Proof. intros [H1 H2]. done. Qed.

Lemma getUncoveredRanges_closeRequest (existing : list BlockRangeRecord)
    (requestStart requestEnd : Z) (curr : BlockRangeRecord)
    (rest : list BlockRangeRecord) :
  requestStart <= requestEnd -> existing <> [] ->
  sortSlice existing = curr :: rest ->
  getUncoveredRanges sortSlice existing requestStart requestEnd
  = closeRequest requestEnd
      (uncoveredLoop (mergeLoop curr rest []) requestEnd requestStart []).
Proof.
  intros Hreq Hne Hsort. unfold getUncoveredRanges.
  destruct (Z.ltb_spec requestEnd requestStart); [lia|].
  rewrite bool_decide_eq_false_2 by (by destruct existing).
  rewrite Hsort. by destruct (uncoveredLoop _ _ _ _).
Qed.

End RangeTheorems.

(** X24.  [getUncoveredRanges] returns exactly the blocks of the
    request that no existing record covers: a block of the request lies
    in one of the returned ranges if and only if it lies in none of the
    existing ones.  The returned ranges lie inside the request, have
    their ends in order, come in increasing order and are separated
    from one another; a request whose end lies before its start gives
    nothing.  (The existing records have their ends in order and stop
    short of the last block number, so that no sum wraps around.) *)
Theorem getUncoveredRanges_exact
    (sortSlice : list BlockRangeRecord -> list BlockRangeRecord)
    (existing : list BlockRangeRecord) (requestStart requestEnd : Z) :
  Forall wellFormed existing -> 0 <= requestStart ->
  sortSlice existing ≡ₚ existing -> sortedByStart (sortSlice existing) ->
  let out := getUncoveredRanges sortSlice existing requestStart requestEnd in
  (forall b, requestStart <= b <= requestEnd ->
     covered out b <-> ~ covered existing b)
  /\ Forall (fun o => requestStart <= Start o <= End_ o /\ End_ o <= requestEnd) out
  /\ separated out
  /\ (requestEnd < requestStart -> out = []).
Proof.
  intros Hwf Hstart Hperm Hsorted. cbv zeta.
  destruct (Z.ltb_spec requestEnd requestStart) as [Hempty|Hreq].
  { unfold getUncoveredRanges.
    destruct (Z.ltb_spec requestEnd requestStart); [|lia].
    split; [intros b Hb; lia|]. split; [constructor|]. done. }
  destruct existing as [|e existing].
  { unfold getUncoveredRanges.
    destruct (Z.ltb_spec requestEnd requestStart); [lia|].
    cbn [length]. rewrite bool_decide_eq_true_2 by done.
    split; [|split; [constructor; [cbn; lia|constructor]|split; [|lia]]].
    - intros b Hb. split; [intros _; apply covered_nil|intros _].
      exists (mkBlockRange requestStart requestEnd).
      split; [left|unfold inRange; cbn; lia].
    - split; [constructor|done]. }
  destruct (sortSlice (e :: existing)) as [|curr rest] eqn:Hsort.
  { apply Permutation_nil_l in Hperm. discriminate Hperm. }
  rewrite (getUncoveredRanges_closeRequest sortSlice (e :: existing)
             requestStart requestEnd curr rest Hreq ltac:(done) Hsort).
  assert (Forall wellFormed (curr :: rest)) as Hwf'.
  { rewrite Forall_forall in *. intros x Hx. apply Hwf. by rewrite <- Hperm. }
  apply Forall_cons in Hwf' as [Hcurr Hrest].
  destruct (sorted_head_le curr rest Hsorted) as [Hle Hsorted'].
  destruct (mergeLoop_spec rest curr [] Hcurr Hrest Hle Hsorted')
    as (M & -> & Hcov & HwfM & Hsep & _).
  cbn [app].
  destruct (uncoveredLoop_spec requestEnd M requestStart [] HwfM Hsep Hstart)
    as (added & -> & H1 & H2 & H3).
  cbn [app]. split; [|split; [exact H1|split; [exact H3|lia]]].
  intros b Hb. rewrite (H2 b Hb), Hcov, <- (covered_perm _ _ b Hperm). done.
Qed.

Lemma getUncoveredRanges_exact_witness :
  getUncoveredRanges id sampleRanges 5 65
  = [mkBlockRange 5 9; mkBlockRange 41 59]
  /\ separated (getUncoveredRanges id sampleRanges 5 65).
Proof.
  split; [vm_compute; reflexivity|].
  destruct (getUncoveredRanges_exact id sampleRanges 5 65) as (_ & _ & H & _).
  - unfold sampleRanges, wellFormed. repeat constructor; cbn; lia.
  - lia.
  - reflexivity.
  - unfold sampleRanges, sortedByStart. cbn. repeat constructor; cbn; lia.
  - exact H.
Defined.

(** X25.  [mergeAndInsertRange] returns records that cover exactly the
    blocks covered before together with the blocks of the new range;
    the records it returns have their ends in order, come in increasing
    order, and neither overlap nor touch. *)
Theorem mergeAndInsertRange_exact
    (sortSlice : list BlockRangeRecord -> list BlockRangeRecord)
    (existing : list BlockRangeRecord) (newRange : BlockRangeRecord) :
  Forall wellFormed existing -> wellFormed newRange ->
  sortSlice (existing ++ [newRange]) ≡ₚ existing ++ [newRange] ->
  sortedByStart (sortSlice (existing ++ [newRange])) ->
  let merged := mergeAndInsertRange sortSlice existing newRange in
  (forall b, covered merged b <-> covered existing b \/ inRange b newRange)
  /\ Forall wellFormed merged
  /\ separated merged.
Proof.
  intros Hwf Hnew Hperm Hsorted. cbv zeta. unfold mergeAndInsertRange.
  rewrite bool_decide_eq_false_2 by (rewrite length_app; cbn; lia).
  destruct (sortSlice (existing ++ [newRange])) as [|curr rest] eqn:Hsort.
  { apply Permutation_nil_l in Hperm. by destruct existing. }
  assert (Forall wellFormed (curr :: rest)) as Hwf'.
  { rewrite Forall_forall. intros x Hx. rewrite Hperm in Hx.
    apply elem_of_app in Hx as [Hx|Hx].
    - rewrite Forall_forall in Hwf. by apply Hwf.
    - apply list_elem_of_singleton in Hx as ->. done. }
  apply Forall_cons in Hwf' as [Hcurr Hrest].
  destruct Hsorted as [Hle Hsorted'].
  destruct (mergeLoop_spec rest curr [] Hcurr Hrest Hle Hsorted')
    as (M & -> & Hcov & HwfM & Hsep & _).
  cbn [app]. split; [|done].
  intros b. rewrite Hcov, (covered_perm _ _ b Hperm), covered_app, covered_cons.
  split; [intros [?|[?|Hn]]; auto; by apply covered_nil in Hn|].
  intros [?|?]; auto.
Qed.

Lemma mergeAndInsertRange_exact_witness :
  mergeAndInsertRange id sampleRanges (mkBlockRange 71 80)
  = [mkBlockRange 10 40; mkBlockRange 60 80]
  /\ separated (mergeAndInsertRange id sampleRanges (mkBlockRange 71 80)).
Proof.
  split; [vm_compute; reflexivity|].
  destruct (mergeAndInsertRange_exact id sampleRanges (mkBlockRange 71 80))
    as (_ & _ & H).
  - unfold sampleRanges, wellFormed. repeat constructor; cbn; lia.
  - unfold wellFormed. cbn. lia.
  - reflexivity.
  - unfold sampleRanges, sortedByStart. cbn. repeat constructor; cbn; lia.
  - exact H.
Defined.

(** ** Compiler versions *)

Lemma compareVersions_key (v1 v2 : gostring) :
  let '(a1, a2, a3) := versionKey v1 in
  let '(b1, b2, b3) := versionKey v2 in
  compareVersions v1 v2
  = if b1 <? a1 then 1 else if a1 <? b1 then -1
    else if b2 <? a2 then 1 else if a2 <? b2 then -1
    else if b3 <? a3 then 1 else if a3 <? b3 then -1
    else 0.
Proof. reflexivity. Qed.

Lemma compareVersions_le (v1 v2 : gostring) :
  compareVersions v1 v2 <= 0 <-> versionLe (versionKey v1) (versionKey v2).
Proof.
  pose proof (compareVersions_key v1 v2) as H.
  destruct (versionKey v1) as [[a1 a2] a3], (versionKey v2) as [[b1 b2] b3].
  rewrite H. cbn [versionLe].
  repeat match goal with
  | |- context [?x <? ?y] => destruct (Z.ltb_spec x y)
  end; lia.
Qed.

Lemma highestVersion_fold (rest : list gostring) (first : gostring)
    (seen : list gostring) :
  first ∈ seen ->
  (forall v, v ∈ seen -> compareVersions v first <= 0) ->
  let m := fold_left (fun maxVersion v =>
                        if 0 <? compareVersions v maxVersion then v else maxVersion)
                     rest first in
  m ∈ seen ++ rest
  /\ forall v, v ∈ seen ++ rest -> compareVersions v m <= 0.
Proof.
  revert first seen. induction rest as [|x rest IH]; intros first seen Hin Hmax;
    cbn [fold_left].
  - rewrite app_nil_r. done.
  - replace (seen ++ x :: rest) with ((seen ++ [x]) ++ rest)
      by (by rewrite <- app_assoc).
    destruct (Z.ltb_spec 0 (compareVersions x first)) as [Hgt|Hle].
    + apply IH.
      * apply elem_of_app. right. left.
      * intros v Hv. apply compareVersions_le.
        apply elem_of_app in Hv as [Hv|Hv].
        -- eapply versionLe_trans; [apply compareVersions_le, Hmax, Hv|].
           pose proof (compareVersions_le x first) as Hx.
           pose proof (compareVersions_key x first) as Hk.
           destruct (versionKey x) as [[a1 a2] a3],
                    (versionKey first) as [[b1 b2] b3].
           cbn [versionLe]. rewrite Hk in Hgt.
           repeat match type of Hgt with
           | context [?p <? ?q] => destruct (Z.ltb_spec p q)
           end; lia.
        -- apply list_elem_of_singleton in Hv as ->. apply versionLe_refl.
    + apply IH.
      * apply elem_of_app. by left.
      * intros v Hv. apply elem_of_app in Hv as [Hv|Hv]; [by apply Hmax|].
        apply list_elem_of_singleton in Hv as ->. done.
Qed.

(** X26.  [compareVersions] orders versions by their first three
    numbers, major before minor before patch: it returns 1, 0 or -1, it
    is at most zero exactly when the first version is not above the
    second, zero exactly when the three numbers agree, and swapping the
    arguments flips the sign.  The version [extractSolidityVersion]
    keeps at its end is one of the versions collected, and none of them
    is above it. *)
Theorem compareVersions_order (v1 v2 : gostring) (versions : list gostring) :
  (compareVersions v1 v2 = 1 \/ compareVersions v1 v2 = 0
   \/ compareVersions v1 v2 = -1)
  /\ (compareVersions v1 v2 <= 0 <-> versionLe (versionKey v1) (versionKey v2))
  /\ (compareVersions v1 v2 = 0 <-> versionKey v1 = versionKey v2)
  /\ compareVersions v2 v1 = - compareVersions v1 v2
  /\ (versions <> [] ->
      highestVersion versions ∈ versions
      /\ forall v, v ∈ versions -> compareVersions v (highestVersion versions) <= 0).
Proof.
  split; [|split; [apply compareVersions_le|split; [|split]]].
  - pose proof (compareVersions_key v1 v2) as H.
    destruct (versionKey v1) as [[a1 a2] a3], (versionKey v2) as [[b1 b2] b3].
    rewrite H.
    repeat match goal with
    | |- context [?x <? ?y] => destruct (Z.ltb_spec x y)
    end; auto.
  - pose proof (compareVersions_key v1 v2) as H.
    destruct (versionKey v1) as [[a1 a2] a3], (versionKey v2) as [[b1 b2] b3].
    rewrite H.
    repeat match goal with
    | |- context [?x <? ?y] => destruct (Z.ltb_spec x y)
    end; (split; [intros; try lia; repeat f_equal; lia|intros [= ? ? ?]; lia]).
  - pose proof (compareVersions_key v1 v2) as H.
    pose proof (compareVersions_key v2 v1) as H'.
    destruct (versionKey v1) as [[a1 a2] a3], (versionKey v2) as [[b1 b2] b3].
    rewrite H, H'.
    repeat match goal with
    | |- context [?x <? ?y] => destruct (Z.ltb_spec x y)
    end; lia.
  - intros Hne. destruct versions as [|first rest]; [done|].
    unfold highestVersion.
    destruct (highestVersion_fold rest first [first]) as [H1 H2].
    + left.
    + intros v Hv. apply list_elem_of_singleton in Hv as ->.
      apply compareVersions_le, versionLe_refl.
    + done.
Qed.

Lemma compareVersions_order_witness :
  highestVersion [lit "0.6.12"; lit "0.8.19"; lit "0.8.2"] = lit "0.8.19"
  /\ highestVersion [lit "0.6.12"; lit "0.8.19"; lit "0.8.2"]
     ∈ [lit "0.6.12"; lit "0.8.19"; lit "0.8.2"].
Proof.
  split; [vm_compute; reflexivity|].
  destruct (compareVersions_order [] [] [lit "0.6.12"; lit "0.8.19"; lit "0.8.2"])
    as (_ & _ & _ & _ & H).
  apply H. discriminate.
Defined.

Lemma splitByte_app (sep : ascii) (s t cur : gostring) :
  strings.splitByte sep (s ++ sep :: t) cur
  = strings.splitByte sep s cur ++ strings.splitByte sep t [].
Proof.
  revert cur. induction s as [|c s IH]; intros cur.
  - cbn. by rewrite Ascii.eqb_refl.
  - cbn [app strings.splitByte]. destruct (Ascii.eqb c sep).
    + by rewrite IH.
    + apply IH.
Qed.

Lemma Split_append_part (s t : gostring) (sep : ascii) :
  length (strings.Split (s ++ sep :: t) sep)
  = (length (strings.Split s sep) + length (strings.Split t sep))%nat.
Proof.
  unfold strings.Split. by rewrite splitByte_app, length_app.
Qed.

(** X27.  The version [normalizeSolidityVersion] returns always has at
    least three parts between dots and is never empty: an empty version
    and a version without a dot become 0.8.0, a version of two parts
    gets a zero patch number, and a version of three parts or more is
    returned as it is.  Normalising twice is the same as normalising
    once. *)
Theorem normalizeSolidityVersion_three_parts (version : gostring) :
  let parts v := length (strings.Split v "."%char) in
  (3 <= parts (normalizeSolidityVersion version))%nat
  /\ normalizeSolidityVersion version <> []
  /\ (version = [] \/ (parts version < 2)%nat ->
      normalizeSolidityVersion version = lit "0.8.0")
  /\ (parts version = 2%nat ->
      normalizeSolidityVersion version = version ++ lit ".0")
  /\ ((3 <= parts version)%nat -> version <> [] ->
      normalizeSolidityVersion version = version)
  /\ normalizeSolidityVersion (normalizeSolidityVersion version)
     = normalizeSolidityVersion version.
Proof.
  cbv zeta.
  assert (forall w, w <> [] -> (3 <= length (strings.Split w "."%char))%nat ->
                    normalizeSolidityVersion w = w) as Hfix.
  { intros w Hw Hlen. unfold normalizeSolidityVersion.
    rewrite bool_decide_eq_false_2 by done.
    destruct (Nat.ltb_spec (length (strings.Split w "."%char)) 2); [lia|].
    rewrite bool_decide_eq_false_2 by lia. done. }
  assert (forall w, length (strings.Split w "."%char) = 2%nat ->
                    w <> [] /\ normalizeSolidityVersion w = w ++ lit ".0"
                    /\ length (strings.Split (w ++ lit ".0") "."%char) = 3%nat)
    as Htwo.
  { intros w Hlen. split; [by intros ->|]. split.
    - unfold normalizeSolidityVersion.
      rewrite bool_decide_eq_false_2 by (by intros ->).
      destruct (Nat.ltb_spec (length (strings.Split w "."%char)) 2); [lia|].
      by rewrite bool_decide_eq_true_2.
    - change (w ++ lit ".0") with (w ++ "."%char :: lit "0").
      rewrite Split_append_part, Hlen. reflexivity. }
  assert (version = [] \/ (length (strings.Split version "."%char) < 2)%nat ->
          normalizeSolidityVersion version = lit "0.8.0") as Hdefault.
  { intros Hcase. unfold normalizeSolidityVersion.
    case_bool_decide as He; [reflexivity|].
    destruct Hcase as [->|Hlen]; [done|].
    destruct (Nat.ltb_spec (length (strings.Split version "."%char)) 2);
      [reflexivity|lia]. }
  assert ((3 <= length (strings.Split (normalizeSolidityVersion version) "."%char))%nat
          /\ normalizeSolidityVersion version <> []) as [H3 Hne].
  { unfold normalizeSolidityVersion. case_bool_decide as He; [split; [cbn; lia|done]|].
    destruct (Nat.ltb_spec (length (strings.Split version "."%char)) 2);
      [split; [cbn; lia|done]|].
    case_bool_decide as H2.
    - destruct (Htwo version H2) as (_ & _ & Hlen). rewrite Hlen.
      split; [lia|]. by destruct version.
    - split; [lia|done]. }
  split; [exact H3|]. split; [exact Hne|]. split; [exact Hdefault|].
  split; [|split].
  - intros Hlen. by apply Htwo.
  - intros Hlen Hv. by apply Hfix.
  - by apply Hfix.
Qed.

Lemma normalizeSolidityVersion_three_parts_witness :
  normalizeSolidityVersion (lit "0.4") = lit "0.4.0"
  /\ normalizeSolidityVersion (lit "0.4.0") = lit "0.4.0"
  /\ normalizeSolidityVersion [] = lit "0.8.0"
  /\ normalizeSolidityVersion (lit "8") = lit "0.8.0".
Proof.
  destruct (normalizeSolidityVersion_three_parts (lit "0.4")) as (_ & _ & _ & H2 & _ & H).
  split; [apply H2; reflexivity|].
  split; [rewrite (H2 eq_refl) in H; exact H|].
  split.
  - destruct (normalizeSolidityVersion_three_parts []) as (_ & _ & H0 & _).
    apply H0. by left.
  - destruct (normalizeSolidityVersion_three_parts (lit "8")) as (_ & _ & H0 & _).
    apply H0. right. cbn. lia.
Defined.

(** ** The metadata line *)

Lemma IndexByte_app (a b : gostring) (c : ascii) :
  c ∉ a -> strings.IndexByte (a ++ c :: b) c = Some (length a).
Proof.
  induction a as [|x a IH]; intros Hc.
  - cbn. by rewrite Ascii.eqb_refl.
  - apply not_elem_of_cons in Hc as [Hne Hc]. cbn [app strings.IndexByte].
    destruct (Ascii.eqb_spec x c) as [->|_]; [done|].
    rewrite IH by done. reflexivity.
Qed.

(** X28.  The metadata line survives a round trip: for a contract name
    that is not empty, [DetachMetadata] applied to the result of
    [AttachMetadata] gives back the source and the name (the JSON
    encoding of the name being on one line and read back by the
    decoder).  An empty name attaches nothing.  For a source that does
    not itself start with a metadata line, attaching one changes neither
    what [DetachMetadata] finds in the source nor whether the source
    counts as multi-file JSON, and a source that is not JSON goes
    through [FlattenJSONSource] unchanged, without a run of the
    flattener. *)
Theorem DetachMetadata_AttachMetadata
    (marshalMetadata : Metadata -> gostring)
    (unmarshalMetadata : gostring -> option Metadata)
    (FlattenWithFoundry : gostring -> gostring -> option gostring)
    (source contractName : gostring) :
  contractName <> [] ->
  unmarshalMetadata (marshalMetadata (mkMetadata contractName))
  = Some (mkMetadata contractName) ->
  "010"%char ∉ marshalMetadata (mkMetadata contractName) ->
  let attached := AttachMetadata marshalMetadata source contractName in
  DetachMetadata unmarshalMetadata attached = (source, Some (mkMetadata contractName))
  /\ AttachMetadata marshalMetadata source [] = source
  /\ (strings.HasPrefix source MetadataPrefix = false ->
      DetachMetadata unmarshalMetadata source = (source, None)
      /\ IsJSONSource unmarshalMetadata attached
         = IsJSONSource unmarshalMetadata source
      /\ (IsJSONSource unmarshalMetadata source = false ->
          FlattenJSONSource unmarshalMetadata FlattenWithFoundry attached
          = Some source)).
Proof.
  intros Hname Hjson Hline. cbv zeta.
  set (bs := marshalMetadata (mkMetadata contractName)) in *.
  assert (AttachMetadata marshalMetadata source contractName
          = MetadataPrefix ++ bs ++ newline ++ source) as Hatt.
  { unfold AttachMetadata. by rewrite bool_decide_eq_false_2. }
  assert (DetachMetadata unmarshalMetadata (MetadataPrefix ++ bs ++ newline ++ source)
          = (source, Some (mkMetadata contractName))) as Hdet.
  { unfold DetachMetadata.
    assert (strings.HasPrefix (MetadataPrefix ++ bs ++ newline ++ source)
                              MetadataPrefix = true) as ->
      by (apply HasPrefix_spec; eauto).
    assert (strings.IndexByte (MetadataPrefix ++ bs ++ newline ++ source) "010"%char
            = Some (length (MetadataPrefix ++ bs))) as ->.
    { rewrite app_assoc. apply IndexByte_app.
      intros Hin. apply elem_of_app in Hin as [Hin|Hin]; [|done].
      revert Hin. unfold MetadataPrefix. cbn.
      intros Hin. repeat (apply elem_of_cons in Hin as [Hin|Hin]; [discriminate Hin|]).
      by apply elem_of_nil in Hin. }
    assert (slice (MetadataPrefix ++ bs ++ newline ++ source)
                  (length MetadataPrefix) (length (MetadataPrefix ++ bs)) = bs) as ->.
    { unfold slice. rewrite drop_app_length, length_app.
      replace (length MetadataPrefix + length bs - length MetadataPrefix)%nat
        with (length bs) by lia.
      by rewrite take_app_length. }
    rewrite Hjson. f_equal.
    rewrite (app_assoc MetadataPrefix bs), (app_assoc _ newline).
    replace (length (MetadataPrefix ++ bs) + 1)%nat
      with (length ((MetadataPrefix ++ bs) ++ newline))
      by (rewrite (length_app _ newline); reflexivity).
    apply drop_app_length. }
  rewrite Hatt. split; [exact Hdet|]. split; [reflexivity|].
  intros Hplain.
  assert (DetachMetadata unmarshalMetadata source = (source, None)) as Hsrc
    by (unfold DetachMetadata; by rewrite Hplain).
  split; [exact Hsrc|]. split.
  - unfold IsJSONSource. by rewrite Hdet, Hsrc.
  - intros Hnot. unfold FlattenJSONSource. by rewrite Hdet, Hnot.
Qed.

Lemma DetachMetadata_AttachMetadata_witness :
  DetachMetadata sampleUnmarshal (AttachMetadata sampleMarshal sampleCode (lit "A"))
  = (sampleCode, Some (mkMetadata (lit "A"))).
Proof.
  apply (DetachMetadata_AttachMetadata sampleMarshal sampleUnmarshal
           (fun _ _ => None) sampleCode (lit "A")).
  - discriminate.
  - reflexivity.
  - cbn. intros Hin.
    repeat (apply elem_of_cons in Hin as [Hin|Hin]; [discriminate Hin|]).
    by apply elem_of_nil in Hin.
Defined.

(** ** The worker loop of the targeted pipeline *)

Section Worker.

Variable rangeMap : forall A : Type, gmap Z A -> list (Z * A).
Variable CleanCode : gostring -> bool -> gostring.
Variable ParseSource : gostring -> option ParsedSource.
Variable hashString : gostring -> gostring.
Variable getOrDownloadContract : gostring -> option (gostring * gostring * bool).
Variable BuildPrompt : gostring -> PromptVariables -> gostring.
Variable Base : gostring -> gostring.
Variable Analyze : nat -> AIRequest -> option AnalysisResult.
Variable now : Z.
Variable mode template : gostring.
Variable needCallGraph : bool.

Local Abbreviation run :=
  (runTask rangeMap CleanCode ParseSource hashString getOrDownloadContract
           BuildPrompt Base Analyze now mode template needCallGraph).

Lemma getCachedContract_grows (cache cache' : gmap gostring cachedContract)
    (addr : gostring) (res : option cachedContract) :
  getCachedContract getOrDownloadContract cache addr = (res, cache') ->
  cache ⊆ cache'
  /\ forall c, res = Some c -> cache' !! strings.TrimSpace addr = Some c.
Proof.
  unfold getCachedContract.
  case_bool_decide as Hblank; [by intros [= <- <-]|].
  destruct (cache !! strings.TrimSpace addr) as [c0|] eqn:Hc.
  - intros [= <- <-]. split; [done|]. by intros c [= <-].
  - destruct (loadContract getOrDownloadContract (strings.TrimSpace addr)) as [c|].
    + intros [= <- <-]. split; [by apply insert_subseteq|].
      intros c' [= <-]. by rewrite lookup_insert_eq.
    + intros [= <- <-]. done.
Qed.

Lemma getCachedPreprocess_grows (cache : gmap gostring cachedPreprocess)
    (contract : cachedContract) :
  cache ⊆ snd (getCachedPreprocess rangeMap CleanCode ParseSource hashString
                 needCallGraph cache contract).
Proof.
  unfold getCachedPreprocess.
  destruct (cache !! _) eqn:E; cbn [snd]; [done|by apply insert_subseteq].
Qed.

Lemma runTask_step (st : mode1State) (task : ScanTask) :
  exists newSent newResults,
    sent (run st task) = sent st ++ newSent
    /\ results (run st task) = results st ++ newResults
    /\ (length newResults <= length newSent <= 1)%nat
    /\ Forall (resultOf Base mode (contractCache (run st task)) [task]) newResults
    /\ Forall (requestOf [task]) newSent
    /\ contractCache st ⊆ contractCache (run st task)
    /\ preprocessCache st ⊆ preprocessCache (run st task).
Proof.
  unfold runTask.
  destruct (getCachedContract getOrDownloadContract (contractCache st)
              (TargetAddress task)) as [[contract|] cc] eqn:Hget;
    apply getCachedContract_grows in Hget as [Hsub Hheld].
  2:{ exists [], []. cbn. rewrite !app_nil_r. repeat split; auto. }
  destruct (IsBytecode contract) eqn:Hbc.
  { exists [], []. cbn. rewrite !app_nil_r. repeat split; auto. }
  pose proof (getCachedPreprocess_grows (preprocessCache st) contract) as Hpre.
  destruct (getCachedPreprocess rangeMap CleanCode ParseSource hashString
              needCallGraph (preprocessCache st) contract) as [pre pc].
  cbn [snd] in Hpre.
  destruct (Analyze _ _) as [analysisResult|]; eexists [_]; [eexists [_]|exists []];
    cbn [sent results contractCache preprocessCache length]; rewrite ?app_nil_r.
  - split; [done|]. split; [done|]. split; [lia|].
    split; [|split; [|done]].
    + constructor; [|done]. split; [done|]. split; [by eexists|].
      exists task, contract. cbn. split; [left|]. by rewrite (Hheld _ eq_refl).
    + constructor; [|done]. exists task. split; [left|done].
  - split; [done|]. split; [done|]. split; [lia|].
    split; [done|]. split; [|done].
    constructor; [|done]. exists task. split; [left|done].
Qed.

Lemma resultOf_weaken (cache cache' : gmap gostring cachedContract)
    (tasks tasks' : list ScanTask) (r : ScanResult) :
  cache ⊆ cache' -> tasks ⊆ tasks' ->
  resultOf Base mode cache tasks r -> resultOf Base mode cache' tasks' r.
Proof.
  intros Hc Ht (Hm & Ha & task & c & Hin & H1 & H2 & H3 & Hl & H4 & H5 & H6).
  split; [done|]. split; [done|]. exists task, c.
  split; [by apply Ht|]. repeat (split; [done|]).
  split; [by eapply lookup_weaken|done].
Qed.

Lemma runTasks_fold (tasks : list ScanTask) (st : mode1State) :
  let st' := fold_left run tasks st in
  exists newSent newResults,
    sent st' = sent st ++ newSent
    /\ results st' = results st ++ newResults
    /\ (length newResults <= length newSent <= length tasks)%nat
    /\ Forall (resultOf Base mode (contractCache st') tasks) newResults
    /\ Forall (requestOf tasks) newSent
    /\ contractCache st ⊆ contractCache st'
    /\ preprocessCache st ⊆ preprocessCache st'.
Proof.
  cbv zeta. revert st. induction tasks as [|task tasks IH]; intros st.
  - exists [], []. cbn. rewrite !app_nil_r. repeat split; auto.
  - cbn [fold_left].
    destruct (runTask_step st task)
      as (s1 & r1 & Hs1 & Hr1 & Hl1 & Hres1 & Hreq1 & Hcc1 & Hpc1).
    destruct (IH (run st task))
      as (s2 & r2 & Hs2 & Hr2 & Hl2 & Hres2 & Hreq2 & Hcc2 & Hpc2).
    exists (s1 ++ s2), (r1 ++ r2).
    rewrite Hs2, Hr2, Hs1, Hr1, <- !app_assoc, !length_app. cbn [length].
    split; [done|]. split; [done|]. split; [lia|].
    split; [|split; [|split; by etrans]].
    + apply Forall_app. split.
      * eapply Forall_impl; [exact Hres1|]. intros r. apply resultOf_weaken; [done|].
        intros x Hx. apply list_elem_of_singleton in Hx as ->. left.
      * eapply Forall_impl; [exact Hres2|]. intros r. apply resultOf_weaken; [done|].
        intros x Hx. by right.
    + apply Forall_app. split.
      * eapply Forall_impl; [exact Hreq1|]. intros q (t & Ht & Hq).
        apply list_elem_of_singleton in Ht as ->. exists task. split; [left|done].
      * eapply Forall_impl; [exact Hreq2|]. intros q (t & Ht & Hq).
        exists t. split; [by right|done].
Qed.

End Worker.

(** X29.  The worker loop of the targeted pipeline, run over a queue of
    tasks, only ever appends: the requests sent to the model and the
    results collected before the run are kept in place.  A task sends at
    most one request and a request gives at most one result, so there
    are no more new results than new requests and no more new requests
    than tasks.  Every new result carries the run's mode, an analysis,
    and the address, strategy and input file of one of the tasks, and
    its resolved address and proxy flag are those of the contract the
    cache holds for that address at the end of the run, a contract with
    source code.  Neither cache loses or changes an entry. *)
Theorem runTasks_accounting
    (rangeMap : forall A : Type, gmap Z A -> list (Z * A))
    (CleanCode : gostring -> bool -> gostring)
    (ParseSource : gostring -> option ParsedSource)
    (hashString : gostring -> gostring)
    (getOrDownloadContract : gostring -> option (gostring * gostring * bool))
    (BuildPrompt : gostring -> PromptVariables -> gostring)
    (Base : gostring -> gostring)
    (Analyze : nat -> AIRequest -> option AnalysisResult)
    (now : Z) (mode template : gostring) (needCallGraph : bool)
    (tasks : list ScanTask) (st : mode1State) :
  let st' :=
    fold_left (runTask rangeMap CleanCode ParseSource hashString
                 getOrDownloadContract BuildPrompt Base Analyze
                 now mode template needCallGraph) tasks st in
  exists newSent newResults,
    sent st' = sent st ++ newSent
    /\ results st' = results st ++ newResults
    /\ (length newResults <= length newSent <= length tasks)%nat
    /\ Forall (resultOf Base mode (contractCache st') tasks) newResults
    /\ Forall (requestOf tasks) newSent
    /\ contractCache st ⊆ contractCache st'
    /\ preprocessCache st ⊆ preprocessCache st'.
Proof. apply runTasks_fold. Qed.

Lemma runTasks_accounting_witness :
  let st' :=
    fold_left (runTask rangeInOrder (fun code _ => code) noParse id
                 sampleDownload templateOnly1 id emptyModel
                 0 (lit "mode1") (lit "t") false)
              sampleTasks (mkMode1State ∅ ∅ [] []) in
  length (results st') = 2%nat /\ (length (results st') <= length (sent st') <= 3)%nat.
Proof.
  cbv zeta. split; [vm_compute; reflexivity|].
  destruct (runTasks_accounting rangeInOrder (fun code _ => code) noParse id
              sampleDownload templateOnly1 id emptyModel
              0 (lit "mode1") (lit "t") false sampleTasks (mkMode1State ∅ ∅ [] []))
    as (newSent & newResults & -> & -> & Hlen & _).
  exact Hlen.
Defined.

(** ** Direct callers and callees *)

Lemma omap_lookup_ids (fns : gmap Z Node) (l : list Z) :
  (forall k n, fns !! k = Some n -> ID n = k) ->
  (forall c, c ∈ l -> is_Some (fns !! c)) ->
  map ID (omap (fun id => fns !! id) l) = l.
Proof.
  intros Hid. induction l as [|c l IH]; intros Hl; [done|].
  destruct (Hl c) as [n Hn]; [left|].
  assert (omap (fun id => fns !! id) (c :: l)
          = n :: omap (fun id => fns !! id) l) as ->
    by (cbn; by rewrite Hn).
  cbn [map]. rewrite (Hid _ _ Hn), IH; [done|].
  intros x Hx. apply Hl. by right.
Qed.

Lemma elem_of_omap_lookup (fns : gmap Z Node) (l : list Z) (k : Z) (n : Node) :
  (forall k n, fns !! k = Some n -> ID n = k) ->
  fns !! k = Some n ->
  n ∈ omap (fun id => fns !! id) l <-> k ∈ l.
Proof.
  intros Hid Hk. rewrite list_elem_of_omap. split.
  - intros (id & Hin & Hn). apply Hid in Hn as Hn'. apply Hid in Hk as Hk'.
    by rewrite <- Hk', Hn'.
  - intros Hin. by exists k.
Qed.

(** X30.  On a graph built by [BuildCallGraph], [GetCallees] and
    [GetCallers] drop no recorded id: the ids of the nodes returned are
    the recorded callees, and the recorded callers, in order and without
    duplicates.  The two are dual: the node of [f] is among the callers
    of [g] exactly when the node of [g] is among the callees of [f].
    For an id that is no function of the graph both are empty. *)
Theorem GetCallers_GetCallees_dual
    (rangeAny : forall A : Type, gmap Z A -> list (Z * A))
    (Hrange : forall (A : Type) (m : gmap Z A), rangeAny A m ≡ₚ map_to_list m)
    (ps : ParsedSource) (f g : Z) :
  let cg := BuildCallGraph rangeAny ps in
  map ID (GetCallees cg f) = idsAt (Callees cg) f
  /\ map ID (GetCallers cg g) = idsAt (Callers cg) g
  /\ NoDup (map ID (GetCallees cg f))
  /\ NoDup (map ID (GetCallers cg g))
  /\ (forall nf ng,
        Functions cg !! f = Some nf -> Functions cg !! g = Some ng ->
        (nf ∈ GetCallers cg g <-> ng ∈ GetCallees cg f))
  /\ (Functions cg !! f = None -> GetCallees cg f = [] /\ GetCallers cg f = []).
Proof.
  cbv zeta.
  destruct (BuildCallGraph_shape rangeAny Hrange ps) as (Hdom & _ & Hees & Hers).
  set (cg := BuildCallGraph rangeAny ps) in *.
  assert (forall k n, Functions cg !! k = Some n -> ID n = k) as Hid.
  { intros k n. unfold cg. rewrite BuildCallGraph_Functions. intros H.
    apply collectFunctions_sound in H as (_ & _ & _ & _ & _ & _ & H). exact H. }
  assert (forall h, NoDup (idsAt (Callees cg) h)
                    /\ forall c, c ∈ idsAt (Callees cg) h ->
                                 is_Some (Functions cg !! c)) as Hees'.
  { intros h. unfold idsAt. destruct (Callees cg !! h) as [l|] eqn:E; cbn.
    - destruct (Hees h l E) as [Hnd Hin]. split; [done|]. intros c Hc.
      by apply Hin.
    - split; [constructor|]. intros c Hc. by apply elem_of_nil in Hc. }
  assert (forall h, NoDup (idsAt (Callers cg) h)
                    /\ forall c, c ∈ idsAt (Callers cg) h ->
                                 is_Some (Functions cg !! c)
                                 /\ is_Some (Functions cg !! h)) as Hers'.
  { intros h. unfold idsAt. destruct (Callers cg !! h) as [l|] eqn:E; cbn.
    - destruct (Hers h l E) as [Hnd Hin]. split; [done|]. exact Hin.
    - split; [constructor|]. intros c Hc. by apply elem_of_nil in Hc. }
  assert (map ID (GetCallees cg f) = idsAt (Callees cg) f) as Hf
    by (apply omap_lookup_ids; [exact Hid|apply Hees']).
  assert (map ID (GetCallers cg g) = idsAt (Callers cg) g) as Hg.
  { apply omap_lookup_ids; [exact Hid|]. intros c Hc. by apply (Hers' g). }
  split; [exact Hf|]. split; [exact Hg|].
  split; [rewrite Hf; apply Hees'|]. split; [rewrite Hg; apply Hers'|]. split.
  - intros nf ng Hnf Hng. unfold GetCallers, GetCallees.
    rewrite (elem_of_omap_lookup _ _ f nf Hid Hnf),
            (elem_of_omap_lookup _ _ g ng Hid Hng).
    symmetry. apply (BuildCallGraph_consistent rangeAny Hrange).
  - intros Hnone. split.
    + unfold GetCallees, idsAt.
      assert (Callees cg !! f = None) as ->; [|done].
      apply not_elem_of_dom. rewrite Hdom. by apply not_elem_of_dom.
    + unfold GetCallers.
      destruct (idsAt (Callers cg) f) as [|c l] eqn:E; [done|].
      destruct (Hers' f) as [_ Hin]. destruct (Hin c) as [_ [n Hn]].
      * rewrite E. left.
      * by rewrite Hnone in Hn.
Qed.

Lemma GetCallers_GetCallees_dual_witness :
  map ID (GetCallees (BuildCallGraph rangeInOrder (chainSource 3)) 1) = [2]
  /\ map ID (GetCallers (BuildCallGraph rangeInOrder (chainSource 3)) 2) = [1].
Proof.
  destruct (GetCallers_GetCallees_dual rangeInOrder
              (fun A m => reflexivity (map_to_list m)) (chainSource 3) 1 2)
    as (H1 & H2 & _).
  split; [rewrite H1|rewrite H2]; vm_compute; reflexivity.
Defined.
